(** * A shallow embedding of the Schorr-Waite collector of [examples/gcl.c]

    The development follows the C source function by function.  Heap objects
    live in a finite map from addresses to object records; the class
    callbacks, [mark], [gc] and [register_object] are state-passing functions
    into a small error monad that distinguishes a normal return from process
    termination ([abort]/[error]) and from undefined behaviour. *)

From stdpp Require Import gmap list strings.
From Stdlib Require Import ZArith Lia.

Local Open Scope Z_scope.

(** ** Outcomes of running C code *)

Inductive result (A : Type) : Type :=
| Ok (a : A)      (* the call returns normally *)
| Exit            (* abort() or error(): the process is terminated *)
| Undefined       (* invalid memory access or signed overflow *)
| OutOfFuel.      (* the iteration budget of the model ran out *)

Arguments Ok {A} a.
Arguments Exit {A}.
Arguments Undefined {A}.
Arguments OutOfFuel {A}.

#[global] Instance result_ret : MRet result := @Ok.
#[global] Instance result_bind : MBind result := λ A B f r,
  match r with
  | Ok a => f a
  | Exit => Exit
  | Undefined => Undefined
  | OutOfFuel => OutOfFuel
  end.

(** [error(msg)] prints and aborts. *)
Definition error {A} (msg : string) : result A := Exit.

(** ** Objects and classes *)

(** Object pointers; the null pointer is [0]. *)
Abbreviation addr := Z (only parsing).

(** The four statically allocated class descriptors, identified by their
    address ([&nil_class], [&cons_class], ...). *)
Inductive class_ptr := nil_class | cons_class | atom_class | function_class.

#[global] Instance class_ptr_eq_dec : EqDecision class_ptr.
Proof. solve_decision. Defined.

(** The native [apply_func] code pointers stored in function objects. *)
Inductive apply_func :=
| pop_apply | eval | print_atom | quote_function | fun_apply_function | fun_function.

(** The part of an allocation that follows the [struct object] header:
    [struct cons], [struct atom] and [struct function]; [nil_value] is a bare
    header. *)
Inductive payload :=
| nil_fields
| cons_fields (tail_is_next : bool) (head tail : addr)
| atom_fields (chars : string)
| function_fields (apply : apply_func) (data : addr).

(** [struct object] followed by its payload. *)
Record object := Object {
  next : addr;
  marked : bool;
  class : class_ptr;
  fields : payload }.

Abbreviation memory := (gmap Z object) (only parsing).

(** *** Field accesses *)

Definition load (m : memory) (p : addr) : result object :=
  match m !! p with
  | Some o => Ok o
  | None => Undefined
  end.

Definition set_next (m : memory) (p v : addr) : result memory :=
  o ← load m p; mret (<[p := Object v (marked o) (class o) (fields o)]> m).

Definition set_marked (m : memory) (p : addr) (v : bool) : result memory :=
  o ← load m p; mret (<[p := Object (next o) v (class o) (fields o)]> m).

Definition set_class (m : memory) (p : addr) (v : class_ptr) : result memory :=
  o ← load m p; mret (<[p := Object (next o) (marked o) v (fields o)]> m).

(** Accesses through a [struct cons *] obtained by a cast. *)
Definition cons_get (m : memory) (p : addr) : result (bool * addr * addr) :=
  o ← load m p;
  match fields o with
  | cons_fields f h t => Ok (f, h, t)
  | _ => Undefined
  end.

Definition cons_get_tail_is_next (m : memory) (p : addr) : result bool :=
  '(f, _, _) ← cons_get m p; mret f.
Definition cons_get_head (m : memory) (p : addr) : result addr :=
  '(_, h, _) ← cons_get m p; mret h.
Definition cons_get_tail (m : memory) (p : addr) : result addr :=
  '(_, _, t) ← cons_get m p; mret t.

Definition set_fields (m : memory) (p : addr) (o : object) (v : payload) : memory :=
  <[p := Object (next o) (marked o) (class o) v]> m.

Definition cons_set_tail_is_next (m : memory) (p : addr) (v : bool) : result memory :=
  o ← load m p;
  match fields o with
  | cons_fields _ h t => Ok (set_fields m p o (cons_fields v h t))
  | _ => Undefined
  end.
Definition cons_set_head (m : memory) (p v : addr) : result memory :=
  o ← load m p;
  match fields o with
  | cons_fields f _ t => Ok (set_fields m p o (cons_fields f v t))
  | _ => Undefined
  end.
Definition cons_set_tail (m : memory) (p v : addr) : result memory :=
  o ← load m p;
  match fields o with
  | cons_fields f h _ => Ok (set_fields m p o (cons_fields f h v))
  | _ => Undefined
  end.

(** Accesses through a [struct function *]. *)
Definition function_get_data (m : memory) (p : addr) : result addr :=
  o ← load m p;
  match fields o with
  | function_fields _ d => Ok d
  | _ => Undefined
  end.
Definition function_set_data (m : memory) (p v : addr) : result memory :=
  o ← load m p;
  match fields o with
  | function_fields a _ => Ok (set_fields m p o (function_fields a v))
  | _ => Undefined
  end.

(** ** The class callbacks

    A marking callback receives [struct object **object, struct object
    **parent]; both point to locals of [mark], so the model passes the two
    values in and returns their new contents next to the result. *)

Definition marking_func : Type :=
  addr → addr → memory → result (bool * addr * addr * memory).
Definition dispose_func : Type := addr → memory → result memory.

Definition nil_start_marking : marking_func := λ object parent m,
  mret (false, object, parent, m).

(** [assert(false)] *)
Definition nil_mark_next : marking_func := λ object parent m, Exit.

(** [abort()] *)
Definition nil_dispose : dispose_func := λ o m, Exit.

Definition cons_start_marking : marking_func := λ object parent m,
  let cons := object in
  h ← cons_get_head m cons;
  let object := h in
  m ← cons_set_head m cons parent;
  let parent := cons in
  m ← cons_set_tail_is_next m cons true;
  mret (true, object, parent, m).

Definition cons_mark_next : marking_func := λ object parent m,
  let cons := parent in
  tail_is_next ← cons_get_tail_is_next m cons;
  if tail_is_next : bool then
    grandparent ← cons_get_head m cons;
    m ← cons_set_head m cons object;
    t ← cons_get_tail m cons;
    let object := t in
    m ← cons_set_tail m cons grandparent;
    m ← cons_set_tail_is_next m cons false;
    mret (true, object, parent, m)
  else
    t ← cons_get_tail m cons;
    let parent := t in
    m ← cons_set_tail m cons object;
    let object := cons in
    mret (false, object, parent, m).

(** [free] of a block that is not allocated is undefined. *)
Definition free (m : memory) (p : addr) : result memory :=
  _ ← load m p; mret (delete p m).

Definition cons_dispose : dispose_func := λ object m,
  let cons := object in
  free m cons.

Definition atom_start_marking : marking_func := λ object parent m,
  mret (false, object, parent, m).

Definition atom_mark_next : marking_func := λ object parent m, Exit.

(** [string_buffer_dispose(atom->chars); free(atom);] the buffer is part of
    the atom's payload here, so both go at once. *)
Definition atom_dispose : dispose_func := λ object m,
  let atom := object in
  o ← load m atom;
  match fields o with
  | atom_fields _ => free m atom
  | _ => Undefined
  end.

Definition function_start_marking : marking_func := λ object parent m,
  let function := object in
  d ← function_get_data m function;
  let object := d in
  m ← function_set_data m function parent;
  let parent := function in
  mret (true, object, parent, m).

Definition function_mark_next : marking_func := λ object parent m,
  let function := parent in
  d ← function_get_data m function;
  let parent := d in
  m ← function_set_data m function object;
  let object := function in
  mret (false, object, parent, m).

Definition function_dispose : dispose_func := λ object m,
  let function := object in
  free m function.

(** [struct class] and the four descriptors. *)
Record class_desc := Class {
  name : string;
  start_marking : marking_func;
  mark_next : marking_func;
  dispose : dispose_func }.

Definition class_at (c : class_ptr) : class_desc :=
  match c with
  | nil_class => Class "nil_value" nil_start_marking nil_mark_next nil_dispose
  | cons_class => Class "cons" cons_start_marking cons_mark_next cons_dispose
  | atom_class => Class "atom" atom_start_marking atom_mark_next atom_dispose
  | function_class =>
      Class "function" function_start_marking function_mark_next function_dispose
  end.

(** ** [mark]: the pointer-reversing traversal

    The body of [mark] is two labelled blocks connected by [goto]; a
    configuration is the label about to be executed together with the locals
    [object] and [parent] and the memory. *)

Inductive label := L_start_marking | L_mark_next.

Record mark_state := MarkState {
  pc : label;
  cur_object : addr;
  cur_parent : addr;
  cur_mem : memory }.

Inductive mark_step_result :=
| Goto (st : mark_state)
| Return (m : memory).

Definition goto_if (b : bool) (object parent : addr) (m : memory) : mark_step_result :=
  Goto (MarkState (if b then L_start_marking else L_mark_next) object parent m).

Definition mark_step (st : mark_state) : result mark_step_result :=
  let object := cur_object st in
  let parent := cur_parent st in
  let m := cur_mem st in
  match pc st with
  | L_start_marking =>
      o ← load m object;
      if marked o then
        mret (Goto (MarkState L_mark_next object parent m))
      else
        let startMarkingFunc := start_marking (class_at (class o)) in
        m ← set_marked m object true;
        '(b, object, parent, m) ← startMarkingFunc object parent m;
        mret (goto_if b object parent m)
  | L_mark_next =>
      if decide (parent = 0) then mret (Return m)
      else
        p ← load m parent;
        let markNextFunc := mark_next (class_at (class p)) in
        '(b, object, parent, m) ← markNextFunc object parent m;
        mret (goto_if b object parent m)
  end.

Fixpoint mark_loop (fuel : nat) (st : mark_state) : result memory :=
  match fuel with
  | O => OutOfFuel
  | S fuel =>
      r ← mark_step st;
      match r with
      | Goto st' => mark_loop fuel st'
      | Return m => Ok m
      end
  end.

Definition mark (fuel : nat) (object : addr) (m : memory) : result memory :=
  let parent := 0 in
  mark_loop fuel (MarkState L_start_marking object parent m).

(** ** The collector's globals *)

(** Addresses of the [struct object *] variables the mutator registers as
    roots: the three globals and locals of mutator functions. *)
Inductive cell := nil_root | operand_stack | cont_stack | stack_var (id : Z).

#[global] Instance cell_eq_dec : EqDecision cell.
Proof. solve_decision. Defined.
#[global] Instance cell_countable : Countable cell.
Proof.
  refine (inj_countable'
    (λ c, match c with
          | nil_root => inl 0%nat | operand_stack => inl 1%nat
          | cont_stack => inl 2%nat | stack_var z => inr z end)
    (λ x, match x with
          | inl 0%nat => nil_root | inl 1%nat => operand_stack
          | inl _ => cont_stack | inr z => stack_var z end) _).
  by intros [].
Defined.

(** [mem] holds the allocated objects, [cells] the current contents of the
    root cells; [roots_head] is the [struct stack] of cell addresses. *)
Record state := State {
  mem : gmap Z object;
  cells : gmap cell Z;
  heap_head : addr;
  roots_head : list cell;
  object_count : Z }.

Definition set_mem (s : state) (m : memory) : state :=
  State m (cells s) (heap_head s) (roots_head s) (object_count s).
Definition set_cells (s : state) (c : gmap cell Z) : state :=
  State (mem s) c (heap_head s) (roots_head s) (object_count s).
Definition set_heap_head (s : state) (h : addr) : state :=
  State (mem s) (cells s) h (roots_head s) (object_count s).
Definition set_roots_head (s : state) (r : list cell) : state :=
  State (mem s) (cells s) (heap_head s) r (object_count s).
Definition set_object_count (s : state) (n : Z) : state :=
  State (mem s) (cells s) (heap_head s) (roots_head s) n.

Definition INT_MAX : Z := 2147483647.
Definition INT_MIN : Z := -2147483648.

(** [object_count++] and [object_count--] on a C [int]. *)
Definition incr_object_count (s : state) : result state :=
  if decide (object_count s = INT_MAX) then Undefined
  else mret (set_object_count s (object_count s + 1)).
Definition decr_object_count (s : state) : result state :=
  if decide (object_count s = INT_MIN) then Undefined
  else mret (set_object_count s (object_count s - 1)).

(** *** The generic stack

    [newStack] is what [malloc] returned for the new node; only whether it is
    null matters, the nodes themselves are the cells of a list. *)
Definition stack_push {A} (newStack : addr) (stack : list A) (value : A) :
    result (list A) :=
  if decide (newStack = 0) then Exit
  else mret (value :: stack).

Definition stack_pop {A} (stack : list A) : result (A * list A) :=
  match stack with
  | [] => error "stack_pop: stack underflow"
  | head :: tail => mret (head, tail)
  end.

Definition load_cell (s : state) (c : cell) : result addr :=
  match cells s !! c with
  | Some v => Ok v
  | None => Undefined
  end.

Definition store_cell (s : state) (c : cell) (v : addr) : result state :=
  _ ← load_cell s c; mret (set_cells s (<[c := v]> (cells s))).

(** *** The root stack *)

Definition push_root (newStack : addr) (root : cell) (s : state) : result state :=
  stack ← stack_push newStack (roots_head s) root;
  mret (set_roots_head s stack).

Definition set_root (root : cell) (value : addr) (s : state) : result state :=
  store_cell s root value.

Definition pop_root (s : state) : result state :=
  '(_, stack) ← stack_pop (roots_head s);
  mret (set_roots_head s stack).

(** ** [gc] *)

(** The first loop of [gc]: [rs] runs down the root stack and the object
    each cell holds is marked. *)
Fixpoint mark_roots (fuel : nat) (rs : list cell) (s : state) : result state :=
  match rs with
  | [] => mret s
  | root :: rs =>
      r ← load_cell s root;
      m ← mark fuel r (mem s);
      mark_roots fuel rs (set_mem s m)
  end.

(** The cursor [struct object **h] of the sweep loop points either to
    [heap_head] or to the [next] field of an object. *)
Inductive link := Link_heap_head | Link_next (o : addr).

Definition read_link (s : state) (h : link) : result addr :=
  match h with
  | Link_heap_head => mret (heap_head s)
  | Link_next p => o ← load (mem s) p; mret (next o)
  end.

Definition write_link (s : state) (h : link) (v : addr) : result state :=
  match h with
  | Link_heap_head => mret (set_heap_head s v)
  | Link_next p => m ← set_next (mem s) p v; mret (set_mem s m)
  end.

(** The second loop of [gc]. *)
Fixpoint sweep (fuel : nat) (h : link) (s : state) : result state :=
  match fuel with
  | O => OutOfFuel
  | S fuel =>
      o ← read_link s h;
      if decide (o = 0) then mret s
      else
        ob ← load (mem s) o;
        if marked ob then
          m ← set_marked (mem s) o false;
          let s := set_mem s m in
          let h := Link_next o in
          sweep fuel h s
        else
          let disposeFunc := dispose (class_at (class ob)) in
          s ← decr_object_count s;
          s ← write_link s h (next ob);
          m ← disposeFunc o (mem s);
          let s := set_mem s m in
          sweep fuel h s
  end.

Definition gc (fuel : nat) (s : state) : result state :=
  let rs := roots_head s in
  s ← mark_roots fuel rs s;
  let h := Link_heap_head in
  sweep fuel h s.

(** ** The allocator *)

Definition cap : Z := 10000.

Definition register_object (fuel : nat) (o : addr) (class : class_ptr) (s : state) :
    result state :=
  s ← (if decide (object_count s = cap) then gc fuel s else mret s);
  if decide (object_count s = cap) then
    error "register_object: object count limit reached."
  else
    s ← incr_object_count s;
    m ← set_next (mem s) o (heap_head s);
    m ← set_marked m o false;
    m ← set_class m o class;
    let s := set_mem s m in
    mret (set_heap_head s o).

(** What [malloc] hands out: the address of the block ([0] when it fails) and
    the indeterminate initial contents of the header and of the cursor
    flag.  The constructors assign every other field of the payload right
    after the allocation, so [malloc] takes the payload with those fields
    already set. *)
Record block := Block {
  block_addr : addr;
  junk_next : addr;
  junk_marked : bool;
  junk_class : class_ptr;
  junk_flag : bool }.

Definition malloc (b : block) (f : payload) (m : memory) : memory :=
  <[block_addr b := Object (junk_next b) (junk_marked b) (junk_class b) f]> m.

(** A parameter or local whose address is taken lives in a cell for the
    duration of the call. *)
Definition enter_local (c : cell) (v : addr) (s : state) : state :=
  set_cells s (<[c := v]> (cells s)).
Definition leave_local (c : cell) (s : state) : state :=
  set_cells s (delete c (cells s)).

Section interpreter.

(** The address of the statically allocated [nil_value]. *)
Variable nil_value : addr.

Definition create_nil (s : state) : result (addr * state) :=
  mret (nil_value, s).

(** [cons] is the result of [malloc], [n1] and [n2] those of the two
    [stack_push] calls, [c_head] and [c_tail] are [&head] and [&tail]. *)
Definition create_cons (fuel : nat) (cons : block) (n1 n2 : addr)
    (c_head c_tail : cell) (head tail : addr) (s : state) : result (addr * state) :=
  let s := enter_local c_tail tail (enter_local c_head head s) in
  if decide (block_addr cons = 0) then error "create_cons: out of memory"
  else
    (* cons->head = head; cons->tail = tail; *)
    let m := malloc cons (cons_fields (junk_flag cons) head tail) (mem s) in
    let s := set_mem s m in
    s ← push_root n1 c_head s;
    s ← push_root n2 c_tail s;
    s ← register_object fuel (block_addr cons) cons_class s;
    s ← pop_root s;
    s ← pop_root s;
    mret (block_addr cons, leave_local c_head (leave_local c_tail s)).

Definition destruct_cons (object : addr) (s : state) : result (addr * addr) :=
  o ← load (mem s) object;
  if decide (class o ≠ cons_class) then error "cons expected"
  else
    let cons := object in
    head ← cons_get_head (mem s) cons;
    tail ← cons_get_tail (mem s) cons;
    mret (head, tail).

Definition create_atom (fuel : nat) (atom : block) (buffer : string) (s : state) :
    result (addr * state) :=
  if decide (block_addr atom = 0) then Exit
  else
    (* atom->chars = buffer; *)
    let m := malloc atom (atom_fields buffer) (mem s) in
    let s := set_mem s m in
    s ← register_object fuel (block_addr atom) atom_class s;
    mret (block_addr atom, s).

Definition create_function (fuel : nat) (function : block) (n1 : addr)
    (c_data : cell) (apply : apply_func) (data : addr) (s : state) :
    result (addr * state) :=
  let s := enter_local c_data data s in
  if decide (block_addr function = 0) then Exit
  else
    (* function->apply = apply; function->data = data; *)
    let m := malloc function (function_fields apply data) (mem s) in
    let s := set_mem s m in
    s ← push_root n1 c_data s;
    s ← register_object fuel (block_addr function) function_class s;
    s ← pop_root s;
    mret (block_addr function, leave_local c_data s).

(** *** The operand and continuation stacks *)

Definition push (fuel : nat) (cons : block) (n1 n2 : addr) (c_head c_tail : cell)
    (object : addr) (s : state) : result state :=
  old_operand_stack ← load_cell s operand_stack;
  '(cons, s) ← create_cons fuel cons n1 n2 c_head c_tail object old_operand_stack s;
  set_root operand_stack cons s.

Definition pop (s : state) : result (addr * state) :=
  old_operand_stack ← load_cell s operand_stack;
  o ← load (mem s) old_operand_stack;
  if decide (class o ≠ cons_class) then error "pop: stack underflow"
  else
    cons ← load_cell s operand_stack;
    result ← cons_get_head (mem s) cons;
    new_operand_stack ← cons_get_tail (mem s) cons;
    s ← set_root operand_stack new_operand_stack s;
    mret (result, s).

Definition push_cont (fuel : nat) (cons : block) (n1 n2 : addr)
    (c_head c_tail : cell) (object : addr) (s : state) : result state :=
  old_cont_stack ← load_cell s cont_stack;
  '(cons, s) ← create_cons fuel cons n1 n2 c_head c_tail object old_cont_stack s;
  set_root cont_stack cons s.

Definition pop_cont (s : state) : result (addr * state) :=
  old_cont_stack ← load_cell s cont_stack;
  o ← load (mem s) old_cont_stack;
  if decide (class o ≠ cons_class) then mret (0, s)
  else
    cons ← load_cell s cont_stack;
    result ← cons_get_head (mem s) cons;
    new_cont_stack ← cons_get_tail (mem s) cons;
    s ← set_root cont_stack new_cont_stack s;
    mret (result, s).

(** *** Accessors *)

Definition atom_get_chars (m : memory) (p : addr) : result string :=
  o ← load m p;
  match fields o with
  | atom_fields cs => Ok cs
  | _ => Undefined
  end.

Definition atom_equals (object1 object2 : addr) (s : state) : result bool :=
  if decide (object1 = object2) then mret true
  else
    o1 ← load (mem s) object1;
    o2 ← load (mem s) object2;
    if decide (class o1 ≠ atom_class ∨ class o2 ≠ atom_class) then
      error "atom_equals: atoms expected"
    else
      cs1 ← atom_get_chars (mem s) object1;
      cs2 ← atom_get_chars (mem s) object2;
      mret (bool_decide (cs1 = cs2)).

Fixpoint assoc (fuel : nat) (key map : addr) (s : state) : result addr :=
  match fuel with
  | O => OutOfFuel
  | S fuel =>
      if decide (map = nil_value) then mret 0
      else
        '(mapHead, mapTail) ← destruct_cons map s;
        '(entryHead, entryTail) ← destruct_cons mapHead s;
        eq ← atom_equals key entryHead s;
        if eq : bool then mret entryTail
        else assoc fuel key mapTail s
  end.

Definition object_get_class (object : addr) (s : state) : result class_ptr :=
  o ← load (mem s) object; mret (class o).

(** *** Start-up *)

(** The values of the globals when the program starts. *)
Definition initial_state : state :=
  State {[nil_value := Object 0 false nil_class nil_fields]}
        (<[nil_root := nil_value]>
           (<[operand_stack := nil_value]> {[cont_stack := nil_value]}))
        0 [] 0.

Definition init_globals (fuel : nat) (n1 n2 n3 : addr) (s : state) : result state :=
  s ← register_object fuel nil_value nil_class s;
  s ← push_root n1 nil_root s;
  s ← push_root n2 operand_stack s;
  push_root n3 cont_stack s.

End interpreter.

(** ** The object graph *)

(** The children a class exposes to the collector, in traversal order (the
    list the class's [inv] predicate is indexed by). *)
Definition children_of (o : object) : list addr :=
  match fields o with
  | nil_fields => []
  | cons_fields _ h t => [h; t]
  | atom_fields _ => []
  | function_fields _ d => [d]
  end.

Definition children (m : memory) (a : addr) : list addr :=
  match m !! a with
  | Some o => children_of o
  | None => []
  end.

Definition edge (m : memory) (a b : addr) : Prop := b ∈ children m a.

(** [reach m a b]: [b] is [a] or can be reached from it through child
    references. *)
Definition reach (m : memory) : addr → addr → Prop := rtc (edge m).

Definition is_marked (m : memory) (a : addr) : bool :=
  match m !! a with
  | Some o => marked o
  | None => false
  end.

(** The payload has the layout of the object's class. *)
Definition class_inv (o : object) : bool :=
  match class o, fields o with
  | nil_class, nil_fields => true
  | cons_class, cons_fields _ _ _ => true
  | atom_class, atom_fields _ => true
  | function_class, function_fields _ _ => true
  | _, _ => false
  end.

(** [objs] is a set of allocated, well-formed objects closed under child
    references. *)
Record heap_marking (objs : list addr) (m : memory) : Prop := {
  hm_nonnull : 0 ∉ objs;
  hm_alloc : ∀ a, a ∈ objs → ∃ o, m !! a = Some o ∧ class_inv o = true;
  hm_closed : ∀ a c, a ∈ objs → c ∈ children m a → c ∈ objs }.

(** The marked objects of [objs] have all their children marked: what is
    true of the objects a previous [mark] has finished. *)
Definition marks_closed (objs : list addr) (m : memory) : Prop :=
  ∀ a c, a ∈ objs → is_marked m a = true → c ∈ children m a →
         is_marked m c = true.

(** What [mark] leaves behind in an object it has finished: the mark bit is
    set and a cons's cursor flag is [false]. *)
Definition finished (o : object) : object :=
  Object (next o) true (class o)
    match fields o with
    | cons_fields _ h t => cons_fields false h t
    | f => f
    end.

(** ** The invariant of the traversal

    [m0] is the memory when [mark] is entered and [root] its argument.  The
    ghost list [stk] holds the objects whose children are being visited,
    innermost first; it is the chain of reversed pointers that starts at
    [parent]. *)
Section marking_invariant.

Variables (m0 : gmap Z object) (objs : list Z) (root : Z).

(** [o] is the in-traversal form of [o0]: the cursor is at child [i] and the
    slot of that child holds the grandparent [gp]. *)
Definition reversed (o0 o : object) (i : nat) (gp : Z) : Prop :=
  next o = next o0 ∧ class o = class o0 ∧ marked o0 = false ∧ marked o = true ∧
  match fields o0 with
  | cons_fields _ h t =>
      (i = 0%nat ∧ fields o = cons_fields true gp t) ∨
      (i = 1%nat ∧ fields o = cons_fields false h gp)
  | function_fields f d => i = 0%nat ∧ fields o = function_fields f gp
  | _ => False
  end.

Fixpoint mark_stack (m : gmap Z object) (stk : list Z) (parent child : Z) : Prop :=
  match stk with
  | [] => parent = 0 ∧ child = root
  | p :: stk =>
      parent = p ∧
      ∃ o0 o i gp,
        m0 !! p = Some o0 ∧ m !! p = Some o ∧ reversed o0 o i gp ∧
        children_of o0 !! i = Some child ∧
        (∀ j c, (j < i)%nat → children_of o0 !! j = Some c → is_marked m c = true) ∧
        mark_stack m stk gp p
  end.

(** An object that is not being traversed is either untouched or finished. *)
Definition idle (m : gmap Z object) (a : Z) : Prop :=
  ∃ o0, m0 !! a = Some o0 ∧
    (m !! a = Some o0 ∨
     (marked o0 = false ∧ m !! a = Some (finished o0) ∧ reach m0 root a)).

Record marking_inv (stk : list Z) (st : mark_state) : Prop := {
  mi_frame : ∀ a, a ∉ objs → cur_mem st !! a = m0 !! a;
  mi_idle : ∀ a, a ∈ objs → a ∉ stk → idle (cur_mem st) a;
  mi_mono : ∀ a, is_marked m0 a = true → is_marked (cur_mem st) a = true;
  mi_closed : marks_closed objs m0 →
              ∀ a c, a ∈ objs → a ∉ stk → is_marked (cur_mem st) a = true →
                     c ∈ children m0 a → is_marked (cur_mem st) c = true;
  mi_stack : mark_stack (cur_mem st) stk (cur_parent st) (cur_object st);
  mi_nodup : NoDup stk;
  mi_busy : ∀ p, p ∈ stk → p ∈ objs ∧ reach m0 root p;
  mi_object : cur_object st ∈ objs ∧ reach m0 root (cur_object st);
  mi_advance : pc st = L_mark_next → is_marked (cur_mem st) (cur_object st) = true }.

(** The termination measure: unmarked objects, children still to visit below
    the objects on the stack, and the label. *)
Definition unmarked_count (m : gmap Z object) : nat :=
  length (filter (λ a, is_marked m a = false) objs).

Definition weight (m : gmap Z object) (p : Z) : nat :=
  match m !! p with
  | Some (Object _ _ _ (cons_fields true _ _)) => 2
  | _ => 1
  end.

Definition pending (m : gmap Z object) (stk : list Z) : nat :=
  sum_list (weight m <$> stk).

Definition measure (stk : list Z) (st : mark_state) : nat :=
  (6 * unmarked_count (cur_mem st) + 2 * pending (cur_mem st) stk +
   match pc st with L_start_marking => 1 | L_mark_next => 0 end)%nat.

End marking_invariant.

(** What [mark] has done when it returns: some objects that were unmarked and
    are reachable from the root are [finished], all other memory is as it
    was; the root is marked; and if the marked objects were closed under
    child references before, they are so again and include every object
    reachable from the root. *)
Record mark_post (objs : list Z) (m0 : gmap Z object) (root : Z)
    (m' : gmap Z object) : Prop := {
  mp_wf : heap_marking objs m';
  mp_cases : ∀ a, m' !! a = m0 !! a ∨
             (reach m0 root a ∧ is_marked m0 a = false ∧
              m' !! a = finished <$> m0 !! a);
  mp_root : is_marked m' root = true;
  mp_closed : marks_closed objs m0 → marks_closed objs m';
  mp_marked : marks_closed objs m0 →
              ∀ a, reach m0 root a → is_marked m' a = true }.

Definition same_marks (m m' : gmap Z object) : Prop :=
  ∀ a, is_marked m' a = is_marked m a.

(** *** Runs of [mark]

    [mark_run n st] is the configuration [n] steps after [st], if the
    traversal gets that far. *)
Fixpoint mark_run (n : nat) (st : mark_state) : option mark_state :=
  match n with
  | O => Some st
  | S n =>
      match mark_step st with
      | Ok (Goto st') => mark_run n st'
      | _ => None
      end
  end.

(** The traversal enters [a]: it is at [start_marking] with [a] not yet
    marked, so it is about to mark [a] and call its class's
    [start_marking]. *)
Definition enters (st : mark_state) (a : Z) : Prop :=
  pc st = L_start_marking ∧ cur_object st = a ∧ is_marked (cur_mem st) a = false.

(** ** The heap invariant *)

(** The [next] links starting at [head] run through exactly [elems] and end
    in a null pointer. *)
Fixpoint object_list (m : gmap Z object) (head : Z) (elems : list Z) : Prop :=
  match elems with
  | [] => head = 0
  | e :: elems =>
      head = e ∧ e ≠ 0 ∧ ∃ o, m !! e = Some o ∧ object_list m (next o) elems
  end.

(** [a] can be reached from the object held by some cell on the root
    stack. *)
Definition reachable (s : state) (a : Z) : Prop :=
  ∃ c r, c ∈ roots_head s ∧ cells s !! c = Some r ∧ reach (mem s) r a.

(** The state between calls: the heap list is [objs], without repetition;
    its objects are well formed, unmarked and refer only to each other; every
    root cell holds one of them; [object_count] is their number and within
    the cap. *)
Record heap_inv (s : state) (objs : list Z) : Prop := {
  heap_list : object_list (mem s) (heap_head s) objs;
  heap_nodup : NoDup objs;
  heap_graph : heap_marking objs (mem s);
  heap_unmarked : ∀ a, a ∈ objs → is_marked (mem s) a = false;
  heap_roots : ∀ c, c ∈ roots_head s → ∃ r, cells s !! c = Some r ∧ r ∈ objs;
  heap_count : object_count s = Z.of_nat (length objs);
  heap_cap : object_count s ≤ cap }.

(** The effect of the first loop of [gc] on the memory [m]. *)
Record roots_post (objs : list Z) (cs : gmap cell Z) (rs : list cell)
    (m m' : gmap Z object) : Prop := {
  rp_wf : heap_marking objs m';
  rp_closed : marks_closed objs m';
  rp_cases : ∀ a, m' !! a = m !! a ∨
             (is_marked m a = false ∧
              (∃ c r, c ∈ rs ∧ cs !! c = Some r ∧ reach m r a) ∧
              m' !! a = finished <$> m !! a);
  rp_marked : ∀ c r a, c ∈ rs → cs !! c = Some r → reach m r a →
              is_marked m' a = true }.

(** The objects of [elems] the sweep keeps. *)
Definition survivors (m : gmap Z object) (elems : list Z) : list Z :=
  filter (λ e, is_marked m e = true) elems.

(** The effect of the second loop of [gc], started with the cursor [h] in
    front of the list segment [elems]. *)
Record sweep_post (h : link) (elems : list Z) (s s' : state) : Prop := {
  sp_list : ∃ a', read_link s' h = Ok a' ∧
                  object_list (mem s') a' (survivors (mem s) elems);
  sp_kept : ∀ e, e ∈ elems → is_marked (mem s) e = true →
            ∃ o o', mem s !! e = Some o ∧ mem s' !! e = Some o' ∧
                    marked o' = false ∧ class o' = class o ∧ fields o' = fields o;
  sp_freed : ∀ e, e ∈ elems → is_marked (mem s) e = false → mem s' !! e = None;
  sp_other : ∀ x, x ∉ elems → h ≠ Link_next x → mem s' !! x = mem s !! x;
  sp_link : ∀ p, h = Link_next p →
            ∃ o o', mem s !! p = Some o ∧ mem s' !! p = Some o' ∧
                    marked o' = marked o ∧ class o' = class o ∧ fields o' = fields o;
  sp_cells : cells s' = cells s;
  sp_roots : roots_head s' = roots_head s;
  sp_count : object_count s' =
             object_count s - Z.of_nat (length elems)
             + Z.of_nat (length (survivors (mem s) elems));
  sp_head : h ≠ Link_heap_head → heap_head s' = heap_head s }.

(** What a collection does to a state [s] whose heap list is [objs]: the new
    heap list [objs'] is [objs] without the objects that were not
    [reachable], in the same order; the survivors keep class and payload
    (a cons's cursor flag apart), the others are freed. *)
Record gc_post (s : state) (objs : list Z) (s' : state) (objs' : list Z) : Prop := {
  gp_heap : heap_inv s' objs';
  gp_objs : ∀ a, a ∈ objs' ↔ a ∈ objs ∧ reachable s a;
  gp_sub : objs' `sublist_of` objs;
  gp_kept : ∀ a, a ∈ objs' →
            ∃ o o', mem s !! a = Some o ∧ mem s' !! a = Some o' ∧
                    marked o' = false ∧ class o' = class o ∧
                    fields o' = fields (finished o);
  gp_freed : ∀ a, a ∈ objs → a ∉ objs' → mem s' !! a = None;
  gp_other : ∀ a, a ∉ objs → mem s' !! a = mem s !! a;
  gp_cells : cells s' = cells s;
  gp_roots : roots_head s' = roots_head s }.

(** The child pointer fields of [o'] ([head] and [tail] of a cons, [data] of
    a function) hold what they hold in [o], and the payload is of the same
    kind. *)
Definition same_child_pointers (o o' : object) : Prop :=
  match fields o, fields o' with
  | nil_fields, nil_fields => True
  | cons_fields _ h t, cons_fields _ h' t' => h' = h ∧ t' = t
  | atom_fields cs, atom_fields cs' => cs' = cs
  | function_fields f d, function_fields f' d' => f' = f ∧ d' = d
  | _, _ => False
  end.

(** The effect of [mark_next] on a cons whose cursor is at the head, read
    literally from the specification: the call returns [true] with [obj] at
    the tail child and [parent] still at [O], the cursor flag is cleared, and
    afterwards child slot 0 ([head]) holds the grandparent and child slot 1
    ([tail]) holds [O]. *)
Definition mark_next_rotation_as_stated (m : gmap Z object) (obj O : Z) : Prop :=
  ∀ n k c gp t,
    m !! O = Some (Object n k c (cons_fields true gp t)) →
    ∃ m' n' k' c',
      cons_mark_next obj O m = Ok (true, t, O, m') ∧
      m' !! O = Some (Object n' k' c' (cons_fields false gp O)).

(** *** A small heap with a cycle

    The heap list is [5; 4; 3; 2; 1]: an atom, a function whose data is the
    cons [3], the conses [3] and [2], which refer to each other through their
    heads, and the nil object [1].  The root stack holds a local cell with
    the cons [2] and [nil_root]. *)
Definition example_mem : gmap Z object :=
  <[1 := Object 0 false nil_class nil_fields]>
  (<[2 := Object 1 false cons_class (cons_fields false 3 1)]>
  (<[3 := Object 2 false cons_class (cons_fields true 2 1)]>
  (<[4 := Object 3 false function_class (function_fields eval 3)]>
  (<[5 := Object 4 false atom_class (atom_fields "A")]> ∅)))).

Definition example_objs : list Z := [5; 4; 3; 2; 1].

Definition example_state : state :=
  State example_mem (<[nil_root := 1]> {[stack_var 0 := 2]}) 5
        [stack_var 0; nil_root] 5.

(** The state after [o] has been linked at the head of the heap list of
    [s]: [next] is the old head, [marked] is [false], [class] is [c]; the
    payload is what it was. *)
Definition link_object (o : Z) (c : class_ptr) (s : state) : state :=
  State match mem s !! o with
        | Some ob => <[o := Object (heap_head s) false c (fields ob)]> (mem s)
        | None => mem s
        end
        (cells s) o (roots_head s) (object_count s + 1).

(** ** The collector's interface as a transition system

    The calls the mutator can make, with the values the environment supplies
    ([malloc] results, addresses of locals) as arguments.  The three [Mut_]
    steps are the mutator's own actions on its memory: allocating a block
    before it is registered, and the birth and death of a local variable
    whose address can be pushed as a root. *)
Inductive call :=
| Call_push_root (newStack : Z) (root : cell)
| Call_set_root (root : cell) (value : Z)
| Call_pop_root
| Call_gc (fuel : nat)
| Call_register_object (fuel : nat) (o : Z) (c : class_ptr)
| Call_create_nil
| Call_create_cons (fuel : nat) (cons : block) (n1 n2 : Z)
    (c_head c_tail : cell) (head tail : Z)
| Call_create_atom (fuel : nat) (atom : block) (buffer : string)
| Call_create_function (fuel : nat) (function : block) (n1 : Z)
    (c_data : cell) (apply : apply_func) (data : Z)
| Call_destruct_cons (object : Z)
| Call_push (fuel : nat) (cons : block) (n1 n2 : Z) (c_head c_tail : cell)
    (object : Z)
| Call_pop
| Call_push_cont (fuel : nat) (cons : block) (n1 n2 : Z) (c_head c_tail : cell)
    (object : Z)
| Call_pop_cont
| Call_atom_equals (object1 object2 : Z)
| Call_assoc (fuel : nat) (key map : Z)
| Call_object_get_class (object : Z)
| Mut_malloc (b : block) (f : payload)
| Mut_enter_local (c : cell) (v : Z)
| Mut_leave_local (c : cell).

Section api.

Variable nil_value : Z.

(** The state in which a call returns; the value it returns is dropped. *)
Definition run_call (c : call) (s : state) : result state :=
  match c with
  | Call_push_root n root => push_root n root s
  | Call_set_root root value => set_root root value s
  | Call_pop_root => pop_root s
  | Call_gc fuel => gc fuel s
  | Call_register_object fuel o c => register_object fuel o c s
  | Call_create_nil => '(_, s) ← create_nil nil_value s; mret s
  | Call_create_cons fuel b n1 n2 c_head c_tail head tail =>
      '(_, s) ← create_cons fuel b n1 n2 c_head c_tail head tail s; mret s
  | Call_create_atom fuel atom buffer =>
      '(_, s) ← create_atom fuel atom buffer s; mret s
  | Call_create_function fuel function n1 c_data apply data =>
      '(_, s) ← create_function fuel function n1 c_data apply data s; mret s
  | Call_destruct_cons object => _ ← destruct_cons object s; mret s
  | Call_push fuel b n1 n2 c_head c_tail object =>
      push fuel b n1 n2 c_head c_tail object s
  | Call_pop => '(_, s) ← pop s; mret s
  | Call_push_cont fuel b n1 n2 c_head c_tail object =>
      push_cont fuel b n1 n2 c_head c_tail object s
  | Call_pop_cont => '(_, s) ← pop_cont s; mret s
  | Call_atom_equals object1 object2 => _ ← atom_equals object1 object2 s; mret s
  | Call_assoc fuel key map => _ ← assoc nil_value fuel key map s; mret s
  | Call_object_get_class object => _ ← object_get_class object s; mret s
  | Mut_malloc b f =>
      if decide (block_addr b = 0) then Exit
      else mret (set_mem s (malloc b f (mem s)))
  | Mut_enter_local c v => mret (enter_local c v s)
  | Mut_leave_local c => mret (leave_local c s)
  end.

(** A block handed out by [malloc] is not one that is allocated. *)
Definition fresh_block (b : block) (s : state) : Prop :=
  block_addr b ≠ 0 → mem s !! block_addr b = None.

(** What the contracts in the source require of the caller, for a state
    whose heap list is [objs]. *)
Definition call_pre (objs : list Z) (c : call) (s : state) : Prop :=
  match c with
  | Call_push_root _ root => ∃ r, cells s !! root = Some r ∧ r ∈ objs
  | Call_set_root root value => root ∈ roots_head s ∧ value ∈ objs
  | Call_register_object _ o c =>
      o ≠ 0 ∧ (o ∉ objs) ∧
      ∃ ob, mem s !! o = Some ob ∧
            class_inv (Object 0 false c (fields ob)) = true ∧
            ∀ ch, ch ∈ children_of ob →
                  ∃ cl, cl ∈ roots_head s ∧ cells s !! cl = Some ch
  | Call_create_cons _ b _ _ c_head c_tail head tail =>
      head ∈ objs ∧ tail ∈ objs ∧ fresh_block b s ∧
      cells s !! c_head = None ∧ cells s !! c_tail = None ∧ c_head ≠ c_tail
  | Call_create_atom _ atom _ => fresh_block atom s
  | Call_create_function _ function _ c_data _ data =>
      data ∈ objs ∧ fresh_block function s ∧ cells s !! c_data = None
  | Call_push _ b _ _ c_head c_tail object =>
      object ∈ objs ∧ operand_stack ∈ roots_head s ∧ fresh_block b s ∧
      cells s !! c_head = None ∧ cells s !! c_tail = None ∧ c_head ≠ c_tail
  | Call_push_cont _ b _ _ c_head c_tail object =>
      object ∈ objs ∧ cont_stack ∈ roots_head s ∧ fresh_block b s ∧
      cells s !! c_head = None ∧ cells s !! c_tail = None ∧ c_head ≠ c_tail
  | Mut_malloc b _ => fresh_block b s
  | Mut_enter_local c _ => cells s !! c = None
  | Mut_leave_local c => c ∉ roots_head s
  | _ => True
  end.

(** The states the program can be in between calls: the state in which
    [init_globals] returns, and every state in which a call made according
    to its contract returns. *)
Inductive api_reachable : state → Prop :=
| api_init fuel n1 n2 n3 s :
    init_globals nil_value fuel n1 n2 n3 (initial_state nil_value) = Ok s →
    api_reachable s
| api_call s objs c s' :
    api_reachable s →
    object_list (mem s) (heap_head s) objs →
    call_pre objs c s →
    run_call c s = Ok s' →
    api_reachable s'.

End api.

(** *** The lone atom

    The state in which [init_globals] returns when [nil_value] is at address
    [1], and the state after an atom has then been created at address [2]:
    nothing refers to the atom. *)
Definition scenario_init : state :=
  State {[1 := Object 0 false nil_class nil_fields]}
        (<[nil_root := 1]> (<[operand_stack := 1]> {[cont_stack := 1]}))
        1 [cont_stack; operand_stack; nil_root] 1.

Definition scenario_atom : state :=
  State (<[2 := Object 1 false atom_class (atom_fields "A")]>
           {[1 := Object 0 false nil_class nil_fields]})
        (<[nil_root := 1]> (<[operand_stack := 1]> {[cont_stack := 1]}))
        2 [cont_stack; operand_stack; nil_root] 2.

Definition scenario_block : block := Block 2 0 true cons_class true.

(** *** A heap without garbage

    The conses [3] and [2] and the nil object [1] of the example heap, the
    cons [3] with its cursor flag set. *)
Definition live_state : state :=
  State (<[1 := Object 0 false nil_class nil_fields]>
         (<[2 := Object 1 false cons_class (cons_fields false 3 1)]>
          {[3 := Object 2 false cons_class (cons_fields true 2 1)]}))
        (<[nil_root := 1]> {[stack_var 0 := 2]}) 3
        [stack_var 0; nil_root] 3.

Definition live_objs : list Z := [3; 2; 1].

(** ** The interpreter's maps *)

(** [push_root_g], [set_root_g] and [pop_root_g] call the function they
    wrap and nothing else. *)
Definition push_root_g (newStack : Z) (root : cell) (s : state) : result state :=
  push_root newStack root s.
Definition set_root_g (root : cell) (value : Z) (s : state) : result state :=
  set_root root value s.
Definition pop_root_g (s : state) : result state :=
  pop_root s.

(** [map] is the address of a root cell.  [b1], [n1], [n2], [c1], [c2] are
    what the environment supplies to the first [create_cons], the others go
    to the second. *)
Definition map_cons (fuel : nat) (b1 : block) (n1 n2 : Z) (c1 c2 : cell)
    (b2 : block) (n3 n4 : Z) (c3 c4 : cell)
    (key value : Z) (map : cell) (s : state) : result state :=
  '(entry, s) ← create_cons fuel b1 n1 n2 c1 c2 key value s;
  old_map ← load_cell s map;
  r ← create_cons fuel b2 n3 n4 c3 c4 entry old_map s;
  let cons := r.1 in
  let s := r.2 in
  set_root_g map cons s.

(** *** Reading the heap *)

Definition is_cons (s : state) (a head tail : Z) : Prop :=
  ∃ n k f, mem s !! a = Some (Object n k cons_class (cons_fields f head tail)).

Definition is_atom (s : state) (a : Z) (cs : string) : Prop :=
  ∃ n k, mem s !! a = Some (Object n k atom_class (atom_fields cs)).

Definition is_function (s : state) (a : Z) (apply : apply_func) (data : Z) : Prop :=
  ∃ n k, mem s !! a = Some (Object n k function_class (function_fields apply data)).

(** [a] is in [s'] the object it is in [s]: same class, same payload up to
    a cons's cursor flag. *)
Definition kept (s s' : state) (a : Z) : Prop :=
  ∃ o o', mem s !! a = Some o ∧ mem s' !! a = Some o' ∧
          class o' = class o ∧ same_child_pointers o o'.

(** The association list a map object stands for: a chain of conses ending
    in [nil_value] whose heads are conses of an atom and a value.  An entry
    is recorded with the characters of its atom. *)
Fixpoint map_entries (nil_value : Z) (s : state) (map : Z)
    (es : list (string * Z)) : Prop :=
  match es with
  | [] => map = nil_value
  | (cs, v) :: es =>
      map ≠ nil_value ∧
      ∃ entry rest k,
        is_cons s map entry rest ∧ is_cons s entry k v ∧ is_atom s k cs ∧
        map_entries nil_value s rest es
  end.

(** The value of the first entry for [cs]. *)
Fixpoint entries_lookup (cs : string) (es : list (string * Z)) : option Z :=
  match es with
  | [] => None
  | (k, v) :: es => if decide (k = cs) then Some v else entries_lookup cs es
  end.

(** *** A heap with a map

    The atoms [2], [3] and [8] are named "x", "y" and "x".  The cons [7] is
    the map with the entries [6] (y to the nil object) and [4] (x to the atom
    [3]); a local cell holds it, another holds the atom [8]. *)
Definition map_mem : gmap Z object :=
  <[1 := Object 0 false nil_class nil_fields]>
  (<[2 := Object 1 false atom_class (atom_fields "x")]>
  (<[3 := Object 2 false atom_class (atom_fields "y")]>
  (<[4 := Object 3 false cons_class (cons_fields false 2 3)]>
  (<[5 := Object 4 false cons_class (cons_fields false 4 1)]>
  (<[6 := Object 5 false cons_class (cons_fields true 3 1)]>
  (<[7 := Object 6 false cons_class (cons_fields false 6 5)]>
  (<[8 := Object 7 false atom_class (atom_fields "x")]> ∅))))))).

Definition map_objs : list Z := [8; 7; 6; 5; 4; 3; 2; 1].

Definition map_state : state :=
  State map_mem
        (<[nil_root := 1]> (<[operand_stack := 1]> (<[cont_stack := 1]>
           (<[stack_var 0 := 7]> {[stack_var 1 := 8]}))))
        8 [stack_var 1; stack_var 0; cont_stack; operand_stack; nil_root] 8.

(** *** A chain of conses

    The nil object at address [1] and, for [i] from [1] to [n], a cons at
    address [i + 1] whose head and tail are the object at [i]; the heap list
    runs from [n + 1] down to [1] and one local cell holds the last cons, so
    every object is reachable. *)
Fixpoint chain_mem (n : nat) : gmap Z object :=
  match n with
  | O => {[1 := Object 0 false nil_class nil_fields]}
  | S k =>
      <[Z.of_nat (S k) + 1 :=
          Object (Z.of_nat (S k)) false cons_class
            (cons_fields false (Z.of_nat (S k)) (Z.of_nat (S k)))]> (chain_mem k)
  end.

Fixpoint chain_objs (n : nat) : list Z :=
  match n with
  | O => [1]
  | S k => (Z.of_nat (S k) + 1) :: chain_objs k
  end.

(** The chain with a block at address [-1] that is allocated but not
    registered. *)
Definition chain_state (n : nat) : state :=
  State (<[-1 := Object 0 true nil_class (atom_fields "A")]> (chain_mem n))
        {[stack_var 0 := Z.of_nat n + 1]} (Z.of_nat n + 1)
        [stack_var 0] (Z.of_nat n + 1).

(** ** The interpreter

    The functions above take what the environment supplies (the results of
    [malloc], the addresses of locals) as arguments.  The interpreter
    allocates an unbounded number of times, so here the environment is a
    function [env]: the site for the [k]-th allocation made in state [s] is
    [env k s]. *)

(** What one allocating call consumes: a block for the object, up to two
    nodes for the root stack, up to two addresses of locals. *)
Record site := Site {
  site_block : block;
  site_n1 : Z;
  site_n2 : Z;
  site_c1 : cell;
  site_c2 : cell }.

(** The running interpreter: the collector's state, the number of sites used
    so far and what [print_atom] has printed. *)
Record machine := Machine {
  m_state : state;
  m_sites : nat;
  m_output : list string }.

(** A site that [malloc] and the C stack can produce in state [s]. *)
Definition site_ok (s : state) (e : site) : Prop :=
  fresh_block (site_block e) s ∧
  cells s !! site_c1 e = None ∧ cells s !! site_c2 e = None ∧
  site_c1 e ≠ site_c2 e.

Section run.

Variable env : nat → state → site.
(** The budget of the loops of [gc] and [assoc]. *)
Variable fuel : nat.
Variable nil_value : Z.

(** A call that changes the collector's state only. *)
Definition with_state (f : state → result state) (m : machine) : result machine :=
  s ← f (m_state m); mret (Machine s (m_sites m) (m_output m)).

(** A call that uses the next site. *)
Definition at_site {A} (f : site → state → result (A * state)) (m : machine) :
    result (A * machine) :=
  let e := env (m_sites m) (m_state m) in
  r ← f e (m_state m);
  mret (r.1, Machine r.2 (S (m_sites m)) (m_output m)).

Definition do_create_nil (m : machine) : result (Z * machine) :=
  r ← create_nil nil_value (m_state m);
  mret (r.1, Machine r.2 (m_sites m) (m_output m)).

Definition do_create_cons (head tail : Z) : machine → result (Z * machine) :=
  at_site (λ e, create_cons fuel (site_block e) (site_n1 e) (site_n2 e)
                  (site_c1 e) (site_c2 e) head tail).

Definition do_create_function (apply : apply_func) (data : Z) :
    machine → result (Z * machine) :=
  at_site (λ e, create_function fuel (site_block e) (site_n1 e) (site_c1 e)
                  apply data).

Definition do_push (object : Z) (m : machine) : result machine :=
  r ← at_site (λ e s, s ← push fuel (site_block e) (site_n1 e) (site_n2 e)
                            (site_c1 e) (site_c2 e) object s;
                      mret (tt, s)) m;
  mret r.2.

Definition do_push_cont (object : Z) (m : machine) : result machine :=
  r ← at_site (λ e s, s ← push_cont fuel (site_block e) (site_n1 e) (site_n2 e)
                            (site_c1 e) (site_c2 e) object s;
                      mret (tt, s)) m;
  mret r.2.

Definition do_pop (m : machine) : result (Z * machine) :=
  r ← pop (m_state m); mret (r.1, Machine r.2 (m_sites m) (m_output m)).

Definition do_pop_cont (m : machine) : result (Z * machine) :=
  r ← pop_cont (m_state m); mret (r.1, Machine r.2 (m_sites m) (m_output m)).

(** [push_root_g(&x)] for a local [x] that holds [v]: the site gives the
    address of [x] and the node. *)
Definition do_push_root_g (v : Z) : machine → result (cell * machine) :=
  at_site (λ e s, s ← push_root_g (site_n1 e) (site_c1 e)
                        (enter_local (site_c1 e) v s);
                  mret (site_c1 e, s)).

Definition do_pop_root_g : machine → result machine :=
  with_state pop_root_g.

(** The end of the scope of a local. *)
Definition do_leave (c : cell) (m : machine) : machine :=
  Machine (leave_local c (m_state m)) (m_sites m) (m_output m).

Definition do_map_cons (key value : Z) (map : cell) (m : machine) : result machine :=
  r ← do_create_cons key value m;
  let entry := r.1 in
  let m := r.2 in
  old_map ← load_cell (m_state m) map;
  r ← do_create_cons entry old_map m;
  let cons := r.1 in
  let m := r.2 in
  with_state (set_root_g map cons) m.

(** [create_atom_from_string]: the buffer it creates and fills holds the
    characters of [string]. *)
Definition create_atom_from_string (string : string) :
    machine → result (Z * machine) :=
  at_site (λ e, create_atom fuel (site_block e) string).

(** [value] is a parameter whose address is pushed as a root. *)
Definition map_cons_s (key : string) (value : Z) (map : cell) (m : machine) :
    result machine :=
  r ← do_push_root_g value m;
  let c_value := r.1 in
  let m := r.2 in
  r ← create_atom_from_string key m;
  let atom := r.1 in
  let m := r.2 in
  m ← do_pop_root_g m;
  value ← load_cell (m_state m) c_value;
  m ← do_map_cons atom value map m;
  mret (do_leave c_value m).

Definition map_cons_s_func_nil (key : string) (function : apply_func) (map : cell)
    (m : machine) : result machine :=
  r ← do_create_nil m;
  let nil_object := r.1 in
  let m := r.2 in
  r ← do_create_function function nil_object m;
  let func := r.1 in
  let m := r.2 in
  map_cons_s key func map m.

(** [print_string_buffer] writes the characters to the standard output. *)
Definition print_string_buffer (chars : string) (m : machine) : machine :=
  Machine (m_state m) (m_sites m) (m_output m ++ [chars]).

(** The bodies of the native functions.  [apply] is the function of that
    name, which [pop_apply] and [eval] call. *)
Definition pop_apply_body (apply : Z → machine → result machine)
    (data : Z) (m : machine) : result machine :=
  r ← do_pop m;
  let f := r.1 in
  let m := r.2 in
  apply f m.

Definition eval_body (apply : Z → machine → result machine)
    (data : Z) (m : machine) : result machine :=
  '(envs, expr) ← destruct_cons data (m_state m);
  '(forms, env) ← destruct_cons envs (m_state m);
  class ← object_get_class expr (m_state m);
  if decide (class = atom_class) then
    value ← assoc nil_value fuel expr env (m_state m);
    if decide (value = 0) then error "eval: no such binding"
    else do_push value m
  else if decide (class = cons_class) then
    '(f_expr, arg_expr) ← destruct_cons expr (m_state m);
    let form := nil_value in
    class ← object_get_class f_expr (m_state m);
    let isForm := bool_decide (class = atom_class) in
    '(form, isForm) ←
      (if isForm : bool then
         value ← assoc nil_value fuel f_expr forms (m_state m);
         let form := value in
         mret (form, bool_decide (form ≠ 0))
       else mret (form, isForm));
    if isForm : bool then
      r ← do_push_root_g form m;
      let c_form := r.1 in
      let m := r.2 in
      r ← do_create_cons envs arg_expr m;
      let value := r.1 in
      let m := r.2 in
      m ← do_push value m;
      m ← do_pop_root_g m;
      form ← load_cell (m_state m) c_form;
      m ← apply form m;
      mret (do_leave c_form m)
    else
      r ← do_push_root_g envs m;
      let c_envs := r.1 in
      let m := r.2 in
      r ← do_push_root_g f_expr m;
      let c_f_expr := r.1 in
      let m := r.2 in
      r ← do_push_root_g arg_expr m;
      let c_arg_expr := r.1 in
      let m := r.2 in
      r ← do_create_nil m;
      let functionData := r.1 in
      let m := r.2 in
      r ← do_create_function pop_apply functionData m;
      let function := r.1 in
      let m := r.2 in
      m ← do_push_cont function m;
      envs ← load_cell (m_state m) c_envs;
      f_expr ← load_cell (m_state m) c_f_expr;
      r ← do_create_cons envs f_expr m;
      let functionData := r.1 in
      let m := r.2 in
      r ← do_create_function eval functionData m;
      let function := r.1 in
      let m := r.2 in
      m ← do_push_cont function m;
      envs ← load_cell (m_state m) c_envs;
      arg_expr ← load_cell (m_state m) c_arg_expr;
      r ← do_create_cons envs arg_expr m;
      let functionData := r.1 in
      let m := r.2 in
      r ← do_create_function eval functionData m;
      let function := r.1 in
      let m := r.2 in
      m ← do_push_cont function m;
      m ← do_pop_root_g m;
      m ← do_pop_root_g m;
      m ← do_pop_root_g m;
      mret (do_leave c_envs (do_leave c_f_expr (do_leave c_arg_expr m)))
  else error "Cannot evaluate: not an atom or a cons.".

Definition print_atom_body (data : Z) (m : machine) : result machine :=
  r ← do_pop m;
  let arg := r.1 in
  let m := r.2 in
  o ← load (mem (m_state m)) arg;
  if decide (class o ≠ atom_class) then
    error "print_atom: argument is not an atom"
  else
    chars ← atom_get_chars (mem (m_state m)) arg;
    let m := print_string_buffer chars m in
    r ← do_create_nil m;
    let data := r.1 in
    let m := r.2 in
    do_push data m.

Definition quote_function_body (data : Z) (m : machine) : result machine :=
  r ← do_pop m;
  let arg := r.1 in
  let m := r.2 in
  '(envs, body) ← destruct_cons arg (m_state m);
  do_push body m.

Definition fun_apply_function_body (data : Z) (m : machine) : result machine :=
  r ← do_pop m;
  let arg := r.1 in
  let m := r.2 in
  '(envs, expr) ← destruct_cons data (m_state m);
  '(forms, env) ← destruct_cons envs (m_state m);
  '(param, body) ← destruct_cons expr (m_state m);
  paramClass ← object_get_class param (m_state m);
  if decide (paramClass ≠ atom_class) then error "fun: param should be an atom"
  else
    let newEnv := env in
    r ← do_push_root_g newEnv m;
    let c_newEnv := r.1 in
    let m := r.2 in
    r ← do_push_root_g forms m;
    let c_forms := r.1 in
    let m := r.2 in
    r ← do_push_root_g body m;
    let c_body := r.1 in
    let m := r.2 in
    m ← do_map_cons param arg c_newEnv m;
    forms ← load_cell (m_state m) c_forms;
    newEnv ← load_cell (m_state m) c_newEnv;
    r ← do_create_cons forms newEnv m;
    let newEnvs := r.1 in
    let m := r.2 in
    body ← load_cell (m_state m) c_body;
    r ← do_create_cons newEnvs body m;
    let newData := r.1 in
    let m := r.2 in
    r ← do_create_function eval newData m;
    let newFunction := r.1 in
    let m := r.2 in
    m ← do_push_cont newFunction m;
    m ← do_pop_root_g m;
    m ← do_pop_root_g m;
    m ← do_pop_root_g m;
    mret (do_leave c_newEnv (do_leave c_forms (do_leave c_body m))).

Definition fun_function_body (data : Z) (m : machine) : result machine :=
  r ← do_pop m;
  let arg := r.1 in
  let m := r.2 in
  r ← do_create_function fun_apply_function arg m;
  let newFunction := r.1 in
  let m := r.2 in
  do_push newFunction m.

(** The call [applyFunc(data)] through the code pointer. *)
Definition call_apply_func (apply : Z → machine → result machine)
    (applyFunc : apply_func) (data : Z) (m : machine) : result machine :=
  match applyFunc with
  | pop_apply => pop_apply_body apply data m
  | eval => eval_body apply data m
  | print_atom => print_atom_body data m
  | quote_function => quote_function_body data m
  | fun_apply_function => fun_apply_function_body data m
  | fun_function => fun_function_body data m
  end.

Definition apply_body (apply : Z → machine → result machine)
    (function : Z) (m : machine) : result machine :=
  o ← load (mem (m_state m)) function;
  if decide (class o ≠ function_class) then error "apply: not a function"
  else
    match fields o with
    | function_fields applyFunc data => call_apply_func apply applyFunc data m
    | _ => Undefined
    end.

End run.

(** The functions [apply] and [main] have a name space of their own: the
    name [apply] is also that of a field of [struct function]. *)
Module interp.

Section loop.

Variable env : nat → state → site.
Variable fuel : nat.
Variable nil_value : Z.

(** [apply]; [depth] bounds the nesting of the calls of [apply]. *)
Fixpoint apply (depth : nat) (function : Z) (m : machine) : result machine :=
  match depth with
  | O => OutOfFuel
  | S depth => apply_body env fuel nil_value (apply depth) function m
  end.

(** The inner loop of [main]: run continuations until the continuation
    stack is empty. *)
Fixpoint main_inner_loop (n : nat) (m : machine) : result machine :=
  match n with
  | O => OutOfFuel
  | S n =>
      r ← do_pop_cont m;
      let object := r.1 in
      let m := r.2 in
      if decide (object = 0) then mret m
      else
        m ← apply n object m;
        main_inner_loop n m
  end.

(** One round of the outer loop of [main] after [parse] has returned
    [expr]; [c_envs] is the address of the local [envs]. *)
Definition main_round (n : nat) (c_envs : cell) (expr : Z) (m : machine) :
    result machine :=
  envs ← load_cell (m_state m) c_envs;
  r ← do_create_cons env fuel envs expr m;
  let data := r.1 in
  let m := r.2 in
  r ← do_create_function env fuel eval data m;
  let cont := r.1 in
  let m := r.2 in
  m ← do_push_cont env fuel cont m;
  m ← main_inner_loop n m;
  r ← do_pop m;
  mret r.2.

End loop.

End interp.

Arguments do_create_nil : simpl never.
Arguments create_atom_from_string : simpl never.
Arguments do_create_cons : simpl never.
Arguments do_create_function : simpl never.
Arguments do_push : simpl never.
Arguments do_push_cont : simpl never.
Arguments do_pop : simpl never.
Arguments do_pop_cont : simpl never.
Arguments do_push_root_g : simpl never.
Arguments do_pop_root_g : simpl never.
Arguments do_map_cons : simpl never.
Arguments do_leave : simpl never.
Arguments print_string_buffer : simpl never.

(** The state of the interpreter between calls, the [globals] predicate of
    the source: the heap invariant, and the three global cells on the root
    stack, [nil_root] holding [nil_value]. *)
Definition globals (nil_value : Z) (s : state) (objs : list Z) : Prop :=
  heap_inv s objs ∧
  nil_root ∈ roots_head s ∧ cells s !! nil_root = Some nil_value ∧
  operand_stack ∈ roots_head s ∧ cont_stack ∈ roots_head s.

(** [r] is not undefined behaviour and, if it is a normal return, the value
    returned satisfies [Q]. *)
Definition returns {A} (r : result A) (Q : A → Prop) : Prop :=
  match r with
  | Ok a => Q a
  | Undefined => False
  | _ => True
  end.

(** What an allocation of the object [p] has done to a state [s] with heap
    list [objs]: the new heap list is [p] followed by old objects, among them
    every object that was reachable, each kept as it was. *)
Record grown (s : state) (objs : list Z) (p : Z) (s' : state) (objs' : list Z) :
    Prop := {
  gr_heap : heap_inv s' (p :: objs');
  gr_roots : roots_head s' = roots_head s;
  gr_new : p ∉ objs;
  gr_sub : ∀ a, a ∈ objs' → a ∈ objs;
  gr_live : ∀ a, reachable s a → a ∈ objs';
  gr_kept : ∀ a, a ∈ objs' → kept s s' a }.

(** What a native function guarantees when it returns: the [globals]
    invariant again, with the root stack it was called with. *)
Definition good (nil_value : Z) (m m' : machine) : Prop :=
  ∃ objs', globals nil_value (m_state m') objs' ∧
           roots_head (m_state m') = roots_head (m_state m).

(** The stack kept in the root cell [c] has [x] on top of [rest]: the cell
    holds a cons of [x] and [rest]. *)
(** The continuations on the stack [p] down to [bottom]: each is a function
    object, recorded with its code and, where its data is a cons, with the
    head and tail of that. *)
Fixpoint cont_entries (s : state) (p : Z) (ks : list (apply_func * option (Z * Z)))
    (bottom : Z) : Prop :=
  match ks with
  | [] => p = bottom
  | (f, d) :: ks =>
      ∃ fn data rest,
        is_cons s p fn rest ∧ is_function s fn f data ∧
        match d with Some (h, t) => is_cons s data h t | None => True end ∧
        cont_entries s rest ks bottom
  end.

Definition stack_top (s : state) (c : cell) (x rest : Z) : Prop :=
  ∃ p, cells s !! c = Some p ∧ is_cons s p x rest.

(** *** An environment

    [malloc] hands out the address after the largest one in use, the locals
    get the cells after the largest one in use; no allocation fails. *)
Definition next_addr (m : gmap Z object) : Z :=
  1 + map_fold (λ k _ acc, Z.max k acc) 0 m.

Definition next_var (cs : gmap cell Z) : Z :=
  1 + map_fold (λ c _ acc, match c with stack_var i => Z.max i acc | _ => acc end)
        0 cs.

Definition bump_env (k : nat) (s : state) : site :=
  Site (Block (next_addr (mem s)) 0 true nil_class true) 1 1
       (stack_var (next_var (cells s))) (stack_var (next_var (cells s) + 1)).

(** *** A session

    The heap of a session whose [nil_value] is at address [1]: the map
    [forms] at [9] binds fun and quote, the map [env] at [13] binds
    print_atom, [envs] at [14] is the cons of the two and is held by a local.
    The atoms [15], [16], [19] and [22] are named quote, hello, fun and
    print_atom; [17] is [(quote . hello)], [20] is [(fun . (quote . hello))]
    and [27] is [(print_atom . (quote . hello))].  The conses [18], [21],
    [23], [24] and [28] pair [envs] with an expression; [25] and [26] are
    operand stacks of one element. *)
Definition interp_mem : gmap Z object :=
  list_to_map
    [(1, Object 0 false nil_class nil_fields);
     (2, Object 1 false atom_class (atom_fields "quote"));
     (3, Object 2 false function_class (function_fields quote_function 1));
     (4, Object 3 false cons_class (cons_fields false 2 3));
     (5, Object 4 false cons_class (cons_fields false 4 1));
     (6, Object 5 false atom_class (atom_fields "fun"));
     (7, Object 6 false function_class (function_fields fun_function 1));
     (8, Object 7 false cons_class (cons_fields false 6 7));
     (9, Object 8 false cons_class (cons_fields false 8 5));
     (10, Object 9 false atom_class (atom_fields "print_atom"));
     (11, Object 10 false function_class (function_fields print_atom 1));
     (12, Object 11 false cons_class (cons_fields false 10 11));
     (13, Object 12 false cons_class (cons_fields false 12 1));
     (14, Object 13 false cons_class (cons_fields false 9 13));
     (15, Object 14 false atom_class (atom_fields "quote"));
     (16, Object 15 false atom_class (atom_fields "hello"));
     (17, Object 16 false cons_class (cons_fields false 15 16));
     (18, Object 17 false cons_class (cons_fields false 14 17));
     (19, Object 18 false atom_class (atom_fields "fun"));
     (20, Object 19 false cons_class (cons_fields false 19 17));
     (21, Object 20 false cons_class (cons_fields false 14 20));
     (22, Object 21 false atom_class (atom_fields "print_atom"));
     (23, Object 22 false cons_class (cons_fields false 14 22));
     (24, Object 23 false cons_class (cons_fields false 14 16));
     (25, Object 24 false cons_class (cons_fields false 16 1));
     (26, Object 25 false cons_class (cons_fields false 18 1));
     (27, Object 26 false cons_class (cons_fields false 22 17));
     (28, Object 27 false cons_class (cons_fields false 14 27))].

Definition interp_objs : list Z := (λ i, 28 - Z.of_nat i) <$> seq 0 28.

(** The session with the operand stack [os]. *)
Definition interp_state (os : Z) : state :=
  State interp_mem
        (<[nil_root := 1]> (<[operand_stack := os]> (<[cont_stack := 1]>
           {[stack_var 0 := 14]})))
        28 [stack_var 0; cont_stack; operand_stack; nil_root] 28.

Definition interp_machine (os : Z) : machine := Machine (interp_state os) 0 [].

(** * Proofs *)

(** ** The class callbacks in closed form *)

Ltac run_fields :=
  unfold cons_get_tail_is_next, cons_get_head, cons_get_tail, cons_get,
    cons_set_tail_is_next, cons_set_head, cons_set_tail,
    function_get_data, function_set_data, set_marked, set_next, set_class,
    set_fields, load;
  repeat (cbn; rewrite ?lookup_insert_eq, ?insert_insert_eq;
          try match goal with H : _ !! _ = Some _ |- _ => rewrite H end).

Lemma cons_start_marking_eq (m : gmap Z object) p q n k c f h t :
  m !! p = Some (Object n k c (cons_fields f h t)) →
  cons_start_marking p q m
  = Ok (true, h, p, <[p := Object n k c (cons_fields true q t)]> m).
Proof. intros H. unfold cons_start_marking. run_fields. done. Qed.

Lemma cons_mark_next_head (m : gmap Z object) x p n k c gp t :
  m !! p = Some (Object n k c (cons_fields true gp t)) →
  cons_mark_next x p m
  = Ok (true, t, p, <[p := Object n k c (cons_fields false x gp)]> m).
Proof. intros H. unfold cons_mark_next. run_fields. done. Qed.

Lemma cons_mark_next_tail (m : gmap Z object) x p n k c h gp :
  m !! p = Some (Object n k c (cons_fields false h gp)) →
  cons_mark_next x p m
  = Ok (false, p, gp, <[p := Object n k c (cons_fields false h x)]> m).
Proof. intros H. unfold cons_mark_next. run_fields. done. Qed.

Lemma function_start_marking_eq (m : gmap Z object) p q n k c f d :
  m !! p = Some (Object n k c (function_fields f d)) →
  function_start_marking p q m
  = Ok (true, d, p, <[p := Object n k c (function_fields f q)]> m).
Proof. intros H. unfold function_start_marking. run_fields. done. Qed.

Lemma function_mark_next_eq (m : gmap Z object) x p n k c f gp :
  m !! p = Some (Object n k c (function_fields f gp)) →
  function_mark_next x p m
  = Ok (false, p, gp, <[p := Object n k c (function_fields f x)]> m).
Proof. intros H. unfold function_mark_next. run_fields. done. Qed.

(** ** One step of [mark], case by case *)

Lemma mark_step_marked (m : gmap Z object) obj parent o :
  m !! obj = Some o → marked o = true →
  mark_step (MarkState L_start_marking obj parent m)
  = Ok (Goto (MarkState L_mark_next obj parent m)).
Proof. intros H Hm. unfold mark_step, load. cbn. rewrite H. cbn. by rewrite Hm. Qed.

Lemma mark_step_leaf (m : gmap Z object) obj parent n c f :
  m !! obj = Some (Object n false c f) →
  c = nil_class ∨ c = atom_class →
  mark_step (MarkState L_start_marking obj parent m)
  = Ok (Goto (MarkState L_mark_next obj parent (<[obj := Object n true c f]> m))).
Proof.
  intros H Hc. unfold mark_step, load, set_marked, load. cbn. rewrite H. cbn.
  by destruct Hc as [-> | ->].
Qed.

Lemma mark_step_cons (m : gmap Z object) obj parent n f h t :
  m !! obj = Some (Object n false cons_class (cons_fields f h t)) →
  mark_step (MarkState L_start_marking obj parent m)
  = Ok (Goto (MarkState L_start_marking h obj
               (<[obj := Object n true cons_class (cons_fields true parent t)]> m))).
Proof.
  intros H. unfold mark_step, load, set_marked, load. cbn. rewrite H. cbn.
  erewrite cons_start_marking_eq by apply lookup_insert_eq.
  cbn. by rewrite insert_insert_eq.
Qed.

Lemma mark_step_function (m : gmap Z object) obj parent n f d :
  m !! obj = Some (Object n false function_class (function_fields f d)) →
  mark_step (MarkState L_start_marking obj parent m)
  = Ok (Goto (MarkState L_start_marking d obj
               (<[obj := Object n true function_class (function_fields f parent)]> m))).
Proof.
  intros H. unfold mark_step, load, set_marked, load. cbn. rewrite H. cbn.
  erewrite function_start_marking_eq by apply lookup_insert_eq.
  cbn. by rewrite insert_insert_eq.
Qed.

Lemma mark_step_cons_head (m : gmap Z object) obj p n k gp t :
  p ≠ 0 →
  m !! p = Some (Object n k cons_class (cons_fields true gp t)) →
  mark_step (MarkState L_mark_next obj p m)
  = Ok (Goto (MarkState L_start_marking t p
               (<[p := Object n k cons_class (cons_fields false obj gp)]> m))).
Proof.
  intros Hp H. unfold mark_step, load. cbn. rewrite decide_False by done.
  rewrite H. cbn. by erewrite cons_mark_next_head.
Qed.

Lemma mark_step_cons_tail (m : gmap Z object) obj p n k h gp :
  p ≠ 0 →
  m !! p = Some (Object n k cons_class (cons_fields false h gp)) →
  mark_step (MarkState L_mark_next obj p m)
  = Ok (Goto (MarkState L_mark_next p gp
               (<[p := Object n k cons_class (cons_fields false h obj)]> m))).
Proof.
  intros Hp H. unfold mark_step, load. cbn. rewrite decide_False by done.
  rewrite H. cbn. by erewrite cons_mark_next_tail.
Qed.

Lemma mark_step_function_data (m : gmap Z object) obj p n k f gp :
  p ≠ 0 →
  m !! p = Some (Object n k function_class (function_fields f gp)) →
  mark_step (MarkState L_mark_next obj p m)
  = Ok (Goto (MarkState L_mark_next p gp
               (<[p := Object n k function_class (function_fields f obj)]> m))).
Proof.
  intros Hp H. unfold mark_step, load. cbn. rewrite decide_False by done.
  rewrite H. cbn. by erewrite function_mark_next_eq.
Qed.

(** ** Memory updates and the ghost state *)

Lemma is_marked_insert (m : gmap Z object) a o c :
  is_marked (<[a := o]> m) c = if decide (a = c) then marked o else is_marked m c.
Proof.
  unfold is_marked. rewrite lookup_insert. by destruct (decide (a = c)).
Qed.

Lemma is_marked_insert_mono (m : gmap Z object) a o c :
  marked o = true → is_marked m c = true → is_marked (<[a := o]> m) c = true.
Proof. intros Ho Hc. rewrite is_marked_insert. by destruct (decide (a = c)). Qed.

Lemma is_marked_Some (m : gmap Z object) a o :
  m !! a = Some o → is_marked m a = marked o.
Proof. intros H. unfold is_marked. by rewrite H. Qed.

Lemma children_Some (m : gmap Z object) a o :
  m !! a = Some o → children m a = children_of o.
Proof. intros H. unfold children. by rewrite H. Qed.

Lemma children_of_finished o : children_of (finished o) = children_of o.
Proof. by destruct o as [? ? ? []]. Qed.

Section marking_lemmas.

Variables (m0 : gmap Z object) (objs : list Z) (root : Z).

Lemma mark_stack_insert (m : gmap Z object) stk parent child a o :
  a ∉ stk → marked o = true →
  mark_stack m0 root m stk parent child →
  mark_stack m0 root (<[a := o]> m) stk parent child.
Proof.
  intros Ha Ho. revert parent child.
  induction stk as [|p stk IH]; intros parent child; [done|].
  apply not_elem_of_cons in Ha as [Hap Ha].
  intros (-> & o0 & o1 & i & gp & H0 & H1 & Hr & Hc & Hj & Hs).
  split; [done|]. exists o0, o1, i, gp. split_and!; try done.
  - by rewrite lookup_insert_ne.
  - intros j c Hlt Hjc. apply is_marked_insert_mono; eauto.
  - by apply IH.
Qed.

Lemma mark_stack_lookup (m : gmap Z object) stk parent child p :
  mark_stack m0 root m stk parent child → p ∈ stk →
  ∃ o0 o i gp, m0 !! p = Some o0 ∧ m !! p = Some o ∧ reversed o0 o i gp.
Proof.
  revert parent child. induction stk as [|q stk IH]; intros parent child.
  - intros _ H. by apply elem_of_nil in H.
  - intros (-> & o0 & o1 & i & gp & H0 & H1 & Hr & Hc & Hj & Hs) Hp.
    apply elem_of_cons in Hp as [-> | Hp]; eauto 10.
Qed.

Lemma pending_insert (m : gmap Z object) stk a o :
  a ∉ stk → pending (<[a := o]> m) stk = pending m stk.
Proof.
  unfold pending. induction stk as [|p stk IH]; [done|].
  intros [Hap Ha]%not_elem_of_cons. cbn. rewrite IH by done.
  unfold weight. by rewrite lookup_insert_ne.
Qed.

Lemma pending_cons (m : gmap Z object) p stk :
  pending m (p :: stk) = (weight m p + pending m stk)%nat.
Proof. done. Qed.

Lemma unmarked_count_insert_le (m : gmap Z object) a o :
  marked o = true →
  (unmarked_count objs (<[a := o]> m) ≤ unmarked_count objs m)%nat.
Proof.
  intros Ho. unfold unmarked_count.
  induction objs as [|x l IH]; [done|].
  rewrite !filter_cons. rewrite is_marked_insert.
  destruct (decide (a = x)) as [->|].
  - rewrite Ho. rewrite decide_False by done.
    destruct (decide (is_marked m x = false)); cbn; lia.
  - destruct (decide (is_marked m x = false)); cbn; lia.
Qed.

Lemma unmarked_count_insert_lt (m : gmap Z object) a o :
  marked o = true → a ∈ objs → is_marked m a = false →
  (unmarked_count objs (<[a := o]> m) < unmarked_count objs m)%nat.
Proof.
  intros Ho Ha Hm. unfold unmarked_count.
  induction objs as [|x l IH]; [by apply elem_of_nil in Ha|].
  rewrite !filter_cons. rewrite is_marked_insert.
  destruct (decide (a = x)) as [->|Hne].
  - rewrite Ho, Hm. rewrite decide_False by done. rewrite decide_True by done.
    cbn. pose proof (unmarked_count_insert_le m x o Ho) as Hle.
    unfold unmarked_count in Hle. clear IH.
    assert (length (filter (λ a, is_marked (<[x:=o]> m) a = false) l)
            ≤ length (filter (λ a, is_marked m a = false) l))%nat; [|lia].
    clear Ha Hle. induction l as [|y l IH]; [done|].
    rewrite !filter_cons, is_marked_insert.
    destruct (decide (x = y)) as [->|].
    + rewrite Ho, Hm. rewrite decide_False by done. rewrite decide_True by done.
      cbn. lia.
    + destruct (decide (is_marked m y = false)); cbn; lia.
  - apply elem_of_cons in Ha as [?|Ha]; [done|]. specialize (IH Ha).
    destruct (decide (is_marked m x = false)); cbn; lia.
Qed.

Lemma unmarked_count_insert_eq (m : gmap Z object) a o :
  is_marked m a = marked o →
  unmarked_count objs (<[a := o]> m) = unmarked_count objs m.
Proof.
  intros Hm. unfold unmarked_count. f_equal.
  apply list_filter_iff. intros x. rewrite is_marked_insert.
  destruct (decide (a = x)) as [->|]; [by rewrite Hm|done].
Qed.

Lemma unmarked_count_le (m : gmap Z object) :
  (unmarked_count objs m ≤ length objs)%nat.
Proof. unfold unmarked_count. apply length_filter. Qed.

End marking_lemmas.

(** ** Preservation of the invariant *)

Section marking_preservation.

Variables (m0 : gmap Z object) (objs : list Z) (root : Z).
Hypothesis Hwf : heap_marking objs m0.

Local Abbreviation inv := (marking_inv m0 objs root).

Lemma inv_init : root ∈ objs → inv [] (MarkState L_start_marking root 0 m0).
Proof.
  intros Hroot. split; cbn.
  - done.
  - intros a Ha _. destruct (hm_alloc _ _ Hwf a Ha) as (o & Ho & _).
    exists o. by split; [|left].
  - done.
  - intros Hc0 a c Ha _. by apply Hc0.
  - done.
  - constructor.
  - intros p Hp. by apply elem_of_nil in Hp.
  - split; [done|]. apply rtc_refl.
  - done.
Qed.

Lemma inv_skip stk obj parent (m : gmap Z object) :
  inv stk (MarkState L_start_marking obj parent m) →
  is_marked m obj = true →
  inv stk (MarkState L_mark_next obj parent m).
Proof. intros [] Hm. by split. Qed.

Lemma inv_leaf stk obj parent (m : gmap Z object) o0 :
  inv stk (MarkState L_start_marking obj parent m) →
  obj ∉ stk → m0 !! obj = Some o0 → marked o0 = false → children_of o0 = [] →
  inv stk (MarkState L_mark_next obj parent (<[obj := finished o0]> m)).
Proof.
  intros [Hfr Hid Hmo Hcl Hst Hnd Hbu [Hobj Hreach] _] Hns H0 Hm0 Hch;
    cbn in *.
  split; cbn.
  - intros a Ha. rewrite lookup_insert_ne; [by apply Hfr|]. by intros ->.
  - intros a Ha Has. destruct (decide (a = obj)) as [->|Hne].
    + exists o0. split; [done|]. right. by rewrite lookup_insert_eq.
    + destruct (Hid a Ha Has) as (o & Ho & Hcase). exists o.
      by rewrite lookup_insert_ne.
  - intros a Ha. apply is_marked_insert_mono; [done|by apply Hmo].
  - intros Hc0 a c Ha Has Hma Hc. destruct (decide (a = obj)) as [->|Hne].
    + rewrite (children_Some _ _ _ H0), Hch in Hc. by apply elem_of_nil in Hc.
    + apply is_marked_insert_mono; [done|]. apply (Hcl Hc0 a c); try done.
      rewrite is_marked_insert in Hma. by rewrite decide_False in Hma.
  - by apply mark_stack_insert.
  - done.
  - done.
  - done.
  - intros _. rewrite is_marked_insert. by rewrite decide_True.
Qed.

Lemma inv_push stk obj parent (m : gmap Z object) o0 o c :
  inv stk (MarkState L_start_marking obj parent m) →
  obj ∉ stk → m0 !! obj = Some o0 →
  reversed o0 o 0 parent → children_of o0 !! 0%nat = Some c →
  inv (obj :: stk) (MarkState L_start_marking c obj (<[obj := o]> m)).
Proof.
  intros [Hfr Hid Hmo Hcl Hst Hnd Hbu [Hobj Hreach] _] Hns H0 Hrev Hc;
    cbn in *.
  assert (marked o = true) as Hmk by apply Hrev.
  assert (c ∈ children m0 obj) as Hedge.
  { rewrite (children_Some _ _ _ H0). by eapply list_elem_of_lookup_2. }
  split; cbn.
  - intros a Ha. rewrite lookup_insert_ne; [by apply Hfr|]. by intros ->.
  - intros a Ha [Hne Has]%not_elem_of_cons.
    destruct (Hid a Ha Has) as (o1 & Ho & Hcase). exists o1.
    by rewrite lookup_insert_ne.
  - intros a Ha. apply is_marked_insert_mono; [done|by apply Hmo].
  - intros Hc0 a c' Ha [Hne Has]%not_elem_of_cons Hma Hc'.
    apply is_marked_insert_mono; [done|]. apply (Hcl Hc0 a c'); try done.
    rewrite is_marked_insert in Hma. by rewrite decide_False in Hma.
  - split; [done|]. exists o0, o, 0%nat, parent. split_and!; try done.
    + by rewrite lookup_insert_eq.
    + intros j c' Hj. lia.
    + by apply mark_stack_insert.
  - by constructor.
  - intros p [->|Hp]%elem_of_cons; [done|by apply Hbu].
  - split; [by apply (hm_closed _ _ Hwf obj)|].
    eapply rtc_r; [apply Hreach|done].
  - done.
Qed.

Lemma inv_next p rest obj (m : gmap Z object) o0 o i gp c :
  inv (p :: rest) (MarkState L_mark_next obj p m) →
  m0 !! p = Some o0 → children_of o0 !! i = Some obj →
  (∀ j c, (j < i)%nat → children_of o0 !! j = Some c → is_marked m c = true) →
  mark_stack m0 root m rest gp p →
  reversed o0 o (S i) gp → children_of o0 !! S i = Some c →
  inv (p :: rest) (MarkState L_start_marking c p (<[p := o]> m)).
Proof.
  intros [Hfr Hid Hmo Hcl Hst Hnd Hbu [Hobj Hreach] Hadv] H0 Hi Hj Hrest Hrev Hc;
    cbn in *.
  assert (marked o = true) as Hmk by apply Hrev.
  destruct (Hbu p) as [Hp Hrp]; [by left|].
  apply NoDup_cons in Hnd as Hnd'. destruct Hnd' as [Hpr Hnd'].
  assert (c ∈ children m0 p) as Hedge.
  { rewrite (children_Some _ _ _ H0). by eapply list_elem_of_lookup_2. }
  split; cbn.
  - intros a Ha. rewrite lookup_insert_ne; [by apply Hfr|]. by intros ->.
  - intros a Ha Has. pose proof Has as [Hne _]%not_elem_of_cons.
    destruct (Hid a Ha Has) as (o1 & Ho & Hcase). exists o1.
    by rewrite lookup_insert_ne.
  - intros a Ha. apply is_marked_insert_mono; [done|by apply Hmo].
  - intros Hc0 a c' Ha Has Hma Hc'. pose proof Has as [Hne _]%not_elem_of_cons.
    apply is_marked_insert_mono; [done|]. apply (Hcl Hc0 a c'); try done.
    rewrite is_marked_insert in Hma. by rewrite decide_False in Hma.
  - split; [done|]. exists o0, o, (S i), gp. split_and!; try done.
    + by rewrite lookup_insert_eq.
    + intros j c' Hlt Hjc. apply is_marked_insert_mono; [done|].
      destruct (decide (j = i)) as [->|].
      * rewrite Hi in Hjc. injection Hjc as <-. by apply Hadv.
      * apply (Hj j); [lia|done].
    + by apply mark_stack_insert.
  - done.
  - done.
  - split; [by apply (hm_closed _ _ Hwf p)|]. eapply rtc_r; [apply Hrp|done].
  - done.
Qed.

Lemma inv_pop p rest obj (m : gmap Z object) o0 gp :
  inv (p :: rest) (MarkState L_mark_next obj p m) →
  m0 !! p = Some o0 → marked o0 = false →
  (∀ c, c ∈ children_of o0 → is_marked m c = true) →
  mark_stack m0 root m rest gp p →
  inv rest (MarkState L_mark_next p gp (<[p := finished o0]> m)).
Proof.
  intros [Hfr Hid Hmo Hcl Hst Hnd Hbu [Hobj Hreach] Hadv] H0 Hm0 Hch Hrest;
    cbn in *.
  destruct (Hbu p) as [Hp Hrp]; [by left|].
  apply NoDup_cons in Hnd as [Hpr Hnd].
  split; cbn.
  - intros a Ha. rewrite lookup_insert_ne; [by apply Hfr|]. by intros ->.
  - intros a Ha Has. destruct (decide (a = p)) as [->|Hne].
    + exists o0. split; [done|]. right. by rewrite lookup_insert_eq.
    + destruct (Hid a Ha) as (o1 & Ho & Hcase).
      { by apply not_elem_of_cons. }
      exists o1. by rewrite lookup_insert_ne.
  - intros a Ha. apply is_marked_insert_mono; [done|by apply Hmo].
  - intros Hc0 a c Ha Has Hma Hc. apply is_marked_insert_mono; [done|].
    destruct (decide (a = p)) as [->|Hne].
    + rewrite (children_Some _ _ _ H0) in Hc. by apply Hch.
    + apply (Hcl Hc0 a c); try done; [by apply not_elem_of_cons|].
      rewrite is_marked_insert in Hma. by rewrite decide_False in Hma.
  - by apply mark_stack_insert.
  - done.
  - intros q Hq. apply Hbu. by right.
  - done.
  - intros _. rewrite is_marked_insert. by rewrite decide_True.
Qed.

End marking_preservation.

(** ** Every step keeps the invariant and decreases the measure *)

Section marking_correct.

Variables (m0 : gmap Z object) (objs : list Z) (root : Z).
Hypothesis Hwf : heap_marking objs m0.

Local Abbreviation inv := (marking_inv m0 objs root).

Lemma reach_objs a b : a ∈ objs → reach m0 a b → b ∈ objs.
Proof.
  intros Ha Hr. induction Hr as [|x y z Hxy _ IH]; [done|].
  apply IH. by apply (hm_closed _ _ Hwf x).
Qed.

Lemma mark_step_inv stk st :
  inv stk st →
  (stk = [] ∧ st = MarkState L_mark_next root 0 (cur_mem st) ∧
   mark_step st = Ok (Return (cur_mem st))) ∨
  (∃ st' stk', mark_step st = Ok (Goto st') ∧ inv stk' st' ∧
     (measure objs stk' st' < measure objs stk st)%nat).
Proof.
  intros Hinv. destruct st as [[] obj parent m].
  - (* start_marking *)
    right. pose proof Hinv as [Hfr Hid Hmo Hcl Hst Hnd Hbu [Hobj Hreach] _].
    cbn in Hfr, Hid, Hmo, Hcl, Hst, Hobj, Hreach.
    assert (∀ o, m !! obj = Some o → marked o = true →
      ∃ st' stk', mark_step (MarkState L_start_marking obj parent m) = Ok (Goto st') ∧
        inv stk' st' ∧
        (measure objs stk' st'
         < measure objs stk (MarkState L_start_marking obj parent m))%nat) as Hskip.
    { intros o Ho Hmk. exists (MarkState L_mark_next obj parent m), stk.
      split; [by eapply mark_step_marked|]. split.
      - apply inv_skip; [done|]. by rewrite (is_marked_Some _ _ _ Ho).
      - unfold measure. cbn [pc cur_mem]. lia. }
    destruct (decide (obj ∈ stk)) as [Hin|Hnin].
    { destruct (mark_stack_lookup _ _ _ _ _ _ _ Hst Hin)
        as (o0 & o & i & gp & _ & Ho & Hrev).
      apply (Hskip o Ho). apply Hrev. }
    destruct (Hid obj Hobj Hnin) as (o0 & H0 & [Hm | (Hmk & Hm & _)]);
      [|by apply (Hskip _ Hm)].
    destruct (hm_alloc _ _ Hwf obj Hobj) as (o0' & H0' & Hci).
    rewrite H0 in H0'. injection H0' as <-.
    destruct o0 as [n [] c f]; [by apply (Hskip _ Hm)|].
    assert (is_marked m obj = false) as Hun by by rewrite (is_marked_Some _ _ _ Hm).
    destruct c, f; try discriminate Hci.
    + (* nil *)
      eexists (MarkState L_mark_next obj parent _), stk.
      split; [apply (mark_step_leaf _ _ _ _ _ _ Hm); by left|]. split.
      * by apply inv_leaf with (o0 := Object n false nil_class nil_fields).
      * unfold measure. cbn [pc cur_mem]. rewrite pending_insert by done.
        pose proof (unmarked_count_insert_lt objs m obj
          (Object n true nil_class nil_fields) eq_refl Hobj Hun). lia.
    + (* cons *)
      eexists (MarkState L_start_marking head obj _), (obj :: stk).
      split; [apply (mark_step_cons _ _ _ _ _ _ _ Hm)|]. split.
      * eapply inv_push
          with (o0 := Object n false cons_class (cons_fields tail_is_next head tail));
          try done.
        split_and!; try done. by left.
      * unfold measure. cbn [pc cur_mem]. rewrite ?pending_cons.
        rewrite pending_insert by done.
        unfold weight. rewrite ?lookup_insert_eq, ?H1.
        pose proof (unmarked_count_insert_lt objs m obj
          (Object n true cons_class (cons_fields true parent tail))
          eq_refl Hobj Hun). lia.
    + (* atom *)
      eexists (MarkState L_mark_next obj parent _), stk.
      split; [apply (mark_step_leaf _ _ _ _ _ _ Hm); by right|]. split.
      * by apply inv_leaf with (o0 := Object n false atom_class (atom_fields chars)).
      * unfold measure. cbn [pc cur_mem]. rewrite pending_insert by done.
        pose proof (unmarked_count_insert_lt objs m obj
          (Object n true atom_class (atom_fields chars)) eq_refl Hobj Hun). lia.
    + (* function *)
      eexists (MarkState L_start_marking data obj _), (obj :: stk).
      split; [apply (mark_step_function _ _ _ _ _ _ Hm)|]. split.
      * eapply inv_push
          with (o0 := Object n false function_class (function_fields apply data));
          try done.
      * unfold measure. cbn [pc cur_mem]. rewrite ?pending_cons.
        rewrite pending_insert by done.
        unfold weight. rewrite ?lookup_insert_eq, ?H1.
        pose proof (unmarked_count_insert_lt objs m obj
          (Object n true function_class (function_fields apply parent))
          eq_refl Hobj Hun). lia.
  - (* mark_next *)
    pose proof Hinv as [Hfr Hid Hmo Hcl Hst Hnd Hbu [Hobj Hreach] Hadv].
    cbn in Hfr, Hid, Hmo, Hcl, Hst, Hobj, Hreach, Hadv. specialize (Hadv eq_refl).
    destruct stk as [|p rest].
    { left. destruct Hst as [-> ->]. done. }
    right.
    destruct Hst as (-> & o0 & o & i & gp & H0 & H1 & Hrev & Hc & Hj & Hs).
    destruct (Hbu p) as [Hp Hrp]; [by left|].
    assert (p ≠ 0) as Hp0.
    { intros ->. by apply (hm_nonnull _ _ Hwf). }
    apply NoDup_cons in Hnd as Hnd'. destruct Hnd' as [Hpr _].
    destruct (hm_alloc _ _ Hwf p Hp) as (o0' & H0' & Hci).
    rewrite H0 in H0'. injection H0' as <-.
    assert (is_marked m p = true) as Hpm.
    { rewrite (is_marked_Some _ _ _ H1). apply Hrev. }
    destruct o0 as [n0 k0 c0 f0], o as [n k c f].
    destruct Hrev as (Hn & Hcl' & Hk0 & Hk & Hcase).
    cbn in Hn, Hcl', Hk0, Hk, Hcase, Hc, Hj. subst n k c k0.
    destruct c0, f0; try discriminate Hci; try done.
    + (* cons *)
      destruct Hcase as [[-> ->] | [-> ->]]; cbn in Hc; injection Hc as ->.
      * (* the head has been visited, the tail is next *)
        eexists (MarkState L_start_marking tail p _), (p :: rest).
        split; [by apply mark_step_cons_head|]. split.
        -- eapply inv_next with (i := 0%nat) (gp := gp); try done.
           split_and!; try done. by right.
        -- unfold measure. cbn [pc cur_mem]. rewrite ?pending_cons.
        rewrite pending_insert by done.
        unfold weight. rewrite ?lookup_insert_eq, ?H1.
           rewrite unmarked_count_insert_eq by done. lia.
      * (* both children have been visited *)
        eexists (MarkState L_mark_next p gp _), rest.
        split; [by apply mark_step_cons_tail|]. split.
        -- apply inv_pop
             with (obj := obj) (o0 := Object n0 false cons_class (cons_fields tail_is_next head obj));
             try done.
           intros c [->|[->|Hnil%elem_of_nil]%elem_of_cons]%elem_of_cons;
             [|done..].
           by apply (Hj 0%nat); [lia|].
        -- unfold measure. cbn [pc cur_mem]. rewrite ?pending_cons.
        rewrite pending_insert by done.
        unfold weight. rewrite ?lookup_insert_eq, ?H1.
           rewrite unmarked_count_insert_eq by done. lia.
    + (* function *)
      destruct Hcase as [-> ->]; cbn in Hc; injection Hc as ->.
      eexists (MarkState L_mark_next p gp _), rest.
      split; [by apply mark_step_function_data|]. split.
      * apply inv_pop
          with (obj := obj) (o0 := Object n0 false function_class (function_fields apply obj));
          try done.
        by intros c [->|Hnil%elem_of_nil]%elem_of_cons.
      * unfold measure. cbn [pc cur_mem]. rewrite ?pending_cons.
        rewrite pending_insert by done.
        unfold weight. rewrite ?lookup_insert_eq, ?H1.
        rewrite unmarked_count_insert_eq by done. lia.
Qed.


Lemma mark_loop_inv fuel stk st :
  inv stk st → (measure objs stk st < fuel)%nat →
  ∃ m', mark_loop fuel st = Ok m' ∧ inv [] (MarkState L_mark_next root 0 m').
Proof.
  revert stk st. induction fuel as [|fuel IH]; intros stk st Hinv Hlt; [lia|].
  destruct (mark_step_inv stk st Hinv)
    as [(-> & Hst & Hstep) | (st' & stk' & Hstep & Hinv' & Hdec)].
  - exists (cur_mem st). cbn. rewrite Hstep. cbn. split; [done|].
    by rewrite <- Hst.
  - cbn. rewrite Hstep. cbn. apply (IH stk' st' Hinv'). lia.
Qed.

Lemma class_inv_finished o : class_inv (finished o) = class_inv o.
Proof. by destruct o as [? ? [] []]. Qed.

Lemma inv_final (m' : gmap Z object) :
  inv [] (MarkState L_mark_next root 0 m') → mark_post objs m0 root m'.
Proof.
  intros [Hfr Hid Hmo Hcl Hst Hnd Hbu [Hobj Hreach] Hadv].
  cbn in Hfr, Hid, Hmo, Hcl, Hst, Hobj, Hreach, Hadv. specialize (Hadv eq_refl).
  assert (∀ a, m' !! a = m0 !! a ∨
     (reach m0 root a ∧ is_marked m0 a = false ∧ m' !! a = finished <$> m0 !! a))
    as Hcases.
  { intros a. destruct (decide (a ∈ objs)) as [Ha|Ha]; [|left; by apply Hfr].
    destruct (Hid a Ha) as (o0 & H0 & [Hm | (Hmk & Hm & Hr)]).
    - apply not_elem_of_nil.
    - left. by rewrite Hm, H0.
    - right. split; [done|]. split.
      + by rewrite (is_marked_Some _ _ _ H0).
      + by rewrite Hm, H0. }
  assert (∀ a, children m' a = children m0 a) as Hch.
  { intros a. unfold children. destruct (Hcases a) as [-> | (_ & _ & ->)]; [done|].
    destruct (m0 !! a); [apply children_of_finished|done]. }
  split.
  - split.
    + apply Hwf.
    + intros a Ha. destruct (hm_alloc _ _ Hwf a Ha) as (o & Ho & Hci).
      destruct (Hcases a) as [-> | (_ & _ & ->)]; [eauto|].
      rewrite Ho. eexists. split; [done|]. by rewrite class_inv_finished.
    + intros a c Ha. rewrite Hch. by apply (hm_closed _ _ Hwf).
  - done.
  - done.
  - intros Hc0 a c Ha Hma. rewrite Hch. apply (Hcl Hc0); [done| |done].
    apply not_elem_of_nil.
  - intros Hc0. apply (rtc_ind_r (λ a, is_marked m' a = true)); [done|].
    intros x y Hrx Hxy IH. apply (Hcl Hc0 x y); try done.
    + by eapply reach_objs.
    + apply not_elem_of_nil.
Qed.

(** [mark] returns, and does what [mark_post] says, whenever it is given
    more than [6 * length objs + 1] iterations. *)
Lemma mark_correct fuel :
  root ∈ objs → (6 * length objs + 1 < fuel)%nat →
  ∃ m', mark fuel root m0 = Ok m' ∧ mark_post objs m0 root m'.
Proof.
  intros Hroot Hfuel.
  destruct (mark_loop_inv fuel [] (MarkState L_start_marking root 0 m0))
    as (m' & Hrun & Hfin).
  - by apply inv_init.
  - unfold measure, pending. cbn.
    pose proof (unmarked_count_le objs m0). lia.
  - exists m'. split; [done|]. by apply inv_final.
Qed.

End marking_correct.

(** ** More fuel does not change a result *)

Lemma mark_loop_mono fuel fuel' st (r : result (gmap Z object)) :
  mark_loop fuel st = r → r ≠ OutOfFuel → (fuel ≤ fuel')%nat →
  mark_loop fuel' st = r.
Proof.
  revert fuel' st. induction fuel as [|fuel IH]; intros fuel' st Hr Hne Hle.
  - cbn in Hr. congruence.
  - destruct fuel' as [|fuel']; [lia|]. cbn in Hr |- *.
    destruct (mark_step st) as [[st'|m]| | |]; cbn in Hr |- *; try done.
    apply IH; [done|done|lia].
Qed.

Lemma mark_mono fuel fuel' a (m : gmap Z object) (r : result (gmap Z object)) :
  mark fuel a m = r → r ≠ OutOfFuel → (fuel ≤ fuel')%nat → mark fuel' a m = r.
Proof. apply mark_loop_mono. Qed.

(** ** Marks only ever get set during [mark] *)

Lemma set_fields_marked (m : gmap Z object) p o f a :
  m !! p = Some o →
  is_marked (set_fields m p o f) a = is_marked m a.
Proof.
  intros H. unfold set_fields. rewrite is_marked_insert.
  destruct (decide (p = a)) as [<-|]; [|done].
  by rewrite (is_marked_Some _ _ _ H).
Qed.

Lemma bind_Ok {A B} (e : result A) (k : A → result B) b :
  (x ← e; k x) = Ok b → ∃ a, e = Ok a ∧ k a = Ok b.
Proof. destruct e; cbn; [eauto|done..]. Qed.

Lemma same_marks_trans (m1 m2 m3 : gmap Z object) :
  same_marks m1 m2 → same_marks m2 m3 → same_marks m1 m3.
Proof. intros H1 H2 a. by rewrite H2, H1. Qed.

Lemma cons_set_head_marks (m m' : gmap Z object) p v :
  cons_set_head m p v = Ok m' → same_marks m m'.
Proof.
  unfold cons_set_head, load. destruct (m !! p) as [o|] eqn:Ho; cbn; [|done].
  destruct (fields o); try done. intros [= <-] a. by apply set_fields_marked.
Qed.

Lemma cons_set_tail_marks (m m' : gmap Z object) p v :
  cons_set_tail m p v = Ok m' → same_marks m m'.
Proof.
  unfold cons_set_tail, load. destruct (m !! p) as [o|] eqn:Ho; cbn; [|done].
  destruct (fields o); try done. intros [= <-] a. by apply set_fields_marked.
Qed.

Lemma cons_set_tail_is_next_marks (m m' : gmap Z object) p v :
  cons_set_tail_is_next m p v = Ok m' → same_marks m m'.
Proof.
  unfold cons_set_tail_is_next, load.
  destruct (m !! p) as [o|] eqn:Ho; cbn; [|done].
  destruct (fields o); try done. intros [= <-] a. by apply set_fields_marked.
Qed.

Lemma function_set_data_marks (m m' : gmap Z object) p v :
  function_set_data m p v = Ok m' → same_marks m m'.
Proof.
  unfold function_set_data, load.
  destruct (m !! p) as [o|] eqn:Ho; cbn; [|done].
  destruct (fields o); try done. intros [= <-] a. by apply set_fields_marked.
Qed.

Ltac bind_inv H :=
  repeat (let x := fresh "x" in let Hx := fresh "Hx" in
          apply bind_Ok in H as (x & Hx & H)).

Lemma start_marking_marks c obj parent (m m' : gmap Z object) b obj' parent' :
  start_marking (class_at c) obj parent m = Ok (b, obj', parent', m') →
  same_marks m m'.
Proof.
  destruct c; cbn; intros H.
  - by injection H as <- <- <- <-.
  - unfold cons_start_marking in H. bind_inv H. injection H as <- <- <- <-.
    eapply same_marks_trans;
      eauto using cons_set_head_marks, cons_set_tail_is_next_marks.
  - by injection H as <- <- <- <-.
  - unfold function_start_marking in H. bind_inv H. injection H as <- <- <- <-.
    eauto using function_set_data_marks.
Qed.

Lemma mark_next_marks c obj parent (m m' : gmap Z object) b obj' parent' :
  mark_next (class_at c) obj parent m = Ok (b, obj', parent', m') →
  same_marks m m'.
Proof.
  destruct c; cbn; intros H; try done.
  - unfold cons_mark_next in H. apply bind_Ok in H as ([] & Hf & H); bind_inv H;
      injection H as <- <- <- <-.
    + eapply same_marks_trans; [eapply same_marks_trans|];
        eauto using cons_set_head_marks, cons_set_tail_marks,
          cons_set_tail_is_next_marks.
    + eauto using cons_set_tail_marks.
  - unfold function_mark_next in H. bind_inv H. injection H as <- <- <- <-.
    eauto using function_set_data_marks.
Qed.

(** A step of [mark] never clears a mark, and a step that enters an unmarked
    object marks it. *)
Lemma mark_step_mono st st' a :
  mark_step st = Ok (Goto st') →
  is_marked (cur_mem st) a = true → is_marked (cur_mem st') a = true.
Proof.
  destruct st as [[] obj parent m]; unfold mark_step; cbn; intros H Ha.
  - apply bind_Ok in H as (o & Ho & H). destruct (marked o) eqn:Hmk.
    + by injection H as <-.
    + apply bind_Ok in H as (m1 & Hm1 & H).
      apply bind_Ok in H as ([[[b obj'] parent'] m2] & Hcb & H).
      injection H as <-. cbn. destruct b; cbn;
        rewrite (start_marking_marks _ _ _ _ _ _ _ _ Hcb);
        unfold set_marked in Hm1; rewrite Ho in Hm1; injection Hm1 as <-;
        by apply is_marked_insert_mono.
  - destruct (decide (parent = 0)); [done|].
    apply bind_Ok in H as (p & Hp & H).
    apply bind_Ok in H as ([[[b obj'] parent'] m2] & Hcb & H).
    injection H as <-. destruct b; cbn;
      by rewrite (mark_next_marks _ _ _ _ _ _ _ _ Hcb).
Qed.

Lemma mark_step_enter st st' :
  mark_step st = Ok (Goto st') → pc st = L_start_marking →
  is_marked (cur_mem st') (cur_object st) = true.
Proof.
  destruct st as [[] obj parent m]; unfold mark_step; cbn; intros H Hpc; [|done].
  apply bind_Ok in H as (o & Ho & H). destruct (marked o) eqn:Hmk.
  - injection H as <-. cbn. unfold load in Ho.
    destruct (m !! obj) as [o'|] eqn:Hm; [|done]. injection Ho as ->.
    by rewrite (is_marked_Some _ _ _ Hm).
  - apply bind_Ok in H as (m1 & Hm1 & H).
    apply bind_Ok in H as ([[[b obj'] parent'] m2] & Hcb & H).
    injection H as <-. destruct b; cbn;
      rewrite (start_marking_marks _ _ _ _ _ _ _ _ Hcb);
      unfold set_marked in Hm1; rewrite Ho in Hm1; injection Hm1 as <-;
      rewrite is_marked_insert; by rewrite decide_True.
Qed.

(** ** Runs *)

Lemma mark_run_mono n st st' a :
  mark_run n st = Some st' →
  is_marked (cur_mem st) a = true → is_marked (cur_mem st') a = true.
Proof.
  revert st. induction n as [|n IH]; intros st; cbn.
  - by intros [= <-].
  - destruct (mark_step st) as [[st1|]| | |] eqn:Hstep; try done.
    intros Hrun Ha. apply (IH st1 Hrun). by eapply mark_step_mono.
Qed.

Lemma mark_run_add n k st :
  mark_run (n + k) st = mark_run n st ≫= mark_run k.
Proof.
  revert st. induction n as [|n IH]; intros st; cbn; [done|].
  destruct (mark_step st) as [[st1|]| | |]; try done.
Qed.

Lemma mark_run_no_reentry k1 k2 st st1 st2 a :
  (k1 < k2)%nat →
  mark_run k1 st = Some st1 → mark_run k2 st = Some st2 →
  enters st1 a → ¬ enters st2 a.
Proof.
  intros Hlt H1 H2 (Hpc & <- & Hun) (_ & _ & Hun2).
  replace k2 with (k1 + S (k2 - k1 - 1))%nat in H2 by lia.
  rewrite mark_run_add, H1 in H2. cbn in H2.
  destruct (mark_step st1) as [[st1'|]| | |] eqn:Hstep; try done.
  pose proof (mark_step_enter _ _ Hstep Hpc) as Hin.
  pose proof (mark_run_mono _ _ _ _ H2 Hin). congruence.
Qed.

Lemma mark_run_loop n fuel st st' (m : gmap Z object) :
  mark_run n st = Some st' → mark_step st' = Ok (Return m) → (n < fuel)%nat →
  mark_loop fuel st = Ok m.
Proof.
  revert fuel st. induction n as [|n IH]; intros fuel st; cbn.
  - intros [= <-] Hret Hlt. destruct fuel; [lia|]. cbn. by rewrite Hret.
  - destruct (mark_step st) as [[st1|]| | |] eqn:Hstep; try done.
    intros Hrun Hret Hlt. destruct fuel; [lia|]. cbn. rewrite Hstep. cbn.
    apply (IH _ _ Hrun Hret). lia.
Qed.

Section marking_runs.

Variables (m0 : gmap Z object) (objs : list Z) (root : Z).
Hypothesis Hwf : heap_marking objs m0.

Lemma mark_run_inv k stk st :
  marking_inv m0 objs root stk st → (measure objs stk st ≤ k)%nat →
  ∃ n m', (n ≤ measure objs stk st)%nat ∧
    mark_run n st = Some (MarkState L_mark_next root 0 m').
Proof.
  revert stk st. induction k as [|k IH]; intros stk st Hinv Hle.
  - destruct (mark_step_inv m0 objs root Hwf stk st Hinv)
      as [(-> & Hst & Hstep) | (st' & stk' & Hstep & Hinv' & Hdec)]; [|lia].
    exists 0%nat, (cur_mem st). split; [lia|]. cbn. by rewrite <- Hst.
  - destruct (mark_step_inv m0 objs root Hwf stk st Hinv)
      as [(-> & Hst & Hstep) | (st' & stk' & Hstep & Hinv' & Hdec)].
    + exists 0%nat, (cur_mem st). split; [lia|]. cbn. by rewrite <- Hst.
    + destruct (IH stk' st' Hinv') as (n & m' & Hn & Hrun); [lia|].
      exists (S n), m'. split; [lia|]. cbn. by rewrite Hstep.
Qed.

Lemma mark_run_terminal :
  root ∈ objs →
  ∃ n m', (n ≤ 6 * length objs + 1)%nat ∧
    mark_run n (MarkState L_start_marking root 0 m0)
    = Some (MarkState L_mark_next root 0 m').
Proof.
  intros Hroot.
  destruct (mark_run_inv (6 * length objs + 1) []
              (MarkState L_start_marking root 0 m0))
    as (n & m' & Hn & Hrun).
  - by apply inv_init.
  - unfold measure, pending. cbn [pc cur_mem fmap list_fmap sum_list].
    pose proof (unmarked_count_le objs m0). lia.
  - exists n, m'. split; [|done].
    unfold measure, pending in Hn. cbn [pc cur_mem fmap list_fmap sum_list] in Hn.
    pose proof (unmarked_count_le objs m0). lia.
Qed.

Lemma mark_Ok_post fuel (m' : gmap Z object) :
  root ∈ objs → mark fuel root m0 = Ok m' → mark_post objs m0 root m'.
Proof.
  intros Hroot Hrun.
  destruct (mark_correct m0 objs root Hwf (fuel + (6 * length objs + 2)))
    as (m1 & Hrun1 & Hpost); [done|lia|].
  apply (mark_mono _ (fuel + (6 * length objs + 2))) in Hrun; [|done|lia].
  congruence.
Qed.

End marking_runs.

(** ** The mark phase of [gc] *)

Lemma reach_children (m m' : gmap Z object) a b :
  (∀ x, children m' x = children m x) → reach m a b → reach m' a b.
Proof.
  intros Hch. apply rtc_subrel. intros x y. unfold edge. by rewrite Hch.
Qed.

Lemma finished_children (m m' : gmap Z object) :
  (∀ a, m' !! a = m !! a ∨ m' !! a = finished <$> m !! a) →
  ∀ x, children m' x = children m x.
Proof.
  intros H x. unfold children. destruct (H x) as [-> | ->]; [done|].
  destruct (m !! x); [apply children_of_finished|done].
Qed.

Lemma mark_post_children objs (m m' : gmap Z object) root :
  mark_post objs m root m' → ∀ x, children m' x = children m x.
Proof.
  intros Hp. apply finished_children. intros a.
  destruct (mp_cases _ _ _ _ Hp a) as [?|(_ & _ & ?)]; eauto.
Qed.

Lemma is_marked_finished (m m' : gmap Z object) a :
  m' !! a = finished <$> m !! a → is_marked m a = true → is_marked m' a = true.
Proof.
  unfold is_marked. intros ->. by destruct (m !! a).
Qed.

Lemma mark_roots_correct fuel objs rs s :
  heap_marking objs (mem s) → marks_closed objs (mem s) →
  (∀ c, c ∈ rs → ∃ r, cells s !! c = Some r ∧ r ∈ objs) →
  (6 * length objs + 1 < fuel)%nat →
  ∃ m', mark_roots fuel rs s = Ok (set_mem s m') ∧
        roots_post objs (cells s) rs (mem s) m'.
Proof.
  intros Hwf Hcl Hrs Hfuel. revert s Hwf Hcl Hrs.
  induction rs as [|c rs IH]; intros s Hwf Hcl Hrs.
  - exists (mem s). split; [by destruct s|]. split; [done|done|by left|].
    intros c r a Hc. by apply elem_of_nil in Hc.
  - destruct (Hrs c) as (r & Hc & Hr); [by left|].
    destruct (mark_correct (mem s) objs r Hwf fuel Hr Hfuel) as (m1 & Hrun & Hp).
    destruct (IH (set_mem s m1)) as (m' & Hrun' & Hp').
    { apply Hp. }
    { by apply (mp_closed _ _ _ _ Hp). }
    { intros c' Hc'. apply Hrs. by right. }
    cbn in Hp'.
    pose proof (mark_post_children _ _ _ _ Hp) as Hch.
    exists m'. split.
    { cbn. unfold load_cell. rewrite Hc. cbn. rewrite Hrun. cbn. by rewrite Hrun'. }
    split.
    + apply Hp'.
    + apply Hp'.
    + intros a.
      destruct (rp_cases _ _ _ _ _ Hp' a) as [H1 | (Hun & (c' & r' & Hc' & Hcr' & Hre) & H1)];
        destruct (mp_cases _ _ _ _ Hp a) as [H2 | (Hre2 & Hun2 & H2)].
      * left. congruence.
      * right. split; [done|]. split; [|congruence].
        exists c, r. split; [by left|done].
      * right. split; [|split].
        -- unfold is_marked in Hun |- *. by rewrite <- H2.
        -- exists c', r'. split; [by right|]. split; [done|].
           eapply reach_children; [|done]. intros x. by rewrite Hch.
        -- by rewrite H1, H2.
      * destruct (mem s !! a) as [o|] eqn:Ha.
        -- exfalso. unfold is_marked in Hun. by rewrite H2 in Hun.
        -- left. by rewrite H1, H2.
    + intros c' r' a [->|Hc']%elem_of_cons Hcr' Hre.
      * rewrite Hc in Hcr'. injection Hcr' as <-.
        pose proof (mp_marked _ _ _ _ Hp Hcl a Hre) as Hm.
        destruct (rp_cases _ _ _ _ _ Hp' a) as [H1 | (_ & _ & H1)].
        -- unfold is_marked in Hm |- *. by rewrite H1.
        -- by eapply is_marked_finished.
      * apply (rp_marked _ _ _ _ _ Hp' c' r'); try done.
        by eapply reach_children.
Qed.

(** ** The sweep phase of [gc] *)

Lemma object_list_frame (m m' : gmap Z object) a elems :
  (∀ e o, e ∈ elems → m !! e = Some o → ∃ o', m' !! e = Some o' ∧ next o' = next o) →
  object_list m a elems → object_list m' a elems.
Proof.
  revert a. induction elems as [|e elems IH]; intros a Hfr; [done|].
  intros (-> & He & o & Ho & Hl). split; [done|]. split; [done|].
  destruct (Hfr e o) as (o' & Ho' & Hn); [by left|done|].
  exists o'. split; [done|]. rewrite Hn. apply IH; [|done].
  intros x ox Hx. apply Hfr. by right.
Qed.

Lemma object_list_inj (m : gmap Z object) a elems elems' :
  object_list m a elems → object_list m a elems' → elems = elems'.
Proof.
  revert a elems'. induction elems as [|e elems IH]; intros a [|e' elems'].
  - done.
  - intros -> (<- & He & _). done.
  - intros (<- & He & _) ->. done.
  - intros (-> & He & o & Ho & Hl) (<- & _ & o' & Ho' & Hl').
    rewrite Ho in Ho'. injection Ho' as <-. f_equal. by apply (IH (next o)).
Qed.

Lemma survivors_ext (m m' : gmap Z object) elems :
  (∀ e, e ∈ elems → is_marked m' e = is_marked m e) →
  survivors m' elems = survivors m elems.
Proof.
  unfold survivors. induction elems as [|x elems IH]; intros H; [done|].
  rewrite !filter_cons. rewrite (H x) by by left.
  rewrite IH; [done|]. intros e He. apply H. by right.
Qed.

Lemma survivors_cons_marked (m : gmap Z object) e elems :
  is_marked m e = true → survivors m (e :: elems) = e :: survivors m elems.
Proof. intros H. unfold survivors. rewrite filter_cons. by rewrite decide_True. Qed.

Lemma survivors_cons_unmarked (m : gmap Z object) e elems :
  is_marked m e = false → survivors m (e :: elems) = survivors m elems.
Proof.
  intros H. unfold survivors. rewrite filter_cons. rewrite decide_False; [done|].
  by rewrite H.
Qed.

Lemma elem_of_survivors (m : gmap Z object) e elems :
  e ∈ survivors m elems ↔ e ∈ elems ∧ is_marked m e = true.
Proof. unfold survivors. rewrite list_elem_of_filter. tauto. Qed.

(** Disposing of an allocated object of a class other than nil frees it. *)
Lemma dispose_eq (m : gmap Z object) e o :
  m !! e = Some o → class_inv o = true → class o ≠ nil_class →
  dispose (class_at (class o)) e m = Ok (delete e m).
Proof.
  intros Ho Hci Hnil. destruct o as [n k [] f]; cbn in *; try done;
    unfold cons_dispose, atom_dispose, function_dispose, free, load;
    rewrite Ho; cbn; try done.
  by destruct f.
Qed.

Lemma read_link_next s p a :
  read_link s (Link_next p) = Ok a ↔ ∃ o, mem s !! p = Some o ∧ next o = a.
Proof.
  cbn. unfold load. destruct (mem s !! p) as [o|]; cbn.
  - split; [intros [= <-]; eauto|]. by intros (o' & [= <-] & <-).
  - split; [done|]. by intros (? & ? & _).
Qed.

Lemma sweep_correct fuel h s a elems :
  read_link s h = Ok a →
  object_list (mem s) a elems →
  NoDup elems →
  (∀ p, h = Link_next p → p ∉ elems) →
  (∀ e o, e ∈ elems → mem s !! e = Some o → class_inv o = true) →
  Z.of_nat (length elems) ≤ object_count s →
  (length elems < fuel)%nat →
  (∃ s', sweep fuel h s = Ok s' ∧ sweep_post h elems s s') ∨
  (sweep fuel h s = Exit ∧
   ∃ e o, e ∈ elems ∧ mem s !! e = Some o ∧ marked o = false ∧ class o = nil_class).
Proof.
  revert fuel h s a.
  induction elems as [|e rest IH];
    intros fuel h s a Hread Hlist Hnd Hlink Hcls Hcnt Hfuel.
  - cbn in Hlist. subst a. destruct fuel; [cbn in Hfuel; lia|].
    cbn. rewrite Hread. cbn.
    left. exists s. split; [done|]. split.
    + by exists 0.
    + intros e He. by apply elem_of_nil in He.
    + intros e He. by apply elem_of_nil in He.
    + done.
    + intros p ->. apply read_link_next in Hread as (o & Ho & _). by exists o, o.
    + done.
    + done.
    + cbn. lia.
    + done.
  - destruct Hlist as (-> & He0 & o & Ho & Hlist).
    apply NoDup_cons in Hnd as [Her Hnd].
    destruct fuel as [|fuel]; [lia|].
    cbn [sweep]. rewrite Hread. cbn. rewrite decide_False by done.
    unfold load. rewrite Ho. cbn.
    assert (class_inv o = true) as Hci by (apply (Hcls e); [by left|done]).
    assert (∀ p, h = Link_next p → p ≠ e ∧ p ∉ rest) as Hp.
    { intros p Hh. specialize (Hlink p Hh). by apply not_elem_of_cons in Hlink. }
    assert (∀ x, x ∈ rest → x ≠ e) as Hne by (by intros x Hx ->).
    pose proof (is_marked_Some _ _ _ Ho) as Hme.
    cbn in Hcnt, Hfuel.
    destruct (marked o) eqn:Hmk.
    + (* the object is kept and unmarked *)
      unfold set_marked, load. rewrite Ho. cbn.
      set (o1 := Object (next o) false (class o) (fields o)).
      set (s1 := set_mem s (<[e := o1]> (mem s))).
      destruct (IH fuel (Link_next e) s1 (next o))
        as [(s' & Hrun & Hpost) | (Hrun & e' & o' & He' & Ho' & Hmk' & Hcl')].
      * apply read_link_next. exists o1. split; [|done]. cbn.
        by rewrite lookup_insert_eq.
      * eapply object_list_frame; [|done]. intros x ox Hx Hox. exists ox.
        split; [|done]. cbn. rewrite lookup_insert_ne; [done|].
        intros ->. done.
      * done.
      * by intros p [= <-].
      * intros x ox Hx. cbn. rewrite lookup_insert_ne by (intros ->; done).
        intros Hox. apply (Hcls x); [by right|done].
      * cbn. lia.
      * lia.
      * left. exists s'. split; [done|].
        destruct Hpost as [(a' & Hr' & Hl') Hkept Hfreed Hother Hlk Hcells Hroots
          Hcount Hhead].
        assert (survivors (mem s1) rest = survivors (mem s) rest) as Hsv.
        { apply survivors_ext. intros x Hx. cbn. rewrite is_marked_insert.
          rewrite decide_False; [done|]. intros ->. done. }
        rewrite Hsv in Hl', Hcount.
        apply read_link_next in Hr' as (o' & Ho' & Hn').
        destruct (Hlk e eq_refl) as (o1' & o'' & Ho1 & Ho'' & Hk1 & Hk2 & Hk3).
        cbn in Ho1. rewrite lookup_insert_eq in Ho1. injection Ho1 as <-.
        rewrite Ho' in Ho''. injection Ho'' as <-.
        assert (∀ x, x ≠ e → x ∉ rest → mem s' !! x = mem s !! x) as Hfr.
        { intros x Hxe Hxr. rewrite Hother; [|done|by intros [= ->]].
          cbn. by rewrite lookup_insert_ne. }
        split.
        -- exists e. rewrite survivors_cons_marked by done. split.
           ++ destruct h as [|p]; cbn.
              ** rewrite Hhead by done. cbn. cbn in Hread. congruence.
              ** destruct (Hp p eq_refl) as [Hpe Hpr].
                 apply read_link_next in Hread as (po & Hpo & Hpn).
                 unfold load. rewrite Hfr by done. rewrite Hpo. cbn. by rewrite Hpn.
           ++ split; [done|]. split; [done|]. exists o'. split; [done|].
              by rewrite Hn'.
        -- intros x [->|Hx]%elem_of_cons Hxm.
           ++ exists o, o'. by split_and!.
           ++ destruct (Hkept x Hx) as (ox & ox' & Hox & Hox' & Hrest).
              { cbn. rewrite is_marked_insert. by rewrite decide_False by (intros ->; done). }
              exists ox, ox'. split; [|done]. cbn in Hox.
              by rewrite lookup_insert_ne in Hox by (intros ->; done).
        -- intros x [->|Hx]%elem_of_cons Hxm; [congruence|].
           apply Hfreed; [done|]. cbn. rewrite is_marked_insert.
           by rewrite decide_False by (intros ->; done).
        -- intros x [Hxe Hxr]%not_elem_of_cons Hhx. by apply Hfr.
        -- intros p ->. destruct (Hp p eq_refl) as [Hpe Hpr].
           apply read_link_next in Hread as (po & Hpo & Hpn).
           exists po, po. split; [done|]. split; [|done]. by rewrite Hfr.
        -- by rewrite Hcells.
        -- by rewrite Hroots.
        -- rewrite Hcount. rewrite survivors_cons_marked by done. cbn. lia.
        -- intros Hh. by rewrite Hhead.
      * right. split; [done|]. exists e', o'. split; [by right|]. split; [|done].
        cbn in Ho'. by rewrite lookup_insert_ne in Ho' by (intros ->; done).
    + (* the object is unlinked and disposed of *)
      unfold decr_object_count. rewrite decide_False by (unfold INT_MIN; lia).
      cbn.
      assert (∀ (m : gmap Z object) x, x ∈ rest →
                is_marked (delete e m) x = is_marked m x) as Hdel.
      { intros m x Hx. unfold is_marked. rewrite lookup_delete_ne; [done|].
        intros ->. done. }
      destruct (decide (class o = nil_class)) as [Hnil|Hnil].
      { (* [nil_dispose] aborts *)
        right. split; [|by exists e, o; split_and!; [left|..]].
        destruct h as [|p]; cbn; [by rewrite Hnil|].
        apply read_link_next in Hread as (po & Hpo & Hpn).
        unfold set_next, load. cbn. rewrite Hpo. cbn. by rewrite Hnil. }
      destruct h as [|p].
      * (* the cursor is [&heap_head] *)
        cbn. rewrite (dispose_eq _ _ _ Ho Hci Hnil). cbn.
        set (s3 := set_mem (set_heap_head (set_object_count s (object_count s - 1))
                              (next o)) (delete e (mem s))).
        destruct (IH fuel Link_heap_head s3 (next o))
          as [(s' & Hrun & Hpost) | (Hrun & e' & o' & He' & Ho' & Hmk' & Hcl')].
        -- done.
        -- eapply object_list_frame; [|done]. intros x ox Hx Hox. exists ox.
           split; [|done]. cbn. rewrite lookup_delete_ne; [done|].
           intros ->. done.
        -- done.
        -- done.
        -- intros x ox Hx. cbn. rewrite lookup_delete_ne by (intros ->; done).
           intros Hox. apply (Hcls x); [by right|done].
        -- cbn. lia.
        -- lia.
        -- left. exists s'. split; [done|].
           destruct Hpost as [(a' & Hr' & Hl') Hkept Hfreed Hother Hlk Hcells
             Hroots Hcount Hhead].
           assert (survivors (mem s3) rest = survivors (mem s) rest) as Hsv.
           { apply survivors_ext. intros x Hx. by apply Hdel. }
           rewrite Hsv in Hl', Hcount.
           split.
           ++ exists a'. by rewrite survivors_cons_unmarked.
           ++ intros x [->|Hx]%elem_of_cons Hxm; [congruence|].
              destruct (Hkept x Hx) as (ox & ox' & Hox & Hox' & Hrest).
              { cbn. by rewrite Hdel. }
              exists ox, ox'. split; [|done]. cbn in Hox.
              by rewrite lookup_delete_ne in Hox by (intros ->; done).
           ++ intros x [->|Hx]%elem_of_cons Hxm.
              ** rewrite Hother by done. cbn. apply lookup_delete_eq.
              ** apply Hfreed; [done|]. cbn. by rewrite Hdel.
           ++ intros x [Hxe Hxr]%not_elem_of_cons Hhx. rewrite Hother by done.
              cbn. by rewrite lookup_delete_ne.
           ++ done.
           ++ by rewrite Hcells.
           ++ by rewrite Hroots.
           ++ rewrite Hcount. rewrite survivors_cons_unmarked by done. cbn. lia.
           ++ done.
        -- right. split; [done|]. exists e', o'. split; [by right|]. split; [|done].
           cbn in Ho'. by rewrite lookup_delete_ne in Ho' by (intros ->; done).
      * (* the cursor is the [next] field of the last object kept *)
        destruct (Hp p eq_refl) as [Hpe Hpr].
        apply read_link_next in Hread as Hread'. destruct Hread' as (po & Hpo & Hpn).
        cbn. unfold set_next, load. cbn. rewrite Hpo. cbn.
        set (po' := Object (next o) (marked po) (class po) (fields po)).
        erewrite (dispose_eq _ e o); [|by rewrite lookup_insert_ne|done|done].
        cbn.
        set (s3 := set_mem (set_mem (set_object_count s (object_count s - 1))
                              (<[p := po']> (mem s)))
                           (delete e (<[p := po']> (mem s)))).
        assert (∀ x, x ≠ e → x ≠ p → mem s3 !! x = mem s !! x) as Hfr3.
        { intros x Hxe Hxp. cbn. rewrite lookup_delete_ne by done.
          by rewrite lookup_insert_ne. }
        assert (mem s3 !! p = Some po') as Hp3.
        { cbn. rewrite lookup_delete_ne by done. by rewrite lookup_insert_eq. }
        destruct (IH fuel (Link_next p) s3 (next o))
          as [(s' & Hrun & Hpost) | (Hrun & e' & o' & He' & Ho' & Hmk' & Hcl')].
        -- apply read_link_next. by exists po'.
        -- eapply object_list_frame; [|done]. intros x ox Hx Hox. exists ox.
           split; [|done]. rewrite Hfr3; [done|by apply Hne|]. by intros ->.
        -- done.
        -- by intros ? [= <-].
        -- intros x ox Hx. rewrite Hfr3; [|by apply Hne|by intros ->].
           intros Hox. apply (Hcls x); [by right|done].
        -- cbn. lia.
        -- lia.
        -- left. exists s'. split; [done|].
           destruct Hpost as [(a' & Hr' & Hl') Hkept Hfreed Hother Hlk Hcells
             Hroots Hcount Hhead].
           assert (∀ x, x ∈ rest → is_marked (mem s3) x = is_marked (mem s) x) as Hm3.
           { intros x Hx. unfold is_marked. rewrite Hfr3; [done|by apply Hne|].
             by intros ->. }
           assert (survivors (mem s3) rest = survivors (mem s) rest) as Hsv.
           { by apply survivors_ext. }
           rewrite Hsv in Hl', Hcount.
           split.
           ++ exists a'. by rewrite survivors_cons_unmarked.
           ++ intros x [->|Hx]%elem_of_cons Hxm; [congruence|].
              destruct (Hkept x Hx) as (ox & ox' & Hox & Hox' & Hrest).
              { by rewrite Hm3. }
              exists ox, ox'. split; [|done].
              rewrite Hfr3 in Hox; [done|by apply Hne|by intros ->].
           ++ intros x [->|Hx]%elem_of_cons Hxm.
              ** rewrite Hother; [|done|by intros [= ->]]. cbn. apply lookup_delete_eq.
              ** apply Hfreed; [done|]. by rewrite Hm3.
           ++ intros x [Hxe Hxr]%not_elem_of_cons Hhx. rewrite Hother by done.
              apply Hfr3; [done|]. by intros ->.
           ++ intros ? [= <-].
              destruct (Hlk p eq_refl) as (o3 & o3' & Ho3 & Ho3' & Hk1 & Hk2 & Hk3).
              rewrite Hp3 in Ho3. injection Ho3 as <-.
              exists po, o3'. by split_and!.
           ++ by rewrite Hcells.
           ++ by rewrite Hroots.
           ++ rewrite Hcount. rewrite survivors_cons_unmarked by done. cbn. lia.
           ++ intros _. by rewrite Hhead.
        -- right. split; [done|]. exists e', o'. split; [by right|]. split; [|done].
           rewrite Hfr3 in Ho'; [done|by apply Hne|by intros ->].
Qed.

(** ** [gc] as a whole *)

Lemma class_inv_fields o o' :
  class o' = class o → fields o' = fields o → class_inv o' = class_inv o.
Proof. unfold class_inv. by intros -> ->. Qed.

Lemma children_of_fields o o' :
  fields o' = fields o → children_of o' = children_of o.
Proof. unfold children_of. by intros ->. Qed.

Lemma gc_correct fuel s objs :
  heap_inv s objs → (6 * length objs + 1 < fuel)%nat →
  (∃ s' objs', gc fuel s = Ok s' ∧ gc_post s objs s' objs') ∨
  (gc fuel s = Exit ∧
   ∃ e o, e ∈ objs ∧ mem s !! e = Some o ∧ class o = nil_class ∧ ¬ reachable s e).
Proof.
  intros [Hlist Hnd Hwf Hun Hroots Hcount Hcap] Hfuel.
  assert (marks_closed objs (mem s)) as Hcl0.
  { intros a c Ha Hm. rewrite (Hun a Ha) in Hm. done. }
  destruct (mark_roots_correct fuel objs (roots_head s) s Hwf Hcl0 Hroots Hfuel)
    as (mk & Hmark & [Hwfk Hclk Hcases Hmarked]).
  unfold gc. rewrite Hmark. cbn.
  assert (∀ a, a ∈ objs → is_marked mk a = true ↔ reachable s a) as Hiff.
  { intros a Ha. split.
    - intros Hm. destruct (Hcases a) as [Heq | (_ & (c & r & Hr) & _)].
      + unfold is_marked in Hm. rewrite Heq in Hm.
        specialize (Hun a Ha). unfold is_marked in Hun. congruence.
      + by exists c, r.
    - intros (c & r & Hc & Hcr & Hre). by apply (Hmarked c r). }
  assert (∀ a o, a ∈ objs → mem s !! a = Some o →
            mk !! a = Some o ∨ mk !! a = Some (finished o)) as Hobj.
  { intros a o Ha Ho. destruct (Hcases a) as [-> | (_ & _ & ->)]; rewrite Ho; eauto. }
  assert (object_list mk (heap_head s) objs) as Hlistk.
  { eapply object_list_frame; [|done]. intros e o He Ho.
    destruct (Hobj e o He Ho) as [-> | ->]; eauto. }
  destruct (sweep_correct fuel Link_heap_head (set_mem s mk) (heap_head s) objs)
    as [(s' & Hsweep & Hpost) | (Hsweep & e & o & He & Ho & Hmk & Hcl)];
    try done.
  - intros e o He Ho. cbn in Ho.
    destruct (hm_alloc _ _ Hwfk e He) as (o' & Ho' & Hci). congruence.
  - cbn. lia.
  - lia.
  - (* the sweep returns *)
    left. exists s', (survivors mk objs). split; [done|].
    destruct Hpost as [(a' & Hr' & Hl') Hkept Hfreed Hother _ Hcells
      Hrts Hcnt _].
    cbn in Hr', Hl', Hkept, Hfreed, Hother, Hcells, Hrts, Hcnt.
    injection Hr' as <-.
    assert (∀ a, a ∈ survivors mk objs → is_marked (mem s') a = false) as Hun'.
    { intros a [Ha Hm]%elem_of_survivors.
      destruct (Hkept a Ha Hm) as (o & o' & _ & Ho' & Hmk & _).
      by rewrite (is_marked_Some _ _ _ Ho'). }
    assert (∀ a, a ∈ survivors mk objs → children (mem s') a = children mk a) as Hch.
    { intros a [Ha Hm]%elem_of_survivors.
      destruct (Hkept a Ha Hm) as (o & o' & Ho & Ho' & _ & _ & Hf).
      rewrite (children_Some _ _ _ Ho), (children_Some _ _ _ Ho').
      by apply children_of_fields. }
    split.
    + split.
      * done.
      * by apply NoDup_filter.
      * split.
        -- intros [H0 _]%elem_of_survivors. by apply (hm_nonnull _ _ Hwf).
        -- intros a [Ha Hm]%elem_of_survivors.
           destruct (Hkept a Ha Hm) as (o & o' & Ho & Ho' & _ & Hc & Hf).
           exists o'. split; [done|]. rewrite (class_inv_fields _ _ Hc Hf).
           destruct (hm_alloc _ _ Hwfk a Ha) as (o1 & Ho1 & Hci). congruence.
        -- intros a c Ha. rewrite (Hch a Ha).
           apply elem_of_survivors in Ha as [Ha Hm]. intros Hc.
           apply elem_of_survivors. split.
           ++ by apply (hm_closed _ _ Hwfk a).
           ++ by apply (Hclk a).
      * done.
      * intros c Hc. rewrite Hrts in Hc. rewrite Hcells.
        destruct (Hroots c Hc) as (r & Hcr & Hr). exists r. split; [done|].
        apply elem_of_survivors. split; [done|].
        apply (Hmarked c r); [done..|]. apply rtc_refl.
      * rewrite Hcnt, Hcount. lia.
      * rewrite Hcnt. pose proof (length_filter (λ e, is_marked mk e = true) objs).
        unfold survivors. lia.
    + intros a. rewrite elem_of_survivors. split.
      * intros [Ha Hm]. split; [done|]. by apply Hiff.
      * intros [Ha Hr]. split; [done|]. by apply Hiff.
    + apply sublist_filter.
    + intros a [Ha Hm]%elem_of_survivors.
      destruct (Hkept a Ha Hm) as (o & o' & Ho & Ho' & Hmk & Hc & Hf).
      destruct (hm_alloc _ _ Hwf a Ha) as (o0 & Ho0 & _).
      specialize (Hun a Ha). rewrite (is_marked_Some _ _ _ Ho0) in Hun.
      rewrite (is_marked_Some _ _ _ Ho) in Hm.
      destruct (Hobj a o0 Ha Ho0) as [Heq | Heq]; rewrite Heq in Ho;
        injection Ho as <-; [congruence|].
      by exists o0, o'.
    + intros a Ha Hns. apply Hfreed; [done|].
      destruct (is_marked mk a) eqn:Hm; [|done].
      exfalso. apply Hns. by apply elem_of_survivors.
    + intros a Ha. rewrite Hother by done. cbn.
      destruct (Hcases a) as [-> | (_ & (c & r & Hc & Hcr & Hre) & _)]; [done|].
      exfalso. apply Ha. destruct (Hroots c Hc) as (r' & Hcr' & Hr').
      rewrite Hcr in Hcr'. injection Hcr' as <-.
      apply (reach_objs (mem s) objs Hwf r a Hr' Hre).
    + done.
    + done.
  - (* an unreachable nil object makes the sweep abort *)
    right. split; [done|]. cbn in Ho.
    destruct (hm_alloc _ _ Hwf e He) as (o0 & Ho0 & _).
    assert (is_marked mk e = false) as Hme by by rewrite (is_marked_Some _ _ _ Ho).
    destruct (Hobj e o0 He Ho0) as [Heq | Heq]; rewrite Heq in Ho;
      injection Ho as <-; [|done].
    exists e, o0. split_and!; try done.
    intros Hr. apply Hiff in Hr; [|done]. congruence.
Qed.

Lemma mark_roots_mono fuel fuel' rs s (r : result state) :
  mark_roots fuel rs s = r → r ≠ OutOfFuel → (fuel ≤ fuel')%nat →
  mark_roots fuel' rs s = r.
Proof.
  intros Hr Hne Hle. revert s Hr. induction rs as [|c rs IH]; intros s Hr; [done|].
  cbn in Hr |- *. destruct (load_cell s c) as [v| | |]; cbn in Hr |- *; try done.
  destruct (mark fuel v (mem s)) as [m| | |] eqn:Hm; cbn in Hr.
  - rewrite (mark_mono _ fuel' _ _ _ Hm) by done. cbn. by apply IH.
  - by rewrite (mark_mono _ fuel' _ _ _ Hm).
  - by rewrite (mark_mono _ fuel' _ _ _ Hm).
  - congruence.
Qed.

Lemma sweep_mono fuel fuel' h s (r : result state) :
  sweep fuel h s = r → r ≠ OutOfFuel → (fuel ≤ fuel')%nat →
  sweep fuel' h s = r.
Proof.
  revert fuel' h s. induction fuel as [|fuel IH]; intros fuel' h s Hr Hne Hle.
  - cbn in Hr. congruence.
  - destruct fuel' as [|fuel']; [lia|]. cbn in Hr |- *.
    destruct (read_link s h) as [o| | |]; cbn in Hr |- *; try done.
    destruct (decide (o = 0)); [done|].
    destruct (load (mem s) o) as [ob| | |]; cbn in Hr |- *; try done.
    destruct (marked ob).
    + destruct (set_marked (mem s) o false) as [m| | |]; cbn in Hr |- *; try done.
      apply IH; [done|done|lia].
    + destruct (decr_object_count s) as [s1| | |]; cbn in Hr |- *; try done.
      destruct (write_link s1 h (next ob)) as [s2| | |]; cbn in Hr |- *; try done.
      destruct (dispose (class_at (class ob)) o (mem s2)) as [m| | |];
        cbn in Hr |- *; try done.
      apply IH; [done|done|lia].
Qed.

Lemma gc_mono fuel fuel' s (r : result state) :
  gc fuel s = r → r ≠ OutOfFuel → (fuel ≤ fuel')%nat → gc fuel' s = r.
Proof.
  unfold gc. intros Hr Hne Hle.
  destruct (mark_roots fuel (roots_head s) s) as [s1| | |] eqn:Hm; cbn in Hr.
  - rewrite (mark_roots_mono _ fuel' _ _ _ Hm) by done. cbn.
    by apply (sweep_mono fuel).
  - by rewrite (mark_roots_mono _ fuel' _ _ _ Hm).
  - by rewrite (mark_roots_mono _ fuel' _ _ _ Hm).
  - congruence.
Qed.

(** Whenever [gc] returns, with whatever budget, it has done what [gc_post]
    says. *)
Lemma gc_Ok_post fuel s objs s' :
  heap_inv s objs → gc fuel s = Ok s' → ∃ objs', gc_post s objs s' objs'.
Proof.
  intros Hinv Hrun.
  apply (gc_mono _ (fuel + (6 * length objs + 2))) in Hrun; [|done|lia].
  destruct (gc_correct (fuel + (6 * length objs + 2)) s objs Hinv)
    as [(s1 & objs' & Hrun1 & Hpost) | (Hexit & _)]; [lia| |congruence].
  exists objs'. congruence.
Qed.

Lemma reachable_objs s objs a : heap_inv s objs → reachable s a → a ∈ objs.
Proof.
  intros Hinv (c & r & Hc & Hcr & Hre).
  destruct (heap_roots _ _ Hinv c Hc) as (r' & Hcr' & Hr').
  rewrite Hcr in Hcr'. injection Hcr' as <-.
  apply (reach_objs (mem s) objs (heap_graph _ _ Hinv) r a Hr' Hre).
Qed.

(** ** Collecting twice *)

Lemma sublist_all (l1 l2 : list Z) :
  l1 `sublist_of` l2 → NoDup l2 → (∀ x, x ∈ l2 → x ∈ l1) → l1 = l2.
Proof.
  induction 1 as [|x l1 l2 Hsub IH|x l1 l2 Hsub IH]; intros Hnd Hall.
  - done.
  - apply NoDup_cons in Hnd as [Hx Hnd]. f_equal. apply IH; [done|].
    intros y Hy.
    assert (y ∈ x :: l1) as [->|Hin]%elem_of_cons by (apply Hall; by right);
      done.
  - apply NoDup_cons in Hnd as [Hx Hnd]. exfalso. apply Hx.
    eapply sublist_subseteq; [done|]. apply Hall. by left.
Qed.

Lemma reach_survive (m m' : gmap Z object) r a :
  (∀ x, reach m r x → children m' x = children m x) →
  reach m r a → reach m' r a.
Proof.
  intros Hch. revert a. apply (rtc_ind_r (λ a, reach m' r a)); [apply rtc_refl|].
  intros y z Hry Hyz IH. eapply rtc_r; [done|]. unfold edge. by rewrite Hch.
Qed.

Lemma object_list_next (m m' : gmap Z object) a a' elems :
  object_list m a elems → object_list m' a' elems →
  a = a' ∧ ∀ e o o', e ∈ elems → m !! e = Some o → m' !! e = Some o' →
             next o = next o'.
Proof.
  revert a a'. induction elems as [|x elems IH]; intros a a'.
  - intros -> ->. split; [done|]. intros e o o' He. by apply elem_of_nil in He.
  - intros (-> & Hx & o & Ho & Hl) (-> & _ & o' & Ho' & Hl').
    split; [done|]. destruct (IH _ _ Hl Hl') as [Hn Hrest].
    intros e oe oe' [->|He]%elem_of_cons Hoe Hoe'.
    + congruence.
    + by apply (Hrest e).
Qed.

Lemma gc_post_reachable s objs s' objs' a :
  heap_inv s objs → gc_post s objs s' objs' → a ∈ objs' → reachable s' a.
Proof.
  intros Hinv Hpost Ha.
  destruct (proj1 (gp_objs _ _ _ _ Hpost a) Ha) as (_ & c & r & Hc & Hcr & Hre).
  exists c, r. rewrite (gp_roots _ _ _ _ Hpost), (gp_cells _ _ _ _ Hpost).
  split; [done|]. split; [done|].
  eapply reach_survive; [|done]. intros x Hx.
  assert (x ∈ objs') as Hx'.
  { apply (gp_objs _ _ _ _ Hpost). split.
    - eapply reachable_objs; [done|]. by exists c, r.
    - by exists c, r. }
  destruct (gp_kept _ _ _ _ Hpost x Hx') as (o & o' & Ho & Ho' & _ & _ & Hf).
  rewrite (children_Some _ _ _ Ho), (children_Some _ _ _ Ho').
  rewrite (children_of_fields _ _ Hf). apply children_of_finished.
Qed.

Lemma gc_idempotent_post s objs s1 objs1 s2 objs2 :
  heap_inv s objs → gc_post s objs s1 objs1 → gc_post s1 objs1 s2 objs2 →
  s2 = s1.
Proof.
  intros Hinv Hp1 Hp2.
  pose proof (gp_heap _ _ _ _ Hp1) as Hinv1.
  pose proof (gp_heap _ _ _ _ Hp2) as Hinv2.
  assert (objs2 = objs1) as ->.
  { apply sublist_all; [apply Hp2|apply Hinv1|].
    intros x Hx. apply (gp_objs _ _ _ _ Hp2). split; [done|].
    apply (gc_post_reachable s objs s1 objs1 x Hinv Hp1 Hx). }
  destruct (object_list_next _ _ _ _ _ (heap_list _ _ Hinv1) (heap_list _ _ Hinv2))
    as [Hhead Hnext].
  assert (mem s2 = mem s1) as Hmem.
  { apply map_eq. intros a. destruct (decide (a ∈ objs1)) as [Ha|Ha].
    - destruct (gp_kept _ _ _ _ Hp1 a Ha) as (o & o1 & Ho & Ho1 & Hm1 & Hc1 & Hf1).
      destruct (gp_kept _ _ _ _ Hp2 a Ha) as (o1' & o2 & Ho1' & Ho2 & Hm2 & Hc2 & Hf2).
      rewrite Ho1 in Ho1'. injection Ho1' as <-.
      rewrite Ho1, Ho2. f_equal.
      pose proof (Hnext a o1 o2 Ha Ho1 Ho2) as Hn.
      destruct o1 as [n1 k1 c1 f1], o2 as [n2 k2 c2 f2]. cbn in *. subst.
      f_equal. by destruct o as [? ? ? []].
    - apply (gp_other _ _ _ _ Hp2 a Ha). }
  pose proof (gp_cells _ _ _ _ Hp2) as Hcells.
  pose proof (gp_roots _ _ _ _ Hp2) as Hroots.
  pose proof (heap_count _ _ Hinv1) as Hc1.
  pose proof (heap_count _ _ Hinv2) as Hc2.
  destruct s1, s2. cbn in *. congruence.
Qed.

(** ** The example heap satisfies the invariant *)

Ltac elem_cases H :=
  unfold example_objs in H; set_unfold in H; destruct_or?; try done; subst.

Ltac elem_solve :=
  solve [repeat first [apply list_elem_of_here | apply list_elem_of_further]].

Lemma example_heap_marking : heap_marking example_objs example_mem.
Proof.
  split.
  - intros H. elem_cases H.
  - intros a Ha. elem_cases Ha; by eexists.
  - intros a c Ha Hc. elem_cases Ha; vm_compute in Hc; elem_cases Hc;
      unfold example_objs; elem_solve.
Qed.

Lemma example_unmarked a : a ∈ example_objs → is_marked example_mem a = false.
Proof. intros Ha. elem_cases Ha; done. Qed.

Lemma example_heap_inv : heap_inv example_state example_objs.
Proof.
  split.
  - cbn. repeat (split; [done|]; split; [done|]; eexists; split; [done|]). done.
  - unfold example_objs.
    repeat (constructor; [intros H; elem_cases H|]). constructor.
  - apply example_heap_marking.
  - apply example_unmarked.
  - intros c Hc. cbn in Hc. set_unfold in Hc. destruct_or?; try done; subst;
      eexists; (split; [done|]); unfold example_objs; elem_solve.
  - done.
  - done.
Qed.

(** The collection of the example heap: the atom [5] and the function [4]
    are freed; the conses [3] and [2] and the nil object [1] stay, with their
    child pointers as before and the cursor flags cleared. *)
Lemma example_gc_run :
  gc 40 example_state
  = Ok (State (<[1 := Object 0 false nil_class nil_fields]>
               (<[2 := Object 1 false cons_class (cons_fields false 3 1)]>
                {[3 := Object 2 false cons_class (cons_fields false 2 1)]}))
              (<[nil_root := 1]> {[stack_var 0 := 2]}) 3
              [stack_var 0; nil_root] 3).
Proof. vm_compute. reflexivity. Qed.

(** ** [register_object] *)

Lemma heap_marking_frame objs (m m' : gmap Z object) :
  (∀ a, a ∈ objs → m' !! a = m !! a) → heap_marking objs m → heap_marking objs m'.
Proof.
  intros Heq [Hnn Hal Hcl]. split.
  - done.
  - intros a Ha. rewrite Heq by done. by apply Hal.
  - intros a c Ha. unfold children. rewrite Heq by done. by apply Hcl.
Qed.

Lemma heap_inv_frame s s' objs :
  heap_inv s objs →
  (∀ a, a ∈ objs → mem s' !! a = mem s !! a) →
  heap_head s' = heap_head s → object_count s' = object_count s →
  (∀ c, c ∈ roots_head s' → ∃ r, cells s' !! c = Some r ∧ r ∈ objs) →
  heap_inv s' objs.
Proof.
  intros [Hl Hnd Hwf Hun Hr Hc Hcap] Hmem Hhead Hcnt Hroots. split.
  - rewrite Hhead. eapply object_list_frame; [|done].
    intros e o He Ho. exists o. by rewrite Hmem.
  - done.
  - by eapply heap_marking_frame.
  - intros a Ha. unfold is_marked. rewrite Hmem by done. by apply Hun.
  - done.
  - by rewrite Hcnt.
  - by rewrite Hcnt.
Qed.

Lemma link_object_inv s objs o c ob :
  heap_inv s objs → o ≠ 0 → o ∉ objs → mem s !! o = Some ob →
  class_inv (Object 0 false c (fields ob)) = true →
  (∀ ch, ch ∈ children_of ob → ch ∈ objs) →
  object_count s ≠ cap →
  heap_inv (link_object o c s) (o :: objs).
Proof.
  intros [Hl Hnd Hwf Hun Hr Hc Hcap] Ho0 Hno Hob Hci Hch Hne.
  unfold link_object. rewrite Hob.
  assert (∀ a, a ∈ objs →
    (<[o:=Object (heap_head s) false c (fields ob)]> (mem s)) !! a = mem s !! a)
    as Hfr.
  { intros a Ha. rewrite lookup_insert_ne; [done|]. by intros ->. }
  split; cbn.
  - split; [done|]. split; [done|]. eexists. split; [apply lookup_insert_eq|].
    cbn. eapply object_list_frame; [|done].
    intros e oe He Hoe. exists oe. by rewrite Hfr.
  - by constructor.
  - split.
    + intros [?|?]%elem_of_cons; [done|]. by apply (hm_nonnull _ _ Hwf).
    + intros a [->|Ha]%elem_of_cons.
      * eexists. split; [apply lookup_insert_eq|]. done.
      * rewrite Hfr by done. by apply (hm_alloc _ _ Hwf).
    + intros a ch [->|Ha]%elem_of_cons; unfold children.
      * rewrite lookup_insert_eq. intros Hc'. right. by apply Hch.
      * rewrite Hfr by done. intros Hc'. right. by apply (hm_closed _ _ Hwf a).
  - intros a [->|Ha]%elem_of_cons; unfold is_marked.
    + by rewrite lookup_insert_eq.
    + rewrite Hfr by done. by apply Hun.
  - intros cl Hcl. destruct (Hr cl Hcl) as (r & Hcr & Hro). exists r.
    split; [done|]. by right.
  - rewrite Hc. lia.
  - lia.
Qed.

Lemma register_object_eq fuel o c s objs :
  heap_inv s objs → o ∉ objs → is_Some (mem s !! o) →
  register_object fuel o c s
  = (s1 ← (if decide (object_count s = cap) then gc fuel s else mret s);
     if decide (object_count s1 = cap) then Exit else mret (link_object o c s1)).
Proof.
  intros Hinv Hno [ob Hob].
  assert (∀ s1, object_count s1 ≤ cap → mem s1 !! o = Some ob →
    (if decide (object_count s1 = cap)
     then error "register_object: object count limit reached."
     else
       s2 ← incr_object_count s1;
       m ← set_next (mem s2) o (heap_head s2);
       m ← set_marked m o false;
       m ← set_class m o c;
       mret (set_heap_head (set_mem s2 m) o))
    = (if decide (object_count s1 = cap) then Exit
       else mret (link_object o c s1))) as Hlink.
  { intros s1 Hcap1 Hob1. destruct (decide (object_count s1 = cap)); [done|].
    unfold incr_object_count. rewrite decide_False by (unfold INT_MAX, cap in *; lia).
    cbn. unfold set_next, set_marked, set_class, load. cbn. rewrite Hob1. cbn.
    rewrite lookup_insert_eq. cbn. rewrite lookup_insert_eq. cbn.
    rewrite !insert_insert_eq. unfold link_object. by rewrite Hob1. }
  unfold register_object.
  destruct (decide (object_count s = cap)) as [Hcap|Hcap].
  - destruct (gc fuel s) as [s1| | |] eqn:Hgc; cbn; try done.
    destruct (gc_Ok_post fuel s objs s1 Hinv Hgc) as (objs1 & Hpost).
    apply Hlink.
    + apply (heap_cap _ _ (gp_heap _ _ _ _ Hpost)).
    + by rewrite (gp_other _ _ _ _ Hpost o Hno).
  - cbn. apply Hlink; [apply Hinv|done].
Qed.

Lemma link_object_list s objs o c ob :
  heap_inv s objs → o ≠ 0 → o ∉ objs → mem s !! o = Some ob →
  object_list (mem (link_object o c s)) (heap_head (link_object o c s)) (o :: objs) ∧
  mem (link_object o c s) !! o = Some (Object (heap_head s) false c (fields ob)).
Proof.
  intros Hinv Ho0 Hno Hob. unfold link_object. rewrite Hob. cbn.
  split; [|apply lookup_insert_eq].
  split; [done|]. split; [done|]. eexists. split; [apply lookup_insert_eq|].
  cbn. eapply object_list_frame; [|apply Hinv].
  intros e oe He Hoe. exists oe. rewrite lookup_insert_ne; [done|]. by intros ->.
Qed.

Lemma register_object_inv fuel o c s objs ob s' :
  heap_inv s objs → o ≠ 0 → o ∉ objs → mem s !! o = Some ob →
  class_inv (Object 0 false c (fields ob)) = true →
  (∀ ch, ch ∈ children_of ob → ∃ cl, cl ∈ roots_head s ∧ cells s !! cl = Some ch) →
  register_object fuel o c s = Ok s' →
  ∃ objs1, heap_inv s' (o :: objs1) ∧ cells s' = cells s ∧
           roots_head s' = roots_head s ∧
           (∀ a, a ∉ objs → a ≠ o → mem s' !! a = mem s !! a) ∧
           (∀ a, a ∈ objs1 → a ∈ objs).
Proof.
  intros Hinv Ho0 Hno Hob Hci Hch Hrun.
  rewrite (register_object_eq fuel o c s objs Hinv Hno) in Hrun by eauto.
  assert (∀ s1 objs1, heap_inv s1 objs1 → o ∉ objs1 → mem s1 !! o = Some ob →
            cells s1 = cells s → roots_head s1 = roots_head s →
            object_count s1 ≠ cap →
            heap_inv (link_object o c s1) (o :: objs1)) as Hlink.
  { intros s1 objs1 Hinv1 Hno1 Hob1 Hcells Hroots Hne.
    apply (link_object_inv s1 objs1 o c ob); try done.
    intros ch Hc. destruct (Hch ch Hc) as (cl & Hcl & Hcv).
    rewrite <- Hroots in Hcl. rewrite <- Hcells in Hcv.
    destruct (heap_roots _ _ Hinv1 cl Hcl) as (r & Hr & Hro). congruence. }
  assert (∀ s1 a, a ≠ o → mem (link_object o c s1) !! a = mem s1 !! a) as Hother.
  { intros s1 a Ha. unfold link_object. cbn.
    destruct (mem s1 !! o); [|done]. by rewrite lookup_insert_ne. }
  destruct (decide (object_count s = cap)) as [Hcap|Hcap].
  - destruct (gc fuel s) as [s1| | |] eqn:Hgc; cbn in Hrun; try done.
    destruct (gc_Ok_post fuel s objs s1 Hinv Hgc) as (objs1 & Hpost).
    destruct (decide (object_count s1 = cap)); [done|]. injection Hrun as <-.
    assert (∀ a, a ∈ objs1 → a ∈ objs) as Hsub.
    { intros a Ha. by apply (gp_objs _ _ _ _ Hpost) in Ha as [? _]. }
    exists objs1. split_and!.
    + apply Hlink; try done.
      * apply Hpost.
      * intros Hin. by apply Hno, Hsub.
      * by rewrite (gp_other _ _ _ _ Hpost o Hno).
      * apply Hpost.
      * apply Hpost.
    + apply Hpost.
    + apply Hpost.
    + intros a Ha Hao. rewrite Hother by done. by apply (gp_other _ _ _ _ Hpost).
    + done.
  - cbn in Hrun. destruct (decide (object_count s = cap)); [done|].
    injection Hrun as <-. exists objs. split_and!; try done.
    + by apply Hlink.
    + intros a _ Hao. by apply Hother.
Qed.

(** ** The invariant across the interface *)

Lemma heap_inv_alloc s objs a : heap_inv s objs → a ∈ objs → is_Some (mem s !! a).
Proof.
  intros Hinv Ha. destruct (hm_alloc _ _ (heap_graph _ _ Hinv) a Ha) as (o & Ho & _).
  by exists o.
Qed.

Lemma heap_inv_root_alloc s objs c :
  heap_inv s objs → c ∈ roots_head s → is_Some (cells s !! c).
Proof.
  intros Hinv Hc. destruct (heap_roots _ _ Hinv c Hc) as (r & Hr & _). by exists r.
Qed.

Lemma push_root_inv n root s objs s' r :
  heap_inv s objs → cells s !! root = Some r → r ∈ objs →
  push_root n root s = Ok s' →
  s' = set_roots_head s (root :: roots_head s) ∧ heap_inv s' objs.
Proof.
  intros Hinv Hroot Hr. unfold push_root, stack_push.
  destruct (decide (n = 0)); cbn; [done|]. intros [= <-]. split; [done|].
  apply (heap_inv_frame s); try done. cbn.
  intros c [->|Hc]%elem_of_cons; [eauto|]. by apply (heap_roots _ _ Hinv).
Qed.

Lemma pop_root_inv s objs s' :
  heap_inv s objs → pop_root s = Ok s' →
  ∃ c rs, roots_head s = c :: rs ∧ s' = set_roots_head s rs ∧ heap_inv s' objs.
Proof.
  intros Hinv. unfold pop_root, stack_pop.
  destruct (roots_head s) as [|c rs] eqn:Hrs; cbn; [done|]. intros [= <-].
  exists c, rs. split; [done|]. split; [done|].
  apply (heap_inv_frame s); try done. cbn.
  intros c' Hc'. apply (heap_roots _ _ Hinv). rewrite Hrs. by right.
Qed.

Lemma set_root_inv root v s objs s' :
  heap_inv s objs → (root ∈ roots_head s → v ∈ objs) →
  set_root root v s = Ok s' →
  s' = set_cells s (<[root := v]> (cells s)) ∧ heap_inv s' objs.
Proof.
  intros Hinv Hv. unfold set_root, store_cell, load_cell.
  destruct (cells s !! root); cbn; [|done]. intros [= <-]. split; [done|].
  apply (heap_inv_frame s); try done. cbn.
  intros c Hc. destruct (decide (c = root)) as [->|Hne].
  - rewrite lookup_insert_eq. eauto.
  - rewrite lookup_insert_ne by done. by apply (heap_roots _ _ Hinv).
Qed.

Lemma enter_local_inv c v s objs :
  heap_inv s objs → cells s !! c = None → heap_inv (enter_local c v s) objs.
Proof.
  intros Hinv Hc. apply (heap_inv_frame s); try done. cbn.
  intros c' Hc'. destruct (heap_roots _ _ Hinv c' Hc') as (r & Hr & Hro).
  exists r. split; [|done]. rewrite lookup_insert_ne; [done|]. intros ->. congruence.
Qed.

Lemma leave_local_inv c s objs :
  heap_inv s objs → c ∉ roots_head s → heap_inv (leave_local c s) objs.
Proof.
  intros Hinv Hc. apply (heap_inv_frame s); try done. cbn.
  intros c' Hc'. destruct (heap_roots _ _ Hinv c' Hc') as (r & Hr & Hro).
  exists r. split; [|done]. rewrite lookup_delete_ne; [done|]. by intros ->.
Qed.

Lemma malloc_inv b f s objs :
  heap_inv s objs → mem s !! block_addr b = None →
  heap_inv (set_mem s (malloc b f (mem s))) objs.
Proof.
  intros Hinv Hb. apply (heap_inv_frame s); try done; [|apply Hinv]. cbn.
  intros a Ha. unfold malloc. rewrite lookup_insert_ne; [done|]. intros <-.
  destruct (heap_inv_alloc _ _ _ Hinv Ha) as [o Ho]. congruence.
Qed.

Lemma fresh_not_root s objs c :
  heap_inv s objs → cells s !! c = None → c ∉ roots_head s.
Proof.
  intros Hinv Hc Hin. destruct (heap_inv_root_alloc _ _ _ Hinv Hin) as [r Hr].
  congruence.
Qed.

Lemma fresh_not_object s objs b :
  heap_inv s objs → mem s !! block_addr b = None → block_addr b ∉ objs.
Proof.
  intros Hinv Hb Hin. destruct (heap_inv_alloc _ _ _ Hinv Hin) as [o Ho]. congruence.
Qed.

Lemma create_cons_inv fuel b n1 n2 ch ct head tail s objs p s' :
  heap_inv s objs → head ∈ objs → tail ∈ objs → fresh_block b s →
  cells s !! ch = None → cells s !! ct = None → ch ≠ ct →
  create_cons fuel b n1 n2 ch ct head tail s = Ok (p, s') →
  ∃ objs', heap_inv s' objs' ∧ p ∈ objs' ∧ roots_head s' = roots_head s ∧
           ∀ c, c ≠ ch → c ≠ ct → cells s' !! c = cells s !! c.
Proof.
  intros Hinv Hh Ht Hfresh Hch Hct Hne. unfold create_cons.
  destruct (decide (block_addr b = 0)) as [|Hb]; [done|].
  specialize (Hfresh Hb).
  set (s0 := enter_local ct tail (enter_local ch head s)).
  set (s1 := set_mem s0 (malloc b (cons_fields (junk_flag b) head tail) (mem s0))).
  intros Hrun.
  apply bind_Ok in Hrun as (s2 & H2 & Hrun).
  apply bind_Ok in Hrun as (s3 & H3 & Hrun).
  apply bind_Ok in Hrun as (s4 & H4 & Hrun).
  apply bind_Ok in Hrun as (s5 & H5 & Hrun).
  apply bind_Ok in Hrun as (s6 & H6 & Hrun).
  injection Hrun as <- <-.
  assert (heap_inv s0 objs) as Hinv0.
  { apply enter_local_inv; [by apply enter_local_inv|]. cbn.
    by rewrite lookup_insert_ne. }
  assert (heap_inv s1 objs) as Hinv1 by by apply malloc_inv.
  assert (cells s1 !! ch = Some head) as Hcvh.
  { cbn. rewrite lookup_insert_ne by done. by rewrite lookup_insert_eq. }
  assert (cells s1 !! ct = Some tail) as Hcvt.
  { cbn. by rewrite lookup_insert_eq. }
  destruct (push_root_inv _ _ _ _ _ _ Hinv1 Hcvh Hh H2) as [-> Hinv2].
  destruct (push_root_inv _ _ _ _ _ _ Hinv2 Hcvt Ht H3) as [-> Hinv3].
  destruct (register_object_inv fuel (block_addr b) cons_class _ objs
              (Object (junk_next b) (junk_marked b) (junk_class b)
                 (cons_fields (junk_flag b) head tail)) s4 Hinv3 Hb)
    as (objs1 & Hinv4 & Hcells4 & Hroots4 & _ & _); try done.
  { apply (fresh_not_object s objs b Hinv Hfresh). }
  { cbn. unfold malloc. by rewrite lookup_insert_eq. }
  { intros c [->|[->|Hnil%elem_of_nil]%elem_of_cons]%elem_of_cons; [| |done].
    - exists ch. split; [|done]. cbn. right. by left.
    - exists ct. split; [|done]. cbn. by left. }
  destruct (pop_root_inv _ _ _ Hinv4 H5) as (c5 & rs5 & Hr5 & -> & Hinv5).
  destruct (pop_root_inv _ _ _ Hinv5 H6) as (c6 & rs6 & Hr6 & -> & Hinv6).
  rewrite Hroots4 in Hr5. cbn in Hr5, Hr6. injection Hr5 as <- <-.
  injection Hr6 as <- <-.
  exists (block_addr b :: objs1). split_and!.
  - apply leave_local_inv; [apply leave_local_inv; [done|]|]; cbn.
    + apply (fresh_not_root s objs ct Hinv Hct).
    + apply (fresh_not_root s objs ch Hinv Hch).
  - by left.
  - done.
  - intros c Hcch Hcct. cbn. rewrite !lookup_delete_ne by done.
    rewrite Hcells4. cbn. by rewrite !lookup_insert_ne.
Qed.

Lemma create_atom_inv fuel b buffer s objs p s' :
  heap_inv s objs → fresh_block b s →
  create_atom fuel b buffer s = Ok (p, s') →
  ∃ objs', heap_inv s' objs'.
Proof.
  intros Hinv Hfresh. unfold create_atom.
  destruct (decide (block_addr b = 0)) as [|Hb]; [done|].
  specialize (Hfresh Hb). intros Hrun.
  apply bind_Ok in Hrun as (s1 & H1 & Hrun). injection Hrun as <- <-.
  destruct (register_object_inv fuel (block_addr b) atom_class _ objs
              (Object (junk_next b) (junk_marked b) (junk_class b)
                 (atom_fields buffer)) s1
              (malloc_inv b (atom_fields buffer) s objs Hinv Hfresh) Hb)
    as (objs1 & Hinv1 & _); try done.
  - apply (fresh_not_object s objs b Hinv Hfresh).
  - cbn. unfold malloc. by rewrite lookup_insert_eq.
  - intros c Hc. by apply elem_of_nil in Hc.
  - eauto.
Qed.

Lemma create_function_inv fuel b n1 cd apply data s objs p s' :
  heap_inv s objs → data ∈ objs → fresh_block b s → cells s !! cd = None →
  create_function fuel b n1 cd apply data s = Ok (p, s') →
  ∃ objs', heap_inv s' objs'.
Proof.
  intros Hinv Hd Hfresh Hcd. unfold create_function.
  destruct (decide (block_addr b = 0)) as [|Hb]; [done|].
  specialize (Hfresh Hb).
  set (s0 := enter_local cd data s).
  set (s1 := set_mem s0 (malloc b (function_fields apply data) (mem s0))).
  intros Hrun.
  apply bind_Ok in Hrun as (s2 & H2 & Hrun).
  apply bind_Ok in Hrun as (s3 & H3 & Hrun).
  apply bind_Ok in Hrun as (s4 & H4 & Hrun).
  injection Hrun as <- <-.
  assert (heap_inv s0 objs) as Hinv0 by by apply enter_local_inv.
  assert (heap_inv s1 objs) as Hinv1 by by apply malloc_inv.
  assert (cells s1 !! cd = Some data) as Hcv.
  { cbn. by rewrite lookup_insert_eq. }
  destruct (push_root_inv _ _ _ _ _ _ Hinv1 Hcv Hd H2) as [-> Hinv2].
  destruct (register_object_inv fuel (block_addr b) function_class _ objs
              (Object (junk_next b) (junk_marked b) (junk_class b)
                 (function_fields apply data)) s3 Hinv2 Hb)
    as (objs1 & Hinv3 & Hcells3 & Hroots3 & _ & _); try done.
  { apply (fresh_not_object s objs b Hinv Hfresh). }
  { cbn. unfold malloc. by rewrite lookup_insert_eq. }
  { intros c [->|Hnil%elem_of_nil]%elem_of_cons; [|done].
    exists cd. split; [|done]. cbn. by left. }
  destruct (pop_root_inv _ _ _ Hinv3 H4) as (c4 & rs4 & Hr4 & -> & Hinv4).
  rewrite Hroots3 in Hr4. cbn in Hr4. injection Hr4 as <- <-.
  exists (block_addr b :: objs1).
  apply leave_local_inv; [done|]. cbn. apply (fresh_not_root s objs cd Hinv Hcd).
Qed.

Lemma root_tail_in_heap s objs c v t :
  heap_inv s objs → c ∈ roots_head s → load_cell s c = Ok v →
  cons_get_tail (mem s) v = Ok t → t ∈ objs.
Proof.
  intros Hinv Hc Hv Ht. destruct (heap_roots _ _ Hinv c Hc) as (r & Hr & Hro).
  unfold load_cell in Hv. rewrite Hr in Hv. injection Hv as <-.
  apply (hm_closed _ _ (heap_graph _ _ Hinv) r); [done|].
  unfold cons_get_tail, cons_get, load in Ht. unfold children, children_of.
  destruct (mem s !! r) as [o|]; [|done]. cbn in Ht.
  destruct (fields o); try done. cbn in Ht. injection Ht as ->.
  right. by left.
Qed.

Lemma push_inv fuel b n1 n2 ch ct object s objs s' :
  heap_inv s objs → object ∈ objs → operand_stack ∈ roots_head s →
  fresh_block b s → cells s !! ch = None → cells s !! ct = None → ch ≠ ct →
  push fuel b n1 n2 ch ct object s = Ok s' → ∃ objs', heap_inv s' objs'.
Proof.
  intros Hinv Ho Hroot Hfresh Hch Hct Hne Hrun. unfold push in Hrun.
  apply bind_Ok in Hrun as (old & Hold & Hrun).
  apply bind_Ok in Hrun as ([p s1] & Hcons & Hrun).
  destruct (heap_roots _ _ Hinv _ Hroot) as (r & Hr & Hro).
  unfold load_cell in Hold. rewrite Hr in Hold. injection Hold as <-.
  destruct (create_cons_inv _ _ _ _ _ _ _ _ _ _ _ _ Hinv Ho Hro Hfresh Hch Hct
              Hne Hcons) as (objs' & Hinv' & Hp & _).
  destruct (set_root_inv _ _ _ _ _ Hinv' (λ _, Hp) Hrun) as [_ Hinv'']. eauto.
Qed.

Lemma push_cont_inv fuel b n1 n2 ch ct object s objs s' :
  heap_inv s objs → object ∈ objs → cont_stack ∈ roots_head s →
  fresh_block b s → cells s !! ch = None → cells s !! ct = None → ch ≠ ct →
  push_cont fuel b n1 n2 ch ct object s = Ok s' → ∃ objs', heap_inv s' objs'.
Proof.
  intros Hinv Ho Hroot Hfresh Hch Hct Hne Hrun. unfold push_cont in Hrun.
  apply bind_Ok in Hrun as (old & Hold & Hrun).
  apply bind_Ok in Hrun as ([p s1] & Hcons & Hrun).
  destruct (heap_roots _ _ Hinv _ Hroot) as (r & Hr & Hro).
  unfold load_cell in Hold. rewrite Hr in Hold. injection Hold as <-.
  destruct (create_cons_inv _ _ _ _ _ _ _ _ _ _ _ _ Hinv Ho Hro Hfresh Hch Hct
              Hne Hcons) as (objs' & Hinv' & Hp & _).
  destruct (set_root_inv _ _ _ _ _ Hinv' (λ _, Hp) Hrun) as [_ Hinv'']. eauto.
Qed.

Lemma pop_inv s objs r s' : heap_inv s objs → pop s = Ok (r, s') → heap_inv s' objs.
Proof.
  intros Hinv Hrun. unfold pop in Hrun.
  apply bind_Ok in Hrun as (old & Hold & Hrun).
  apply bind_Ok in Hrun as (o & Ho & Hrun).
  destruct (decide (class o ≠ cons_class)); [done|].
  apply bind_Ok in Hrun as (p & Hp & Hrun).
  apply bind_Ok in Hrun as (res & Hres & Hrun).
  apply bind_Ok in Hrun as (new & Hnew & Hrun).
  apply bind_Ok in Hrun as (s1 & Hset & Hrun). injection Hrun as <- <-.
  apply (set_root_inv _ _ _ _ _ Hinv) in Hset as [_ H]; [done|].
  intros Hroot. by eapply (root_tail_in_heap s objs operand_stack p).
Qed.

Lemma pop_cont_inv s objs r s' :
  heap_inv s objs → pop_cont s = Ok (r, s') → heap_inv s' objs.
Proof.
  intros Hinv Hrun. unfold pop_cont in Hrun.
  apply bind_Ok in Hrun as (old & Hold & Hrun).
  apply bind_Ok in Hrun as (o & Ho & Hrun).
  destruct (decide (class o ≠ cons_class)); [by injection Hrun as <- <-|].
  apply bind_Ok in Hrun as (p & Hp & Hrun).
  apply bind_Ok in Hrun as (res & Hres & Hrun).
  apply bind_Ok in Hrun as (new & Hnew & Hrun).
  apply bind_Ok in Hrun as (s1 & Hset & Hrun). injection Hrun as <- <-.
  apply (set_root_inv _ _ _ _ _ Hinv) in Hset as [_ H]; [done|].
  intros Hroot. by eapply (root_tail_in_heap s objs cont_stack p).
Qed.

Section api_invariant.

Variable nil_value : Z.
Hypothesis nil_value_nonnull : nil_value ≠ 0.

Lemma initial_heap_inv : heap_inv (initial_state nil_value) [].
Proof.
  split; cbn; try done.
  - constructor.
  - split.
    + apply not_elem_of_nil.
    + by intros a ?%elem_of_nil.
    + by intros a c ?%elem_of_nil.
  - by intros a ?%elem_of_nil.
  - by intros a ?%elem_of_nil.
Qed.

Lemma init_globals_inv fuel n1 n2 n3 s :
  init_globals nil_value fuel n1 n2 n3 (initial_state nil_value) = Ok s →
  ∃ objs, heap_inv s objs.
Proof.
  unfold init_globals. intros Hrun.
  apply bind_Ok in Hrun as (s1 & H1 & Hrun).
  apply bind_Ok in Hrun as (s2 & H2 & Hrun).
  apply bind_Ok in Hrun as (s3 & H3 & Hrun).
  destruct (register_object_inv fuel nil_value nil_class _ []
              (Object 0 false nil_class nil_fields) s1 initial_heap_inv
              nil_value_nonnull)
    as (objs1 & Hinv1 & Hcells1 & Hroots1 & _ & _); try done.
  { apply not_elem_of_nil. }
  { cbn. apply lookup_singleton_eq. }
  { by intros c ?%elem_of_nil. }
  assert (nil_value ∈ nil_value :: objs1) as Hnil by by left.
  assert (cells s1 !! nil_root = Some nil_value) as Hc1.
  { rewrite Hcells1. cbn. by rewrite lookup_insert_eq. }
  assert (cells s1 !! operand_stack = Some nil_value) as Hc2.
  { rewrite Hcells1. cbn. rewrite lookup_insert_ne by done.
    by rewrite lookup_insert_eq. }
  assert (cells s1 !! cont_stack = Some nil_value) as Hc3.
  { rewrite Hcells1. cbn. rewrite !lookup_insert_ne by done.
    by rewrite lookup_singleton_eq. }
  destruct (push_root_inv _ _ _ _ _ nil_value Hinv1 Hc1 Hnil H2) as [-> Hinv2].
  destruct (push_root_inv _ _ _ _ _ nil_value Hinv2 Hc2 Hnil H3) as [-> Hinv3].
  destruct (push_root_inv _ _ _ _ _ nil_value Hinv3 Hc3 Hnil Hrun) as [-> Hinv4].
  eauto.
Qed.

Lemma call_inv c s objs s' :
  heap_inv s objs → call_pre objs c s → run_call nil_value c s = Ok s' →
  ∃ objs', heap_inv s' objs'.
Proof.
  intros Hinv Hpre Hrun. destruct c; cbn in Hpre, Hrun.
  - destruct Hpre as (r & Hr & Hro).
    destruct (push_root_inv _ _ _ _ _ _ Hinv Hr Hro Hrun) as [_ H]. eauto.
  - destruct Hpre as [Hroot Hv].
    destruct (set_root_inv _ _ _ _ _ Hinv (λ _, Hv) Hrun) as [_ H]. eauto.
  - destruct (pop_root_inv _ _ _ Hinv Hrun) as (c & rs & _ & _ & H). eauto.
  - destruct (gc_Ok_post _ _ _ _ Hinv Hrun) as (objs' & Hpost).
    exists objs'. apply Hpost.
  - destruct Hpre as (Ho0 & Hno & ob & Hob & Hci & Hch).
    destruct (register_object_inv _ _ _ _ _ _ _ Hinv Ho0 Hno Hob Hci Hch Hrun)
      as (objs1 & H & _). eauto.
  - injection Hrun as <-. eauto.
  - apply bind_Ok in Hrun as ([p s1] & Hc & Hrun). injection Hrun as <-.
    destruct Hpre as (Hh & Ht & Hfresh & Hch & Hct & Hne).
    destruct (create_cons_inv _ _ _ _ _ _ _ _ _ _ _ _ Hinv Hh Ht Hfresh Hch Hct
                Hne Hc) as (objs' & H & _). eauto.
  - apply bind_Ok in Hrun as ([p s1] & Hc & Hrun). injection Hrun as <-.
    eapply create_atom_inv in Hc; [done|done..].
  - apply bind_Ok in Hrun as ([p s1] & Hc & Hrun). injection Hrun as <-.
    destruct Hpre as (Hd & Hfresh & Hcd).
    eapply create_function_inv in Hc; [done|done..].
  - apply bind_Ok in Hrun as (x & _ & Hrun). injection Hrun as <-. eauto.
  - destruct Hpre as (Ho & Hroot & Hfresh & Hch & Hct & Hne).
    eapply push_inv in Hrun; [done|done..].
  - apply bind_Ok in Hrun as ([p s1] & Hc & Hrun). injection Hrun as <-.
    exists objs. eapply pop_inv in Hc; [done|done..].
  - destruct Hpre as (Ho & Hroot & Hfresh & Hch & Hct & Hne).
    eapply push_cont_inv in Hrun; [done|done..].
  - apply bind_Ok in Hrun as ([p s1] & Hc & Hrun). injection Hrun as <-.
    exists objs. eapply pop_cont_inv in Hc; [done|done..].
  - apply bind_Ok in Hrun as (x & _ & Hrun). injection Hrun as <-. eauto.
  - apply bind_Ok in Hrun as (x & _ & Hrun). injection Hrun as <-. eauto.
  - apply bind_Ok in Hrun as (x & _ & Hrun). injection Hrun as <-. eauto.
  - destruct (decide (block_addr b = 0)) as [|Hb]; [done|]. injection Hrun as <-.
    exists objs. apply malloc_inv; [done|]. by apply Hpre.
  - injection Hrun as <-. exists objs. by apply enter_local_inv.
  - injection Hrun as <-. exists objs. by apply leave_local_inv.
Qed.

Lemma api_reachable_inv s : api_reachable nil_value s → ∃ objs, heap_inv s objs.
Proof.
  induction 1 as [fuel n1 n2 n3 s Hinit | s objs c s' Hreach IH Hlist Hpre Hrun].
  - eapply init_globals_inv in Hinit; [done|done..].
  - destruct IH as (objs0 & Hinv).
    assert (objs0 = objs) as ->
      by (eapply object_list_inj; [apply Hinv|done]).
    eapply call_inv in Hrun; [done|done..].
Qed.

End api_invariant.

(** ** The lone atom scenario *)

Lemma scenario_init_run :
  init_globals 1 40 7 7 7 (initial_state 1) = Ok scenario_init.
Proof. vm_compute. reflexivity. Qed.

Lemma scenario_atom_run :
  run_call 1 (Call_create_atom 40 scenario_block "A") scenario_init
  = Ok scenario_atom.
Proof. vm_compute. reflexivity. Qed.

(** The collection frees the atom: the state is again the one after
    start-up, with [object_count] back at one. *)
Lemma scenario_gc_run : run_call 1 (Call_gc 40) scenario_atom = Ok scenario_init.
Proof. vm_compute. reflexivity. Qed.

(** With the permanent roots popped nothing pins the nil object: the sweep
    reaches it unmarked and [nil_dispose] aborts. *)
Lemma scenario_unrooted_nil : gc 40 (set_roots_head scenario_init []) = Exit.
Proof. vm_compute. reflexivity. Qed.

Lemma scenario_atom_reachable : api_reachable 1 scenario_atom.
Proof.
  eapply (api_call 1 scenario_init [1] (Call_create_atom 40 scenario_block "A")).
  - eapply api_init. apply scenario_init_run.
  - cbn. split; [done|]. split; [done|]. by eexists.
  - intros _. reflexivity.
  - apply scenario_atom_run.
Qed.

Lemma scenario_collected_reachable : api_reachable 1 scenario_init.
Proof.
  eapply (api_call 1 scenario_atom [2; 1] (Call_gc 40)).
  - apply scenario_atom_reachable.
  - cbn. repeat (split; [done|]; split; [done|]; eexists; split; [done|]). done.
  - done.
  - apply scenario_gc_run.
Qed.

(** ** What an allocation keeps and what the constructors build *)

Lemma same_child_pointers_refl o : same_child_pointers o o.
Proof. unfold same_child_pointers. by destruct (fields o). Qed.

Lemma same_child_pointers_trans o1 o2 o3 :
  same_child_pointers o1 o2 → same_child_pointers o2 o3 →
  same_child_pointers o1 o3.
Proof.
  unfold same_child_pointers.
  destruct (fields o1), (fields o2), (fields o3); try done.
  - intros [-> ->] [-> ->]. done.
  - congruence.
  - intros [-> ->] [-> ->]. done.
Qed.

Lemma same_child_pointers_finished o o' :
  fields o' = fields (finished o) → same_child_pointers o o'.
Proof. unfold same_child_pointers. intros ->. by destruct o as [? ? ? []]. Qed.

Lemma kept_same s s' a :
  is_Some (mem s !! a) → mem s' !! a = mem s !! a → kept s s' a.
Proof.
  intros [o Ho] Heq. exists o, o. rewrite Heq. split_and!; try done.
  apply same_child_pointers_refl.
Qed.

Lemma kept_trans s1 s2 s3 a : kept s1 s2 a → kept s2 s3 a → kept s1 s3 a.
Proof.
  intros (o1 & o2 & H1 & H2 & Hc & Hf) (o2' & o3 & H2' & H3 & Hc' & Hf').
  rewrite H2 in H2'. injection H2' as <-. exists o1, o3. split_and!; try done.
  - congruence.
  - by eapply same_child_pointers_trans.
Qed.

Lemma kept_is_cons s s' a h t : kept s s' a → is_cons s a h t → is_cons s' a h t.
Proof.
  intros (o & o' & Ho & Ho' & Hc & Hf) (n & k & f & Ha).
  rewrite Ha in Ho. injection Ho as <-. destruct o' as [n' k' c' f'].
  unfold same_child_pointers in Hf. cbn in Hc, Hf. subst c'.
  destruct f'; try done. destruct Hf as [-> ->]. by exists n', k', tail_is_next.
Qed.

Lemma kept_is_atom s s' a cs : kept s s' a → is_atom s a cs → is_atom s' a cs.
Proof.
  intros (o & o' & Ho & Ho' & Hc & Hf) (n & k & Ha).
  rewrite Ha in Ho. injection Ho as <-. destruct o' as [n' k' c' f'].
  unfold same_child_pointers in Hf. cbn in Hc, Hf. subst c'.
  destruct f'; try done. subst. by exists n', k'.
Qed.

Lemma kept_is_function s s' a f d :
  kept s s' a → is_function s a f d → is_function s' a f d.
Proof.
  intros (o & o' & Ho & Ho' & Hc & Hf) (n & k & Ha).
  rewrite Ha in Ho. injection Ho as <-. destruct o' as [n' k' c' f'].
  unfold same_child_pointers in Hf. cbn in Hc, Hf. subst c'.
  destruct f'; try done. destruct Hf as [-> ->]. by exists n', k'.
Qed.

Lemma reachable_frame s s' objs a :
  heap_inv s objs → (∀ x, x ∈ objs → mem s' !! x = mem s !! x) →
  (∀ c, c ∈ roots_head s → c ∈ roots_head s' ∧ cells s' !! c = cells s !! c) →
  reachable s a → reachable s' a.
Proof.
  intros Hinv Hmem Hroots (c & r & Hc & Hcr & Hre).
  destruct (Hroots c Hc) as [Hc' Hcr']. exists c, r. split; [done|].
  split; [congruence|]. eapply reach_survive; [|done].
  intros x Hx. unfold children. rewrite Hmem; [done|].
  destruct (heap_roots _ _ Hinv c Hc) as (r' & Hr' & Hro).
  rewrite Hcr in Hr'. injection Hr' as <-.
  apply (reach_objs (mem s) objs (heap_graph _ _ Hinv) r x Hro Hx).
Qed.

(** [register_object] in full: the new object heads the heap list with the
    payload it had; the rest of the list are old objects, among them all that
    were reachable, each kept as it was. *)
Lemma register_object_post fuel o c s objs ob s' :
  heap_inv s objs → o ≠ 0 → o ∉ objs → mem s !! o = Some ob →
  class_inv (Object 0 false c (fields ob)) = true →
  (∀ ch, ch ∈ children_of ob → ∃ cl, cl ∈ roots_head s ∧ cells s !! cl = Some ch) →
  register_object fuel o c s = Ok s' →
  ∃ objs1 h, heap_inv s' (o :: objs1) ∧ cells s' = cells s ∧
             roots_head s' = roots_head s ∧
             mem s' !! o = Some (Object h false c (fields ob)) ∧
             (∀ a, a ∉ objs → a ≠ o → mem s' !! a = mem s !! a) ∧
             (∀ a, a ∈ objs1 → a ∈ objs) ∧
             (∀ a, reachable s a → a ∈ objs1) ∧
             (∀ a, a ∈ objs1 → kept s s' a).
Proof.
  intros Hinv Ho0 Hno Hob Hci Hch Hrun.
  destruct (register_object_inv fuel o c s objs ob s' Hinv Ho0 Hno Hob Hci Hch Hrun)
    as (objs0 & Hinv0 & Hcells0 & Hroots0 & _).
  rewrite (register_object_eq fuel o c s objs Hinv Hno) in Hrun by eauto.
  assert (∀ s1 a, a ≠ o → mem (link_object o c s1) !! a = mem s1 !! a) as Hother.
  { intros s1 a Ha. unfold link_object. cbn.
    destruct (mem s1 !! o); [|done]. by rewrite lookup_insert_ne. }
  assert (∀ s1 objs1, heap_inv s' (o :: objs0) → s' = link_object o c s1 →
            heap_inv s1 objs1 → o ∉ objs1 → mem s1 !! o = Some ob →
            heap_inv s' (o :: objs1)) as Hsame.
  { intros s1 objs1 Hinv' -> Hinv1 Hno1 Hob1.
    destruct (link_object_list s1 objs1 o c ob Hinv1 Ho0 Hno1 Hob1) as [Hl _].
    by rewrite (object_list_inj _ _ _ _ (heap_list _ _ Hinv') Hl) in Hinv'. }
  destruct (decide (object_count s = cap)) as [Hcap|Hcap].
  - destruct (gc fuel s) as [s1| | |] eqn:Hgc; cbn in Hrun; try done.
    destruct (gc_Ok_post fuel s objs s1 Hinv Hgc) as (objs1 & Hpost).
    destruct (decide (object_count s1 = cap)); [done|]. injection Hrun as Hs'.
    assert (∀ a, a ∈ objs1 → a ∈ objs) as Hsub.
    { intros a Ha. by apply (gp_objs _ _ _ _ Hpost) in Ha as [? _]. }
    assert (mem s1 !! o = Some ob) as Hob1
      by by rewrite (gp_other _ _ _ _ Hpost o Hno).
    exists objs1, (heap_head s1). split_and!; try done.
    + apply (Hsame s1); try done; [apply Hpost|]. intros Hin. by apply Hno, Hsub.
    + rewrite <- Hs'. unfold link_object. cbn. rewrite Hob1.
      by rewrite lookup_insert_eq.
    + intros a Ha Hao. rewrite <- Hs', Hother by done.
      by apply (gp_other _ _ _ _ Hpost).
    + intros a Hr. apply (gp_objs _ _ _ _ Hpost). split; [|done].
      by eapply reachable_objs.
    + intros a Ha.
      destruct (gp_kept _ _ _ _ Hpost a Ha) as (oa & oa' & Hoa & Hoa' & _ & Hc & Hf).
      exists oa, oa'. split_and!; try done.
      * rewrite <- Hs', Hother; [done|]. intros ->. by apply Hno, Hsub.
      * by apply same_child_pointers_finished.
  - cbn in Hrun. destruct (decide (object_count s = cap)); [done|].
    injection Hrun as Hs'. exists objs, (heap_head s). split_and!; try done.
    + by apply (Hsame s).
    + rewrite <- Hs'. unfold link_object. cbn. rewrite Hob.
      by rewrite lookup_insert_eq.
    + intros a _ Hao. rewrite <- Hs'. by apply Hother.
    + intros a Hr. by eapply reachable_objs.
    + intros a Ha. apply kept_same; [by eapply heap_inv_alloc|].
      rewrite <- Hs'. apply Hother. by intros ->.
Qed.

Lemma locals_left (cs : gmap cell Z) c1 v1 c2 v2 :
  cs !! c1 = None → cs !! c2 = None →
  delete c1 (delete c2 (<[c2 := v2]> (<[c1 := v1]> cs))) = cs.
Proof.
  intros H1 H2. apply map_eq. intros c.
  destruct (decide (c = c1)) as [->|Hn1]; [by rewrite lookup_delete_eq|].
  rewrite lookup_delete_ne by done.
  destruct (decide (c = c2)) as [->|Hn2]; [by rewrite lookup_delete_eq|].
  rewrite lookup_delete_ne by done. by rewrite !lookup_insert_ne.
Qed.

(** [create_cons] in full. *)
Lemma create_cons_post fuel b n1 n2 ch ct head tail s objs p s' :
  heap_inv s objs → head ∈ objs → tail ∈ objs → fresh_block b s →
  cells s !! ch = None → cells s !! ct = None → ch ≠ ct →
  create_cons fuel b n1 n2 ch ct head tail s = Ok (p, s') →
  (p ∉ objs) ∧ is_cons s' p head tail ∧
  ∃ objs', heap_inv s' (p :: objs') ∧
    roots_head s' = roots_head s ∧ cells s' = cells s ∧
    head ∈ objs' ∧ tail ∈ objs' ∧
    (∀ a, a ∈ objs' → a ∈ objs) ∧
    (∀ a, reachable s a → a ∈ objs') ∧
    (∀ a, a ∈ objs' → kept s s' a) ∧
    (∀ a, a ∉ objs → a ≠ p → mem s' !! a = mem s !! a).
Proof.
  intros Hinv Hh Ht Hfresh Hch Hct Hne. unfold create_cons.
  destruct (decide (block_addr b = 0)) as [|Hb]; [done|].
  specialize (Hfresh Hb).
  set (s0 := enter_local ct tail (enter_local ch head s)).
  set (s1 := set_mem s0 (malloc b (cons_fields (junk_flag b) head tail) (mem s0))).
  intros Hrun.
  apply bind_Ok in Hrun as (s2 & H2 & Hrun).
  apply bind_Ok in Hrun as (s3 & H3 & Hrun).
  apply bind_Ok in Hrun as (s4 & H4 & Hrun).
  apply bind_Ok in Hrun as (s5 & H5 & Hrun).
  apply bind_Ok in Hrun as (s6 & H6 & Hrun).
  injection Hrun as <- <-.
  pose proof (fresh_not_object s objs b Hinv Hfresh) as Hno.
  pose proof (fresh_not_root s objs ch Hinv Hch) as Hrch.
  pose proof (fresh_not_root s objs ct Hinv Hct) as Hrct.
  assert (heap_inv s0 objs) as Hinv0.
  { apply enter_local_inv; [by apply enter_local_inv|]. cbn.
    by rewrite lookup_insert_ne. }
  assert (heap_inv s1 objs) as Hinv1 by by apply malloc_inv.
  assert (cells s1 !! ch = Some head) as Hcvh.
  { cbn. rewrite lookup_insert_ne by done. by rewrite lookup_insert_eq. }
  assert (cells s1 !! ct = Some tail) as Hcvt.
  { cbn. by rewrite lookup_insert_eq. }
  destruct (push_root_inv _ _ _ _ _ _ Hinv1 Hcvh Hh H2) as [-> Hinv2].
  destruct (push_root_inv _ _ _ _ _ _ Hinv2 Hcvt Ht H3) as [-> Hinv3].
  destruct (register_object_post fuel (block_addr b) cons_class _ objs
              (Object (junk_next b) (junk_marked b) (junk_class b)
                 (cons_fields (junk_flag b) head tail)) s4 Hinv3 Hb)
    as (objs1 & h & Hinv4 & Hcells4 & Hroots4 & Hp4 & Hother4 & Hsub & Hlive & Hkept);
    try done.
  { cbn. unfold malloc. by rewrite lookup_insert_eq. }
  { intros c [->|[->|Hnil%elem_of_nil]%elem_of_cons]%elem_of_cons; [| |done].
    - exists ch. split; [|done]. cbn. right. by left.
    - exists ct. split; [|done]. cbn. by left. }
  destruct (pop_root_inv _ _ _ Hinv4 H5) as (c5 & rs5 & Hr5 & -> & Hinv5).
  destruct (pop_root_inv _ _ _ Hinv5 H6) as (c6 & rs6 & Hr6 & -> & Hinv6).
  rewrite Hroots4 in Hr5. cbn in Hr5, Hr6. injection Hr5 as <- <-.
  injection Hr6 as <- <-. cbn in Hp4.
  assert (∀ a, a ≠ block_addr b →
            malloc b (cons_fields (junk_flag b) head tail) (mem s) !! a = mem s !! a)
    as Hm.
  { intros a Ha. unfold malloc. by rewrite lookup_insert_ne. }
  assert (∀ a, a ∈ objs → a ≠ block_addr b) as Hnb by (by intros a Ha ->).
  assert (head ∈ block_addr b :: objs1 ∧ tail ∈ block_addr b :: objs1) as [Hh1 Ht1].
  { split; apply (hm_closed _ _ (heap_graph _ _ Hinv4) (block_addr b));
      try (by left); unfold children; rewrite Hp4; cbn.
    - by left.
    - right. by left. }
  apply elem_of_cons in Hh1 as [->|Hh1]; [by apply Hnb in Hh|].
  apply elem_of_cons in Ht1 as [->|Ht1]; [by apply Hnb in Ht|].
  split; [done|]. split; [by exists h, false, (junk_flag b)|].
  exists objs1. split_and!; try done.
  - apply leave_local_inv; [apply leave_local_inv; [done|]|]; done.
  - cbn. rewrite Hcells4. cbn. by apply locals_left.
  - intros a Hr. apply Hlive.
    apply (reachable_frame s _ objs a Hinv); [| |done].
    + intros x Hx. cbn. apply Hm. by apply Hnb.
    + intros c Hc. split; [cbn; right; by right|]. cbn.
      rewrite !lookup_insert_ne; [done| |]; by intros ->.
  - intros a Ha. destruct (Hkept a Ha) as (o & o' & Ho & Ho' & Hc & Hf).
    exists o, o'. split_and!; try done.
    cbn in Ho. rewrite Hm in Ho; [done|]. by apply Hnb, Hsub.
  - intros a Ha Hab. cbn. rewrite Hother4 by done. cbn. by apply Hm.
Qed.

(** [create_atom] in full. *)
Lemma create_atom_post fuel b buffer s objs p s' :
  heap_inv s objs → fresh_block b s →
  create_atom fuel b buffer s = Ok (p, s') →
  (p ∉ objs) ∧ is_atom s' p buffer ∧
  ∃ objs', heap_inv s' (p :: objs') ∧
    roots_head s' = roots_head s ∧ cells s' = cells s ∧
    (∀ a, a ∈ objs' → a ∈ objs) ∧
    (∀ a, reachable s a → a ∈ objs') ∧
    (∀ a, a ∈ objs' → kept s s' a) ∧
    (∀ a, a ∉ objs → a ≠ p → mem s' !! a = mem s !! a).
Proof.
  intros Hinv Hfresh. unfold create_atom.
  destruct (decide (block_addr b = 0)) as [|Hb]; [done|].
  specialize (Hfresh Hb). intros Hrun.
  apply bind_Ok in Hrun as (s1 & H1 & Hrun). injection Hrun as <- <-.
  pose proof (fresh_not_object s objs b Hinv Hfresh) as Hno.
  destruct (register_object_post fuel (block_addr b) atom_class _ objs
              (Object (junk_next b) (junk_marked b) (junk_class b)
                 (atom_fields buffer)) s1
              (malloc_inv b (atom_fields buffer) s objs Hinv Hfresh) Hb)
    as (objs1 & h & Hinv1 & Hcells1 & Hroots1 & Hp1 & Hother1 & Hsub & Hlive & Hkept);
    try done.
  { cbn. unfold malloc. by rewrite lookup_insert_eq. }
  { intros c Hc. by apply elem_of_nil in Hc. }
  assert (∀ a, a ≠ block_addr b →
            malloc b (atom_fields buffer) (mem s) !! a = mem s !! a) as Hm.
  { intros a Ha. unfold malloc. by rewrite lookup_insert_ne. }
  assert (∀ a, a ∈ objs → a ≠ block_addr b) as Hnb by (by intros a Ha ->).
  split; [done|]. split; [by exists h, false|].
  exists objs1. split_and!; try done.
  - intros a Hr. apply Hlive.
    apply (reachable_frame s _ objs a Hinv); [| |done].
    + intros x Hx. cbn. apply Hm. by apply Hnb.
    + done.
  - intros a Ha. destruct (Hkept a Ha) as (o & o' & Ho & Ho' & Hc & Hf).
    exists o, o'. split_and!; try done.
    cbn in Ho. rewrite Hm in Ho; [done|]. by apply Hnb, Hsub.
  - intros a Ha Hab. rewrite Hother1 by done. cbn. by apply Hm.
Qed.

(** [create_function] in full. *)
Lemma create_function_post fuel b n1 cd apply data s objs p s' :
  heap_inv s objs → data ∈ objs → fresh_block b s → cells s !! cd = None →
  create_function fuel b n1 cd apply data s = Ok (p, s') →
  (p ∉ objs) ∧ is_function s' p apply data ∧
  ∃ objs', heap_inv s' (p :: objs') ∧
    roots_head s' = roots_head s ∧ cells s' = cells s ∧
    data ∈ objs' ∧
    (∀ a, a ∈ objs' → a ∈ objs) ∧
    (∀ a, reachable s a → a ∈ objs') ∧
    (∀ a, a ∈ objs' → kept s s' a) ∧
    (∀ a, a ∉ objs → a ≠ p → mem s' !! a = mem s !! a).
Proof.
  intros Hinv Hd Hfresh Hcd. unfold create_function.
  destruct (decide (block_addr b = 0)) as [|Hb]; [done|].
  specialize (Hfresh Hb).
  set (s0 := enter_local cd data s).
  set (s1 := set_mem s0 (malloc b (function_fields apply data) (mem s0))).
  intros Hrun.
  apply bind_Ok in Hrun as (s2 & H2 & Hrun).
  apply bind_Ok in Hrun as (s3 & H3 & Hrun).
  apply bind_Ok in Hrun as (s4 & H4 & Hrun).
  injection Hrun as <- <-.
  pose proof (fresh_not_object s objs b Hinv Hfresh) as Hno.
  pose proof (fresh_not_root s objs cd Hinv Hcd) as Hrcd.
  assert (heap_inv s0 objs) as Hinv0 by by apply enter_local_inv.
  assert (heap_inv s1 objs) as Hinv1 by by apply malloc_inv.
  assert (cells s1 !! cd = Some data) as Hcv.
  { cbn. by rewrite lookup_insert_eq. }
  destruct (push_root_inv _ _ _ _ _ _ Hinv1 Hcv Hd H2) as [-> Hinv2].
  destruct (register_object_post fuel (block_addr b) function_class _ objs
              (Object (junk_next b) (junk_marked b) (junk_class b)
                 (function_fields apply data)) s3 Hinv2 Hb)
    as (objs1 & h & Hinv3 & Hcells3 & Hroots3 & Hp3 & Hother3 & Hsub & Hlive & Hkept);
    try done.
  { cbn. unfold malloc. by rewrite lookup_insert_eq. }
  { intros c [->|Hnil%elem_of_nil]%elem_of_cons; [|done].
    exists cd. split; [|done]. cbn. by left. }
  destruct (pop_root_inv _ _ _ Hinv3 H4) as (c4 & rs4 & Hr4 & -> & Hinv4).
  rewrite Hroots3 in Hr4. cbn in Hr4. injection Hr4 as <- <-. cbn in Hp3.
  assert (∀ a, a ≠ block_addr b →
            malloc b (function_fields apply data) (mem s) !! a = mem s !! a) as Hm.
  { intros a Ha. unfold malloc. by rewrite lookup_insert_ne. }
  assert (∀ a, a ∈ objs → a ≠ block_addr b) as Hnb by (by intros a Ha ->).
  assert (data ∈ block_addr b :: objs1) as Hd1.
  { apply (hm_closed _ _ (heap_graph _ _ Hinv3) (block_addr b)); [by left|].
    unfold children. rewrite Hp3. cbn. by left. }
  apply elem_of_cons in Hd1 as [->|Hd1]; [by apply Hnb in Hd|].
  split; [done|]. split; [by exists h, false|].
  exists objs1. split_and!; try done.
  - apply leave_local_inv; done.
  - cbn. rewrite Hcells3. cbn. apply map_eq. intros c.
    destruct (decide (c = cd)) as [->|Hn]; [by rewrite lookup_delete_eq|].
    rewrite lookup_delete_ne by done. by rewrite lookup_insert_ne.
  - intros a Hr. apply Hlive.
    apply (reachable_frame s _ objs a Hinv); [| |done].
    + intros x Hx. cbn. apply Hm. by apply Hnb.
    + intros c Hc. split; [cbn; by right|]. cbn.
      rewrite lookup_insert_ne; [done|]. by intros ->.
  - intros a Ha. destruct (Hkept a Ha) as (o & o' & Ho & Ho' & Hc & Hf).
    exists o, o'. split_and!; try done.
    cbn in Ho. rewrite Hm in Ho; [done|]. by apply Hnb, Hsub.
  - intros a Ha Hab. cbn. rewrite Hother3 by done. cbn. by apply Hm.
Qed.

(** ** Accessors on objects of a known class *)

Lemma destruct_cons_is_cons s a h t : is_cons s a h t → destruct_cons a s = Ok (h, t).
Proof.
  intros (n & k & f & Ha).
  unfold destruct_cons, cons_get_head, cons_get_tail, cons_get, load.
  rewrite Ha. cbn. rewrite decide_False by (intros H; by apply H).
  done.
Qed.

Lemma is_atom_inj s a cs1 cs2 : is_atom s a cs1 → is_atom s a cs2 → cs1 = cs2.
Proof. intros (n & k & H1) (n' & k' & H2). congruence. Qed.

Lemma atom_equals_atoms s a b cs1 cs2 :
  is_atom s a cs1 → is_atom s b cs2 →
  atom_equals a b s = Ok (bool_decide (cs1 = cs2)).
Proof.
  intros Ha Hb. unfold atom_equals.
  destruct (decide (a = b)) as [->|Hne].
  - rewrite (is_atom_inj _ _ _ _ Ha Hb). by rewrite bool_decide_eq_true_2.
  - destruct Ha as (n & k & Ha), Hb as (n' & k' & Hb).
    unfold atom_get_chars, load. rewrite Ha, Hb. cbn.
    rewrite decide_False by (intros [H|H]; by apply H).
    done.
Qed.

Lemma assoc_entries nil_value fuel key cs map s es :
  is_atom s key cs → map_entries nil_value s map es → (length es < fuel)%nat →
  assoc nil_value fuel key map s = Ok (default 0 (entries_lookup cs es)).
Proof.
  intros Hkey. revert fuel map.
  induction es as [|[k v] es IH]; intros fuel map Hmap Hfuel;
    (destruct fuel as [|fuel]; [cbn in Hfuel; lia|]); cbn in Hmap |- *.
  - by rewrite decide_True.
  - destruct Hmap as (Hne & entry & rest & a & Hc & He & Ha & Hrest).
    rewrite decide_False by done.
    rewrite (destruct_cons_is_cons _ _ _ _ Hc). cbn.
    rewrite (destruct_cons_is_cons _ _ _ _ He). cbn.
    rewrite (atom_equals_atoms _ _ _ _ _ Hkey Ha). cbn.
    destruct (decide (k = cs)) as [->|Hk].
    + by rewrite bool_decide_eq_true_2.
    + rewrite bool_decide_eq_false_2 by done. apply IH; [done|]. cbn in Hfuel. lia.
Qed.

Lemma reach_child (m : gmap Z object) a b c :
  reach m a b → c ∈ children m b → reach m a c.
Proof. intros Hab Hbc. eapply rtc_r; [done|]. done. Qed.

Lemma is_cons_children s a h t : is_cons s a h t → children (mem s) a = [h; t].
Proof. intros (n & k & f & Ha). unfold children. by rewrite Ha. Qed.

Lemma map_entries_kept nil_value s s' map es :
  (∀ a, reach (mem s) map a → kept s s' a) →
  map_entries nil_value s map es → map_entries nil_value s' map es.
Proof.
  revert map. induction es as [|[cs v] es IH]; intros map Hk; cbn; [done|].
  intros (Hne & entry & rest & k & Hc & He & Ha & Hrest).
  assert (reach (mem s) map entry) as Hre.
  { apply (reach_child _ map map); [apply rtc_refl|].
    rewrite (is_cons_children _ _ _ _ Hc). by left. }
  assert (reach (mem s) map rest) as Hrr.
  { apply (reach_child _ map map); [apply rtc_refl|].
    rewrite (is_cons_children _ _ _ _ Hc). right. by left. }
  assert (reach (mem s) map k) as Hrk.
  { apply (reach_child _ map entry); [done|].
    rewrite (is_cons_children _ _ _ _ He). by left. }
  split; [done|]. exists entry, rest, k. split_and!.
  - apply (kept_is_cons s); [|done]. apply Hk, rtc_refl.
  - apply (kept_is_cons s); [|done]. by apply Hk.
  - apply (kept_is_atom s); [|done]. by apply Hk.
  - apply IH; [|done]. intros a Hra. apply Hk. unfold reach in *. by apply (rtc_trans map rest a).
Qed.

(** ** The heap without garbage *)

Lemma live_heap_inv : heap_inv live_state live_objs.
Proof.
  split.
  - cbn. repeat (split; [done|]; split; [done|]; eexists; split; [done|]). done.
  - unfold live_objs.
    repeat (constructor; [set_unfold; intros H; destruct_or?; done|]). constructor.
  - split.
    + unfold live_objs. set_unfold. intros H. destruct_or?; done.
    + intros a Ha. unfold live_objs in Ha. set_unfold in Ha.
      destruct_or?; try done; subst; by eexists.
    + intros a c Ha Hc. unfold live_objs in Ha. set_unfold in Ha.
      destruct_or?; try done; subst; vm_compute in Hc; set_unfold in Hc;
        destruct_or?; try done; subst; unfold live_objs; elem_solve.
  - intros a Ha. unfold live_objs in Ha. set_unfold in Ha.
    destruct_or?; try done; subst; done.
  - intros c Hc. cbn in Hc. set_unfold in Hc. destruct_or?; try done; subst;
      eexists; (split; [done|]); unfold live_objs; elem_solve.
  - done.
  - done.
Qed.

Lemma live_all_reachable a : a ∈ live_objs → reachable live_state a.
Proof.
  intros Ha. exists (stack_var 0), 2. split; [cbn; elem_solve|]. split; [done|].
  unfold live_objs in Ha. set_unfold in Ha. destruct_or?; try done; subst.
  - apply rtc_once. unfold edge. vm_compute. elem_solve.
  - apply rtc_refl.
  - apply rtc_once. unfold edge. vm_compute. elem_solve.
Qed.

(** ** Reachability across an allocation *)

Lemma same_child_pointers_children o o' :
  same_child_pointers o o' → children_of o' = children_of o.
Proof.
  unfold same_child_pointers, children_of.
  destruct (fields o), (fields o'); try done.
  - by intros [-> ->].
  - by intros [-> ->].
Qed.

Lemma kept_children s s' a : kept s s' a → children (mem s') a = children (mem s) a.
Proof.
  intros (o & o' & Ho & Ho' & _ & Hf). unfold children. rewrite Ho, Ho'.
  by apply same_child_pointers_children.
Qed.

Lemma reachable_kept s s' a :
  roots_head s' = roots_head s → cells s' = cells s →
  (∀ x, reachable s x → kept s s' x) → reachable s a → reachable s' a.
Proof.
  intros Hroots Hcells Hk (c & r & Hc & Hcr & Hre).
  exists c, r. rewrite Hroots, Hcells. split; [done|]. split; [done|].
  eapply reach_survive; [|done]. intros x Hx. apply kept_children, Hk.
  by exists c, r.
Qed.

Lemma reachable_root s c r : c ∈ roots_head s → cells s !! c = Some r → reachable s r.
Proof. intros Hc Hr. exists c, r. split; [done|]. split; [done|]. apply rtc_refl. Qed.

Lemma reachable_reach s a b : reachable s a → reach (mem s) a b → reachable s b.
Proof.
  intros (c & r & Hc & Hr & Hra) Hab. exists c, r. split; [done|]. split; [done|].
  by apply (rtc_trans r a b).
Qed.

Lemma map_entries_reach_nil nil_value s map es :
  map_entries nil_value s map es → reach (mem s) map nil_value.
Proof.
  revert map. induction es as [|[cs v] es IH]; intros map; cbn.
  - intros ->. apply rtc_refl.
  - intros (_ & entry & rest & k & Hc & _ & _ & Hrest).
    apply (rtc_trans map rest nil_value); [|by apply IH].
    apply rtc_once. unfold edge. rewrite (is_cons_children _ _ _ _ Hc).
    right. by left.
Qed.

(** [map_cons] in full: the map cell holds a new cons of a new entry and the
    old map; everything that was reachable is kept. *)
Lemma map_cons_post fuel b1 n1 n2 c1 c2 b2 n3 n4 c3 c4 key value map s objs r s' :
  heap_inv s objs → key ∈ objs → value ∈ objs → map ∈ roots_head s →
  cells s !! map = Some r →
  fresh_block b1 s → cells s !! c1 = None → cells s !! c2 = None → c1 ≠ c2 →
  cells s !! c3 = None → cells s !! c4 = None → c3 ≠ c4 →
  (∀ p s1, create_cons fuel b1 n1 n2 c1 c2 key value s = Ok (p, s1) →
           fresh_block b2 s1) →
  map_cons fuel b1 n1 n2 c1 c2 b2 n3 n4 c3 c4 key value map s = Ok s' →
  ∃ objs' entry p,
    heap_inv s' (p :: objs') ∧ roots_head s' = roots_head s ∧
    cells s' = <[map := p]> (cells s) ∧
    is_cons s' p entry r ∧ is_cons s' entry key value ∧
    kept s s' key ∧ kept s s' value ∧
    (∀ a, reachable s a → a ∈ objs' ∧ kept s s' a).
Proof.
  intros Hinv Hk Hv Hmap Hr Hf1 Hc1 Hc2 Hne1 Hc3 Hc4 Hne2 Hf2 Hrun.
  unfold map_cons in Hrun.
  apply bind_Ok in Hrun as ([entry s1] & Hcr1 & Hrun).
  apply bind_Ok in Hrun as (old & Hold & Hrun).
  apply bind_Ok in Hrun as ([p s2] & Hcr2 & Hrun). cbn in Hrun.
  destruct (create_cons_post _ _ _ _ _ _ _ _ _ _ _ _ Hinv Hk Hv Hf1 Hc1 Hc2 Hne1 Hcr1)
    as (Hne & Hentry & objs1 & Hinv1 & Hroots1 & Hcells1 & Hk1 & Hv1 & Hsub1
        & Hlive1 & Hkept1 & _).
  unfold load_cell in Hold. rewrite Hcells1, Hr in Hold. injection Hold as <-.
  pose proof (reachable_root s map r Hmap Hr) as Hrr.
  assert (r ∈ entry :: objs1) as Hr1 by (right; by apply Hlive1).
  assert (entry ∈ entry :: objs1) as He1 by by left.
  assert (cells s1 !! c3 = None) as Hc3' by by rewrite Hcells1.
  assert (cells s1 !! c4 = None) as Hc4' by by rewrite Hcells1.
  destruct (create_cons_post _ _ _ _ _ _ _ _ _ _ _ _ Hinv1 He1 Hr1
              (Hf2 _ _ Hcr1) Hc3' Hc4' Hne2 Hcr2)
    as (Hnp & Hp & objs2 & Hinv2 & Hroots2 & Hcells2 & He2 & Hr2 & Hsub2
        & Hlive2 & Hkept2 & _).
  assert (is_cons s2 entry key value) as Hentry2
    by (apply (kept_is_cons s1); [by apply Hkept2|done]).
  assert (p ≠ key ∧ p ≠ value) as [Hpk Hpv].
  { split; intros ->; apply Hnp; by right. }
  assert (key ∈ objs2 ∧ value ∈ objs2) as [Hk2 Hv2].
  { assert (key ∈ p :: objs2 ∧ value ∈ p :: objs2) as [Hk2 Hv2].
    { split; apply (hm_closed _ _ (heap_graph _ _ Hinv2) entry);
        try (by right); rewrite (is_cons_children _ _ _ _ Hentry2).
      - by left.
      - right. by left. }
    apply elem_of_cons in Hk2 as [?|Hk2]; [done|].
    apply elem_of_cons in Hv2 as [?|Hv2]; [done|]. done. }
  assert (∀ a, reachable s a → kept s s1 a) as Hk01
    by (intros a Ha; by apply Hkept1, Hlive1).
  unfold set_root_g in Hrun.
  destruct (set_root_inv map p s2 (p :: objs2) s' Hinv2) as [-> Hinv'];
    [intros _; by left|done|].
  exists objs2, entry, p. split_and!; try done.
  - cbn. by rewrite Hroots2.
  - cbn. by rewrite Hcells2, Hcells1.
  - apply (kept_trans s s1); [by apply Hkept1|by apply Hkept2].
  - apply (kept_trans s s1); [by apply Hkept1|by apply Hkept2].
  - intros a Ha.
    assert (a ∈ objs2) as Ha2.
    { apply Hlive2. by apply (reachable_kept s s1). }
    split; [done|].
    apply (kept_trans s s1); [by apply Hk01|by apply Hkept2].
Qed.

(** ** The heap with a map *)

Ltac list_cases H :=
  set_unfold in H; destruct_or?; try done; subst.

Lemma map_heap_inv : heap_inv map_state map_objs.
Proof.
  split.
  - cbn. repeat (split; [done|]; split; [done|]; eexists; split; [done|]). done.
  - unfold map_objs.
    repeat (constructor; [intros H; list_cases H|]). constructor.
  - split.
    + unfold map_objs. intros H. list_cases H.
    + intros a Ha. unfold map_objs in Ha. list_cases Ha; by eexists.
    + intros a c Ha Hc. unfold map_objs in Ha.
      list_cases Ha; vm_compute in Hc; list_cases Hc; unfold map_objs; elem_solve.
  - intros a Ha. unfold map_objs in Ha. list_cases Ha; done.
  - intros c Hc. cbn in Hc. list_cases Hc;
      eexists; (split; [done|]); unfold map_objs; elem_solve.
  - done.
  - done.
Qed.

Lemma map_state_entries : map_entries 1 map_state 7 [("y"%string, 1); ("x"%string, 3)].
Proof.
  cbn. split; [done|]. exists 6, 5, 3. split_and!.
  - by eexists _, _, _.
  - by eexists _, _, _.
  - by eexists _, _.
  - done.
  - exists 4, 1, 2. split_and!.
    + by eexists _, _, _.
    + by eexists _, _, _.
    + by eexists _, _.
    + done.
Qed.

(** ** The chain of conses *)

Lemma elem_of_chain_objs n a : a ∈ chain_objs n ↔ 1 ≤ a ≤ Z.of_nat n + 1.
Proof.
  induction n as [|n IH]; cbn [chain_objs].
  - rewrite list_elem_of_singleton. lia.
  - rewrite elem_of_cons, IH. lia.
Qed.

Lemma length_chain_objs n : length (chain_objs n) = S n.
Proof. induction n as [|n IH]; cbn; [done|]. by rewrite IH. Qed.

Lemma chain_mem_lookup n a :
  chain_mem n !! a =
  if decide (a = 1) then Some (Object 0 false nil_class nil_fields)
  else if decide (2 ≤ a ≤ Z.of_nat n + 1)
       then Some (Object (a - 1) false cons_class (cons_fields false (a - 1) (a - 1)))
       else None.
Proof.
  induction n as [|n IH]; cbn [chain_mem].
  - destruct (decide (a = 1)) as [->|Hne]; [done|].
    rewrite lookup_singleton_ne by done.
    by rewrite decide_False by lia.
  - destruct (decide (a = Z.of_nat (S n) + 1)) as [->|Hne].
    + rewrite lookup_insert_eq. rewrite decide_False by lia.
      rewrite decide_True by lia. do 3 f_equal; lia.
    + rewrite lookup_insert_ne by done. rewrite IH.
      destruct (decide (a = 1)); [done|].
      destruct (decide (2 ≤ a ≤ Z.of_nat n + 1)).
      * by rewrite decide_True by lia.
      * by rewrite decide_False by lia.
Qed.

Lemma chain_state_lookup n a :
  a ∈ chain_objs n → mem (chain_state n) !! a = chain_mem n !! a.
Proof.
  intros Ha%elem_of_chain_objs. cbn. rewrite lookup_insert_ne; [done|lia].
Qed.

Lemma chain_object_list n k :
  (k ≤ n)%nat →
  object_list (mem (chain_state n)) (Z.of_nat k + 1) (chain_objs k).
Proof.
  intros Hk. induction k as [|k IH]; cbn [chain_objs object_list].
  - split; [done|]. split; [done|].
    exists (Object 0 false nil_class nil_fields). split; [|done].
    rewrite chain_state_lookup by (apply elem_of_chain_objs; lia).
    rewrite chain_mem_lookup. by rewrite decide_True.
  - split; [done|]. split; [lia|]. eexists. split.
    + rewrite chain_state_lookup by (apply elem_of_chain_objs; lia).
      rewrite chain_mem_lookup. rewrite decide_False by lia.
      by rewrite decide_True by lia.
    + cbn [next]. replace (Z.of_nat (S k) + 1 - 1) with (Z.of_nat k + 1) by lia.
      apply IH. lia.
Qed.

Lemma chain_objs_nodup n : NoDup (chain_objs n).
Proof.
  induction n as [|n IH]; cbn [chain_objs].
  - apply NoDup_singleton.
  - apply NoDup_cons. split; [|done]. rewrite elem_of_chain_objs. lia.
Qed.

Lemma chain_children n a :
  a ∈ chain_objs n →
  children (mem (chain_state n)) a = if decide (a = 1) then [] else [a - 1; a - 1].
Proof.
  intros Ha. unfold children. rewrite chain_state_lookup by done.
  rewrite chain_mem_lookup. apply elem_of_chain_objs in Ha.
  destruct (decide (a = 1)); [done|]. by rewrite decide_True by lia.
Qed.

Lemma chain_heap_inv n :
  Z.of_nat n + 1 ≤ cap → heap_inv (chain_state n) (chain_objs n).
Proof.
  intros Hcap. split.
  - by apply chain_object_list.
  - apply chain_objs_nodup.
  - split.
    + rewrite elem_of_chain_objs. lia.
    + intros a Ha. rewrite chain_state_lookup by done. rewrite chain_mem_lookup.
      apply elem_of_chain_objs in Ha.
      destruct (decide (a = 1)); [by eexists|].
      rewrite decide_True by lia. by eexists.
    + intros a c Ha. rewrite chain_children by done.
      apply elem_of_chain_objs in Ha. rewrite elem_of_chain_objs.
      destruct (decide (a = 1)); [by intros ?%elem_of_nil|].
      intros Hc. set_unfold in Hc. lia.
  - intros a Ha. unfold is_marked. rewrite chain_state_lookup by done.
    rewrite chain_mem_lookup. apply elem_of_chain_objs in Ha.
    destruct (decide (a = 1)); [done|]. by rewrite decide_True by lia.
  - intros c Hc. cbn in Hc. apply list_elem_of_singleton in Hc as ->.
    eexists. split; [done|]. apply elem_of_chain_objs. lia.
  - cbn. rewrite length_chain_objs. lia.
  - done.
Qed.

Lemma chain_reach n d :
  (d ≤ n)%nat →
  reach (mem (chain_state n)) (Z.of_nat n + 1) (Z.of_nat (n - d) + 1).
Proof.
  induction d as [|d IH]; intros Hd.
  - rewrite Nat.sub_0_r. apply rtc_refl.
  - eapply rtc_r; [apply IH; lia|]. unfold edge.
    rewrite chain_children by (apply elem_of_chain_objs; lia).
    rewrite decide_False by lia.
    replace (Z.of_nat (n - d) + 1 - 1) with (Z.of_nat (n - S d) + 1) by lia.
    by left.
Qed.

Lemma chain_all_reachable n a : a ∈ chain_objs n → reachable (chain_state n) a.
Proof.
  intros Ha%elem_of_chain_objs.
  exists (stack_var 0), (Z.of_nat n + 1). split; [cbn; by left|]. split; [done|].
  replace a with (Z.of_nat (n - Z.to_nat (Z.of_nat n + 1 - a)) + 1) by lia.
  apply chain_reach. lia.
Qed.

(** * The claims *)

(** C1.  For every state satisfying the heap invariant, after [gc] returns
    the heap list contains exactly the objects that were reachable, through
    class-exposed child references, from the cells on the root stack, each
    once, and every object on it is unmarked.  With more than
    [6 * length objs + 1] iterations [gc] does return, unless the sweep
    reaches an unreachable object of the nil class, whose [dispose] aborts. *)
Theorem gc_keeps_exactly_the_reachable s objs :
  heap_inv s objs →
  (∀ fuel s', gc fuel s = Ok s' →
     ∃ objs', object_list (mem s') (heap_head s') objs' ∧ NoDup objs' ∧
              (∀ a, a ∈ objs' ↔ reachable s a) ∧
              (∀ a, a ∈ objs' → is_marked (mem s') a = false)) ∧
  (∀ fuel, (6 * length objs + 1 < fuel)%nat →
     (∃ s', gc fuel s = Ok s') ∨
     (gc fuel s = Exit ∧
      ∃ e o, e ∈ objs ∧ mem s !! e = Some o ∧ class o = nil_class ∧
             ¬ reachable s e)).
Proof.
  intros Hinv. split.
  - intros fuel s' Hrun.
    destruct (gc_Ok_post fuel s objs s' Hinv Hrun) as (objs' & Hpost).
    pose proof (gp_heap _ _ _ _ Hpost) as Hinv'.
    exists objs'. split_and!.
    + apply Hinv'.
    + apply Hinv'.
    + intros a. rewrite (gp_objs _ _ _ _ Hpost a). split; [tauto|].
      intros Hr. split; [|done]. by eapply reachable_objs.
    + apply Hinv'.
  - intros fuel Hfuel.
    destruct (gc_correct fuel s objs Hinv Hfuel)
      as [(s' & objs' & Hrun & _) | Hexit]; eauto.
Qed.

Lemma gc_keeps_exactly_the_reachable_witness :
  heap_inv example_state example_objs ∧
  ∃ s', gc 40 example_state = Ok s' ∧
    ∃ objs', object_list (mem s') (heap_head s') objs' ∧ NoDup objs' ∧
             (∀ a, a ∈ objs' ↔ reachable example_state a) ∧
             (∀ a, a ∈ objs' → is_marked (mem s') a = false).
Proof.
  split; [apply example_heap_inv|].
  eexists. split; [vm_compute; reflexivity|].
  eapply (proj1 (gc_keeps_exactly_the_reachable example_state example_objs
                   example_heap_inv) 40%nat).
  vm_compute. reflexivity.
Defined.

(** C2.  In a heap all of whose objects are unmarked, [mark r] on an object
    [r] of the heap returns, and when it has returned the marked objects of
    the heap are exactly those reachable from [r]: [r] itself and everything
    reachable from it through child references, and nothing else. *)
Theorem mark_marks_exactly_the_closure objs (m : gmap Z object) r :
  heap_marking objs m → (∀ a, a ∈ objs → is_marked m a = false) → r ∈ objs →
  (∃ m', mark (6 * length objs + 2) r m = Ok m') ∧
  (∀ fuel m', mark fuel r m = Ok m' →
     ∀ a, a ∈ objs ∧ is_marked m' a = true ↔ reach m r a).
Proof.
  intros Hwf Hun Hr. split.
  - destruct (mark_correct m objs r Hwf (6 * length objs + 2)) as (m' & Hrun & _);
      [done|lia|]. eauto.
  - intros fuel m' Hrun a.
    pose proof (mark_Ok_post m objs r Hwf fuel m' Hr Hrun) as Hpost. split.
    + intros [Ha Hm]. destruct (mp_cases _ _ _ _ Hpost a) as [Heq | (Hre & _)];
        [|done].
      unfold is_marked in Hm. rewrite Heq in Hm.
      specialize (Hun a Ha). unfold is_marked in Hun. congruence.
    + intros Hre. split.
      * by eapply reach_objs.
      * apply (mp_marked _ _ _ _ Hpost); [|done].
        intros x c Hx Hm. by rewrite (Hun x Hx) in Hm.
Qed.

Lemma mark_marks_exactly_the_closure_witness :
  heap_marking example_objs example_mem ∧
  (∀ a, a ∈ example_objs → is_marked example_mem a = false) ∧
  2 ∈ example_objs ∧
  ∃ m', mark 40 2 example_mem = Ok m' ∧
    ∀ a, a ∈ example_objs ∧ is_marked m' a = true ↔ reach example_mem 2 a.
Proof.
  split; [apply example_heap_marking|]. split; [apply example_unmarked|].
  split; [unfold example_objs; elem_solve|].
  eexists. split; [vm_compute; reflexivity|].
  apply (proj2 (mark_marks_exactly_the_closure example_objs example_mem 2
                  example_heap_marking example_unmarked
                  ltac:(unfold example_objs; elem_solve)) 40%nat).
  vm_compute. reflexivity.
Defined.

(** C3.  In a heap all of whose objects are unmarked, after [mark r] has
    returned every object reachable from [r] has the child pointers it had
    before the call: [head] and [tail] of a cons, [data] of a function.  (The
    traversal overwrites them on the way: see [mark_step_cons].) *)
Theorem mark_restores_child_pointers objs (m : gmap Z object) r :
  heap_marking objs m → (∀ a, a ∈ objs → is_marked m a = false) → r ∈ objs →
  (∃ m', mark (6 * length objs + 2) r m = Ok m') ∧
  (∀ fuel m', mark fuel r m = Ok m' →
     ∀ a, reach m r a →
       ∃ o o', m !! a = Some o ∧ m' !! a = Some o' ∧ same_child_pointers o o').
Proof.
  intros Hwf Hun Hr. split.
  - destruct (mark_correct m objs r Hwf (6 * length objs + 2)) as (m' & Hrun & _);
      [done|lia|]. eauto.
  - intros fuel m' Hrun a Hre.
    pose proof (mark_Ok_post m objs r Hwf fuel m' Hr Hrun) as Hpost.
    assert (a ∈ objs) as Ha by by eapply reach_objs.
    destruct (hm_alloc _ _ Hwf a Ha) as (o & Ho & _).
    destruct (mp_cases _ _ _ _ Hpost a) as [Heq | (_ & _ & Heq)];
      rewrite Ho in Heq.
    + exists o, o. split_and!; try done. by destruct o as [? ? ? []].
    + exists o, (finished o). split_and!; try done. by destruct o as [? ? ? []].
Qed.

Lemma mark_restores_child_pointers_witness :
  heap_marking example_objs example_mem ∧
  (∀ a, a ∈ example_objs → is_marked example_mem a = false) ∧
  2 ∈ example_objs ∧
  ∃ m', mark 40 2 example_mem = Ok m' ∧
    ∀ a, reach example_mem 2 a →
      ∃ o o', example_mem !! a = Some o ∧ m' !! a = Some o' ∧
              same_child_pointers o o'.
Proof.
  split; [apply example_heap_marking|]. split; [apply example_unmarked|].
  split; [unfold example_objs; elem_solve|].
  eexists. split; [vm_compute; reflexivity|].
  apply (proj2 (mark_restores_child_pointers example_objs example_mem 2
                  example_heap_marking example_unmarked
                  ltac:(unfold example_objs; elem_solve)) 40%nat).
  vm_compute. reflexivity.
Defined.

(** C4, as the code has it.  For a cons [O] under traversal with its cursor
    at the head (its [head] slot holds the grandparent [gp], its [tail] slot
    the tail child [t]), [mark_next], called with [obj] the head child just
    visited, returns [true], sets [obj] to the tail child, keeps [parent] at
    [O] and clears [tail_is_next]; afterwards the [head] slot holds the head
    child again and the [tail] slot holds the grandparent. *)
Theorem cons_mark_next_advances (m : gmap Z object) obj O n k c gp t :
  m !! O = Some (Object n k c (cons_fields true gp t)) →
  cons_mark_next obj O m
  = Ok (true, t, O, <[O := Object n k c (cons_fields false obj gp)]> m).
Proof. apply cons_mark_next_head. Qed.

Lemma cons_mark_next_advances_witness :
  let m : gmap Z object := {[2 := Object 0 true cons_class (cons_fields true 7 9)]} in
  m !! 2 = Some (Object 0 true cons_class (cons_fields true 7 9)) ∧
  cons_mark_next 5 2 m
  = Ok (true, 9, 2, <[2 := Object 0 true cons_class (cons_fields false 5 7)]> m).
Proof.
  intros m. split; [reflexivity|].
  apply (cons_mark_next_advances m 5 2 0 true cons_class 7 9). reflexivity.
Defined.

(** C4 as stated fails: for the cons at [2] with grandparent [7] in its head
    slot and tail child [9], called with the head child [5], the head slot
    holds [5] afterwards, not the grandparent, and the tail slot holds the
    grandparent [7], not the cons itself. *)
Lemma mark_next_rotation_as_stated_fails :
  ¬ mark_next_rotation_as_stated
      {[2 := Object 0 true cons_class (cons_fields true 7 9)]} 5 2.
Proof.
  intros H.
  destruct (H 0 true cons_class 7 9 eq_refl) as (m' & n' & k' & c' & Hrun & Hm).
  vm_compute in Hrun. injection Hrun as <-. vm_compute in Hm. discriminate Hm.
Qed.

(** C5.  [mark] terminates on every object graph, cyclic or not.  From
    [start_marking] with the root and a null parent the traversal reaches,
    within [6 * length objs + 1] steps, the configuration [mark_next] with a
    null parent, from which it returns; so [mark] returns for every larger
    budget.  At [start_marking], an object that is already marked is not
    descended into: the next configuration is [mark_next] with the same
    object, parent and memory.  No object is entered twice. *)
Theorem mark_terminates objs (m : gmap Z object) r :
  heap_marking objs m → r ∈ objs →
  let st0 := MarkState L_start_marking r 0 m in
  (∃ n m', (n ≤ 6 * length objs + 1)%nat ∧
     mark_run n st0 = Some (MarkState L_mark_next r 0 m') ∧
     ∀ fuel, (n < fuel)%nat → mark fuel r m = Ok m') ∧
  (∀ k st o, mark_run k st0 = Some st → pc st = L_start_marking →
     cur_mem st !! cur_object st = Some o → marked o = true →
     mark_step st
     = Ok (Goto (MarkState L_mark_next (cur_object st) (cur_parent st) (cur_mem st)))) ∧
  (∀ k1 k2 st1 st2 a, (k1 < k2)%nat →
     mark_run k1 st0 = Some st1 → mark_run k2 st0 = Some st2 →
     enters st1 a → ¬ enters st2 a).
Proof.
  intros Hwf Hr st0. split_and!.
  - destruct (mark_run_terminal m objs r Hwf Hr) as (n & m' & Hn & Hrun).
    exists n, m'. split_and!; [done..|].
    intros fuel Hfuel. by eapply mark_run_loop.
  - intros k [pc obj parent m1] o _ Hpc Ho Hm. cbn in Hpc, Ho. subst pc.
    by eapply mark_step_marked.
  - intros k1 k2 st1 st2 a. apply mark_run_no_reentry.
Qed.

Lemma mark_terminates_witness :
  heap_marking example_objs example_mem ∧ 2 ∈ example_objs ∧
  ∃ n m', (n ≤ 6 * length example_objs + 1)%nat ∧
    mark_run n (MarkState L_start_marking 2 0 example_mem)
    = Some (MarkState L_mark_next 2 0 m') ∧
    ∀ fuel, (n < fuel)%nat → mark fuel 2 example_mem = Ok m'.
Proof.
  split; [apply example_heap_marking|].
  split; [unfold example_objs; elem_solve|].
  apply (mark_terminates example_objs example_mem 2 example_heap_marking
           ltac:(unfold example_objs; elem_solve)).
Defined.

(** C6.  [register_object(obj, class)], called in a state satisfying the heap
    invariant with a block [o] that is allocated but not yet on the heap
    list: if [object_count] equals the cap of 10,000 it first runs [gc] on
    the state as it is, so on the heap list without [o]; if [object_count]
    still equals the cap afterwards it reports a fatal error and the process
    is terminated; otherwise it links [o] at the head of the heap list with
    [marked] false and [class] set to the given class and increments
    [object_count] by one.  When it returns, the heap list is [o] followed by
    the old list, or, when a collection ran, by the objects of the old list
    that were reachable from the roots. *)
Theorem register_object_steps fuel o c s objs :
  heap_inv s objs → o ≠ 0 → o ∉ objs → is_Some (mem s !! o) →
  register_object fuel o c s
  = (s1 ← (if decide (object_count s = cap) then gc fuel s else mret s);
     if decide (object_count s1 = cap) then Exit else mret (link_object o c s1)) ∧
  (∀ s', register_object fuel o c s = Ok s' →
     ∃ objs1 ob',
       object_list (mem s') (heap_head s') (o :: objs1) ∧
       mem s' !! o = Some ob' ∧ marked ob' = false ∧ class ob' = c ∧
       object_count s' = Z.of_nat (length objs1) + 1 ∧
       if decide (object_count s = cap)
       then ∀ a, a ∈ objs1 ↔ reachable s a
       else objs1 = objs).
Proof.
  intros Hinv Ho0 Hno [ob Hob].
  pose proof (register_object_eq fuel o c s objs Hinv Hno (mk_is_Some _ _ Hob))
    as Heq.
  split; [done|]. intros s' Hrun. rewrite Heq in Hrun.
  destruct (decide (object_count s = cap)) as [Hcap|Hcap].
  - destruct (gc fuel s) as [s1| | |] eqn:Hgc; cbn in Hrun; try done.
    destruct (gc_Ok_post fuel s objs s1 Hinv Hgc) as (objs1 & Hpost).
    destruct (decide (object_count s1 = cap)); [done|]. injection Hrun as <-.
    pose proof (gp_heap _ _ _ _ Hpost) as Hinv1.
    assert (o ∉ objs1) as Hno1.
    { intros Hin. by apply (gp_objs _ _ _ _ Hpost) in Hin as [? _]. }
    assert (mem s1 !! o = Some ob) as Hob1
      by by rewrite (gp_other _ _ _ _ Hpost o Hno).
    destruct (link_object_list s1 objs1 o c ob Hinv1 Ho0 Hno1 Hob1) as [Hl Hm].
    eexists objs1, _. split_and!; try done.
    + cbn. rewrite (heap_count _ _ Hinv1). done.
    + intros a. rewrite (gp_objs _ _ _ _ Hpost a). split; [tauto|].
      intros Hr. split; [|done]. by eapply reachable_objs.
  - cbn in Hrun. destruct (decide (object_count s = cap)); [done|].
    injection Hrun as <-.
    destruct (link_object_list s objs o c ob Hinv Ho0 Hno Hob) as [Hl Hm].
    eexists objs, _. split_and!; try done.
    cbn. rewrite (heap_count _ _ Hinv). done.
Qed.

Lemma register_object_steps_witness :
  let s := set_mem example_state
             (<[6 := Object 9 true cons_class (atom_fields "B")]> example_mem) in
  heap_inv s example_objs ∧ 6 ≠ 0 ∧ (6 ∉ example_objs) ∧ is_Some (mem s !! 6) ∧
  register_object 40 6 atom_class s = Ok (link_object 6 atom_class s).
Proof.
  intros s.
  assert (heap_inv s example_objs) as Hinv.
  { apply (heap_inv_frame example_state s example_objs example_heap_inv);
      [|done|done|apply example_heap_inv].
    intros a Ha. elem_cases Ha; done. }
  assert (6 ∉ example_objs) as Hno by (intros H; elem_cases H).
  assert (is_Some (mem s !! 6)) as Hal by (by eexists).
  split; [exact Hinv|]. split; [done|]. split; [exact Hno|]. split; [exact Hal|].
  rewrite (proj1 (register_object_steps 40 6 atom_class s example_objs Hinv
                    ltac:(done) Hno Hal)).
  reflexivity.
Defined.

(** C7.  [gc] is idempotent.  If [gc] has taken a state satisfying the heap
    invariant to [s1], a second [gc] returns and leaves [s1] as it is: heap
    list, [object_count], root stack, root cells and the memory are the same,
    so the second collection disposes of nothing. *)
Theorem gc_idempotent s objs fuel s1 :
  heap_inv s objs → gc fuel s = Ok s1 →
  (∀ fuel', (6 * length objs + 1 < fuel')%nat → gc fuel' s1 = Ok s1) ∧
  (∀ fuel' s2, gc fuel' s1 = Ok s2 → s2 = s1).
Proof.
  intros Hinv Hrun.
  destruct (gc_Ok_post fuel s objs s1 Hinv Hrun) as (objs1 & Hp1).
  pose proof (gp_heap _ _ _ _ Hp1) as Hinv1.
  assert (∀ fuel' s2, gc fuel' s1 = Ok s2 → s2 = s1) as Hsame.
  { intros fuel' s2 Hrun2.
    destruct (gc_Ok_post fuel' s1 objs1 s2 Hinv1 Hrun2) as (objs2 & Hp2).
    apply (gc_idempotent_post s objs s1 objs1 s2 objs2 Hinv Hp1 Hp2). }
  split; [|done]. intros fuel' Hfuel.
  pose proof (sublist_length _ _ (gp_sub _ _ _ _ Hp1)) as Hlen.
  destruct (gc_correct fuel' s1 objs1 Hinv1)
    as [(s2 & objs2 & Hrun2 & Hp2) | (_ & e & o & He & _ & _ & Hunr)]; [lia| |].
  - by rewrite Hrun2, (Hsame fuel' s2 Hrun2).
  - exfalso. apply Hunr. apply (gc_post_reachable s objs s1 objs1 e Hinv Hp1 He).
Qed.

Lemma gc_idempotent_witness :
  heap_inv example_state example_objs ∧
  ∃ s1, gc 40 example_state = Ok s1 ∧ gc 40 s1 = Ok s1.
Proof.
  split; [apply example_heap_inv|].
  eexists. split; [vm_compute; reflexivity|].
  apply (proj1 (gc_idempotent example_state example_objs 40 _ example_heap_inv
                  ltac:(vm_compute; reflexivity)) 40%nat).
  vm_compute. lia.
Defined.

(** C8.  In every state in which [init_globals] or a later call of the
    interface ([register_object], the constructors, [push_root], [pop_root],
    [set_root], [gc], the stack and accessor operations) returns,
    [object_count] equals the number of objects on the heap list. *)
Theorem object_count_is_heap_length nil_value s :
  nil_value ≠ 0 → api_reachable nil_value s →
  ∃ objs, object_list (mem s) (heap_head s) objs ∧
          object_count s = Z.of_nat (length objs).
Proof.
  intros Hnil Hreach.
  destruct (api_reachable_inv nil_value Hnil s Hreach) as (objs & Hinv).
  exists objs. split; apply Hinv.
Qed.

Lemma object_count_is_heap_length_witness :
  1 ≠ 0 ∧ api_reachable 1 scenario_atom ∧
  ∃ objs, object_list (mem scenario_atom) (heap_head scenario_atom) objs ∧
          object_count scenario_atom = Z.of_nat (length objs).
Proof.
  assert (1 ≠ 0) as Hnil by done.
  split; [exact Hnil|]. split; [apply scenario_atom_reachable|].
  apply (object_count_is_heap_length 1 scenario_atom Hnil scenario_atom_reachable).
Defined.

(** C9.  Outside of a running [gc], every object on the heap list has
    [marked] equal to false: this holds in every state in which
    [init_globals] or a later call of the interface returns. *)
Theorem marks_clear_between_calls nil_value s :
  nil_value ≠ 0 → api_reachable nil_value s →
  ∃ objs, object_list (mem s) (heap_head s) objs ∧
          ∀ a, a ∈ objs → is_marked (mem s) a = false.
Proof.
  intros Hnil Hreach.
  destruct (api_reachable_inv nil_value Hnil s Hreach) as (objs & Hinv).
  exists objs. split; apply Hinv.
Qed.

Lemma marks_clear_between_calls_witness :
  1 ≠ 0 ∧ api_reachable 1 scenario_init ∧
  ∃ objs, object_list (mem scenario_init) (heap_head scenario_init) objs ∧
          ∀ a, a ∈ objs → is_marked (mem scenario_init) a = false.
Proof.
  assert (1 ≠ 0) as Hnil by done.
  split; [exact Hnil|]. split; [apply scenario_collected_reachable|].
  apply (marks_clear_between_calls 1 scenario_init Hnil
           scenario_collected_reachable).
Defined.

(** C10.  When the cell [cont_stack] holds an object whose class is not the
    cons class, [pop_cont] returns the null pointer and leaves the state as
    it is; it does not terminate the process.  In the same situation on the
    operand stack [pop] reports an error and terminates the process. *)
Theorem pop_cont_empty s a o :
  cells s !! cont_stack = Some a → mem s !! a = Some o → class o ≠ cons_class →
  pop_cont s = Ok (0, s) ∧
  (∀ b ob, cells s !! operand_stack = Some b → mem s !! b = Some ob →
           class ob ≠ cons_class → pop s = Exit).
Proof.
  intros Hc Ho Hcl. split.
  - unfold pop_cont, load_cell, load. rewrite Hc. cbn. rewrite Ho. cbn.
    by rewrite decide_True.
  - intros b ob Hb Hob Hbcl.
    unfold pop, load_cell, load. rewrite Hb. cbn. rewrite Hob. cbn.
    by rewrite decide_True.
Qed.

Lemma pop_cont_empty_witness :
  let s := initial_state 1 in
  cells s !! cont_stack = Some 1 ∧
  mem s !! 1 = Some (Object 0 false nil_class nil_fields) ∧
  class (Object 0 false nil_class nil_fields) ≠ cons_class ∧
  pop_cont s = Ok (0, s) ∧ pop s = Exit.
Proof.
  intros s. split; [reflexivity|]. split; [reflexivity|]. split; [done|].
  destruct (pop_cont_empty s 1 (Object 0 false nil_class nil_fields)
              eq_refl eq_refl ltac:(done)) as [H1 H2].
  split; [exact H1|].
  apply (H2 1 (Object 0 false nil_class nil_fields)); done.
Defined.

(** * Further properties *)

(** X1.  The three callback calls [mark] makes on a cons compose to a round
    trip: [start_marking] descends into the head, [mark_next] after the head
    moves on to the tail, [mark_next] after the tail returns [false] with
    [object] back at the cons and [parent] back at the parent it was entered
    with; the cons then has its [head] and [tail] again, with the cursor flag
    cleared, and nothing else in memory has changed. *)
Theorem cons_marking_round_trip (m : gmap Z object) O P n k c f h t :
  m !! O = Some (Object n k c (cons_fields f h t)) →
  ∃ m1 m2,
    cons_start_marking O P m = Ok (true, h, O, m1) ∧
    cons_mark_next h O m1 = Ok (true, t, O, m2) ∧
    cons_mark_next t O m2
    = Ok (false, O, P, <[O := Object n k c (cons_fields false h t)]> m).
Proof.
  intros H. eexists _, _. split_and!.
  - by eapply cons_start_marking_eq.
  - eapply cons_mark_next_head. apply lookup_insert_eq.
  - erewrite cons_mark_next_tail by apply lookup_insert_eq.
    by rewrite !insert_insert_eq.
Qed.

Lemma cons_marking_round_trip_witness :
  let m : gmap Z object := {[2 := Object 0 true cons_class (cons_fields true 7 9)]} in
  m !! 2 = Some (Object 0 true cons_class (cons_fields true 7 9)) ∧
  ∃ m1 m2,
    cons_start_marking 2 5 m = Ok (true, 7, 2, m1) ∧
    cons_mark_next 7 2 m1 = Ok (true, 9, 2, m2) ∧
    cons_mark_next 9 2 m2
    = Ok (false, 2, 5, <[2 := Object 0 true cons_class (cons_fields false 7 9)]> m).
Proof.
  intros m. split; [reflexivity|].
  apply (cons_marking_round_trip m 2 5 0 true cons_class true 7 9). reflexivity.
Defined.

(** X2.  The two callback calls [mark] makes on a function object are a
    round trip: [start_marking] descends into [data] leaving the parent in
    its place, [mark_next] puts [data] back and returns [false] with [object]
    at the function and [parent] at the old parent; the memory is exactly
    what it was. *)
Theorem function_marking_round_trip (m : gmap Z object) O P n k c f d :
  m !! O = Some (Object n k c (function_fields f d)) →
  ∃ m1,
    function_start_marking O P m = Ok (true, d, O, m1) ∧
    function_mark_next d O m1 = Ok (false, O, P, m).
Proof.
  intros H. eexists. split.
  - by apply function_start_marking_eq.
  - erewrite function_mark_next_eq by apply lookup_insert_eq.
    rewrite insert_insert_eq. by rewrite insert_id.
Qed.

Lemma function_marking_round_trip_witness :
  let m : gmap Z object :=
    {[2 := Object 0 true function_class (function_fields eval 7)]} in
  m !! 2 = Some (Object 0 true function_class (function_fields eval 7)) ∧
  ∃ m1,
    function_start_marking 2 5 m = Ok (true, 7, 2, m1) ∧
    function_mark_next 7 2 m1 = Ok (false, 2, 5, m).
Proof.
  intros m. split; [reflexivity|].
  apply (function_marking_round_trip m 2 5 0 true function_class eval 7).
  reflexivity.
Defined.

(** X3.  What [mark] never does.  When [mark r] returns, every object that
    is not reachable from [r] or was already marked is exactly as it was;
    every other object has the [next] link, the class and the child pointers
    it had, and a mark that was set stays set; no block is allocated or
    freed. *)
Theorem mark_leaves_the_rest_alone objs (m : gmap Z object) r fuel m' :
  heap_marking objs m → r ∈ objs → mark fuel r m = Ok m' →
  (∀ a, ¬ reach m r a ∨ is_marked m a = true → m' !! a = m !! a) ∧
  (∀ a o, m !! a = Some o →
     ∃ o', m' !! a = Some o' ∧ next o' = next o ∧ class o' = class o ∧
           same_child_pointers o o' ∧ (marked o = true → marked o' = true)) ∧
  (∀ a, m !! a = None → m' !! a = None).
Proof.
  intros Hwf Hr Hrun.
  pose proof (mark_Ok_post m objs r Hwf fuel m' Hr Hrun) as Hpost.
  split_and!.
  - intros a Ha. destruct (mp_cases _ _ _ _ Hpost a) as [Heq | (Hre & Hun & _)];
      [done|]. destruct Ha as [Ha|Ha]; [done|congruence].
  - intros a o Ho.
    destruct (mp_cases _ _ _ _ Hpost a) as [Heq | (_ & _ & Heq)]; rewrite Ho in Heq.
    + exists o. split_and!; try done. apply same_child_pointers_refl.
    + exists (finished o). split_and!; try done.
      by apply same_child_pointers_finished.
  - intros a Ha.
    destruct (mp_cases _ _ _ _ Hpost a) as [Heq | (_ & _ & Heq)];
      by rewrite Ha in Heq.
Qed.

Lemma mark_leaves_the_rest_alone_witness :
  heap_marking example_objs example_mem ∧ 2 ∈ example_objs ∧
  ∃ m', mark 40 2 example_mem = Ok m' ∧
    (∀ a, ¬ reach example_mem 2 a ∨ is_marked example_mem a = true →
          m' !! a = example_mem !! a) ∧
    (∀ a o, example_mem !! a = Some o →
       ∃ o', m' !! a = Some o' ∧ next o' = next o ∧ class o' = class o ∧
             same_child_pointers o o' ∧ (marked o = true → marked o' = true)) ∧
    (∀ a, example_mem !! a = None → m' !! a = None).
Proof.
  split; [apply example_heap_marking|].
  split; [unfold example_objs; elem_solve|].
  eexists. split; [vm_compute; reflexivity|].
  apply (mark_leaves_the_rest_alone example_objs example_mem 2 40
           _ example_heap_marking ltac:(unfold example_objs; elem_solve)).
  vm_compute. reflexivity.
Defined.

(** X4.  [mark] is idempotent: once [mark r] has returned, a second
    [mark r] finds [r] marked, goes straight to [mark_next] with a null
    parent and returns without changing the memory. *)
Theorem mark_twice objs (m : gmap Z object) r fuel m' :
  heap_marking objs m → r ∈ objs → mark fuel r m = Ok m' →
  ∀ fuel', (2 ≤ fuel')%nat → mark fuel' r m' = Ok m'.
Proof.
  intros Hwf Hr Hrun fuel' Hfuel.
  pose proof (mark_Ok_post m objs r Hwf fuel m' Hr Hrun) as Hpost.
  pose proof (mp_root _ _ _ _ Hpost) as Hm. unfold is_marked in Hm.
  destruct (m' !! r) as [o|] eqn:Ho; [|done].
  destruct fuel' as [|[|fuel']]; [lia..|].
  unfold mark. cbn [mark_loop].
  rewrite (mark_step_marked m' r 0 o Ho Hm). done.
Qed.

Lemma mark_twice_witness :
  heap_marking example_objs example_mem ∧ 2 ∈ example_objs ∧
  ∃ m', mark 40 2 example_mem = Ok m' ∧ (2 ≤ 2)%nat ∧ mark 2 2 m' = Ok m'.
Proof.
  split; [apply example_heap_marking|].
  split; [unfold example_objs; elem_solve|].
  eexists. split; [vm_compute; reflexivity|]. split; [lia|].
  apply (mark_twice example_objs example_mem 2 40 _ example_heap_marking
           ltac:(unfold example_objs; elem_solve) ltac:(vm_compute; reflexivity)).
  lia.
Defined.

(** X5.  On a well-formed heap [mark] never fails: the [assert(false)] in
    [nil_mark_next] and [atom_mark_next] is never reached and no access is
    invalid.  Whatever the budget, [mark] returns or the budget runs out, and
    it returns for every budget above [6 * length objs + 1]. *)
Theorem mark_never_fails objs (m : gmap Z object) r fuel :
  heap_marking objs m → r ∈ objs →
  mark fuel r m ≠ Exit ∧ mark fuel r m ≠ Undefined ∧
  ((6 * length objs + 1 < fuel)%nat → ∃ m', mark fuel r m = Ok m').
Proof.
  intros Hwf Hr.
  assert (∀ res, mark fuel r m = res → res ≠ OutOfFuel → ∃ m', res = Ok m') as H.
  { intros res Hres Hne.
    apply (mark_mono _ (fuel + (6 * length objs + 2))) in Hres; [|done|lia].
    destruct (mark_correct m objs r Hwf (fuel + (6 * length objs + 2)))
      as (m' & Hrun & _); [done|lia|].
    exists m'. congruence. }
  split_and!.
  - intros He. by destruct (H _ He) as (m' & ?).
  - intros He. by destruct (H _ He) as (m' & ?).
  - intros Hfuel.
    destruct (mark_correct m objs r Hwf fuel) as (m' & Hrun & _); eauto.
Qed.

Lemma mark_never_fails_witness :
  heap_marking example_objs example_mem ∧ 2 ∈ example_objs ∧
  mark 40 2 example_mem ≠ Exit ∧ mark 40 2 example_mem ≠ Undefined ∧
  ∃ m', mark 40 2 example_mem = Ok m'.
Proof.
  split; [apply example_heap_marking|].
  split; [unfold example_objs; elem_solve|].
  destruct (mark_never_fails example_objs example_mem 2 40 example_heap_marking
              ltac:(unfold example_objs; elem_solve)) as (H1 & H2 & H3).
  split; [exact H1|]. split; [exact H2|]. apply H3. vm_compute. lia.
Defined.

(** X6.  [gc] keeps the heap invariant: when it returns, the heap list is
    again a list without repetition of well-formed, unmarked objects that
    refer only to each other, every root cell holds one of them, and
    [object_count] is the length of the list.  The survivors are in the order
    they had, and the count has gone down by the number of objects freed. *)
Theorem gc_keeps_heap_inv s objs fuel s' :
  heap_inv s objs → gc fuel s = Ok s' →
  ∃ objs', heap_inv s' objs' ∧ objs' `sublist_of` objs ∧
           object_count s' =
           object_count s - Z.of_nat (length objs - length objs').
Proof.
  intros Hinv Hrun.
  destruct (gc_Ok_post fuel s objs s' Hinv Hrun) as (objs' & Hpost).
  exists objs'. split; [apply Hpost|]. split; [apply Hpost|].
  pose proof (sublist_length _ _ (gp_sub _ _ _ _ Hpost)) as Hlen.
  rewrite (heap_count _ _ Hinv), (heap_count _ _ (gp_heap _ _ _ _ Hpost)). lia.
Qed.

Lemma gc_keeps_heap_inv_witness :
  heap_inv example_state example_objs ∧
  ∃ s', gc 40 example_state = Ok s' ∧
    ∃ objs', heap_inv s' objs' ∧ objs' `sublist_of` example_objs ∧
             object_count s' =
             object_count example_state
             - Z.of_nat (length example_objs - length objs').
Proof.
  split; [apply example_heap_inv|].
  eexists. split; [vm_compute; reflexivity|].
  apply (gc_keeps_heap_inv example_state example_objs 40 _ example_heap_inv).
  vm_compute. reflexivity.
Defined.

(** X7.  What [gc] touches.  The root stack and the contents of the root
    cells are as before; memory outside the heap list is as before; every
    reachable object of the heap list is kept with its class and payload (a
    cons's cursor flag apart); every other object of the heap list has been
    freed. *)
Theorem gc_frees_exactly_the_garbage s objs fuel s' :
  heap_inv s objs → gc fuel s = Ok s' →
  cells s' = cells s ∧ roots_head s' = roots_head s ∧
  (∀ a, a ∉ objs → mem s' !! a = mem s !! a) ∧
  (∀ a, reachable s a → kept s s' a) ∧
  (∀ a, a ∈ objs → ¬ reachable s a → mem s' !! a = None).
Proof.
  intros Hinv Hrun.
  destruct (gc_Ok_post fuel s objs s' Hinv Hrun) as (objs' & Hpost).
  split_and!; try apply Hpost.
  - intros a Hr.
    assert (a ∈ objs') as Ha.
    { apply (gp_objs _ _ _ _ Hpost). split; [|done]. by eapply reachable_objs. }
    destruct (gp_kept _ _ _ _ Hpost a Ha) as (o & o' & Ho & Ho' & _ & Hc & Hf).
    exists o, o'. split_and!; try done. by apply same_child_pointers_finished.
  - intros a Ha Hnr. apply (gp_freed _ _ _ _ Hpost a Ha).
    intros Hin. by apply (gp_objs _ _ _ _ Hpost) in Hin as [_ ?].
Qed.

Lemma gc_frees_exactly_the_garbage_witness :
  heap_inv example_state example_objs ∧
  ∃ s', gc 40 example_state = Ok s' ∧
    cells s' = cells example_state ∧ roots_head s' = roots_head example_state ∧
    (∀ a, a ∉ example_objs → mem s' !! a = mem example_state !! a) ∧
    (∀ a, reachable example_state a → kept example_state s' a) ∧
    (∀ a, a ∈ example_objs → ¬ reachable example_state a → mem s' !! a = None).
Proof.
  split; [apply example_heap_inv|].
  eexists. split; [vm_compute; reflexivity|].
  apply (gc_frees_exactly_the_garbage example_state example_objs 40 _
           example_heap_inv).
  vm_compute. reflexivity.
Defined.

(** X8.  A collection without garbage changes nothing but cursor flags: if
    every object of the heap list is reachable, then after [gc] the heap list
    is the same list with the same head, [object_count] is the same, and
    every object has its [next] link, its class and its payload, with the
    cursor flag of a cons cleared. *)
Theorem gc_without_garbage s objs fuel s' :
  heap_inv s objs → (∀ a, a ∈ objs → reachable s a) → gc fuel s = Ok s' →
  heap_inv s' objs ∧ heap_head s' = heap_head s ∧
  object_count s' = object_count s ∧
  ∀ a o, a ∈ objs → mem s !! a = Some o →
    mem s' !! a
    = Some (Object (next o) false (class o) (fields (finished o))).
Proof.
  intros Hinv Hall Hrun.
  destruct (gc_Ok_post fuel s objs s' Hinv Hrun) as (objs' & Hpost).
  pose proof (gp_heap _ _ _ _ Hpost) as Hinv'.
  assert (objs' = objs) as ->.
  { apply sublist_all; [apply Hpost|apply Hinv|].
    intros x Hx. apply (gp_objs _ _ _ _ Hpost). split; [done|]. by apply Hall. }
  destruct (object_list_next _ _ _ _ _ (heap_list _ _ Hinv) (heap_list _ _ Hinv'))
    as [Hhead Hnext].
  split_and!; try done.
  - by rewrite (heap_count _ _ Hinv), (heap_count _ _ Hinv').
  - intros a o Ha Ho.
    destruct (gp_kept _ _ _ _ Hpost a Ha) as (o0 & o' & Ho0 & Ho' & Hm & Hc & Hf).
    rewrite Ho in Ho0. injection Ho0 as <-. rewrite Ho'. f_equal.
    pose proof (Hnext a o o' Ha Ho Ho') as Hn.
    destruct o' as [n' k' c' f']. cbn in Hm, Hc, Hf, Hn. by subst.
Qed.

Lemma gc_without_garbage_witness :
  heap_inv live_state live_objs ∧ (∀ a, a ∈ live_objs → reachable live_state a) ∧
  ∃ s', gc 40 live_state = Ok s' ∧
    heap_inv s' live_objs ∧ heap_head s' = heap_head live_state ∧
    object_count s' = object_count live_state ∧
    ∀ a o, a ∈ live_objs → mem live_state !! a = Some o →
      mem s' !! a
      = Some (Object (next o) false (class o) (fields (finished o))).
Proof.
  split; [apply live_heap_inv|]. split; [apply live_all_reachable|].
  eexists. split; [vm_compute; reflexivity|].
  apply (gc_without_garbage live_state live_objs 40 _ live_heap_inv
           live_all_reachable).
  vm_compute. reflexivity.
Defined.

(** X9.  [gc] is memory safe: in a state that satisfies the heap invariant
    it makes no invalid access and [object_count] does not overflow,
    whatever the budget of the model. *)
Theorem gc_never_undefined s objs fuel : heap_inv s objs → gc fuel s ≠ Undefined.
Proof.
  intros Hinv Hrun.
  apply (gc_mono _ (fuel + (6 * length objs + 2))) in Hrun; [|done|lia].
  destruct (gc_correct (fuel + (6 * length objs + 2)) s objs Hinv)
    as [(s1 & objs' & Hrun1 & _) | (Hexit & _)]; [lia| |]; congruence.
Qed.

Lemma gc_never_undefined_witness :
  heap_inv example_state example_objs ∧ gc 3 example_state ≠ Undefined.
Proof.
  split; [apply example_heap_inv|].
  apply (gc_never_undefined example_state example_objs 3 example_heap_inv).
Defined.

(** X10.  [pop_root] undoes [push_root]: when [push_root] returns (the
    allocation of the stack node succeeded), the pushed cell is on top of the
    root stack, and [pop_root] gives back the state before the push. *)
Theorem push_root_then_pop_root n root s s1 :
  push_root n root s = Ok s1 →
  roots_head s1 = root :: roots_head s ∧ pop_root s1 = Ok s.
Proof.
  unfold push_root, stack_push. destruct (decide (n = 0)); [done|].
  cbn. intros [= <-]. split; [done|]. by destruct s.
Qed.

Lemma push_root_then_pop_root_witness :
  push_root 7 (stack_var 0) example_state
  = Ok (set_roots_head example_state (stack_var 0 :: roots_head example_state)) ∧
  pop_root (set_roots_head example_state (stack_var 0 :: roots_head example_state))
  = Ok example_state.
Proof.
  split; [reflexivity|].
  apply (push_root_then_pop_root 7 (stack_var 0) example_state). reflexivity.
Defined.

(** X11.  [destruct_cons] reads back what [create_cons] was given: the
    object [create_cons] returns is a new object at the head of the heap
    list, its class is the cons class, and [destruct_cons] yields the [head]
    and [tail] passed to [create_cons], also when the allocation ran a
    collection. *)
Theorem create_cons_then_destruct_cons fuel b n1 n2 ch ct head tail s objs p s' :
  heap_inv s objs → head ∈ objs → tail ∈ objs → fresh_block b s →
  cells s !! ch = None → cells s !! ct = None → ch ≠ ct →
  create_cons fuel b n1 n2 ch ct head tail s = Ok (p, s') →
  destruct_cons p s' = Ok (head, tail) ∧
  object_get_class p s' = Ok cons_class ∧
  (p ∉ objs) ∧ heap_head s' = p.
Proof.
  intros Hinv Hh Ht Hfresh Hch Hct Hne Hrun.
  destruct (create_cons_post _ _ _ _ _ _ _ _ _ _ _ _ Hinv Hh Ht Hfresh Hch Hct
              Hne Hrun) as (Hnp & Hp & objs' & Hinv' & _).
  split_and!; try done.
  - by apply destruct_cons_is_cons.
  - destruct Hp as (n & k & f & Hp). unfold object_get_class, load. by rewrite Hp.
  - by destruct (heap_list _ _ Hinv') as [? _].
Qed.

Lemma create_cons_then_destruct_cons_witness :
  let b := Block 6 9 true atom_class true in
  heap_inv example_state example_objs ∧ 3 ∈ example_objs ∧ 1 ∈ example_objs ∧
  fresh_block b example_state ∧
  cells example_state !! stack_var 1 = None ∧
  cells example_state !! stack_var 2 = None ∧ stack_var 1 ≠ stack_var 2 ∧
  ∃ s', create_cons 40 b 7 7 (stack_var 1) (stack_var 2) 3 1 example_state
        = Ok (6, s') ∧
    destruct_cons 6 s' = Ok (3, 1) ∧ object_get_class 6 s' = Ok cons_class ∧
    (6 ∉ example_objs) ∧ heap_head s' = 6.
Proof.
  intros b.
  assert (3 ∈ example_objs) as H3 by (unfold example_objs; elem_solve).
  assert (1 ∈ example_objs) as H1 by (unfold example_objs; elem_solve).
  assert (fresh_block b example_state) as Hf by (intros _; reflexivity).
  assert (stack_var 1 ≠ stack_var 2) as Hne by done.
  split; [apply example_heap_inv|]. split; [exact H3|]. split; [exact H1|].
  split; [exact Hf|]. split; [reflexivity|]. split; [reflexivity|].
  split; [exact Hne|].
  eexists. split; [vm_compute; reflexivity|].
  apply (create_cons_then_destruct_cons 40 b 7 7 (stack_var 1) (stack_var 2) 3 1
           example_state example_objs 6 _ example_heap_inv H3 H1 Hf
           eq_refl eq_refl Hne).
  vm_compute. reflexivity.
Defined.

(** X12.  [pop] undoes [push]: after [push(object)] has returned, [pop]
    returns [object] and the cell [operand_stack] holds what it held before
    the push.  The cons that [push] allocated stays in memory, unreferenced,
    until the next collection. *)
Theorem push_then_pop fuel b n1 n2 ch ct object s objs s1 :
  heap_inv s objs → object ∈ objs → operand_stack ∈ roots_head s →
  fresh_block b s → cells s !! ch = None → cells s !! ct = None → ch ≠ ct →
  push fuel b n1 n2 ch ct object s = Ok s1 →
  pop s1 = Ok (object, set_cells s1 (cells s)).
Proof.
  intros Hinv Ho Hroot Hfresh Hch Hct Hne Hrun. unfold push in Hrun.
  apply bind_Ok in Hrun as (old & Hold & Hrun).
  apply bind_Ok in Hrun as ([p s'] & Hcons & Hrun).
  destruct (heap_roots _ _ Hinv _ Hroot) as (r & Hr & Hro).
  unfold load_cell in Hold. rewrite Hr in Hold. injection Hold as <-.
  destruct (create_cons_post _ _ _ _ _ _ _ _ _ _ _ _ Hinv Ho Hro Hfresh Hch Hct
              Hne Hcons)
    as (Hnp & (n & k & f & Hp) & objs' & Hinv' & Hroots' & Hcells' & _).
  destruct (set_root_inv operand_stack p s' (p :: objs') s1 Hinv') as [-> _];
    [intros _; by left|done|].
  unfold pop, load_cell, load, cons_get_head, cons_get_tail, cons_get, set_root,
    store_cell, load_cell.
  cbn. rewrite lookup_insert_eq. cbn. rewrite Hp. cbn.
  rewrite decide_False by (intros H; by apply H).
  unfold load. rewrite !Hp. cbn.
  rewrite insert_insert_eq, Hcells'. by rewrite (insert_id _ _ _ Hr).
Qed.

Lemma push_then_pop_witness :
  let b := Block 9 0 true atom_class true in
  heap_inv map_state map_objs ∧ 3 ∈ map_objs ∧
  operand_stack ∈ roots_head map_state ∧ fresh_block b map_state ∧
  cells map_state !! stack_var 5 = None ∧
  cells map_state !! stack_var 6 = None ∧ stack_var 5 ≠ stack_var 6 ∧
  ∃ s1, push 40 b 7 7 (stack_var 5) (stack_var 6) 3 map_state = Ok s1 ∧
        pop s1 = Ok (3, set_cells s1 (cells map_state)).
Proof.
  intros b.
  assert (3 ∈ map_objs) as H3 by (unfold map_objs; elem_solve).
  assert (operand_stack ∈ roots_head map_state) as Hr by (cbn; elem_solve).
  assert (fresh_block b map_state) as Hf by (intros _; reflexivity).
  assert (stack_var 5 ≠ stack_var 6) as Hne by done.
  split; [apply map_heap_inv|]. split; [exact H3|]. split; [exact Hr|].
  split; [exact Hf|]. split; [reflexivity|]. split; [reflexivity|].
  split; [exact Hne|].
  eexists. split; [vm_compute; reflexivity|].
  apply (push_then_pop 40 b 7 7 (stack_var 5) (stack_var 6) 3 map_state map_objs
           _ map_heap_inv H3 Hr Hf eq_refl eq_refl Hne).
  vm_compute. reflexivity.
Defined.

(** X13.  [pop_cont] undoes [push_cont]: after [push_cont(object)] has
    returned, [pop_cont] returns [object], not the null pointer it returns
    for an empty stack, and the cell [cont_stack] holds what it held before
    the push. *)
Theorem push_cont_then_pop_cont fuel b n1 n2 ch ct object s objs s1 :
  heap_inv s objs → object ∈ objs → cont_stack ∈ roots_head s →
  fresh_block b s → cells s !! ch = None → cells s !! ct = None → ch ≠ ct →
  push_cont fuel b n1 n2 ch ct object s = Ok s1 →
  pop_cont s1 = Ok (object, set_cells s1 (cells s)) ∧ object ≠ 0.
Proof.
  intros Hinv Ho Hroot Hfresh Hch Hct Hne Hrun. unfold push_cont in Hrun.
  apply bind_Ok in Hrun as (old & Hold & Hrun).
  apply bind_Ok in Hrun as ([p s'] & Hcons & Hrun).
  destruct (heap_roots _ _ Hinv _ Hroot) as (r & Hr & Hro).
  unfold load_cell in Hold. rewrite Hr in Hold. injection Hold as <-.
  destruct (create_cons_post _ _ _ _ _ _ _ _ _ _ _ _ Hinv Ho Hro Hfresh Hch Hct
              Hne Hcons)
    as (Hnp & (n & k & f & Hp) & objs' & Hinv' & Hroots' & Hcells' & _).
  destruct (set_root_inv cont_stack p s' (p :: objs') s1 Hinv') as [-> _];
    [intros _; by left|done|].
  split.
  - unfold pop_cont, load_cell, load, cons_get_head, cons_get_tail, cons_get,
      set_root, store_cell, load_cell.
    cbn. rewrite lookup_insert_eq. cbn. rewrite Hp. cbn.
    rewrite decide_False by (intros H; by apply H).
    unfold load. rewrite !Hp. cbn.
    rewrite insert_insert_eq, Hcells'. by rewrite (insert_id _ _ _ Hr).
  - intros ->. by apply (hm_nonnull _ _ (heap_graph _ _ Hinv)).
Qed.

Lemma push_cont_then_pop_cont_witness :
  let b := Block 9 0 true atom_class true in
  heap_inv map_state map_objs ∧ 3 ∈ map_objs ∧
  cont_stack ∈ roots_head map_state ∧ fresh_block b map_state ∧
  cells map_state !! stack_var 5 = None ∧
  cells map_state !! stack_var 6 = None ∧ stack_var 5 ≠ stack_var 6 ∧
  ∃ s1, push_cont 40 b 7 7 (stack_var 5) (stack_var 6) 3 map_state = Ok s1 ∧
        pop_cont s1 = Ok (3, set_cells s1 (cells map_state)) ∧ 3 ≠ 0.
Proof.
  intros b.
  assert (3 ∈ map_objs) as H3 by (unfold map_objs; elem_solve).
  assert (cont_stack ∈ roots_head map_state) as Hr by (cbn; elem_solve).
  assert (fresh_block b map_state) as Hf by (intros _; reflexivity).
  assert (stack_var 5 ≠ stack_var 6) as Hne by done.
  split; [apply map_heap_inv|]. split; [exact H3|]. split; [exact Hr|].
  split; [exact Hf|]. split; [reflexivity|]. split; [reflexivity|].
  split; [exact Hne|].
  eexists. split; [vm_compute; reflexivity|].
  apply (push_cont_then_pop_cont 40 b 7 7 (stack_var 5) (stack_var 6) 3 map_state
           map_objs _ map_heap_inv H3 Hr Hf eq_refl eq_refl Hne).
  vm_compute. reflexivity.
Defined.


(** X15.  [assoc] is the lookup in an association list.  On a map that
    stands for the entries [es] and a key that is an atom, [assoc] returns,
    within [length es + 1] iterations, the value of the first entry whose
    atom has the characters of the key, and the null pointer if there is no
    such entry. *)
Theorem assoc_finds_first_entry nil_value fuel key cs map s es :
  is_atom s key cs → map_entries nil_value s map es → (length es < fuel)%nat →
  assoc nil_value fuel key map s = Ok (default 0 (entries_lookup cs es)).
Proof. apply assoc_entries. Qed.

Lemma assoc_finds_first_entry_witness :
  is_atom map_state 8 "x" ∧
  map_entries 1 map_state 7 [("y"%string, 1); ("x"%string, 3)] ∧
  (length [("y"%string, 1); ("x"%string, 3)] < 3)%nat ∧
  assoc 1 3 8 7 map_state = Ok 3.
Proof.
  assert (is_atom map_state 8 "x") as Ha by (by eexists _, _).
  assert (length [("y"%string, 1); ("x"%string, 3)] < 3)%nat as Hl by (cbn; lia).
  split; [exact Ha|]. split; [apply map_state_entries|]. split; [exact Hl|].
  apply (assoc_finds_first_entry 1 3 8 "x" 7 map_state _ Ha map_state_entries Hl).
Defined.



(** X17.  No dangling pointers between calls.  In every state in which
    [init_globals] or a later call of the interface returns, every object of
    the heap list is allocated with the payload of its class, every child
    pointer of such an object refers to an object of the heap list, every
    cell on the root stack holds an object of the heap list, and
    [object_count] is at most 10,000. *)
Theorem api_no_dangling_pointers nil_value s :
  nil_value ≠ 0 → api_reachable nil_value s →
  ∃ objs, object_list (mem s) (heap_head s) objs ∧
    (∀ a, a ∈ objs →
       ∃ o, mem s !! a = Some o ∧ class_inv o = true ∧
            ∀ c, c ∈ children_of o → c ∈ objs) ∧
    (∀ c, c ∈ roots_head s → ∃ r, cells s !! c = Some r ∧ r ∈ objs) ∧
    object_count s ≤ cap.
Proof.
  intros Hnil Hreach.
  destruct (api_reachable_inv nil_value Hnil s Hreach) as (objs & Hinv).
  exists objs. split_and!; try apply Hinv.
  intros a Ha. destruct (hm_alloc _ _ (heap_graph _ _ Hinv) a Ha) as (o & Ho & Hci).
  exists o. split_and!; try done.
  intros c Hc. apply (hm_closed _ _ (heap_graph _ _ Hinv) a); [done|].
  by rewrite (children_Some _ _ _ Ho).
Qed.

Lemma api_no_dangling_pointers_witness :
  1 ≠ 0 ∧ api_reachable 1 scenario_atom ∧
  ∃ objs, object_list (mem scenario_atom) (heap_head scenario_atom) objs ∧
    (∀ a, a ∈ objs →
       ∃ o, mem scenario_atom !! a = Some o ∧ class_inv o = true ∧
            ∀ c, c ∈ children_of o → c ∈ objs) ∧
    (∀ c, c ∈ roots_head scenario_atom →
       ∃ r, cells scenario_atom !! c = Some r ∧ r ∈ objs) ∧
    object_count scenario_atom ≤ cap.
Proof.
  assert (1 ≠ 0) as Hnil by done.
  split; [exact Hnil|]. split; [apply scenario_atom_reachable|].
  apply (api_no_dangling_pointers 1 scenario_atom Hnil scenario_atom_reachable).
Defined.

(** X18.  The object [create_atom] returns is a new object of the atom class
    that carries the given characters: compared by [atom_equals] with any
    atom that was reachable before the call, it is equal exactly when the
    characters are the same. *)
Theorem create_atom_then_atom_equals fuel b buffer s objs p s' a cs :
  heap_inv s objs → fresh_block b s → reachable s a → is_atom s a cs →
  create_atom fuel b buffer s = Ok (p, s') →
  atom_equals p a s' = Ok (bool_decide (buffer = cs)) ∧
  object_get_class p s' = Ok atom_class ∧ p ≠ a.
Proof.
  intros Hinv Hfresh Hr Ha Hrun.
  destruct (create_atom_post _ _ _ _ _ _ _ Hinv Hfresh Hrun)
    as (Hnp & Hp & objs' & Hinv' & _ & _ & _ & Hlive & Hkept & _).
  assert (is_atom s' a cs) as Ha'
    by (apply (kept_is_atom s); [by apply Hkept, Hlive|done]).
  split_and!.
  - by apply atom_equals_atoms.
  - destruct Hp as (n & k & Hp). unfold object_get_class, load. by rewrite Hp.
  - intros ->. apply Hnp. by eapply reachable_objs.
Qed.

Lemma create_atom_then_atom_equals_witness :
  let b := Block 9 0 true cons_class true in
  heap_inv map_state map_objs ∧ fresh_block b map_state ∧
  reachable map_state 8 ∧ is_atom map_state 8 "x" ∧
  ∃ s', create_atom 40 b "x" map_state = Ok (9, s') ∧
    atom_equals 9 8 s' = Ok (bool_decide ("x"%string = "x"%string)) ∧
    object_get_class 9 s' = Ok atom_class ∧ 9 ≠ 8.
Proof.
  intros b.
  assert (fresh_block b map_state) as Hf by (intros _; reflexivity).
  assert (reachable map_state 8) as Hr.
  { apply (reachable_root map_state (stack_var 1)); [cbn; elem_solve|done]. }
  assert (is_atom map_state 8 "x") as Ha by (by eexists _, _).
  split; [apply map_heap_inv|]. split; [exact Hf|]. split; [exact Hr|].
  split; [exact Ha|].
  eexists. split; [vm_compute; reflexivity|].
  apply (create_atom_then_atom_equals 40 b "x" map_state map_objs 9 _ 8 "x"
           map_heap_inv Hf Hr Ha).
  vm_compute. reflexivity.
Defined.

(** X19.  The object count limit.  If [object_count] is at the cap of
    10,000 and every object of the heap list is reachable, the collection
    that [register_object] runs frees nothing, the count still equals the
    cap, and [register_object] reports the error and terminates the
    process; the new object is not linked. *)
Theorem register_object_at_cap fuel o c s objs :
  heap_inv s objs → object_count s = cap → (∀ a, a ∈ objs → reachable s a) →
  (6 * length objs + 1 < fuel)%nat → o ∉ objs → is_Some (mem s !! o) →
  register_object fuel o c s = Exit.
Proof.
  intros Hinv Hcap Hall Hfuel Hno Hob.
  rewrite (register_object_eq fuel o c s objs Hinv Hno Hob).
  rewrite decide_True by done.
  destruct (gc_correct fuel s objs Hinv Hfuel)
    as [(s1 & objs' & Hrun & Hpost) | (Hexit & _)].
  - rewrite Hrun. cbn.
    assert (objs' = objs) as ->.
    { apply sublist_all; [apply Hpost|apply Hinv|].
      intros x Hx. apply (gp_objs _ _ _ _ Hpost). split; [done|]. by apply Hall. }
    rewrite decide_True; [done|].
    rewrite (heap_count _ _ (gp_heap _ _ _ _ Hpost)), <- (heap_count _ _ Hinv).
    done.
  - by rewrite Hexit.
Qed.

Lemma register_object_at_cap_witness :
  let n := Z.to_nat 9999 in
  heap_inv (chain_state n) (chain_objs n) ∧ object_count (chain_state n) = cap ∧
  (∀ a, a ∈ chain_objs n → reachable (chain_state n) a) ∧
  (6 * length (chain_objs n) + 1 < Z.to_nat 60002)%nat ∧
  (-1 ∉ chain_objs n) ∧ is_Some (mem (chain_state n) !! (-1)) ∧
  register_object (Z.to_nat 60002) (-1) atom_class (chain_state n) = Exit.
Proof.
  intros n.
  assert (heap_inv (chain_state n) (chain_objs n)) as Hinv
    by (apply chain_heap_inv; unfold cap, n; lia).
  assert (object_count (chain_state n) = cap) as Hcap
    by (unfold chain_state, cap, n; cbn [object_count]; lia).
  assert (6 * length (chain_objs n) + 1 < Z.to_nat 60002)%nat as Hfuel
    by (rewrite length_chain_objs; unfold n; lia).
  assert (-1 ∉ chain_objs n) as Hno by (rewrite elem_of_chain_objs; lia).
  assert (is_Some (mem (chain_state n) !! (-1))) as Hob.
  { unfold chain_state. cbn [mem]. rewrite lookup_insert_eq. by eexists. }
  split; [exact Hinv|]. split; [exact Hcap|].
  split; [exact (chain_all_reachable n)|]. split; [exact Hfuel|].
  split; [exact Hno|]. split; [exact Hob|].
  apply (register_object_at_cap (Z.to_nat 60002) (-1) atom_class (chain_state n)
           (chain_objs n) Hinv Hcap (chain_all_reachable n) Hfuel Hno Hob).
Defined.

(** * The interpreter *)

Import interp.
(** ** No undefined behaviour in the interface *)

Lemma bind_Undefined {A B} (e : result A) (k : A → result B) :
  (x ← e; k x) = Undefined → e = Undefined ∨ ∃ a, e = Ok a ∧ k a = Undefined.
Proof. destruct e; cbn; eauto; done. Qed.

Lemma gc_defined fuel s objs : heap_inv s objs → gc fuel s ≠ Undefined.
Proof.
  intros Hinv Hrun.
  apply (gc_mono _ (fuel + (6 * length objs + 2))) in Hrun; [|done|lia].
  destruct (gc_correct (fuel + (6 * length objs + 2)) s objs Hinv)
    as [(s1 & objs' & Hrun1 & _) | (Hexit & _)]; [lia| |]; congruence.
Qed.

Lemma register_object_defined fuel o c s objs :
  heap_inv s objs → o ∉ objs → is_Some (mem s !! o) →
  register_object fuel o c s ≠ Undefined.
Proof.
  intros Hinv Hno Hob. rewrite (register_object_eq fuel o c s objs Hinv Hno Hob).
  destruct (decide (object_count s = cap)); cbn.
  - destruct (gc fuel s) as [s1| | |] eqn:Hgc; cbn; try done.
    + by destruct (decide (object_count s1 = cap)).
    + exfalso. by apply (gc_defined fuel s objs Hinv).
  - by destruct (decide (object_count s = cap)).
Qed.

Lemma push_root_defined n c s : push_root n c s ≠ Undefined.
Proof. unfold push_root, stack_push. by destruct (decide (n = 0)). Qed.

Lemma pop_root_defined s : pop_root s ≠ Undefined.
Proof. unfold pop_root, stack_pop. by destruct (roots_head s). Qed.

Lemma create_cons_defined fuel b n1 n2 ch ct head tail s objs :
  heap_inv s objs → head ∈ objs → tail ∈ objs → fresh_block b s →
  cells s !! ch = None → cells s !! ct = None → ch ≠ ct →
  create_cons fuel b n1 n2 ch ct head tail s ≠ Undefined.
Proof.
  intros Hinv Hh Ht Hfresh Hch Hct Hne. unfold create_cons.
  destruct (decide (block_addr b = 0)) as [|Hb]; [done|].
  specialize (Hfresh Hb).
  set (s0 := enter_local ct tail (enter_local ch head s)).
  set (s1 := set_mem s0 (malloc b (cons_fields (junk_flag b) head tail) (mem s0))).
  intros Hrun.
  assert (heap_inv s0 objs) as Hinv0.
  { apply enter_local_inv; [by apply enter_local_inv|]. cbn.
    by rewrite lookup_insert_ne. }
  assert (heap_inv s1 objs) as Hinv1 by by apply malloc_inv.
  assert (cells s1 !! ch = Some head) as Hcvh.
  { cbn. rewrite lookup_insert_ne by done. by rewrite lookup_insert_eq. }
  assert (cells s1 !! ct = Some tail) as Hcvt.
  { cbn. by rewrite lookup_insert_eq. }
  apply bind_Undefined in Hrun as [H|(s2 & H2 & Hrun)];
    [by apply push_root_defined in H|].
  apply bind_Undefined in Hrun as [H|(s3 & H3 & Hrun)];
    [by apply push_root_defined in H|].
  destruct (push_root_inv _ _ _ _ _ _ Hinv1 Hcvh Hh H2) as [-> Hinv2].
  destruct (push_root_inv _ _ _ _ _ _ Hinv2 Hcvt Ht H3) as [-> Hinv3].
  apply bind_Undefined in Hrun as [H|(s4 & H4 & Hrun)].
  { eapply register_object_defined in H; [done|done| |].
    - apply (fresh_not_object s objs b Hinv Hfresh).
    - cbn. unfold malloc. rewrite lookup_insert_eq. by eexists. }
  apply bind_Undefined in Hrun as [H|(s5 & H5 & Hrun)];
    [by apply pop_root_defined in H|].
  apply bind_Undefined in Hrun as [H|(s6 & H6 & Hrun)];
    [by apply pop_root_defined in H|].
  done.
Qed.

Lemma create_function_defined fuel b n1 cd apply data s objs :
  heap_inv s objs → data ∈ objs → fresh_block b s → cells s !! cd = None →
  create_function fuel b n1 cd apply data s ≠ Undefined.
Proof.
  intros Hinv Hd Hfresh Hcd. unfold create_function.
  destruct (decide (block_addr b = 0)) as [|Hb]; [done|].
  specialize (Hfresh Hb).
  set (s0 := enter_local cd data s).
  set (s1 := set_mem s0 (malloc b (function_fields apply data) (mem s0))).
  intros Hrun.
  assert (heap_inv s0 objs) as Hinv0 by by apply enter_local_inv.
  assert (heap_inv s1 objs) as Hinv1 by by apply malloc_inv.
  assert (cells s1 !! cd = Some data) as Hcv.
  { cbn. by rewrite lookup_insert_eq. }
  apply bind_Undefined in Hrun as [H|(s2 & H2 & Hrun)];
    [by apply push_root_defined in H|].
  destruct (push_root_inv _ _ _ _ _ _ Hinv1 Hcv Hd H2) as [-> Hinv2].
  apply bind_Undefined in Hrun as [H|(s3 & H3 & Hrun)].
  { eapply register_object_defined in H; [done|done| |].
    - apply (fresh_not_object s objs b Hinv Hfresh).
    - cbn. unfold malloc. rewrite lookup_insert_eq. by eexists. }
  apply bind_Undefined in Hrun as [H|(s4 & H4 & Hrun)];
    [by apply pop_root_defined in H|].
  done.
Qed.

Lemma create_atom_defined fuel b buffer s objs :
  heap_inv s objs → fresh_block b s →
  create_atom fuel b buffer s ≠ Undefined.
Proof.
  intros Hinv Hfresh. unfold create_atom.
  destruct (decide (block_addr b = 0)) as [|Hb]; [done|].
  specialize (Hfresh Hb). intros Hrun.
  apply bind_Undefined in Hrun as [H|(s1 & H1 & Hrun)]; [|done].
  eapply register_object_defined in H; [done| | |].
  - by apply malloc_inv.
  - apply (fresh_not_object s objs b Hinv Hfresh).
  - cbn. unfold malloc. rewrite lookup_insert_eq. by eexists.
Qed.

Lemma destruct_cons_defined s objs a :
  heap_inv s objs → a ∈ objs → destruct_cons a s ≠ Undefined.
Proof.
  intros Hinv Ha.
  destruct (hm_alloc _ _ (heap_graph _ _ Hinv) a Ha) as (o & Ho & Hci).
  unfold destruct_cons, cons_get_head, cons_get_tail, cons_get, load.
  rewrite Ho. cbn. destruct (decide (class o ≠ cons_class)) as [|Hc]; [done|].
  apply dec_stable in Hc. unfold class_inv in Hci. rewrite Hc in Hci.
  destruct (fields o); done.
Qed.

Lemma destruct_cons_Ok s objs a h t :
  heap_inv s objs → a ∈ objs → destruct_cons a s = Ok (h, t) →
  is_cons s a h t ∧ h ∈ objs ∧ t ∈ objs.
Proof.
  intros Hinv Ha.
  destruct (hm_alloc _ _ (heap_graph _ _ Hinv) a Ha) as (o & Ho & Hci).
  unfold destruct_cons, cons_get_head, cons_get_tail, cons_get, load.
  rewrite Ho. cbn. destruct (decide (class o ≠ cons_class)) as [|Hc]; [done|].
  apply dec_stable in Hc. destruct o as [n k c f]. cbn in Hc. subst c.
  destruct f; try done. cbn. intros [= <- <-].
  assert (is_cons s a head tail) as Hcons by by eexists _, _, _.
  split; [done|].
  split; apply (hm_closed _ _ (heap_graph _ _ Hinv) a); try done;
    rewrite (is_cons_children _ _ _ _ Hcons).
  - by left.
  - right. by left.
Qed.

Lemma object_get_class_Ok s objs a :
  heap_inv s objs → a ∈ objs →
  ∃ o, mem s !! a = Some o ∧ class_inv o = true ∧
       object_get_class a s = Ok (class o).
Proof.
  intros Hinv Ha.
  destruct (hm_alloc _ _ (heap_graph _ _ Hinv) a Ha) as (o & Ho & Hci).
  exists o. unfold object_get_class, load. by rewrite Ho.
Qed.

Lemma atom_equals_defined s objs a b :
  heap_inv s objs → a ∈ objs → b ∈ objs → atom_equals a b s ≠ Undefined.
Proof.
  intros Hinv Ha Hb.
  destruct (hm_alloc _ _ (heap_graph _ _ Hinv) a Ha) as (oa & Hoa & Hcia).
  destruct (hm_alloc _ _ (heap_graph _ _ Hinv) b Hb) as (ob & Hob & Hcib).
  unfold atom_equals, atom_get_chars, load.
  destruct (decide (a = b)); [done|]. rewrite Hoa, Hob. cbn.
  destruct (decide (class oa ≠ atom_class ∨ class ob ≠ atom_class)) as [|Hc];
    [done|].
  assert (class oa = atom_class ∧ class ob = atom_class) as [Hc1 Hc2].
  { split; apply dec_stable; intros H; apply Hc; [by left|by right]. }
  unfold class_inv in Hcia, Hcib. rewrite Hc1 in Hcia. rewrite Hc2 in Hcib.
  destruct (fields oa), (fields ob); done.
Qed.

Lemma assoc_defined nil_value fuel key map s objs :
  heap_inv s objs → key ∈ objs → map ∈ objs →
  assoc nil_value fuel key map s ≠ Undefined ∧
  ∀ v, assoc nil_value fuel key map s = Ok v → v = 0 ∨ v ∈ objs.
Proof.
  intros Hinv Hk. revert map. induction fuel as [|fuel IH]; intros map Hm; cbn.
  - done.
  - destruct (decide (map = nil_value)); [split; [done|]; intros v [= <-]; by left|].
    pose proof (destruct_cons_defined s objs map Hinv Hm) as Hd1.
    destruct (destruct_cons map s) as [[mapHead mapTail]| | |] eqn:H1; cbn;
      try done.
    destruct (destruct_cons_Ok s objs map _ _ Hinv Hm H1) as (_ & Hmh & Hmt).
    pose proof (destruct_cons_defined s objs mapHead Hinv Hmh) as Hd2.
    destruct (destruct_cons mapHead s) as [[entryHead entryTail]| | |] eqn:H2;
      cbn; try done.
    destruct (destruct_cons_Ok s objs mapHead _ _ Hinv Hmh H2) as (_ & Heh & Het).
    pose proof (atom_equals_defined s objs key entryHead Hinv Hk Heh) as Hd3.
    destruct (atom_equals key entryHead s) as [[]| | |]; cbn; try done.
    + split; [done|]. intros v [= <-]. by right.
    + by apply IH.
Qed.

Lemma pop_defined s objs :
  heap_inv s objs → operand_stack ∈ roots_head s → pop s ≠ Undefined.
Proof.
  intros Hinv Hroot. destruct (heap_roots _ _ Hinv _ Hroot) as (r & Hr & Hro).
  destruct (hm_alloc _ _ (heap_graph _ _ Hinv) r Hro) as (o & Ho & Hci).
  unfold pop, load_cell, load, cons_get_head, cons_get_tail, cons_get, set_root,
    store_cell, load_cell.
  rewrite Hr. cbn. rewrite Ho. cbn.
  destruct (decide (class o ≠ cons_class)) as [|Hc]; [done|].
  apply dec_stable in Hc. unfold class_inv in Hci. rewrite Hc in Hci.
  unfold load. rewrite Ho. cbn.
  destruct (fields o); done.
Qed.

Lemma pop_cont_defined s objs :
  heap_inv s objs → cont_stack ∈ roots_head s → pop_cont s ≠ Undefined.
Proof.
  intros Hinv Hroot. destruct (heap_roots _ _ Hinv _ Hroot) as (r & Hr & Hro).
  destruct (hm_alloc _ _ (heap_graph _ _ Hinv) r Hro) as (o & Ho & Hci).
  unfold pop_cont, load_cell, load, cons_get_head, cons_get_tail, cons_get,
    set_root, store_cell, load_cell.
  rewrite Hr. cbn. rewrite Ho. cbn.
  destruct (decide (class o ≠ cons_class)) as [|Hc]; [done|].
  apply dec_stable in Hc. unfold class_inv in Hci. rewrite Hc in Hci.
  unfold load. rewrite Ho. cbn.
  destruct (fields o); done.
Qed.
(** ** Specifications of the interface *)

Lemma returns_intro {A} (r : result A) (Q : A → Prop) :
  r ≠ Undefined → (∀ a, r = Ok a → Q a) → returns r Q.
Proof. destruct r; cbn; eauto. Qed.

Lemma returns_bind {A B} (e : result A) (k : A → result B)
    (Q' : A → Prop) (Q : B → Prop) :
  returns e Q' → (∀ a, Q' a → returns (k a) Q) → returns (e ≫= k) Q.
Proof. destruct e; cbn; eauto. Qed.

Lemma returns_mono {A} (r : result A) (Q Q' : A → Prop) :
  returns r Q → (∀ a, Q a → Q' a) → returns r Q'.
Proof. destruct r; cbn; eauto. Qed.

Lemma returns_Ok {A} (r : result A) (Q : A → Prop) a :
  returns r Q → r = Ok a → Q a.
Proof. by intros H ->. Qed.

Lemma returns_defined {A} (r : result A) (Q : A → Prop) :
  returns r Q → r ≠ Undefined.
Proof. by destruct r. Qed.

Lemma destruct_cons_spec s objs a :
  heap_inv s objs → a ∈ objs →
  returns (destruct_cons a s)
    (λ r, is_cons s a r.1 r.2 ∧ r.1 ∈ objs ∧ r.2 ∈ objs).
Proof.
  intros Hinv Ha. apply returns_intro; [by eapply destruct_cons_defined|].
  intros [h t] Hrun. by eapply destruct_cons_Ok.
Qed.

Lemma assoc_spec nil_value fuel key map s objs :
  heap_inv s objs → key ∈ objs → map ∈ objs →
  returns (assoc nil_value fuel key map s) (λ v, v = 0 ∨ v ∈ objs).
Proof.
  intros Hinv Hk Hm.
  destruct (assoc_defined nil_value fuel key map s objs Hinv Hk Hm) as [Hd Hv].
  by apply returns_intro.
Qed.

Lemma object_get_class_spec s objs a :
  heap_inv s objs → a ∈ objs →
  returns (object_get_class a s)
    (λ c, ∃ o, mem s !! a = Some o ∧ class o = c ∧ class_inv o = true).
Proof.
  intros Hinv Ha. destruct (object_get_class_Ok s objs a Hinv Ha) as (o & Ho & Hci & ->).
  cbn. by exists o.
Qed.

Lemma load_cell_spec s objs c :
  heap_inv s objs → c ∈ roots_head s →
  returns (load_cell s c) (λ v, cells s !! c = Some v ∧ v ∈ objs).
Proof.
  intros Hinv Hc. destruct (heap_roots _ _ Hinv c Hc) as (r & Hr & Hro).
  unfold load_cell. rewrite Hr. done.
Qed.

Lemma create_cons_spec fuel b n1 n2 ch ct head tail s objs :
  heap_inv s objs → head ∈ objs → tail ∈ objs → fresh_block b s →
  cells s !! ch = None → cells s !! ct = None → ch ≠ ct →
  returns (create_cons fuel b n1 n2 ch ct head tail s)
    (λ r, is_cons r.2 r.1 head tail ∧ cells r.2 = cells s ∧
          ∃ objs', grown s objs r.1 r.2 objs' ∧ head ∈ objs' ∧ tail ∈ objs').
Proof.
  intros Hinv Hh Ht Hfresh Hch Hct Hne.
  apply returns_intro; [by eapply create_cons_defined|].
  intros [p s'] Hrun.
  destruct (create_cons_post _ _ _ _ _ _ _ _ _ _ _ _ Hinv Hh Ht Hfresh Hch Hct
              Hne Hrun)
    as (Hnp & Hp & objs' & Hinv' & Hroots' & Hcells' & Hh' & Ht' & Hsub & Hlive
        & Hkept & _).
  cbn. split; [done|]. split; [done|]. exists objs'. by split.
Qed.

Lemma create_function_spec fuel b n1 cd apply data s objs :
  heap_inv s objs → data ∈ objs → fresh_block b s → cells s !! cd = None →
  returns (create_function fuel b n1 cd apply data s)
    (λ r, is_function r.2 r.1 apply data ∧ cells r.2 = cells s ∧
          ∃ objs', grown s objs r.1 r.2 objs' ∧ data ∈ objs').
Proof.
  intros Hinv Hd Hfresh Hcd.
  apply returns_intro; [by eapply create_function_defined|].
  intros [p s'] Hrun.
  destruct (create_function_post _ _ _ _ _ _ _ _ _ _ Hinv Hd Hfresh Hcd Hrun)
    as (Hnp & Hp & objs' & Hinv' & Hroots' & Hcells' & Hd' & Hsub & Hlive
        & Hkept & _).
  cbn. split; [done|]. split; [done|]. exists objs'. by split.
Qed.

Lemma create_atom_spec fuel b buffer s objs :
  heap_inv s objs → fresh_block b s →
  returns (create_atom fuel b buffer s)
    (λ r, is_atom r.2 r.1 buffer ∧ cells r.2 = cells s ∧
          ∃ objs', grown s objs r.1 r.2 objs').
Proof.
  intros Hinv Hfresh.
  apply returns_intro; [by eapply create_atom_defined|].
  intros [p s'] Hrun.
  destruct (create_atom_post _ _ _ _ _ _ _ Hinv Hfresh Hrun)
    as (Hnp & Hp & objs' & Hinv' & Hroots' & Hcells' & Hsub & Hlive & Hkept & _).
  cbn. split; [done|]. split; [done|]. exists objs'. by split.
Qed.

Lemma reach_kept s s' r a :
  (∀ x, reach (mem s) r x → kept s s' x) →
  reach (mem s) r a → reach (mem s') r a.
Proof.
  intros Hk. apply reach_survive. intros x Hx. by apply kept_children, Hk.
Qed.

Lemma kept_mem_l s1 s1' s a : mem s1' = mem s1 → kept s1 s a → kept s1' s a.
Proof. intros Heq (o & o' & H). exists o, o'. by rewrite Heq. Qed.

Lemma kept_mem_r s s1 s1' a : mem s1' = mem s1 → kept s s1 a → kept s s1' a.
Proof. intros Heq (o & o' & H). exists o, o'. by rewrite Heq. Qed.

Lemma map_entries_mem nil_value s s' map es :
  mem s' = mem s → map_entries nil_value s map es → map_entries nil_value s' map es.
Proof.
  intros Heq. revert map. induction es as [|[cs v] es IH]; intros map; cbn; [done|].
  intros (Hne & entry & rest & k & Hc & He & Ha & Hrest). split; [done|].
  exists entry, rest, k. unfold is_cons, is_atom in *. rewrite Heq.
  split_and!; try done. by apply IH.
Qed.

Lemma load_cell_Some s c v : cells s !! c = Some v → load_cell s c = Ok v.
Proof. intros H. unfold load_cell. by rewrite H. Qed.

Lemma is_cons_mem s s' a h t : mem s' = mem s → is_cons s a h t → is_cons s' a h t.
Proof. intros Heq. unfold is_cons. by rewrite Heq. Qed.

Lemma is_atom_mem s s' a cs : mem s' = mem s → is_atom s a cs → is_atom s' a cs.
Proof. intros Heq. unfold is_atom. by rewrite Heq. Qed.

Lemma is_function_mem s s' a f d :
  mem s' = mem s → is_function s a f d → is_function s' a f d.
Proof. intros Heq. unfold is_function. by rewrite Heq. Qed.

Lemma is_function_children s a f d : is_function s a f d → children (mem s) a = [d].
Proof. intros (n & k & Ha). unfold children. by rewrite Ha. Qed.

(** The common shape of [push] and [push_cont]: a cons of the object and the
    contents of the root cell [c] is stored in [c]. *)
Lemma push_on_spec fuel b n1 n2 ch ct object c s objs :
  heap_inv s objs → object ∈ objs → c ∈ roots_head s → fresh_block b s →
  cells s !! ch = None → cells s !! ct = None → ch ≠ ct →
  returns (old ← load_cell s c;
           '(p, s) ← create_cons fuel b n1 n2 ch ct object old s;
           set_root c p s)
    (λ s', ∃ p old objs',
       cells s !! c = Some old ∧ cells s' = <[c := p]> (cells s) ∧
       is_cons s' p object old ∧ grown s objs p s' objs' ∧
       object ∈ objs' ∧ old ∈ objs').
Proof.
  intros Hinv Ho Hc Hfresh Hch Hct Hne.
  destruct (heap_roots _ _ Hinv c Hc) as (old & Hold & Holdo).
  unfold load_cell. rewrite Hold. cbn.
  eapply returns_bind; [by apply (create_cons_spec _ _ _ _ _ _ _ _ s objs)|].
  intros [p s1] (Hp & Hcells & objs' & Hg & Ho' & Hold'). cbn in Hp, Hcells, Hg.
  unfold set_root, store_cell, load_cell. rewrite Hcells, Hold. cbn.
  exists p, old, objs'. split_and!; try done.
  destruct Hg as [Hinv1 Hroots1 Hnew Hsub Hlive Hkept]. split; try done.
  apply (heap_inv_frame s1); try done. cbn.
  intros c' Hc'. destruct (decide (c' = c)) as [->|Hn].
  - rewrite lookup_insert_eq. eexists. split; [done|]. by left.
  - rewrite lookup_insert_ne by done. rewrite <- Hcells.
    by apply (heap_roots _ _ Hinv1).
Qed.

Lemma push_spec fuel b n1 n2 ch ct object s objs :
  heap_inv s objs → object ∈ objs → operand_stack ∈ roots_head s →
  fresh_block b s → cells s !! ch = None → cells s !! ct = None → ch ≠ ct →
  returns (push fuel b n1 n2 ch ct object s)
    (λ s', ∃ p old objs',
       cells s !! operand_stack = Some old ∧
       cells s' = <[operand_stack := p]> (cells s) ∧
       is_cons s' p object old ∧ grown s objs p s' objs' ∧
       object ∈ objs' ∧ old ∈ objs').
Proof. apply push_on_spec. Qed.

Lemma push_cont_spec fuel b n1 n2 ch ct object s objs :
  heap_inv s objs → object ∈ objs → cont_stack ∈ roots_head s →
  fresh_block b s → cells s !! ch = None → cells s !! ct = None → ch ≠ ct →
  returns (push_cont fuel b n1 n2 ch ct object s)
    (λ s', ∃ p old objs',
       cells s !! cont_stack = Some old ∧
       cells s' = <[cont_stack := p]> (cells s) ∧
       is_cons s' p object old ∧ grown s objs p s' objs' ∧
       object ∈ objs' ∧ old ∈ objs').
Proof. apply push_on_spec. Qed.

Lemma pop_from_spec (c : cell) s objs :
  heap_inv s objs → c ∈ roots_head s →
  ∃ old o, cells s !! c = Some old ∧ mem s !! old = Some o ∧ old ∈ objs ∧
    (class o ≠ cons_class ∨
     ∃ h t, is_cons s old h t ∧ h ∈ objs ∧ t ∈ objs ∧
            heap_inv (set_cells s (<[c := t]> (cells s))) objs).
Proof.
  intros Hinv Hc. destruct (heap_roots _ _ Hinv c Hc) as (old & Hold & Holdo).
  destruct (hm_alloc _ _ (heap_graph _ _ Hinv) old Holdo) as (o & Ho & Hci).
  exists old, o. split_and!; try done.
  destruct (decide (class o = cons_class)) as [Hcl|Hcl]; [right|by left].
  destruct o as [n k cl f]. cbn in Hcl. subst cl. destruct f; try done.
  assert (is_cons s old head tail) as Hcons by by eexists _, _, _.
  assert (head ∈ objs ∧ tail ∈ objs) as [Hh Ht].
  { split; apply (hm_closed _ _ (heap_graph _ _ Hinv) old); try done;
      rewrite (is_cons_children _ _ _ _ Hcons); [by left|right; by left]. }
  exists head, tail. split_and!; try done.
  apply (heap_inv_frame s); try done. cbn.
  intros c' Hc'. destruct (decide (c' = c)) as [->|Hn].
  - rewrite lookup_insert_eq. by eexists.
  - rewrite lookup_insert_ne by done. by apply (heap_roots _ _ Hinv).
Qed.

Lemma pop_spec s objs :
  heap_inv s objs → operand_stack ∈ roots_head s →
  returns (pop s)
    (λ r, ∃ old t, cells s !! operand_stack = Some old ∧ is_cons s old r.1 t ∧
                   r.2 = set_cells s (<[operand_stack := t]> (cells s)) ∧
                   r.1 ∈ objs ∧ t ∈ objs ∧ heap_inv r.2 objs).
Proof.
  intros Hinv Hc.
  destruct (pop_from_spec operand_stack s objs Hinv Hc)
    as (old & o & Hold & Ho & Holdo & Hcase).
  unfold pop, load_cell, load, cons_get_head, cons_get_tail, cons_get, set_root,
    store_cell, load_cell.
  rewrite Hold. cbn. rewrite Ho. cbn.
  destruct Hcase as [Hcl | (h & t & (n & k & f & Hcons) & Hh & Ht & Hinv')].
  - by rewrite decide_True.
  - rewrite Ho in Hcons. injection Hcons as ->. cbn.
    rewrite decide_False by (intros H; by apply H).
    unfold load. rewrite Ho. cbn.
    exists old, t. split_and!; try done. by exists n, k, f.
Qed.

Lemma pop_cont_spec s objs :
  heap_inv s objs → cont_stack ∈ roots_head s →
  returns (pop_cont s)
    (λ r, (r.1 = 0 ∧ r.2 = s) ∨
          ∃ old t, cells s !! cont_stack = Some old ∧ is_cons s old r.1 t ∧
                   r.2 = set_cells s (<[cont_stack := t]> (cells s)) ∧
                   r.1 ∈ objs ∧ t ∈ objs ∧ heap_inv r.2 objs).
Proof.
  intros Hinv Hc.
  destruct (pop_from_spec cont_stack s objs Hinv Hc)
    as (old & o & Hold & Ho & Holdo & Hcase).
  unfold pop_cont, load_cell, load, cons_get_head, cons_get_tail, cons_get,
    set_root, store_cell, load_cell.
  rewrite Hold. cbn. rewrite Ho. cbn.
  destruct Hcase as [Hcl | (h & t & (n & k & f & Hcons) & Hh & Ht & Hinv')].
  - rewrite decide_True by done. cbn. by left.
  - rewrite Ho in Hcons. injection Hcons as ->. cbn.
    rewrite decide_False by (intros H; by apply H).
    unfold load. rewrite Ho. cbn. right.
    exists old, t. split_and!; try done. by exists n, k, f.
Qed.
(** ** Specifications of the interpreter's calls *)

Lemma globals_frame nil_value s objs s' objs' :
  globals nil_value s objs → heap_inv s' objs' →
  roots_head s' = roots_head s → cells s' !! nil_root = cells s !! nil_root →
  globals nil_value s' objs'.
Proof.
  intros (Hinv & Hn & Hnv & Ho & Hc) Hinv' Hroots Hcells.
  split; [done|]. rewrite Hroots, Hcells. done.
Qed.

Lemma globals_nil nil_value s objs : globals nil_value s objs → nil_value ∈ objs.
Proof.
  intros (Hinv & Hn & Hnv & _). destruct (heap_roots _ _ Hinv _ Hn) as (r & Hr & Hro).
  congruence.
Qed.

Lemma globals_fresh nil_value s objs c :
  globals nil_value s objs → cells s !! c = None →
  (c ∉ roots_head s) ∧ c ≠ nil_root ∧ c ≠ operand_stack ∧ c ≠ cont_stack.
Proof.
  intros (Hinv & Hn & Hnv & Ho & Hc) Hfresh.
  pose proof (fresh_not_root s objs c Hinv Hfresh) as Hnr.
  split_and!; try done; by intros ->.
Qed.

Section run_specs.

Variable env : nat → state → site.
Variable fuel : nat.
Variable nil_value : Z.
Hypothesis env_ok : ∀ k s, site_ok s (env k s).

Lemma do_create_nil_spec m objs :
  globals nil_value (m_state m) objs →
  do_create_nil nil_value m = Ok (nil_value, m) ∧ nil_value ∈ objs.
Proof.
  intros Hg. split; [by destruct m|]. by eapply globals_nil.
Qed.

Lemma do_create_cons_spec m objs head tail :
  globals nil_value (m_state m) objs → head ∈ objs → tail ∈ objs →
  returns (do_create_cons env fuel head tail m)
    (λ r, m_output r.2 = m_output m ∧ m_sites r.2 = S (m_sites m) ∧
          is_cons (m_state r.2) r.1 head tail ∧
          cells (m_state r.2) = cells (m_state m) ∧
          ∃ objs', grown (m_state m) objs r.1 (m_state r.2) objs' ∧
                   head ∈ objs' ∧ tail ∈ objs' ∧
                   globals nil_value (m_state r.2) (r.1 :: objs')).
Proof.
  intros Hg Hh Ht. unfold do_create_cons, at_site.
  destruct (env_ok (m_sites m) (m_state m)) as (Hf & Hc1 & Hc2 & Hne).
  eapply returns_bind;
    [by apply (create_cons_spec _ _ _ _ _ _ _ _ (m_state m) objs); try apply Hg|].
  intros [p s'] (Hp & Hcells & objs' & Hgr & Hh' & Ht'). cbn in *.
  split_and!; try done. exists objs'. split_and!; try done.
  apply (globals_frame nil_value (m_state m) objs); try done.
  - apply Hgr.
  - apply Hgr.
  - by rewrite Hcells.
Qed.

Lemma do_create_function_spec m objs apply data :
  globals nil_value (m_state m) objs → data ∈ objs →
  returns (do_create_function env fuel apply data m)
    (λ r, m_output r.2 = m_output m ∧ m_sites r.2 = S (m_sites m) ∧
          is_function (m_state r.2) r.1 apply data ∧
          cells (m_state r.2) = cells (m_state m) ∧
          ∃ objs', grown (m_state m) objs r.1 (m_state r.2) objs' ∧
                   data ∈ objs' ∧
                   globals nil_value (m_state r.2) (r.1 :: objs')).
Proof.
  intros Hg Hd. unfold do_create_function, at_site.
  destruct (env_ok (m_sites m) (m_state m)) as (Hf & Hc1 & Hc2 & Hne).
  eapply returns_bind;
    [by apply (create_function_spec _ _ _ _ _ _ (m_state m) objs); try apply Hg|].
  intros [p s'] (Hp & Hcells & objs' & Hgr & Hd'). cbn in *.
  split_and!; try done. exists objs'. split_and!; try done.
  apply (globals_frame nil_value (m_state m) objs); try done.
  - apply Hgr.
  - apply Hgr.
  - by rewrite Hcells.
Qed.

Lemma do_push_spec m objs object :
  globals nil_value (m_state m) objs → object ∈ objs →
  returns (do_push env fuel object m)
    (λ m', m_output m' = m_output m ∧ m_sites m' = S (m_sites m) ∧
       ∃ p old objs',
         cells (m_state m) !! operand_stack = Some old ∧
         cells (m_state m') = <[operand_stack := p]> (cells (m_state m)) ∧
         is_cons (m_state m') p object old ∧
         grown (m_state m) objs p (m_state m') objs' ∧
         object ∈ objs' ∧ old ∈ objs' ∧
         globals nil_value (m_state m') (p :: objs')).
Proof.
  intros Hg Ho. unfold do_push, at_site.
  destruct (env_ok (m_sites m) (m_state m)) as (Hf & Hc1 & Hc2 & Hne).
  destruct Hg as (Hinv & Hn & Hnv & Hos & Hcs).
  pose proof (push_spec fuel _ (site_n1 (env (m_sites m) (m_state m)))
                (site_n2 (env (m_sites m) (m_state m))) _ _ object (m_state m)
                objs Hinv Ho ltac:(done) Hf Hc1 Hc2 Hne) as H.
  destruct (push fuel _ _ _ _ _ object (m_state m)) as [s'| | |]; cbn in *;
    try done.
  destruct H as (p & old & objs' & Hold & Hcells & Hp & Hgr & Ho' & Hold').
  split_and!; try done. exists p, old, objs'. split_and!; try done.
  split_and!.
  - apply Hgr.
  - by rewrite (gr_roots _ _ _ _ _ Hgr).
  - rewrite Hcells. by rewrite lookup_insert_ne.
  - by rewrite (gr_roots _ _ _ _ _ Hgr).
  - by rewrite (gr_roots _ _ _ _ _ Hgr).
Qed.

Lemma do_push_cont_spec m objs object :
  globals nil_value (m_state m) objs → object ∈ objs →
  returns (do_push_cont env fuel object m)
    (λ m', m_output m' = m_output m ∧ m_sites m' = S (m_sites m) ∧
       ∃ p old objs',
         cells (m_state m) !! cont_stack = Some old ∧
         cells (m_state m') = <[cont_stack := p]> (cells (m_state m)) ∧
         is_cons (m_state m') p object old ∧
         grown (m_state m) objs p (m_state m') objs' ∧
         object ∈ objs' ∧ old ∈ objs' ∧
         globals nil_value (m_state m') (p :: objs')).
Proof.
  intros Hg Ho. unfold do_push_cont, at_site.
  destruct (env_ok (m_sites m) (m_state m)) as (Hf & Hc1 & Hc2 & Hne).
  destruct Hg as (Hinv & Hn & Hnv & Hos & Hcs).
  pose proof (push_cont_spec fuel _ (site_n1 (env (m_sites m) (m_state m)))
                (site_n2 (env (m_sites m) (m_state m))) _ _ object (m_state m)
                objs Hinv Ho ltac:(done) Hf Hc1 Hc2 Hne) as H.
  destruct (push_cont fuel _ _ _ _ _ object (m_state m)) as [s'| | |]; cbn in *;
    try done.
  destruct H as (p & old & objs' & Hold & Hcells & Hp & Hgr & Ho' & Hold').
  split_and!; try done. exists p, old, objs'. split_and!; try done.
  split_and!.
  - apply Hgr.
  - by rewrite (gr_roots _ _ _ _ _ Hgr).
  - rewrite Hcells. by rewrite lookup_insert_ne.
  - by rewrite (gr_roots _ _ _ _ _ Hgr).
  - by rewrite (gr_roots _ _ _ _ _ Hgr).
Qed.

Lemma do_pop_spec m objs :
  globals nil_value (m_state m) objs →
  returns (do_pop m)
    (λ r, m_output r.2 = m_output m ∧ m_sites r.2 = m_sites m ∧
       ∃ old t,
         cells (m_state m) !! operand_stack = Some old ∧
         is_cons (m_state m) old r.1 t ∧
         m_state r.2
         = set_cells (m_state m) (<[operand_stack := t]> (cells (m_state m))) ∧
         r.1 ∈ objs ∧ t ∈ objs ∧ globals nil_value (m_state r.2) objs).
Proof.
  intros (Hinv & Hn & Hnv & Hos & Hcs). unfold do_pop.
  eapply returns_bind; [by apply (pop_spec (m_state m) objs)|].
  intros [v s'] (old & t & Hold & Hcons & -> & Hv & Ht & Hinv'). cbn in *.
  split_and!; try done. exists old, t. split_and!; try done.
  split_and!; try done. cbn. by rewrite lookup_insert_ne.
Qed.

Lemma do_pop_cont_spec m objs :
  globals nil_value (m_state m) objs →
  returns (do_pop_cont m)
    (λ r, m_output r.2 = m_output m ∧ m_sites r.2 = m_sites m ∧
       ((r.1 = 0 ∧ r.2 = m) ∨
        ∃ old t,
          cells (m_state m) !! cont_stack = Some old ∧
          is_cons (m_state m) old r.1 t ∧
          m_state r.2
          = set_cells (m_state m) (<[cont_stack := t]> (cells (m_state m))) ∧
          r.1 ∈ objs ∧ t ∈ objs ∧ globals nil_value (m_state r.2) objs)).
Proof.
  intros (Hinv & Hn & Hnv & Hos & Hcs). unfold do_pop_cont.
  eapply returns_bind; [by apply (pop_cont_spec (m_state m) objs)|].
  intros [v s'] [[-> ->] | (old & t & Hold & Hcons & -> & Hv & Ht & Hinv')];
    cbn in *.
  - split_and!; try done. left. by destruct m.
  - split_and!; try done. right. exists old, t. split_and!; try done.
    split_and!; try done. cbn. by rewrite lookup_insert_ne.
Qed.

Lemma do_push_root_g_spec m objs v :
  globals nil_value (m_state m) objs → v ∈ objs →
  returns (do_push_root_g env v m)
    (λ r, m_output r.2 = m_output m ∧ m_sites r.2 = S (m_sites m) ∧
          cells (m_state m) !! r.1 = None ∧
          m_state r.2
          = set_roots_head (enter_local r.1 v (m_state m))
              (r.1 :: roots_head (m_state m)) ∧
          globals nil_value (m_state r.2) objs).
Proof.
  intros Hg Hv. unfold do_push_root_g, at_site, push_root_g.
  destruct (env_ok (m_sites m) (m_state m)) as (Hf & Hc1 & Hc2 & Hne).
  set (c := site_c1 (env (m_sites m) (m_state m))) in *.
  destruct (globals_fresh _ _ _ c Hg Hc1) as (Hnr & Hn1 & Hn2 & Hn3).
  destruct Hg as (Hinv & Hn & Hnv & Hos & Hcs).
  unfold push_root, stack_push.
  destruct (decide (site_n1 (env (m_sites m) (m_state m)) = 0)); [done|].
  cbn. unfold globals. split_and!; try done.
  - apply (heap_inv_frame (m_state m)); try done. cbn.
    intros c' [->|Hc']%elem_of_cons.
    + rewrite lookup_insert_eq. by eexists.
    + destruct (heap_roots _ _ Hinv c' Hc') as (r & Hr & Hro). exists r.
      split; [|done]. rewrite lookup_insert_ne; [done|]. by intros ->.
  - cbn. by right.
  - cbn. by rewrite lookup_insert_ne.
  - cbn. by right.
  - cbn. by right.
Qed.

Lemma do_pop_root_g_spec m objs c rs :
  globals nil_value (m_state m) objs → roots_head (m_state m) = c :: rs →
  nil_root ∈ rs → operand_stack ∈ rs → cont_stack ∈ rs →
  returns (do_pop_root_g m)
    (λ m', m_output m' = m_output m ∧ m_sites m' = m_sites m ∧
           m_state m' = set_roots_head (m_state m) rs ∧
           globals nil_value (m_state m') objs).
Proof.
  intros (Hinv & Hn & Hnv & Hos & Hcs) Hrs H1 H2 H3.
  unfold do_pop_root_g, with_state, pop_root_g, pop_root, stack_pop.
  rewrite Hrs. cbn. unfold globals. split_and!; try done.
  apply (heap_inv_frame (m_state m)); try done. cbn.
  intros c' Hc'. apply (heap_roots _ _ Hinv). rewrite Hrs. by right.
Qed.

Lemma do_leave_globals m objs c :
  globals nil_value (m_state m) objs → c ∉ roots_head (m_state m) →
  globals nil_value (m_state (do_leave c m)) objs.
Proof.
  intros (Hinv & Hn & Hnv & Hos & Hcs) Hc. unfold do_leave. cbn. unfold globals.
  split_and!; try done.
  - by apply leave_local_inv.
  - cbn. rewrite lookup_delete_ne; [done|]. by intros ->.
Qed.

(** ** The native functions keep the invariant *)

Lemma good_intro m m' objs' :
  globals nil_value (m_state m') objs' →
  roots_head (m_state m') = roots_head (m_state m) → good nil_value m m'.
Proof. intros Hg Hr. by exists objs'. Qed.

Lemma quote_function_safe m objs data :
  globals nil_value (m_state m) objs →
  returns (quote_function_body env fuel data m) (good nil_value m).
Proof.
  intros Hg. unfold quote_function_body.
  eapply returns_bind; [by apply (do_pop_spec m objs)|].
  intros [arg m1] (_ & _ & old & t & Hold & Hcons & Hs1 & Harg & Ht & Hg1).
  cbn [fst snd] in *.
  eapply returns_bind; [apply (destruct_cons_spec _ objs); [apply Hg1|done]|].
  intros [envs body] (_ & He & Hb). cbn [fst snd] in *.
  eapply returns_mono; [by apply (do_push_spec m1 objs)|].
  intros m2 (_ & _ & p & old2 & objs' & _ & _ & _ & Hgr & _ & _ & Hg2).
  apply (good_intro _ _ _ Hg2). by rewrite (gr_roots _ _ _ _ _ Hgr), Hs1.
Qed.

Lemma fun_function_safe m objs data :
  globals nil_value (m_state m) objs →
  returns (fun_function_body env fuel data m) (good nil_value m).
Proof.
  intros Hg. unfold fun_function_body.
  eapply returns_bind; [by apply (do_pop_spec m objs)|].
  intros [arg m1] (_ & _ & old & t & Hold & Hcons & Hs1 & Harg & Ht & Hg1).
  cbn [fst snd] in *.
  eapply returns_bind; [by apply (do_create_function_spec m1 objs)|].
  intros [f m2] (_ & _ & Hf & Hcells2 & objs2 & Hgr2 & _ & Hg2).
  cbn [fst snd] in *.
  eapply returns_mono; [apply (do_push_spec m2 (f :: objs2)); [done|by left]|].
  intros m3 (_ & _ & p & old3 & objs3 & _ & _ & _ & Hgr3 & _ & _ & Hg3).
  apply (good_intro _ _ _ Hg3).
  by rewrite (gr_roots _ _ _ _ _ Hgr3), (gr_roots _ _ _ _ _ Hgr2), Hs1.
Qed.

Lemma print_atom_safe m objs data :
  globals nil_value (m_state m) objs →
  returns (print_atom_body env fuel nil_value data m) (good nil_value m).
Proof.
  intros Hg. unfold print_atom_body.
  eapply returns_bind; [by apply (do_pop_spec m objs)|].
  intros [arg m1] (_ & _ & old & t & Hold & Hcons & Hs1 & Harg & Ht & Hg1).
  cbn [fst snd] in *.
  destruct (hm_alloc _ _ (heap_graph _ _ (proj1 Hg1)) arg Harg) as (o & Ho & Hci).
  unfold load at 1. rewrite Ho. cbn.
  destruct (decide (class o ≠ atom_class)) as [|Hc]; [done|].
  apply dec_stable in Hc. unfold atom_get_chars, load. rewrite Ho. cbn.
  unfold class_inv in Hci. rewrite Hc in Hci.
  destruct (fields o) as [| | chars |]; try done. cbn.
  rewrite (proj1 (do_create_nil_spec (print_string_buffer chars m1) objs Hg1)).
  cbn.
  eapply returns_mono;
    [apply (do_push_spec _ objs); [done|by apply (globals_nil nil_value _ _ Hg1)]|].
  intros m3 (_ & _ & p & old3 & objs3 & _ & _ & _ & Hgr3 & _ & _ & Hg3).
  apply (good_intro _ _ _ Hg3).
  rewrite (gr_roots _ _ _ _ _ Hgr3). unfold print_string_buffer. cbn.
  by rewrite Hs1.
Qed.

Lemma pop_apply_safe (apply : Z → machine → result machine) m objs data :
  (∀ f m objs, globals nil_value (m_state m) objs → f ∈ objs →
               returns (apply f m) (good nil_value m)) →
  globals nil_value (m_state m) objs →
  returns (pop_apply_body apply data m) (good nil_value m).
Proof.
  intros Happly Hg. unfold pop_apply_body.
  eapply returns_bind; [by apply (do_pop_spec m objs)|].
  intros [f m1] (_ & _ & old & t & Hold & Hcons & Hs1 & Hf & Ht & Hg1).
  cbn [fst snd] in *.
  eapply returns_mono; [by apply (Happly f m1 objs)|].
  intros m2 (objs2 & Hg2 & Hr2). apply (good_intro _ _ _ Hg2).
  by rewrite Hr2, Hs1.
Qed.

Lemma eval_safe (apply : Z → machine → result machine) m objs data :
  (∀ f m objs, globals nil_value (m_state m) objs → f ∈ objs →
               returns (apply f m) (good nil_value m)) →
  globals nil_value (m_state m) objs → data ∈ objs →
  returns (eval_body env fuel nil_value apply data m) (good nil_value m).
Proof.
  intros Happly Hg Hd. unfold eval_body.
  pose proof Hg as (Hinv & Hnr & Hnv & Hos & Hcs).
  eapply returns_bind; [by apply (destruct_cons_spec _ objs)|].
  intros [envs expr] (_ & Henvs & Hexpr). cbn [fst snd] in *.
  eapply returns_bind; [by apply (destruct_cons_spec _ objs)|].
  intros [forms env0] (_ & Hforms & Henv). cbn [fst snd] in *.
  eapply returns_bind; [by apply (object_get_class_spec _ objs)|].
  intros class _.
  destruct (decide (class = atom_class)) as [Hc|Hc].
  { (* an atom *)
    eapply returns_bind; [by apply (assoc_spec _ _ _ _ _ objs)|].
    intros value Hv. destruct (decide (value = 0)); [done|].
    destruct Hv as [?|Hv]; [done|].
    eapply returns_mono; [by apply (do_push_spec m objs)|].
    intros m' (_ & _ & p & old & objs' & _ & _ & _ & Hgr & _ & _ & Hg').
    apply (good_intro _ _ _ Hg'). by rewrite (gr_roots _ _ _ _ _ Hgr). }
  destruct (decide (class = cons_class)); [|done].
  eapply returns_bind; [by apply (destruct_cons_spec _ objs)|].
  intros [f_expr arg_expr] (_ & Hf & Ha). cbn [fst snd] in *.
  eapply returns_bind; [by apply (object_get_class_spec _ objs)|].
  intros class' _.
  eapply (returns_bind _ _ (λ r, r.2 = true → r.1 ∈ objs)).
  { destruct (bool_decide (class' = atom_class)); [|done].
    eapply returns_bind; [by apply (assoc_spec _ _ _ _ _ objs)|].
    intros value Hv. cbn. intros Hne%bool_decide_eq_true.
    by destruct Hv. }
  intros [form isForm] Hform. cbn [fst snd] in Hform. destruct isForm.
  - (* a form *)
    specialize (Hform eq_refl).
    eapply returns_bind; [by apply (do_push_root_g_spec m objs)|].
    intros [c_form m1] (_ & _ & Hc1 & Hs1 & Hg1). cbn [fst snd] in *.
    destruct (globals_fresh _ _ _ c_form Hg Hc1) as (Hnr1 & _).
    eapply returns_bind; [by apply (do_create_cons_spec m1 objs)|].
    intros [value m2] (_ & _ & Hcons & Hcells2 & objs2 & Hgr2 & _ & _ & Hg2).
    cbn [fst snd] in *.
    eapply returns_bind;
      [apply (do_push_spec m2 (value :: objs2)); [done|by left]|].
    intros m3 (_ & _ & p & old & objs3 & Hold & Hcells3 & Hp & Hgr3 & _ & _ & Hg3).
    assert (roots_head (m_state m3) = c_form :: roots_head (m_state m)) as Hr3.
    { rewrite (gr_roots _ _ _ _ _ Hgr3), (gr_roots _ _ _ _ _ Hgr2), Hs1. done. }
    destruct (heap_roots _ _ (proj1 Hg3) c_form) as (form' & Hcf & Hform');
      [rewrite Hr3; by left|].
    eapply returns_bind;
      [by apply (do_pop_root_g_spec m3 (p :: objs3) c_form (roots_head (m_state m)))|].
    intros m4 (_ & _ & Hs4 & Hg4).
    unfold load_cell. rewrite Hs4. cbn. rewrite Hcf. cbn.
    eapply returns_bind; [by apply (Happly form' m4 (p :: objs3))|].
    intros m5 (objs5 & Hg5 & Hr5). cbn.
    assert (roots_head (m_state m5) = roots_head (m_state m)) as Hr5'
      by by rewrite Hr5, Hs4.
    apply (good_intro _ _ objs5).
    + apply do_leave_globals; [done|]. by rewrite Hr5'.
    + done.
  - (* an application *)
    eapply returns_bind; [by apply (do_push_root_g_spec m objs)|].
    intros [c_envs m1] (_ & _ & Hc1 & Hs1 & Hg1). cbn [fst snd] in *.
    destruct (globals_fresh _ _ _ c_envs Hg Hc1) as (Hnr1 & _).
    eapply returns_bind; [by apply (do_push_root_g_spec m1 objs)|].
    intros [c_f_expr m2] (_ & _ & Hc2 & Hs2 & Hg2). cbn [fst snd] in *.
    destruct (globals_fresh _ _ _ c_f_expr Hg1 Hc2) as (Hnr2 & _).
    eapply returns_bind; [by apply (do_push_root_g_spec m2 objs)|].
    intros [c_arg_expr m3] (_ & _ & Hc3 & Hs3 & Hg3). cbn [fst snd] in *.
    destruct (globals_fresh _ _ _ c_arg_expr Hg2 Hc3) as (Hnr3 & _).
    assert (roots_head (m_state m3)
            = c_arg_expr :: c_f_expr :: c_envs :: roots_head (m_state m)) as Hr3
      by by rewrite Hs3, Hs2, Hs1.
    rewrite (proj1 (do_create_nil_spec m3 objs Hg3)). cbn [fst snd mbind result_bind].
    eapply returns_bind;
      [apply (do_create_function_spec m3 objs); [done|by eapply globals_nil]|].
    intros [fn4 m4] (_ & _ & _ & _ & objs4 & Hgr4 & _ & Hg4). cbn [fst snd] in *.
    eapply returns_bind;
      [apply (do_push_cont_spec m4 (fn4 :: objs4)); [done|by left]|].
    intros m5 (_ & _ & p5 & old5 & objs5 & _ & _ & _ & Hgr5 & _ & _ & Hg5).
    assert (roots_head (m_state m5) = roots_head (m_state m3)) as Hr5
      by by rewrite (gr_roots _ _ _ _ _ Hgr5), (gr_roots _ _ _ _ _ Hgr4).
    eapply returns_bind;
      [apply (load_cell_spec _ (p5 :: objs5) c_envs); [apply Hg5|]|].
    { rewrite Hr5, Hr3. do 2 right. by left. }
    intros envs5 (_ & Henvs5).
    eapply returns_bind;
      [apply (load_cell_spec _ (p5 :: objs5) c_f_expr); [apply Hg5|]|].
    { rewrite Hr5, Hr3. right. by left. }
    intros f_expr5 (_ & Hf5).
    eapply returns_bind; [by apply (do_create_cons_spec m5 (p5 :: objs5))|].
    intros [d6 m6] (_ & _ & _ & _ & objs6 & Hgr6 & _ & _ & Hg6). cbn [fst snd] in *.
    eapply returns_bind;
      [apply (do_create_function_spec m6 (d6 :: objs6)); [done|by left]|].
    intros [fn7 m7] (_ & _ & _ & _ & objs7 & Hgr7 & _ & Hg7). cbn [fst snd] in *.
    eapply returns_bind;
      [apply (do_push_cont_spec m7 (fn7 :: objs7)); [done|by left]|].
    intros m8 (_ & _ & p8 & old8 & objs8 & _ & _ & _ & Hgr8 & _ & _ & Hg8).
    assert (roots_head (m_state m8) = roots_head (m_state m3)) as Hr8.
    { by rewrite (gr_roots _ _ _ _ _ Hgr8), (gr_roots _ _ _ _ _ Hgr7),
        (gr_roots _ _ _ _ _ Hgr6). }
    eapply returns_bind;
      [apply (load_cell_spec _ (p8 :: objs8) c_envs); [apply Hg8|]|].
    { rewrite Hr8, Hr3. do 2 right. by left. }
    intros envs8 (_ & Henvs8).
    eapply returns_bind;
      [apply (load_cell_spec _ (p8 :: objs8) c_arg_expr); [apply Hg8|]|].
    { rewrite Hr8, Hr3. by left. }
    intros arg8 (_ & Harg8).
    eapply returns_bind; [by apply (do_create_cons_spec m8 (p8 :: objs8))|].
    intros [d9 m9] (_ & _ & _ & _ & objs9 & Hgr9 & _ & _ & Hg9). cbn [fst snd] in *.
    eapply returns_bind;
      [apply (do_create_function_spec m9 (d9 :: objs9)); [done|by left]|].
    intros [fn10 m10] (_ & _ & _ & _ & objs10 & Hgr10 & _ & Hg10).
    cbn [fst snd] in *.
    eapply returns_bind;
      [apply (do_push_cont_spec m10 (fn10 :: objs10)); [done|by left]|].
    intros m11 (_ & _ & p11 & old11 & objs11 & _ & _ & _ & Hgr11 & _ & _ & Hg11).
    assert (roots_head (m_state m11) = roots_head (m_state m3)) as Hr11.
    { by rewrite (gr_roots _ _ _ _ _ Hgr11), (gr_roots _ _ _ _ _ Hgr10),
        (gr_roots _ _ _ _ _ Hgr9). }
    rewrite Hr3 in Hr11.
    eapply returns_bind;
      [apply (do_pop_root_g_spec m11 (p11 :: objs11) _ _ Hg11 Hr11);
       by do 2 right|].
    intros m12 (_ & _ & Hs12 & Hg12).
    eapply returns_bind;
      [apply (do_pop_root_g_spec m12 (p11 :: objs11) c_f_expr
                (c_envs :: roots_head (m_state m)) Hg12); [by rewrite Hs12|..];
       by right|].
    intros m13 (_ & _ & Hs13 & Hg13).
    eapply returns_bind;
      [apply (do_pop_root_g_spec m13 (p11 :: objs11) c_envs
                (roots_head (m_state m)) Hg13); [by rewrite Hs13|..]; done|].
    intros m14 (_ & _ & Hs14 & Hg14). cbn.
    assert (roots_head (m_state m14) = roots_head (m_state m)) as Hr14
      by by rewrite Hs14.
    apply (good_intro _ _ (p11 :: objs11)); [|done].
    apply do_leave_globals; [apply do_leave_globals; [apply do_leave_globals|]|];
      try done; unfold do_leave; cbn; rewrite Hr14; try done.
    + intros Hin. apply Hnr3. rewrite Hs2. cbn. right. rewrite Hs1. cbn. by right.
    + intros Hin. apply Hnr2. rewrite Hs1. cbn. by right.
Qed.

Lemma do_map_cons_spec m objs key value map r :
  globals nil_value (m_state m) objs → key ∈ objs → value ∈ objs →
  map ∈ roots_head (m_state m) → map ≠ nil_root →
  cells (m_state m) !! map = Some r →
  returns (do_map_cons env fuel key value map m)
    (λ m', m_output m' = m_output m ∧
       ∃ objs' entry p,
         cells (m_state m') = <[map := p]> (cells (m_state m)) ∧
         roots_head (m_state m') = roots_head (m_state m) ∧
         is_cons (m_state m') p entry r ∧ is_cons (m_state m') entry key value ∧
         globals nil_value (m_state m') (p :: objs') ∧
         kept (m_state m) (m_state m') key ∧ kept (m_state m) (m_state m') value ∧
         (∀ a, reachable (m_state m) a →
               a ∈ objs' ∧ kept (m_state m) (m_state m') a)).
Proof.
  intros Hg Hk Hv Hmap Hmn Hr. unfold do_map_cons.
  pose proof Hg as (Hinv & _).
  eapply returns_bind; [by apply (do_create_cons_spec m objs)|].
  intros [entry m1] (Ho1 & _ & Hentry & Hcells1 & objs1 & Hgr1 & Hk1 & Hv1 & Hg1).
  cbn [fst snd] in *.
  pose proof (reachable_root _ map r Hmap Hr) as Hrr.
  unfold load_cell. rewrite Hcells1, Hr. cbn.
  assert (r ∈ entry :: objs1) as Hr1 by (right; by apply (gr_live _ _ _ _ _ Hgr1)).
  eapply returns_bind;
    [apply (do_create_cons_spec m1 (entry :: objs1)); [done|by left|done]|].
  intros [p m2] (Ho2 & _ & Hp & Hcells2 & objs2 & Hgr2 & He2 & Hr2 & Hg2).
  cbn [fst snd] in *.
  unfold with_state, set_root_g, set_root, store_cell, load_cell.
  rewrite Hcells2, Hcells1, Hr. cbn.
  assert (is_cons (m_state m2) entry key value) as Hentry2
    by (apply (kept_is_cons (m_state m1)); [by apply (gr_kept _ _ _ _ _ Hgr2)|done]).
  pose proof (gr_new _ _ _ _ _ Hgr2) as Hnp.
  assert (p ≠ key ∧ p ≠ value) as [Hpk Hpv].
  { split; intros ->; apply Hnp; by right. }
  assert (key ∈ objs2 ∧ value ∈ objs2) as [Hk2 Hv2].
  { assert (key ∈ p :: objs2 ∧ value ∈ p :: objs2) as [Hk2 Hv2].
    { split; apply (hm_closed _ _ (heap_graph _ _ (gr_heap _ _ _ _ _ Hgr2)) entry);
        try (by right); rewrite (is_cons_children _ _ _ _ Hentry2).
      - by left.
      - right. by left. }
    apply elem_of_cons in Hk2 as [?|Hk2]; [done|].
    apply elem_of_cons in Hv2 as [?|Hv2]; [done|]. done. }
  split; [congruence|]. exists objs2, entry, p.
  pose proof (gr_roots _ _ _ _ _ Hgr1) as Hroots1.
  pose proof (gr_roots _ _ _ _ _ Hgr2) as Hroots2.
  split_and!; try done.
  - congruence.
  - destruct Hg2 as (Hinv2 & Hn2 & Hnv2 & Hos2 & Hcs2). unfold globals.
    split_and!; try done.
    + apply (heap_inv_frame (m_state m2)); try done. cbn.
      intros c' Hc'. destruct (decide (c' = map)) as [->|Hn].
      * rewrite lookup_insert_eq. eexists. split; [done|]. by left.
      * rewrite lookup_insert_ne by done. rewrite <- Hcells1, <- Hcells2.
        by apply (heap_roots _ _ Hinv2).
    + cbn. rewrite lookup_insert_ne by done. by rewrite <- Hcells1, <- Hcells2.
  - apply (kept_trans _ (m_state m1));
      [by apply (gr_kept _ _ _ _ _ Hgr1)|by apply (gr_kept _ _ _ _ _ Hgr2)].
  - apply (kept_trans _ (m_state m1));
      [by apply (gr_kept _ _ _ _ _ Hgr1)|by apply (gr_kept _ _ _ _ _ Hgr2)].
  - intros a Ha.
    assert (∀ x, reachable (m_state m) x → kept (m_state m) (m_state m1) x) as Hk01.
    { intros x Hx. by apply (gr_kept _ _ _ _ _ Hgr1), (gr_live _ _ _ _ _ Hgr1). }
    assert (a ∈ objs2) as Ha2.
    { apply (gr_live _ _ _ _ _ Hgr2). by apply (reachable_kept (m_state m)). }
    split; [done|].
    apply (kept_trans _ (m_state m1));
      [by apply Hk01|by apply (gr_kept _ _ _ _ _ Hgr2)].
Qed.

Lemma fun_apply_function_safe m objs data :
  globals nil_value (m_state m) objs → data ∈ objs →
  returns (fun_apply_function_body env fuel data m) (good nil_value m).
Proof.
  intros Hg0 Hd. unfold fun_apply_function_body.
  eapply returns_bind; [by apply (do_pop_spec m objs)|].
  intros [arg m0] (_ & _ & old & t & Hold & Hcons & Hs0 & Harg & Ht & Hg).
  cbn [fst snd] in *.
  assert (roots_head (m_state m0) = roots_head (m_state m)) as Hr0
    by by rewrite Hs0.
  pose proof Hg as (Hinv & Hnr & Hnv & Hos & Hcs).
  eapply returns_bind; [by apply (destruct_cons_spec _ objs)|].
  intros [envs expr] (_ & Henvs & Hexpr). cbn [fst snd] in *.
  eapply returns_bind; [by apply (destruct_cons_spec _ objs)|].
  intros [forms env0] (_ & Hforms & Henv). cbn [fst snd] in *.
  eapply returns_bind; [by apply (destruct_cons_spec _ objs)|].
  intros [param body] (_ & Hparam & Hbody). cbn [fst snd] in *.
  eapply returns_bind; [by apply (object_get_class_spec _ objs)|].
  intros paramClass _.
  destruct (decide (paramClass ≠ atom_class)); [done|].
  eapply returns_bind; [by apply (do_push_root_g_spec m0 objs)|].
  intros [c_newEnv m1] (_ & _ & Hc1 & Hs1 & Hg1). cbn [fst snd] in *.
  destruct (globals_fresh _ _ _ c_newEnv Hg Hc1) as (Hnr1 & Hne1 & _).
  eapply returns_bind; [by apply (do_push_root_g_spec m1 objs)|].
  intros [c_forms m2] (_ & _ & Hc2 & Hs2 & Hg2). cbn [fst snd] in *.
  destruct (globals_fresh _ _ _ c_forms Hg1 Hc2) as (Hnr2 & _).
  eapply returns_bind; [by apply (do_push_root_g_spec m2 objs)|].
  intros [c_body m3] (_ & _ & Hc3 & Hs3 & Hg3). cbn [fst snd] in *.
  destruct (globals_fresh _ _ _ c_body Hg2 Hc3) as (Hnr3 & _).
  assert (roots_head (m_state m3)
          = c_body :: c_forms :: c_newEnv :: roots_head (m_state m0)) as Hr3
    by by rewrite Hs3, Hs2, Hs1.
  destruct (heap_roots _ _ (proj1 Hg3) c_newEnv) as (r & Hcr & _);
    [rewrite Hr3; do 2 right; by left|].
  eapply returns_bind;
    [apply (do_map_cons_spec m3 objs param arg c_newEnv r); try done;
     rewrite Hr3; do 2 right; by left|].
  intros m4 (_ & objs4 & entry & p4 & Hcells4 & Hr4 & _ & _ & Hg4 & _).
  rewrite Hr3 in Hr4.
  eapply returns_bind;
    [apply (load_cell_spec _ (p4 :: objs4) c_forms); [apply Hg4|]|].
  { rewrite Hr4. right. by left. }
  intros forms4 (_ & Hforms4).
  eapply returns_bind;
    [apply (load_cell_spec _ (p4 :: objs4) c_newEnv); [apply Hg4|]|].
  { rewrite Hr4. do 2 right. by left. }
  intros newEnv4 (_ & HnewEnv4).
  eapply returns_bind; [by apply (do_create_cons_spec m4 (p4 :: objs4))|].
  intros [e5 m5] (_ & _ & _ & _ & objs5 & Hgr5 & _ & _ & Hg5). cbn [fst snd] in *.
  assert (roots_head (m_state m5)
          = c_body :: c_forms :: c_newEnv :: roots_head (m_state m0)) as Hr5
    by by rewrite (gr_roots _ _ _ _ _ Hgr5).
  eapply returns_bind;
    [apply (load_cell_spec _ (e5 :: objs5) c_body); [apply Hg5|]|].
  { rewrite Hr5. by left. }
  intros body5 (_ & Hbody5).
  eapply returns_bind;
    [apply (do_create_cons_spec m5 (e5 :: objs5)); [done|by left|done]|].
  intros [d6 m6] (_ & _ & _ & _ & objs6 & Hgr6 & _ & _ & Hg6). cbn [fst snd] in *.
  eapply returns_bind;
    [apply (do_create_function_spec m6 (d6 :: objs6)); [done|by left]|].
  intros [fn7 m7] (_ & _ & _ & _ & objs7 & Hgr7 & _ & Hg7). cbn [fst snd] in *.
  eapply returns_bind;
    [apply (do_push_cont_spec m7 (fn7 :: objs7)); [done|by left]|].
  intros m8 (_ & _ & p8 & old8 & objs8 & _ & _ & _ & Hgr8 & _ & _ & Hg8).
  assert (roots_head (m_state m8)
          = c_body :: c_forms :: c_newEnv :: roots_head (m_state m0)) as Hr8.
  { by rewrite (gr_roots _ _ _ _ _ Hgr8), (gr_roots _ _ _ _ _ Hgr7),
      (gr_roots _ _ _ _ _ Hgr6). }
  eapply returns_bind;
    [apply (do_pop_root_g_spec m8 (p8 :: objs8) _ _ Hg8 Hr8); by do 2 right|].
  intros m9 (_ & _ & Hs9 & Hg9).
  eapply returns_bind;
    [apply (do_pop_root_g_spec m9 (p8 :: objs8) c_forms
              (c_newEnv :: roots_head (m_state m0)) Hg9); [by rewrite Hs9|..];
     by right|].
  intros m10 (_ & _ & Hs10 & Hg10).
  eapply returns_bind;
    [apply (do_pop_root_g_spec m10 (p8 :: objs8) c_newEnv
              (roots_head (m_state m0)) Hg10); [by rewrite Hs10|..]; done|].
  intros m11 (_ & _ & Hs11 & Hg11). cbn.
  assert (roots_head (m_state m11) = roots_head (m_state m0)) as Hr11
    by by rewrite Hs11.
  apply (good_intro _ _ (p8 :: objs8)); [|by rewrite <- Hr0].
  apply do_leave_globals; [apply do_leave_globals; [apply do_leave_globals|]|];
    try done; unfold do_leave; cbn; rewrite Hr11; try done.
  + intros Hin. apply Hnr3. rewrite Hs2. cbn. right. rewrite Hs1. cbn. by right.
  + intros Hin. apply Hnr2. rewrite Hs1. cbn. by right.
Qed.

Lemma call_apply_func_safe (apply : Z → machine → result machine) f m objs data :
  (∀ f m objs, globals nil_value (m_state m) objs → f ∈ objs →
               returns (apply f m) (good nil_value m)) →
  globals nil_value (m_state m) objs → data ∈ objs →
  returns (call_apply_func env fuel nil_value apply f data m) (good nil_value m).
Proof.
  intros Happly Hg Hd. destruct f; cbn.
  - by apply (pop_apply_safe apply m objs).
  - by apply (eval_safe apply m objs).
  - by apply (print_atom_safe m objs).
  - by apply (quote_function_safe m objs).
  - by apply (fun_apply_function_safe m objs).
  - by apply (fun_function_safe m objs).
Qed.

Lemma apply_safe depth function m objs :
  globals nil_value (m_state m) objs → function ∈ objs →
  returns (apply env fuel nil_value depth function m) (good nil_value m).
Proof.
  revert function m objs. induction depth as [|depth IH];
    intros function m objs Hg Hf; [done|].
  cbn. unfold apply_body.
  destruct (hm_alloc _ _ (heap_graph _ _ (proj1 Hg)) function Hf) as (o & Ho & Hci).
  unfold load. rewrite Ho. cbn.
  destruct (decide (class o ≠ function_class)) as [|Hc]; [done|].
  apply dec_stable in Hc. unfold class_inv in Hci. rewrite Hc in Hci.
  destruct (fields o) as [| | |applyFunc data] eqn:Hfields; try done.
  apply (call_apply_func_safe _ _ m objs); [done|done|].
  apply (hm_closed _ _ (heap_graph _ _ (proj1 Hg)) function); [done|].
  unfold children. rewrite Ho. unfold children_of. rewrite Hfields. by left.
Qed.

Lemma main_inner_loop_safe n m objs :
  globals nil_value (m_state m) objs →
  returns (main_inner_loop env fuel nil_value n m) (good nil_value m).
Proof.
  revert m objs. induction n as [|n IH]; intros m objs Hg; [done|].
  cbn. eapply returns_bind; [by apply (do_pop_cont_spec m objs)|].
  intros [object m1] (_ & _ & Hcase). cbn [fst snd] in *.
  destruct Hcase as [[-> ->] | (old & t & Hold & Hcons & Hs1 & Ho & Ht & Hg1)].
  - rewrite decide_True by done. cbn. by apply (good_intro _ _ objs).
  - assert (object ≠ 0) as Hne.
    { intros ->. by apply (hm_nonnull _ _ (heap_graph _ _ (proj1 Hg))). }
    rewrite decide_False by done.
    eapply returns_bind; [by apply (apply_safe n object m1 objs)|].
    intros m2 (objs2 & Hg2 & Hr2).
    eapply returns_mono; [by apply (IH m2 objs2)|].
    intros m3 (objs3 & Hg3 & Hr3). apply (good_intro _ _ objs3); [done|].
    by rewrite Hr3, Hr2, Hs1.
Qed.

Lemma main_round_safe n c_envs expr m objs :
  globals nil_value (m_state m) objs → c_envs ∈ roots_head (m_state m) →
  expr ∈ objs →
  returns (main_round env fuel nil_value n c_envs expr m) (good nil_value m).
Proof.
  intros Hg Hc He. unfold main_round.
  eapply returns_bind; [apply (load_cell_spec _ objs c_envs); [apply Hg|done]|].
  intros envs (_ & Henvs).
  eapply returns_bind; [by apply (do_create_cons_spec m objs)|].
  intros [d1 m1] (_ & _ & _ & _ & objs1 & Hgr1 & _ & _ & Hg1). cbn [fst snd] in *.
  eapply returns_bind;
    [apply (do_create_function_spec m1 (d1 :: objs1)); [done|by left]|].
  intros [fn2 m2] (_ & _ & _ & _ & objs2 & Hgr2 & _ & Hg2). cbn [fst snd] in *.
  eapply returns_bind;
    [apply (do_push_cont_spec m2 (fn2 :: objs2)); [done|by left]|].
  intros m3 (_ & _ & p3 & old3 & objs3 & _ & _ & _ & Hgr3 & _ & _ & Hg3).
  eapply returns_bind; [by apply (main_inner_loop_safe n m3 (p3 :: objs3))|].
  intros m4 (objs4 & Hg4 & Hr4).
  eapply returns_bind; [by apply (do_pop_spec m4 objs4)|].
  intros [v m5] (_ & _ & old5 & t5 & _ & _ & Hs5 & _ & _ & Hg5).
  cbn [fst snd] in *. cbn.
  apply (good_intro _ _ objs4); [done|].
  rewrite Hs5. cbn.
  by rewrite Hr4, (gr_roots _ _ _ _ _ Hgr3), (gr_roots _ _ _ _ _ Hgr2),
    (gr_roots _ _ _ _ _ Hgr1).
Qed.

End run_specs.
(** ** What the native functions compute *)

Section run_results.

Variable env : nat → state → site.
Variable fuel : nat.
Variable nil_value : Z.
Hypothesis env_ok : ∀ k s, site_ok s (env k s).

Lemma stack_top_pop m objs x rest :
  globals nil_value (m_state m) objs →
  stack_top (m_state m) operand_stack x rest →
  do_pop m
  = Ok (x, Machine (set_cells (m_state m)
                      (<[operand_stack := rest]> (cells (m_state m))))
                   (m_sites m) (m_output m)) ∧
  x ∈ objs ∧ rest ∈ objs ∧
  globals nil_value
    (set_cells (m_state m) (<[operand_stack := rest]> (cells (m_state m)))) objs.
Proof.
  intros Hg (p & Hp & (n & k & f & Hcons)).
  assert (do_pop m
          = Ok (x, Machine (set_cells (m_state m)
                              (<[operand_stack := rest]> (cells (m_state m))))
                           (m_sites m) (m_output m))) as Hrun.
  { unfold do_pop, pop, load_cell, load, cons_get_head, cons_get_tail, cons_get,
      set_root, store_cell, load_cell.
    rewrite Hp. cbn. rewrite Hcons. cbn.
    rewrite decide_False by (intros H'; by apply H').
    unfold load. rewrite Hcons. cbn. done. }
  split; [done|].
  pose proof (do_pop_spec nil_value m objs Hg) as H. rewrite Hrun in H.
  destruct H as (_ & _ & old & t & Hold & (n' & k' & f' & Hc) & Hs1 & Hv & Ht & Hg1).
  cbn in *. rewrite Hp in Hold. injection Hold as <-.
  rewrite Hcons in Hc. injection Hc. intros. by subst.
Qed.

Lemma grown_rooted s objs p s' objs' c v :
  grown s objs p s' objs' → c ∈ roots_head s → cells s !! c = Some v →
  kept s s' v ∧ v ∈ objs'.
Proof.
  intros Hgr Hc Hv. pose proof (reachable_root s c v Hc Hv) as Hr.
  pose proof (gr_live _ _ _ _ _ Hgr v Hr) as Hin. split; [|done].
  by apply (gr_kept _ _ _ _ _ Hgr).
Qed.

Lemma globals_operand_stack s objs :
  globals nil_value s objs → ∃ old, cells s !! operand_stack = Some old ∧ old ∈ objs.
Proof. intros (Hinv & _ & _ & Hos & _). by apply (heap_roots _ _ Hinv). Qed.

(** [push] in terms of [stack_top]. *)
Lemma do_push_result m objs object :
  globals nil_value (m_state m) objs → object ∈ objs →
  returns (do_push env fuel object m)
    (λ m', m_output m' = m_output m ∧
       roots_head (m_state m') = roots_head (m_state m) ∧
       (∀ c, c ≠ operand_stack →
             cells (m_state m') !! c = cells (m_state m) !! c) ∧
       (∀ old, cells (m_state m) !! operand_stack = Some old →
               stack_top (m_state m') operand_stack object old) ∧
       kept (m_state m) (m_state m') object ∧
       (∀ a, reachable (m_state m) a → kept (m_state m) (m_state m') a) ∧
       ∃ objs', globals nil_value (m_state m') objs' ∧ object ∈ objs').
Proof.
  intros Hg Ho. eapply returns_mono; [by apply (do_push_spec env fuel nil_value env_ok m objs)|].
  intros m' (Hout & _ & p & old & objs' & Hold & Hcells & Hp & Hgr & Ho' & Hold' & Hg').
  split_and!; try done.
  - apply Hgr.
  - intros c Hc. rewrite Hcells. by rewrite lookup_insert_ne.
  - intros old' Hold''. rewrite Hold in Hold''. injection Hold'' as <-.
    exists p. split; [|done]. rewrite Hcells. apply lookup_insert_eq.
  - by apply (gr_kept _ _ _ _ _ Hgr).
  - intros a Ha. by apply (gr_kept _ _ _ _ _ Hgr), (gr_live _ _ _ _ _ Hgr).
  - exists (p :: objs'). split; [done|]. by right.
Qed.

Lemma stack_top_kept s s' c x rest p :
  cells s' !! c = Some p → cells s !! c = Some p → kept s s' p →
  stack_top s c x rest → stack_top s' c x rest.
Proof.
  intros Hc' Hc Hk (p' & Hp' & Hcons). rewrite Hc in Hp'. injection Hp' as <-.
  exists p. split; [done|]. by apply (kept_is_cons s).
Qed.

Lemma print_atom_result m objs data arg rest cs :
  globals nil_value (m_state m) objs →
  stack_top (m_state m) operand_stack arg rest → is_atom (m_state m) arg cs →
  returns (print_atom_body env fuel nil_value data m)
    (λ m', m_output m' = m_output m ++ [cs] ∧
           stack_top (m_state m') operand_stack nil_value rest ∧
           roots_head (m_state m') = roots_head (m_state m) ∧
           ∀ c, c ≠ operand_stack →
                cells (m_state m') !! c = cells (m_state m) !! c).
Proof.
  intros Hg Htop (n & k & Harg). unfold print_atom_body.
  destruct (stack_top_pop m objs arg rest Hg Htop) as (-> & _ & _ & Hg1).
  cbn. unfold load, atom_get_chars, load. rewrite Harg. cbn.
  rewrite decide_False by (intros H; by apply H). cbn.
  set (m1 := print_string_buffer cs _).
  rewrite (proj1 (do_create_nil_spec nil_value m1 objs Hg1)). cbn.
  eapply returns_mono;
    [apply (do_push_result m1 objs); [done|by eapply globals_nil]|].
  intros m' (Hout & Hroots & Hcells & Htop' & _).
  split_and!; try done.
  - apply Htop'. cbn. apply lookup_insert_eq.
  - intros c Hc. rewrite Hcells by done. unfold m1, print_string_buffer. cbn.
    by rewrite lookup_insert_ne.
Qed.

Lemma print_atom_not_atom m objs data arg rest o :
  globals nil_value (m_state m) objs →
  stack_top (m_state m) operand_stack arg rest →
  mem (m_state m) !! arg = Some o → class o ≠ atom_class →
  print_atom_body env fuel nil_value data m = Exit.
Proof.
  intros Hg Htop Ho Hc. unfold print_atom_body.
  destruct (stack_top_pop m objs arg rest Hg Htop) as (-> & _).
  cbn. unfold load. rewrite Ho. cbn. by rewrite decide_True.
Qed.

Lemma fun_function_result m objs data arg rest :
  globals nil_value (m_state m) objs →
  stack_top (m_state m) operand_stack arg rest →
  returns (fun_function_body env fuel data m)
    (λ m', m_output m' = m_output m ∧
           (∃ fn, stack_top (m_state m') operand_stack fn rest ∧
                  is_function (m_state m') fn fun_apply_function arg) ∧
           kept (m_state m) (m_state m') arg ∧
           roots_head (m_state m') = roots_head (m_state m) ∧
           ∀ c, c ≠ operand_stack →
                cells (m_state m') !! c = cells (m_state m) !! c).
Proof.
  intros Hg Htop. unfold fun_function_body.
  destruct (stack_top_pop m objs arg rest Hg Htop) as (Hpop & Harg & _ & Hg1).
  set (m1 := Machine _ _ _) in *.
  change (globals nil_value (m_state m1) objs) in Hg1.
  rewrite Hpop. cbn.
  eapply returns_bind;
    [by apply (do_create_function_spec env fuel nil_value env_ok m1 objs)|].
  intros [fn m2] (Ho2 & _ & Hfn & Hcells2 & objs2 & Hgr2 & Harg2 & Hg2).
  cbn [fst snd] in *.
  eapply returns_mono;
    [apply (do_push_spec env fuel nil_value env_ok m2 (fn :: objs2));
     [done|by left]|].
  intros m' (Hout & _ & p & old & objs3 & Hold & Hcells & Hp & Hgr3 & Hfn3 & _ & Hg3).
  assert (is_function (m_state m') fn fun_apply_function arg) as Hfn'.
  { apply (kept_is_function (m_state m2)); [|done].
    by apply (gr_kept _ _ _ _ _ Hgr3). }
  assert (arg ∈ objs3) as Harg3.
  { assert (arg ∈ p :: objs3) as [->|?]%elem_of_cons; [| |done].
    - apply (hm_closed _ _ (heap_graph _ _ (proj1 Hg3)) fn); [by right|].
      destruct Hfn' as (n & k & Hfn'). unfold children. rewrite Hfn'. by left.
    - exfalso. apply (gr_new _ _ _ _ _ Hgr3). by right. }
  split_and!.
  - by rewrite Hout, Ho2.
  - exists fn. split; [|done]. exists p. split; [rewrite Hcells; apply lookup_insert_eq|].
    assert (old = rest) as ->; [|done].
    rewrite Hcells2 in Hold. unfold m1 in Hold. cbn in Hold.
    rewrite lookup_insert_eq in Hold. congruence.
  - apply (kept_trans _ (m_state m2));
      [|by apply (gr_kept _ _ _ _ _ Hgr3)].
    destruct (gr_kept _ _ _ _ _ Hgr2 arg Harg2) as (o & o' & Hk). by exists o, o'.
  - by rewrite (gr_roots _ _ _ _ _ Hgr3), (gr_roots _ _ _ _ _ Hgr2).
  - intros c Hc. rewrite Hcells, lookup_insert_ne by done. rewrite Hcells2.
    unfold m1. cbn. by rewrite lookup_insert_ne.
Qed.

Lemma quote_function_result m objs data arg rest envs body :
  globals nil_value (m_state m) objs →
  stack_top (m_state m) operand_stack arg rest → is_cons (m_state m) arg envs body →
  returns (quote_function_body env fuel data m)
    (λ m', m_output m' = m_output m ∧
           stack_top (m_state m') operand_stack body rest ∧
           roots_head (m_state m') = roots_head (m_state m) ∧
           ∀ c, c ≠ operand_stack →
                cells (m_state m') !! c = cells (m_state m) !! c).
Proof.
  intros Hg Htop Harg. unfold quote_function_body.
  destruct (stack_top_pop m objs arg rest Hg Htop) as (Hpop & Ha & _ & Hg1).
  set (m1 := Machine _ _ _) in *.
  change (globals nil_value (m_state m1) objs) in Hg1.
  rewrite Hpop. cbn.
  assert (is_cons (m_state m1) arg envs body) as Harg1 by done.
  rewrite (destruct_cons_is_cons _ arg envs body) by exact Harg1. cbn.
  assert (body ∈ objs) as Hb.
  { apply (hm_closed _ _ (heap_graph _ _ (proj1 Hg)) arg); [done|].
    rewrite (is_cons_children _ _ _ _ Harg). right. by left. }
  eapply returns_mono; [by apply (do_push_result m1 objs)|].
  intros m' (Hout & Hroots & Hcells & Htop' & _).
  split_and!; try done.
  - apply Htop'. unfold m1. cbn. apply lookup_insert_eq.
  - intros c Hc. rewrite Hcells by done. unfold m1. cbn.
    by rewrite lookup_insert_ne.
Qed.

Lemma map_entries_lookup_reach s map es cs v :
  map_entries nil_value s map es → entries_lookup cs es = Some v →
  reach (mem s) map v.
Proof.
  revert map. induction es as [|[k w] es IH]; intros map; cbn; [done|].
  intros (_ & entry & rest & a & Hc & He & _ & Hrest) Hl.
  destruct (decide (k = cs)).
  - injection Hl as <-. apply (rtc_trans map entry w); apply rtc_once; unfold edge.
    + rewrite (is_cons_children _ _ _ _ Hc). by left.
    + rewrite (is_cons_children _ _ _ _ He). right. by left.
  - apply (rtc_trans map rest v); [|by apply IH].
    apply rtc_once. unfold edge. rewrite (is_cons_children _ _ _ _ Hc).
    right. by left.
Qed.

Lemma is_cons_class s a h t : is_cons s a h t → object_get_class a s = Ok cons_class.
Proof. intros (n & k & f & Ha). unfold object_get_class, load. by rewrite Ha. Qed.

Lemma is_atom_class s a cs : is_atom s a cs → object_get_class a s = Ok atom_class.
Proof. intros (n & k & Ha). unfold object_get_class, load. by rewrite Ha. Qed.

Lemma is_cons_elems s objs a h t :
  heap_inv s objs → a ∈ objs → is_cons s a h t → h ∈ objs ∧ t ∈ objs.
Proof.
  intros Hinv Ha Hc.
  split; apply (hm_closed _ _ (heap_graph _ _ Hinv) a); try done;
    rewrite (is_cons_children _ _ _ _ Hc); [by left|right; by left].
Qed.

(** [eval] on the atom [expr]: the value bound to it in [env] is pushed. *)
Lemma eval_atom_result (apply : Z → machine → result machine) m objs data
    envs expr forms env0 cs es :
  globals nil_value (m_state m) objs → data ∈ objs →
  is_cons (m_state m) data envs expr → is_cons (m_state m) envs forms env0 →
  is_atom (m_state m) expr cs → map_entries nil_value (m_state m) env0 es →
  (length es < fuel)%nat →
  match entries_lookup cs es with
  | Some value =>
      returns (eval_body env fuel nil_value apply data m)
        (λ m', m_output m' = m_output m ∧
               roots_head (m_state m') = roots_head (m_state m) ∧
               (∀ c, c ≠ operand_stack →
                     cells (m_state m') !! c = cells (m_state m) !! c) ∧
               (∀ old, cells (m_state m) !! operand_stack = Some old →
                       stack_top (m_state m') operand_stack value old) ∧
               (∀ a, reachable (m_state m) a → kept (m_state m) (m_state m') a))
  | None => eval_body env fuel nil_value apply data m = Exit
  end.
Proof.
  intros Hg Hd Hdata Henvs Hexpr Hes Hfuel.
  pose proof Hg as (Hinv & _).
  destruct (is_cons_elems _ _ _ _ _ Hinv Hd Hdata) as [Hen Hex].
  destruct (is_cons_elems _ _ _ _ _ Hinv Hen Henvs) as [Hfo Hev].
  unfold eval_body.
  rewrite (destruct_cons_is_cons _ _ _ _ Hdata). cbn.
  rewrite (destruct_cons_is_cons _ _ _ _ Henvs). cbn.
  rewrite (is_atom_class _ _ _ Hexpr). cbn.
  rewrite (decide_True (P := atom_class = atom_class)) by done.
  rewrite (assoc_entries nil_value fuel expr cs env0 _ es Hexpr Hes Hfuel). cbn.
  destruct (entries_lookup cs es) as [value|] eqn:Hl; cbn; [|done].
  assert (value ∈ objs) as Hv.
  { apply (reach_objs _ _ (heap_graph _ _ Hinv) env0); [done|].
    by eapply map_entries_lookup_reach. }
  rewrite decide_False
    by (intros ->; by apply (hm_nonnull _ _ (heap_graph _ _ Hinv))).
  eapply returns_mono; [by apply (do_push_result m objs)|].
  intros m' (Hout & Hroots & Hcells & Htop & _ & Hk & _). done.
Qed.

(** [eval] on [(f . arg)] where the atom [f] names the form [form]: the cons
    of [envs] and [arg] is pushed and [form] is applied. *)
Lemma eval_form_run (apply : Z → machine → result machine) m objs data
    envs expr forms env0 f_expr arg_expr cs es form old
    (Q : cell → machine → Prop) :
  globals nil_value (m_state m) objs → data ∈ objs →
  is_cons (m_state m) data envs expr → is_cons (m_state m) envs forms env0 →
  is_cons (m_state m) expr f_expr arg_expr → is_atom (m_state m) f_expr cs →
  map_entries nil_value (m_state m) forms es → (length es < fuel)%nat →
  entries_lookup cs es = Some form →
  cells (m_state m) !! operand_stack = Some old →
  (∀ c_form m4 objs4 value,
     cells (m_state m) !! c_form = None →
     globals nil_value (m_state m4) objs4 → form ∈ objs4 →
     kept (m_state m) (m_state m4) form →
     m_output m4 = m_output m →
     roots_head (m_state m4) = roots_head (m_state m) →
     (∀ c, c ≠ operand_stack → c ≠ c_form →
           cells (m_state m4) !! c = cells (m_state m) !! c) →
     stack_top (m_state m4) operand_stack value old →
     is_cons (m_state m4) value envs arg_expr →
     returns (apply form m4) (Q c_form)) →
  returns (eval_body env fuel nil_value apply data m)
    (λ m', ∃ c_form m5, cells (m_state m) !! c_form = None ∧
                        Q c_form m5 ∧ m' = do_leave c_form m5).
Proof.
  intros Hg Hd Hdata Henvs Hexpr Hf Hes Hfuel Hl Hold Happly.
  pose proof Hg as (Hinv & Hnr & Hnv & Hos & Hcs).
  destruct (is_cons_elems _ _ _ _ _ Hinv Hd Hdata) as [Hen Hex].
  destruct (is_cons_elems _ _ _ _ _ Hinv Hen Henvs) as [Hfo Hev].
  destruct (is_cons_elems _ _ _ _ _ Hinv Hex Hexpr) as [Hfe Har].
  assert (form ∈ objs) as Hform.
  { apply (reach_objs _ _ (heap_graph _ _ Hinv) forms); [done|].
    by eapply map_entries_lookup_reach. }
  assert (form ≠ 0) as Hform0
    by (intros ->; by apply (hm_nonnull _ _ (heap_graph _ _ Hinv))).
  unfold eval_body.
  rewrite (destruct_cons_is_cons _ _ _ _ Hdata). cbn.
  rewrite (destruct_cons_is_cons _ _ _ _ Henvs). cbn.
  rewrite (is_cons_class _ _ _ _ Hexpr). cbn.
  rewrite (decide_False (P := cons_class = atom_class)) by done.
  rewrite (decide_True (P := cons_class = cons_class)) by done.
  rewrite (destruct_cons_is_cons _ _ _ _ Hexpr). cbn.
  rewrite (is_atom_class _ _ _ Hf). cbn.
  rewrite (bool_decide_eq_true_2 (atom_class = atom_class)) by done.
  rewrite (assoc_entries nil_value fuel f_expr cs forms _ es Hf Hes Hfuel), Hl.
  cbn. rewrite bool_decide_eq_true_2 by done.
  eapply returns_bind;
    [by apply (do_push_root_g_spec env nil_value env_ok m objs)|].
  intros [c_form m1] (Ho1 & _ & Hc1 & Hs1 & Hg1). cbn [fst snd] in *.
  destruct (globals_fresh _ _ _ c_form Hg Hc1) as (Hnr1 & _ & Hcos & _).
  assert (c_form ∈ roots_head (m_state m1)) as Hcr1 by (rewrite Hs1; by left).
  assert (cells (m_state m1) !! c_form = Some form) as Hcf1
    by (rewrite Hs1; cbn; apply lookup_insert_eq).
  eapply returns_bind;
    [by apply (do_create_cons_spec env fuel nil_value env_ok m1 objs)|].
  intros [value m2] (Ho2 & _ & Hcons & Hcells2 & objs2 & Hgr2 & _ & _ & Hg2).
  cbn [fst snd] in *.
  destruct (grown_rooted _ _ _ _ _ _ _ Hgr2 Hcr1 Hcf1) as [Hkf2 Hf2].
  eapply returns_bind;
    [apply (do_push_spec env fuel nil_value env_ok m2 (value :: objs2));
     [done|by left]|].
  intros m3 (Ho3 & _ & p & old3 & objs3 & Hold3 & Hcells3 & Hp & Hgr3 & Hv3 & _ & Hg3).
  assert (roots_head (m_state m3) = c_form :: roots_head (m_state m)) as Hr3.
  { rewrite (gr_roots _ _ _ _ _ Hgr3), (gr_roots _ _ _ _ _ Hgr2), Hs1. done. }
  destruct (grown_rooted _ _ _ _ _ c_form form Hgr3) as [Hkf3 Hf3].
  { by rewrite (gr_roots _ _ _ _ _ Hgr2). }
  { by rewrite Hcells2. }
  assert (old3 = old) as ->.
  { rewrite Hcells2, Hs1 in Hold3. cbn in Hold3.
    rewrite lookup_insert_ne in Hold3 by done. congruence. }
  eapply returns_bind;
    [by apply (do_pop_root_g_spec nil_value m3 (p :: objs3) c_form
                 (roots_head (m_state m)))|].
  intros m4 (Ho4 & _ & Hs4 & Hg4).
  assert (cells (m_state m4) !! c_form = Some form) as Hcf4.
  { rewrite Hs4. cbn. rewrite Hcells3, lookup_insert_ne by done.
    by rewrite Hcells2. }
  unfold load_cell. rewrite Hcf4. cbn.
  eapply returns_bind.
  - apply (Happly c_form m4 (p :: objs3) value); try done.
    + by right.
    + rewrite Hs4. cbn.
      apply (kept_trans _ (m_state m2)); [|done].
      destruct Hkf2 as (o & o' & Hkf2). exists o, o'.
      rewrite Hs1 in Hkf2. done.
    + congruence.
    + by rewrite Hs4.
    + intros c Hc Hc'. rewrite Hs4. cbn. rewrite Hcells3, lookup_insert_ne by done.
      rewrite Hcells2, Hs1. cbn. by rewrite lookup_insert_ne.
    + exists p. rewrite Hs4. cbn. split; [|done]. rewrite Hcells3.
      apply lookup_insert_eq.
    + rewrite Hs4. cbn. apply (kept_is_cons (m_state m2)); [|done].
      by apply (gr_kept _ _ _ _ _ Hgr3).
  - intros m5 HQ. cbn. by exists c_form, m5.
Qed.

Lemma apply_function depth function f data m :
  is_function (m_state m) function f data →
  apply env fuel nil_value (S depth) function m
  = call_apply_func env fuel nil_value (apply env fuel nil_value depth) f data m.
Proof.
  intros (n & k & Hf). cbn. unfold apply_body, load. rewrite Hf. cbn.
  by rewrite decide_False by (intros H; by apply H).
Qed.

Lemma leave_stack_top c_form m5 x rest :
  c_form ≠ operand_stack →
  stack_top (m_state m5) operand_stack x rest →
  stack_top (m_state (do_leave c_form m5)) operand_stack x rest.
Proof.
  intros Hne (p & Hp & Hc). exists p. unfold do_leave. cbn.
  by rewrite lookup_delete_ne.
Qed.

Lemma leave_cells c_form m5 m :
  cells (m_state m) !! c_form = None →
  (∀ c, c ≠ operand_stack → c ≠ c_form →
        cells (m_state m5) !! c = cells (m_state m) !! c) →
  ∀ c, c ≠ operand_stack →
       cells (m_state (do_leave c_form m5)) !! c = cells (m_state m) !! c.
Proof.
  intros Hc Hcells c Hne. unfold do_leave. cbn.
  destruct (decide (c = c_form)) as [->|Hn]; [by rewrite lookup_delete_eq|].
  rewrite lookup_delete_ne by done. by apply Hcells.
Qed.

(** [(quote . X)] evaluates to [X]. *)
Lemma eval_quote_result depth m objs data envs expr forms env0 f_expr arg_expr
    cs es form d old :
  globals nil_value (m_state m) objs → data ∈ objs →
  is_cons (m_state m) data envs expr → is_cons (m_state m) envs forms env0 →
  is_cons (m_state m) expr f_expr arg_expr → is_atom (m_state m) f_expr cs →
  map_entries nil_value (m_state m) forms es → (length es < fuel)%nat →
  entries_lookup cs es = Some form →
  is_function (m_state m) form quote_function d →
  cells (m_state m) !! operand_stack = Some old →
  returns (eval_body env fuel nil_value (apply env fuel nil_value (S depth)) data m)
    (λ m', m_output m' = m_output m ∧
           stack_top (m_state m') operand_stack arg_expr old ∧
           roots_head (m_state m') = roots_head (m_state m) ∧
           ∀ c, c ≠ operand_stack →
                cells (m_state m') !! c = cells (m_state m) !! c).
Proof.
  intros Hg Hd Hdata Henvs Hexpr Hf Hes Hfuel Hl Hform Hold.
  eapply returns_mono.
  - apply (eval_form_run _ m objs data envs expr forms env0 f_expr arg_expr cs es
             form old
             (λ c_form m5,
                m_output m5 = m_output m ∧
                stack_top (m_state m5) operand_stack arg_expr old ∧
                roots_head (m_state m5) = roots_head (m_state m) ∧
                ∀ c, c ≠ operand_stack → c ≠ c_form →
                     cells (m_state m5) !! c = cells (m_state m) !! c));
      try done.
    intros c_form m4 objs4 value Hc4 Hg4 Hf4 Hk4 Ho4 Hr4 Hcells4 Htop4 Hv4.
    rewrite (apply_function depth form quote_function d)
      by by apply (kept_is_function (m_state m)).
    cbn.
    eapply returns_mono;
      [by apply (quote_function_result m4 objs4 d value old envs arg_expr)|].
    intros m5 (Ho5 & Htop5 & Hr5 & Hcells5). split_and!; try congruence.
    intros c Hc Hc'. rewrite Hcells5 by done. by apply Hcells4.
  - intros m' (c_form & m5 & Hc & (Ho5 & Htop5 & Hr5 & Hcells5) & ->).
    assert (c_form ≠ operand_stack) as Hne by (intros ->; congruence).
    split_and!; try done.
    + by apply leave_stack_top.
    + by apply leave_cells.
Qed.

(** [(fun . (param . body))] evaluates to a closure: a function object for
    [fun_apply_function] whose data is the cons of the current [envs] and
    [(param . body)]. *)
Lemma eval_fun_result depth m objs data envs expr forms env0 f_expr arg_expr
    cs es form d old :
  globals nil_value (m_state m) objs → data ∈ objs →
  is_cons (m_state m) data envs expr → is_cons (m_state m) envs forms env0 →
  is_cons (m_state m) expr f_expr arg_expr → is_atom (m_state m) f_expr cs →
  map_entries nil_value (m_state m) forms es → (length es < fuel)%nat →
  entries_lookup cs es = Some form →
  is_function (m_state m) form fun_function d →
  cells (m_state m) !! operand_stack = Some old →
  returns (eval_body env fuel nil_value (apply env fuel nil_value (S depth)) data m)
    (λ m', m_output m' = m_output m ∧
           (∃ fn closure,
              stack_top (m_state m') operand_stack fn old ∧
              is_function (m_state m') fn fun_apply_function closure ∧
              is_cons (m_state m') closure envs arg_expr) ∧
           roots_head (m_state m') = roots_head (m_state m) ∧
           ∀ c, c ≠ operand_stack →
                cells (m_state m') !! c = cells (m_state m) !! c).
Proof.
  intros Hg Hd Hdata Henvs Hexpr Hf Hes Hfuel Hl Hform Hold.
  eapply returns_mono.
  - apply (eval_form_run _ m objs data envs expr forms env0 f_expr arg_expr cs es
             form old
             (λ c_form m5,
                m_output m5 = m_output m ∧
                (∃ fn closure,
                   stack_top (m_state m5) operand_stack fn old ∧
                   is_function (m_state m5) fn fun_apply_function closure ∧
                   is_cons (m_state m5) closure envs arg_expr) ∧
                roots_head (m_state m5) = roots_head (m_state m) ∧
                ∀ c, c ≠ operand_stack → c ≠ c_form →
                     cells (m_state m5) !! c = cells (m_state m) !! c));
      try done.
    intros c_form m4 objs4 value Hc4 Hg4 Hf4 Hk4 Ho4 Hr4 Hcells4 Htop4 Hv4.
    rewrite (apply_function depth form fun_function d)
      by by apply (kept_is_function (m_state m)).
    cbn.
    eapply returns_mono;
      [by apply (fun_function_result m4 objs4 d value old)|].
    intros m5 (Ho5 & (fn & Htop5 & Hfn5) & Hk5 & Hr5 & Hcells5).
    split_and!; try congruence.
    + exists fn, value. split_and!; try done. by apply (kept_is_cons (m_state m4)).
    + intros c Hc Hc'. rewrite Hcells5 by done. by apply Hcells4.
  - intros m' (c_form & m5 & Hc & (Ho5 & (fn & cl & Htop5 & Hfn5 & Hcl5) & Hr5
                                   & Hcells5) & ->).
    assert (c_form ≠ operand_stack) as Hne by (intros ->; congruence).
    split_and!; try done.
    + exists fn, cl. split_and!; try done. by apply leave_stack_top.
    + by apply leave_cells.
Qed.

End run_results.

(** ** The environment [bump_env] *)

Lemma next_addr_fresh (m : gmap Z object) a : next_addr m ≤ a → m !! a = None.
Proof.
  unfold next_addr. revert a.
  apply (map_fold_weak_ind
           (λ r (m : gmap Z object), ∀ a, 1 + r ≤ a → m !! a = None)).
  - intros a _. apply lookup_empty.
  - intros i x m' r _ IH a Ha. rewrite lookup_insert_ne by lia. apply IH. lia.
Qed.

Lemma next_var_fresh (cs : gmap cell Z) i :
  next_var cs ≤ i → cs !! stack_var i = None.
Proof.
  unfold next_var. revert i.
  apply (map_fold_weak_ind
           (λ r (cs : gmap cell Z), ∀ i, 1 + r ≤ i → cs !! stack_var i = None)).
  - intros i _. apply lookup_empty.
  - intros c x m' r _ IH i Hi. destruct c as [| | |j].
    + rewrite lookup_insert_ne by done. by apply IH.
    + rewrite lookup_insert_ne by done. by apply IH.
    + rewrite lookup_insert_ne by done. by apply IH.
    + rewrite lookup_insert_ne by (intros [=]; lia). apply IH. lia.
Qed.

Lemma bump_env_ok k s : site_ok s (bump_env k s).
Proof.
  split_and!; cbn.
  - intros _. by apply next_addr_fresh.
  - by apply next_var_fresh.
  - apply next_var_fresh. lia.
  - intros [=]. lia.
Qed.

(** ** The session *)

Lemma interp_heap_inv os : os ∈ interp_objs → heap_inv (interp_state os) interp_objs.
Proof.
  intros Hos. split.
  - cbn. repeat (split; [done|]; split; [done|]; eexists; split; [done|]). done.
  - vm_compute. repeat (constructor; [intros H; list_cases H|]). constructor.
  - split.
    + intros H. vm_compute in H. list_cases H.
    + intros a Ha. vm_compute in Ha. list_cases Ha; by eexists.
    + intros a c Ha Hc. vm_compute in Ha.
      list_cases Ha; vm_compute in Hc; list_cases Hc; vm_compute; elem_solve.
  - intros a Ha. vm_compute in Ha. list_cases Ha; done.
  - intros c Hc. cbn in Hc. list_cases Hc;
      eexists; (split; [done|]); try done; vm_compute; elem_solve.
  - done.
  - done.
Qed.

Lemma interp_globals os : os ∈ interp_objs → globals 1 (interp_state os) interp_objs.
Proof.
  intros Hos. unfold globals. split_and!.
  - by apply interp_heap_inv.
  - cbn. elem_solve.
  - done.
  - cbn. elem_solve.
  - cbn. elem_solve.
Qed.

Lemma interp_elem a : 1 ≤ a ≤ 28 → a ∈ interp_objs.
Proof.
  intros Ha. unfold interp_objs. apply list_elem_of_fmap.
  exists (Z.to_nat (28 - a)). split; [lia|].
  apply elem_of_seq. lia.
Qed.

Lemma interp_forms os :
  map_entries 1 (interp_state os) 9 [("fun"%string, 7); ("quote"%string, 3)].
Proof.
  split; [done|]. exists 8, 5, 6. split; [by eexists _, _, _|].
  split; [by eexists _, _, _|]. split; [by eexists _, _|].
  split; [done|]. exists 4, 1, 2. split; [by eexists _, _, _|].
  split; [by eexists _, _, _|]. split; [by eexists _, _|]. done.
Qed.

Lemma interp_env os : map_entries 1 (interp_state os) 13 [("print_atom"%string, 11)].
Proof.
  split; [done|]. exists 12, 1, 10. split; [by eexists _, _, _|].
  split; [by eexists _, _, _|]. split; [by eexists _, _|]. done.
Qed.

Lemma map_globals : globals 1 map_state map_objs.
Proof.
  unfold globals. split_and!; [apply map_heap_inv|cbn; elem_solve|done| |];
    cbn; elem_solve.
Qed.

(** ** The set-up of [main] *)

Section run_setup.

Variable env : nat → state → site.
Variable fuel : nat.
Variable nil_value : Z.
Hypothesis env_ok : ∀ k s, site_ok s (env k s).

Lemma create_atom_from_string_spec m objs string :
  globals nil_value (m_state m) objs →
  returns (create_atom_from_string env fuel string m)
    (λ r, m_output r.2 = m_output m ∧ m_sites r.2 = S (m_sites m) ∧
          is_atom (m_state r.2) r.1 string ∧
          cells (m_state r.2) = cells (m_state m) ∧
          ∃ objs', grown (m_state m) objs r.1 (m_state r.2) objs' ∧
                   globals nil_value (m_state r.2) (r.1 :: objs')).
Proof.
  intros Hg. unfold create_atom_from_string, at_site.
  destruct (env_ok (m_sites m) (m_state m)) as (Hf & Hc1 & Hc2 & Hne).
  eapply returns_bind;
    [by apply (create_atom_spec _ _ _ (m_state m) objs); try apply Hg|].
  intros [p s'] (Hp & Hcells & objs' & Hgr). cbn in *.
  split_and!; try done. exists objs'. split_and!; try done.
  apply (globals_frame nil_value (m_state m) objs); try done.
  - apply Hgr.
  - apply Hgr.
  - by rewrite Hcells.
Qed.

Lemma map_cons_s_spec m objs key value map r es :
  globals nil_value (m_state m) objs → value ∈ objs →
  map ∈ roots_head (m_state m) → map ≠ nil_root →
  cells (m_state m) !! map = Some r → map_entries nil_value (m_state m) r es →
  returns (map_cons_s env fuel key value map m)
    (λ m', m_output m' = m_output m ∧
       roots_head (m_state m') = roots_head (m_state m) ∧
       (∀ c, c ≠ map → cells (m_state m') !! c = cells (m_state m) !! c) ∧
       kept (m_state m) (m_state m') value ∧
       ∃ objs' p, cells (m_state m') !! map = Some p ∧
         map_entries nil_value (m_state m') p ((key, value) :: es) ∧
         globals nil_value (m_state m') objs').
Proof.
  intros Hg Hv Hmap Hmn Hr Hes. unfold map_cons_s.
  eapply returns_bind; [by apply (do_push_root_g_spec env nil_value env_ok m objs)|].
  intros [c m1] (Ho1 & _ & Hc & Hs1 & Hg1). cbn [fst snd] in *.
  assert (c ≠ map) as Hcm by (intros ->; congruence).
  destruct (globals_fresh _ _ _ c Hg Hc) as (Hcr & _).
  assert (roots_head (m_state m1) = c :: roots_head (m_state m)) as Hr1
    by by rewrite Hs1.
  assert (cells (m_state m1) = <[c := value]> (cells (m_state m))) as Hcells1
    by by rewrite Hs1.
  assert (mem (m_state m1) = mem (m_state m)) as Hmem1 by by rewrite Hs1.
  eapply returns_bind; [by apply (create_atom_from_string_spec m1 objs)|].
  intros [atom m2] (Ho2 & _ & Hatom & Hcells2 & objs2 & Hgr2 & Hg2).
  cbn [fst snd] in *.
  assert (value ∈ objs2) as Hv2.
  { apply (gr_live _ _ _ _ _ Hgr2). apply (reachable_root _ c).
    - rewrite Hr1. by left.
    - rewrite Hcells1. apply lookup_insert_eq. }
  assert (∀ a, reach (mem (m_state m)) r a →
               a ∈ objs2 ∧ kept (m_state m) (m_state m2) a) as Hlive2.
  { intros a Ha.
    assert (a ∈ objs2) as Hin.
    { apply (gr_live _ _ _ _ _ Hgr2). exists map, r. split_and!.
      - rewrite Hr1. by right.
      - rewrite Hcells1. by rewrite lookup_insert_ne.
      - by rewrite Hmem1. }
    split; [done|]. apply (kept_mem_l (m_state m1)); [done|].
    by apply (gr_kept _ _ _ _ _ Hgr2). }
  destruct Hg as (Hinv & Hnr & Hnv & Hos & Hcs).
  eapply returns_bind;
    [apply (do_pop_root_g_spec nil_value m2 (atom :: objs2) c
              (roots_head (m_state m))); try done;
     by rewrite (gr_roots _ _ _ _ _ Hgr2)|].
  intros m3 (Ho3 & _ & Hs3 & Hg3).
  assert (mem (m_state m3) = mem (m_state m2)) as Hmem3 by by rewrite Hs3.
  assert (cells (m_state m3) = <[c := value]> (cells (m_state m))) as Hcells3
    by by rewrite Hs3; cbn; rewrite Hcells2.
  assert (roots_head (m_state m3) = roots_head (m_state m)) as Hr3
    by by rewrite Hs3.
  unfold load_cell at 1. rewrite Hcells3, lookup_insert_eq. cbn.
  eapply returns_bind;
    [apply (do_map_cons_spec env fuel nil_value env_ok m3 (atom :: objs2)
              atom value map r); try done|].
  { by left. }
  { by right. }
  { by rewrite Hr3. }
  { by rewrite Hcells3, lookup_insert_ne. }
  intros m4 (Ho4 & objs4 & entry & p & Hcells4 & Hr4 & Hp & Hentry & Hg4 & Hka & Hkv
             & Hlive4).
  cbn.
  split_and!.
  - unfold do_leave. cbn. congruence.
  - unfold do_leave. cbn. by rewrite Hr4.
  - intros c' Hc'. unfold do_leave. cbn. rewrite Hcells4.
    destruct (decide (c' = c)) as [->|Hn].
    + by rewrite lookup_delete_eq.
    + rewrite lookup_delete_ne, lookup_insert_ne by done.
      by rewrite Hcells3, lookup_insert_ne.
  - apply (kept_trans _ (m_state m2)).
    + apply (kept_mem_l (m_state m1)); [done|]. by apply (gr_kept _ _ _ _ _ Hgr2).
    + apply (kept_mem_l (m_state m3)); [done|]. by apply (kept_mem_r _ (m_state m4)).
  - exists (p :: objs4), p. split; [|split].
    + unfold do_leave. cbn. rewrite lookup_delete_ne by done.
      rewrite Hcells4. apply lookup_insert_eq.
    + split.
      * intros ->.
        pose proof (heap_nodup _ _ (proj1 Hg4)) as [Hnin _]%NoDup_cons.
        apply Hnin. apply Hlive4. apply (reachable_root _ nil_root).
        -- by rewrite Hr3.
        -- rewrite Hcells3, lookup_insert_ne; [done|]. intros ->. congruence.
      * exists entry, r, atom. split_and!; try done.
        -- apply (kept_is_atom (m_state m3)); [done|].
           destruct Hatom as (n & k & Ha). exists n, k. by rewrite Hmem3.
        -- apply (map_entries_kept nil_value (m_state m)); [|done].
           intros a Ha. destruct (Hlive2 a Ha) as [Hin Hk2].
           apply (kept_trans _ (m_state m2)); [done|].
           apply (kept_mem_l (m_state m3)); [done|].
           apply (kept_mem_r _ (m_state m4)); [done|]. apply Hlive4.
           exists map, r. split_and!.
           ++ by rewrite Hr3.
           ++ by rewrite Hcells3, lookup_insert_ne.
           ++ rewrite Hmem3. apply (reach_kept (m_state m)); [|done].
              intros x Hx. by apply Hlive2.
    + apply do_leave_globals; [done|]. by rewrite Hr4, Hr3.
Qed.

Lemma map_cons_s_func_nil_spec m objs key function map r es :
  globals nil_value (m_state m) objs →
  map ∈ roots_head (m_state m) → map ≠ nil_root →
  cells (m_state m) !! map = Some r → map_entries nil_value (m_state m) r es →
  returns (map_cons_s_func_nil env fuel nil_value key function map m)
    (λ m', m_output m' = m_output m ∧
       roots_head (m_state m') = roots_head (m_state m) ∧
       (∀ c, c ≠ map → cells (m_state m') !! c = cells (m_state m) !! c) ∧
       ∃ objs' p func, cells (m_state m') !! map = Some p ∧
         map_entries nil_value (m_state m') p ((key, func) :: es) ∧
         is_function (m_state m') func function nil_value ∧
         globals nil_value (m_state m') objs').
Proof.
  intros Hg Hmap Hmn Hr Hes. unfold map_cons_s_func_nil.
  rewrite (proj1 (do_create_nil_spec nil_value m objs Hg)). cbn.
  eapply returns_bind;
    [apply (do_create_function_spec env fuel nil_value env_ok m objs); [done|];
     by eapply globals_nil|].
  intros [func m1] (Ho1 & _ & Hfunc & Hcells1 & objs1 & Hgr1 & _ & Hg1).
  cbn [fst snd] in *.
  eapply returns_mono;
    [apply (map_cons_s_spec m1 (func :: objs1) key func map r es); try done|].
  - by left.
  - by rewrite (gr_roots _ _ _ _ _ Hgr1).
  - by rewrite Hcells1.
  - apply (map_entries_kept nil_value (m_state m)); [|done].
    intros a Ha. apply (gr_kept _ _ _ _ _ Hgr1), (gr_live _ _ _ _ _ Hgr1).
    by exists map, r.
  - intros m' (Ho & Hroots & Hcells & Hk & objs' & p & Hp & Hes' & Hg').
    split_and!.
    + congruence.
    + by rewrite Hroots, (gr_roots _ _ _ _ _ Hgr1).
    + intros c Hc. rewrite Hcells by done. by rewrite Hcells1.
    + exists objs', p, func. split; [done|]. split; [done|]. split; [|done].
      by apply (kept_is_function (m_state m1)).
Qed.

End run_setup.

(** ** Closures *)

Lemma grown_reach_kept s objs p s' objs' a b :
  heap_inv s objs → grown s objs p s' objs' → a ∈ objs' →
  reach (mem s) a b → b ∈ objs' ∧ kept s s' b.
Proof.
  intros Hinv Hgr Ha. revert b.
  apply (rtc_ind_r (λ b, b ∈ objs' ∧ kept s s' b)).
  - split; [done|]. by apply (gr_kept _ _ _ _ _ Hgr).
  - intros y z _ Hyz [Hy Hky]. unfold edge in Hyz.
    assert (z ∈ objs) as Hz.
    { apply (hm_closed _ _ (heap_graph _ _ Hinv) y); [|done].
      by apply (gr_sub _ _ _ _ _ Hgr). }
    assert (z ∈ p :: objs') as [->|Hz']%elem_of_cons.
    { apply (hm_closed _ _ (heap_graph _ _ (gr_heap _ _ _ _ _ Hgr)) y);
        [by right|]. by rewrite (kept_children s s' y). }
    + by destruct (gr_new _ _ _ _ _ Hgr).
    + split; [done|]. by apply (gr_kept _ _ _ _ _ Hgr).
Qed.

Lemma grown_is_cons s objs p s' objs' a h t :
  heap_inv s objs → grown s objs p s' objs' → a ∈ objs' → is_cons s a h t →
  is_cons s' a h t ∧ h ∈ objs' ∧ t ∈ objs'.
Proof.
  intros Hinv Hgr Ha Hc. split_and!.
  - apply (kept_is_cons s); [|done]. by apply (gr_kept _ _ _ _ _ Hgr).
  - apply (grown_reach_kept s objs p s' objs' a); try done.
    apply rtc_once. unfold edge. rewrite (is_cons_children _ _ _ _ Hc). by left.
  - apply (grown_reach_kept s objs p s' objs' a); try done.
    apply rtc_once. unfold edge. rewrite (is_cons_children _ _ _ _ Hc).
    right. by left.
Qed.

Lemma grown_map_entries nil_value s objs p s' objs' map es :
  heap_inv s objs → grown s objs p s' objs' → map ∈ objs' →
  map_entries nil_value s map es → map_entries nil_value s' map es.
Proof.
  intros Hinv Hgr Hm. apply map_entries_kept. intros a Ha.
  by apply (grown_reach_kept s objs p s' objs' map).
Qed.

Lemma grown_is_function s objs p s' objs' a f d :
  heap_inv s objs → grown s objs p s' objs' → a ∈ objs' → is_function s a f d →
  is_function s' a f d ∧ d ∈ objs'.
Proof.
  intros Hinv Hgr Ha Hf. split.
  - apply (kept_is_function s); [|done]. by apply (gr_kept _ _ _ _ _ Hgr).
  - apply (grown_reach_kept s objs p s' objs' a); try done.
    apply rtc_once. unfold edge. rewrite (is_function_children _ _ _ _ Hf).
    by left.
Qed.

Section run_closures.

Variable env : nat → state → site.
Variable fuel : nat.
Variable nil_value : Z.
Hypothesis env_ok : ∀ k s, site_ok s (env k s).

(** Applying a closure: the argument is popped, the parameter is bound to it
    in front of the environment the closure has captured, and the evaluation
    of the body in the result is put on the continuation stack. *)
Lemma fun_apply_function_result m objs data envs expr forms env0 param body cs
    arg rest es oldc :
  globals nil_value (m_state m) objs → data ∈ objs →
  is_cons (m_state m) data envs expr → is_cons (m_state m) envs forms env0 →
  is_cons (m_state m) expr param body → is_atom (m_state m) param cs →
  map_entries nil_value (m_state m) env0 es →
  stack_top (m_state m) operand_stack arg rest →
  cells (m_state m) !! cont_stack = Some oldc →
  returns (fun_apply_function_body env fuel data m)
    (λ m', m_output m' = m_output m ∧
           roots_head (m_state m') = roots_head (m_state m) ∧
           cells (m_state m') !! operand_stack = Some rest ∧
           (∀ c, c ≠ operand_stack → c ≠ cont_stack →
                 cells (m_state m') !! c = cells (m_state m) !! c) ∧
           ∃ fn d envs' newEnv,
             stack_top (m_state m') cont_stack fn oldc ∧
             is_function (m_state m') fn eval d ∧
             is_cons (m_state m') d envs' body ∧
             is_cons (m_state m') envs' forms newEnv ∧
             map_entries nil_value (m_state m') newEnv ((cs, arg) :: es)).
Proof.
  intros Hg Hd Hdata Henvs Hexpr Hparam Hes Htop Hcont.
  unfold fun_apply_function_body.
  destruct (stack_top_pop nil_value m objs arg rest Hg Htop)
    as (Hpop & Harg & Hrest & Hg0).
  set (m0 := Machine _ _ _) in *.
  change (globals nil_value (m_state m0) objs) in Hg0.
  rewrite Hpop. cbn.
  pose proof Hg0 as (Hinv & Hnr & Hnv & Hos & Hcs).
  assert (mem (m_state m0) = mem (m_state m)) as Hmem0 by done.
  assert (roots_head (m_state m0) = roots_head (m_state m)) as Hr0 by done.
  assert (is_cons (m_state m0) data envs expr) as Hdata0 by done.
  assert (is_cons (m_state m0) envs forms env0) as Henvs0 by done.
  assert (is_cons (m_state m0) expr param body) as Hexpr0 by done.
  assert (is_atom (m_state m0) param cs) as Hparam0 by done.
  assert (map_entries nil_value (m_state m0) env0 es) as Hes0
    by by apply (map_entries_mem nil_value (m_state m)).
  destruct (is_cons_elems _ _ _ _ _ Hinv Hd Hdata0) as [Hen Hex].
  destruct (is_cons_elems _ _ _ _ _ Hinv Hen Henvs0) as [Hfo Hev].
  destruct (is_cons_elems _ _ _ _ _ Hinv Hex Hexpr0) as [Hpa Hbo].
  rewrite (destruct_cons_is_cons _ data envs expr) by exact Hdata0. cbn.
  rewrite (destruct_cons_is_cons _ envs forms env0) by exact Henvs0. cbn.
  rewrite (destruct_cons_is_cons _ expr param body) by exact Hexpr0. cbn.
  rewrite (is_atom_class _ param cs) by exact Hparam0. cbn.
  rewrite (decide_False (P := atom_class ≠ atom_class)) by (intros H; by apply H).
  change (Machine _ _ _) with m0.
  assert (cells (m_state m0) !! operand_stack = Some rest) as Hos0
    by apply lookup_insert_eq.
  assert (∀ c, c ≠ operand_stack →
               cells (m_state m0) !! c = cells (m_state m) !! c) as Hcells0
    by (intros c Hc; unfold m0; cbn; by rewrite lookup_insert_ne).
  eapply returns_bind;
    [by apply (do_push_root_g_spec env nil_value env_ok m0 objs)|].
  intros [c1 m1] (Ho1 & _ & Hc1 & Hs1 & Hg1). cbn [fst snd] in *.
  destruct (globals_fresh _ _ _ c1 Hg0 Hc1) as (Hnr1 & Hc1n & Hc1os & Hc1cs).
  eapply returns_bind;
    [by apply (do_push_root_g_spec env nil_value env_ok m1 objs)|].
  intros [c2 m2] (Ho2 & _ & Hc2 & Hs2 & Hg2). cbn [fst snd] in *.
  destruct (globals_fresh _ _ _ c2 Hg1 Hc2) as (Hnr2 & Hc2n & Hc2os & Hc2cs).
  eapply returns_bind;
    [by apply (do_push_root_g_spec env nil_value env_ok m2 objs)|].
  intros [c3 m3] (Ho3 & _ & Hc3 & Hs3 & Hg3). cbn [fst snd] in *.
  destruct (globals_fresh _ _ _ c3 Hg2 Hc3) as (Hnr3 & Hc3n & Hc3os & Hc3cs).
  assert (roots_head (m_state m3)
          = c3 :: c2 :: c1 :: roots_head (m_state m0)) as Hr3
    by by rewrite Hs3, Hs2, Hs1.
  assert (cells (m_state m3)
          = <[c3 := body]> (<[c2 := forms]> (<[c1 := env0]> (cells (m_state m0)))))
    as Hcells3 by by rewrite Hs3, Hs2, Hs1.
  assert (mem (m_state m3) = mem (m_state m0)) as Hmem3
    by by rewrite Hs3, Hs2, Hs1.
  assert (c2 ≠ c1) as H21.
  { intros ->. rewrite Hs1 in Hc2. cbn in Hc2. by rewrite lookup_insert_eq in Hc2. }
  assert (c3 ≠ c2) as H32.
  { intros ->. rewrite Hs2 in Hc3. cbn in Hc3. by rewrite lookup_insert_eq in Hc3. }
  assert (c3 ≠ c1) as H31.
  { intros ->. rewrite Hs2, Hs1 in Hc3. cbn in Hc3.
    rewrite lookup_insert_ne in Hc3 by done. by rewrite lookup_insert_eq in Hc3. }
  assert (cells (m_state m0) !! c2 = None) as Hc2'.
  { rewrite Hs1 in Hc2. cbn in Hc2. by rewrite lookup_insert_ne in Hc2. }
  assert (cells (m_state m0) !! c3 = None) as Hc3'.
  { rewrite Hs2, Hs1 in Hc3. cbn in Hc3.
    rewrite !lookup_insert_ne in Hc3 by done. by rewrite Hcells0. }
  assert (cells (m_state m3) !! c1 = Some env0) as Hce3.
  { rewrite Hcells3, !lookup_insert_ne by done. apply lookup_insert_eq. }
  assert (c1 ∈ roots_head (m_state m3)) as Hc1r3
    by (rewrite Hr3; do 2 right; by left).
  eapply returns_bind;
    [by apply (do_map_cons_spec env fuel nil_value env_ok m3 objs param arg c1 env0)|].
  intros m4 (Ho4 & objs4 & entry & p4 & Hcells4 & Hr4 & Hp4 & Hentry & Hg4 & Hkp & Hka
             & Hlive4).
  rewrite Hr3 in Hr4.
  assert (map_entries nil_value (m_state m4) p4 ((cs, arg) :: es)) as Hes4.
  { split.
    - intros ->.
      pose proof (heap_nodup _ _ (proj1 Hg4)) as [Hnin _]%NoDup_cons.
      apply Hnin. apply Hlive4. apply (reachable_root _ nil_root).
      + apply Hg3.
      + apply Hg3.
    - exists entry, env0, param. split_and!; try done.
      + apply (kept_is_atom (m_state m3)); [done|].
        by apply (is_atom_mem (m_state m0)).
      + apply (map_entries_kept nil_value (m_state m3)).
        * intros a Ha. apply Hlive4. by exists c1, env0.
        * by apply (map_entries_mem nil_value (m_state m0)). }
  assert (cells (m_state m4) !! c2 = Some forms) as Hcf4.
  { rewrite Hcells4, lookup_insert_ne, Hcells3 by done.
    rewrite lookup_insert_ne by done. apply lookup_insert_eq. }
  assert (cells (m_state m4) !! c3 = Some body) as Hcb4.
  { rewrite Hcells4, lookup_insert_ne, Hcells3 by done. apply lookup_insert_eq. }
  assert (cells (m_state m4) !! c1 = Some p4) as Hce4
    by (rewrite Hcells4; apply lookup_insert_eq).
  rewrite (load_cell_Some _ c2 forms Hcf4). cbn.
  rewrite (load_cell_Some _ c1 p4 Hce4). cbn.
  assert (forms ∈ p4 :: objs4) as Hfo4.
  { destruct (heap_roots _ _ (proj1 Hg4) c2) as (x & Hx & Hxo);
      [rewrite Hr4; right; by left|]. congruence. }
  eapply returns_bind;
    [apply (do_create_cons_spec env fuel nil_value env_ok m4 (p4 :: objs4));
     [done|done|by left]|].
  intros [e5 m5] (Ho5 & _ & He5 & Hcells5 & objs5 & Hgr5 & Hfo5 & Hp5 & Hg5).
  cbn [fst snd] in *.
  pose proof (grown_map_entries nil_value _ _ _ _ _ _ _ (proj1 Hg4) Hgr5 Hp5 Hes4)
    as Hes5.
  assert (cells (m_state m5) !! c3 = Some body) as Hcb5 by by rewrite Hcells5.
  rewrite (load_cell_Some _ c3 body Hcb5). cbn.
  assert (body ∈ e5 :: objs5) as Hbo5.
  { destruct (heap_roots _ _ (proj1 Hg5) c3) as (x & Hx & Hxo).
    - rewrite (gr_roots _ _ _ _ _ Hgr5), Hr4. by left.
    - rewrite Hcells5 in Hx. congruence. }
  eapply returns_bind;
    [apply (do_create_cons_spec env fuel nil_value env_ok m5 (e5 :: objs5));
     [done|by left|done]|].
  intros [d6 m6] (Ho6 & _ & Hd6 & Hcells6 & objs6 & Hgr6 & He6 & Hb6 & Hg6).
  cbn [fst snd] in *.
  destruct (grown_is_cons _ _ _ _ _ _ _ _ (proj1 Hg5) Hgr6 He6 He5)
    as (He5' & Hfo6 & Hp6).
  pose proof (grown_map_entries nil_value _ _ _ _ _ _ _ (proj1 Hg5) Hgr6 Hp6 Hes5)
    as Hes6.
  eapply returns_bind;
    [apply (do_create_function_spec env fuel nil_value env_ok m6 (d6 :: objs6));
     [done|by left]|].
  intros [fn7 m7] (Ho7 & _ & Hfn7 & Hcells7 & objs7 & Hgr7 & Hd7 & Hg7).
  cbn [fst snd] in *.
  destruct (grown_is_cons _ _ _ _ _ _ _ _ (proj1 Hg6) Hgr7 Hd7 Hd6)
    as (Hd6' & He7 & Hb7).
  destruct (grown_is_cons _ _ _ _ _ _ _ _ (proj1 Hg6) Hgr7 He7 He5')
    as (He5'' & Hfo7 & Hp7).
  pose proof (grown_map_entries nil_value _ _ _ _ _ _ _ (proj1 Hg6) Hgr7 Hp7 Hes6)
    as Hes7.
  eapply returns_bind;
    [apply (do_push_cont_spec env fuel nil_value env_ok m7 (fn7 :: objs7));
     [done|by left]|].
  intros m8 (Ho8 & _ & p8 & old8 & objs8 & Hold8 & Hcells8 & Hp8 & Hgr8 & Hfn8 & _
             & Hg8).
  destruct (grown_is_function _ _ _ _ _ _ _ _ (proj1 Hg7) Hgr8 Hfn8 Hfn7)
    as (Hfn7' & Hd8).
  destruct (grown_is_cons _ _ _ _ _ _ _ _ (proj1 Hg7) Hgr8 Hd8 Hd6')
    as (Hd6'' & He8 & Hb8).
  destruct (grown_is_cons _ _ _ _ _ _ _ _ (proj1 Hg7) Hgr8 He8 He5'')
    as (He5''' & Hfo8 & Hp8').
  pose proof (grown_map_entries nil_value _ _ _ _ _ _ _ (proj1 Hg7) Hgr8 Hp8' Hes7)
    as Hes8.
  assert (cells (m_state m7)
          = <[c1 := p4]> (<[c3 := body]> (<[c2 := forms]> (<[c1 := env0]>
              (cells (m_state m0)))))) as Hcells7'
    by by rewrite Hcells7, Hcells6, Hcells5, Hcells4, Hcells3.
  assert (old8 = oldc) as ->.
  { rewrite Hcells7', !lookup_insert_ne, Hcells0 in Hold8 by done. congruence. }
  assert (roots_head (m_state m8)
          = c3 :: c2 :: c1 :: roots_head (m_state m0)) as Hr8.
  { by rewrite (gr_roots _ _ _ _ _ Hgr8), (gr_roots _ _ _ _ _ Hgr7),
      (gr_roots _ _ _ _ _ Hgr6), (gr_roots _ _ _ _ _ Hgr5). }
  eapply returns_bind;
    [apply (do_pop_root_g_spec nil_value m8 (p8 :: objs8) _ _ Hg8 Hr8);
     by do 2 right|].
  intros m9 (Ho9 & _ & Hs9 & Hg9).
  eapply returns_bind;
    [apply (do_pop_root_g_spec nil_value m9 (p8 :: objs8) c2
              (c1 :: roots_head (m_state m0)) Hg9); [by rewrite Hs9|..];
     by right|].
  intros m10 (Ho10 & _ & Hs10 & Hg10).
  eapply returns_bind;
    [apply (do_pop_root_g_spec nil_value m10 (p8 :: objs8) c1
              (roots_head (m_state m0)) Hg10); [by rewrite Hs10|..]; done|].
  intros m11 (Ho11 & _ & Hs11 & Hg11). cbn.
  set (m' := do_leave c1 _).
  assert (mem (m_state m') = mem (m_state m8)) as Hmem'
    by (unfold m', do_leave; cbn; by rewrite Hs11, Hs10, Hs9).
  assert (cells (m_state m')
          = delete c1 (delete c2 (delete c3 (cells (m_state m8))))) as Hcells'
    by (unfold m', do_leave; cbn; by rewrite Hs11, Hs10, Hs9).
  split_and!.
  - unfold m', do_leave. cbn.
    by rewrite Ho11, Ho10, Ho9, Ho8, Ho7, Ho6, Ho5, Ho4, Ho3, Ho2, Ho1.
  - unfold m', do_leave. cbn. by rewrite Hs11.
  - rewrite Hcells', !lookup_delete_ne, Hcells8, lookup_insert_ne by done.
    by rewrite Hcells7', !lookup_insert_ne by done.
  - intros c Hos' Hcs'. rewrite Hcells'.
    destruct (decide (c = c1)) as [->|Hn1].
    { rewrite lookup_delete_eq. by rewrite <- Hcells0. }
    rewrite lookup_delete_ne by done.
    destruct (decide (c = c2)) as [->|Hn2].
    { rewrite lookup_delete_eq. by rewrite <- Hcells0. }
    rewrite lookup_delete_ne by done.
    destruct (decide (c = c3)) as [->|Hn3].
    { rewrite lookup_delete_eq. by rewrite <- Hcells0. }
    rewrite lookup_delete_ne, Hcells8, lookup_insert_ne by done.
    rewrite Hcells7', !lookup_insert_ne by done. by apply Hcells0.
  - exists fn7, d6, e5, p4. split; [|split; [|split; [|split]]].
    + exists p8. split.
      * rewrite Hcells', !lookup_delete_ne, Hcells8 by done. apply lookup_insert_eq.
      * by apply (is_cons_mem (m_state m8)).
    + by apply (is_function_mem (m_state m8)).
    + by apply (is_cons_mem (m_state m8)).
    + by apply (is_cons_mem (m_state m8)).
    + by apply (map_entries_mem nil_value (m_state m8) _ p4 ((cs, arg) :: es)).
Qed.

(** A closure whose parameter is not an atom cannot be applied. *)
Lemma fun_apply_function_not_atom m objs data envs expr forms env0 param body o
    arg rest :
  globals nil_value (m_state m) objs →
  is_cons (m_state m) data envs expr → is_cons (m_state m) envs forms env0 →
  is_cons (m_state m) expr param body →
  mem (m_state m) !! param = Some o → class o ≠ atom_class →
  stack_top (m_state m) operand_stack arg rest →
  fun_apply_function_body env fuel data m = Exit.
Proof.
  intros Hg Hdata Henvs Hexpr Ho Hc Htop. unfold fun_apply_function_body.
  destruct (stack_top_pop nil_value m objs arg rest Hg Htop) as (Hpop & _).
  rewrite Hpop. cbn.
  rewrite (destruct_cons_is_cons _ data envs expr) by exact Hdata. cbn.
  rewrite (destruct_cons_is_cons _ envs forms env0) by exact Henvs. cbn.
  rewrite (destruct_cons_is_cons _ expr param body) by exact Hexpr. cbn.
  unfold object_get_class, load. cbn. rewrite Ho. cbn.
  by rewrite decide_True.
Qed.

End run_closures.

(** ** The continuation stack *)

Lemma grown_cont_entries s objs p s' objs' a ks bottom :
  heap_inv s objs → grown s objs p s' objs' → a ∈ objs' →
  cont_entries s a ks bottom → cont_entries s' a ks bottom.
Proof.
  intros Hinv Hgr. revert a. induction ks as [|[f d] ks IH]; intros a Ha; [done|].
  intros (fn & data & rest & Hc & Hf & Hd & Hrest).
  destruct (grown_is_cons _ _ _ _ _ _ _ _ Hinv Hgr Ha Hc) as (Hc' & Hfn & Hre).
  destruct (grown_is_function _ _ _ _ _ _ _ _ Hinv Hgr Hfn Hf) as (Hf' & Hda).
  exists fn, data, rest. split; [done|]. split; [done|]. split; [|by apply IH].
  destruct d as [[h t]|]; [|done].
  by apply (grown_is_cons _ _ _ _ _ _ _ _ Hinv Hgr Hda Hd).
Qed.

Lemma cont_entries_mem s s' a ks bottom :
  mem s' = mem s → cont_entries s a ks bottom → cont_entries s' a ks bottom.
Proof.
  intros Heq. revert a. induction ks as [|[f d] ks IH]; intros a; [done|].
  intros (fn & data & rest & Hc & Hf & Hd & Hrest).
  exists fn, data, rest. split; [by apply (is_cons_mem s)|].
  split; [by apply (is_function_mem s)|]. split; [|by apply IH].
  destruct d as [[h t]|]; [|done]. by apply (is_cons_mem s).
Qed.

Section run_conts.

Variable env : nat → state → site.
Variable fuel : nat.
Variable nil_value : Z.
Hypothesis env_ok : ∀ k s, site_ok s (env k s).

(** A function object is created and pushed on the continuation stack. *)
Lemma push_function_run {B} m objs f d dd pc ks bottom
    (k : machine → result B) (Q : B → Prop) :
  globals nil_value (m_state m) objs → d ∈ objs →
  cells (m_state m) !! cont_stack = Some pc →
  cont_entries (m_state m) pc ks bottom →
  match dd with Some (h, t) => is_cons (m_state m) d h t | None => True end →
  (∀ m' objs' p,
     globals nil_value (m_state m') objs' →
     m_output m' = m_output m →
     roots_head (m_state m') = roots_head (m_state m) →
     cells (m_state m') = <[cont_stack := p]> (cells (m_state m)) →
     cont_entries (m_state m') p ((f, dd) :: ks) bottom →
     returns (k m') Q) →
  returns (r ← do_create_function env fuel f d m;
           m1 ← do_push_cont env fuel r.1 r.2;
           k m1) Q.
Proof.
  intros Hg Hd Hpc Hks Hdd Hk.
  eapply returns_bind;
    [by apply (do_create_function_spec env fuel nil_value env_ok m objs)|].
  intros [fn m1] (Ho1 & _ & Hfn & Hcells1 & objs1 & Hgr1 & Hd1 & Hg1).
  cbn [fst snd] in *.
  eapply returns_bind;
    [apply (do_push_cont_spec env fuel nil_value env_ok m1 (fn :: objs1));
     [done|by left]|].
  intros m2 (Ho2 & _ & p & old & objs2 & Hold & Hcells2 & Hp & Hgr2 & Hfn2 & Hold2
             & Hg2).
  assert (old = pc) as -> by (rewrite Hcells1 in Hold; congruence).
  destruct (grown_is_function _ _ _ _ _ _ _ _ (proj1 Hg1) Hgr2 Hfn2 Hfn)
    as (Hfn' & Hd2).
  destruct (grown_rooted _ _ _ _ _ cont_stack pc Hgr1) as [_ Hpc1];
    [apply Hg|done|].
  apply (Hk m2 (p :: objs2) p); try done.
  - congruence.
  - by rewrite (gr_roots _ _ _ _ _ Hgr2), (gr_roots _ _ _ _ _ Hgr1).
  - by rewrite Hcells2, Hcells1.
  - exists fn, d, pc. split; [done|]. split; [done|]. split.
    + destruct dd as [[h t]|]; [|done].
      apply (grown_is_cons _ _ _ _ _ _ _ _ (proj1 Hg1) Hgr2 Hd2).
      by apply (grown_is_cons _ _ _ _ _ _ _ _ (proj1 Hg) Hgr1 Hd1).
    + apply (grown_cont_entries _ _ _ _ _ _ _ _ (proj1 Hg1) Hgr2 Hold2).
      by apply (grown_cont_entries _ _ _ _ _ _ _ _ (proj1 Hg) Hgr1 Hpc1).
Qed.

(** The evaluation of the cons of [h] and [t] is pushed on the continuation
    stack. *)
Lemma push_eval_run {B} m objs h t pc ks bottom
    (k : machine → result B) (Q : B → Prop) :
  globals nil_value (m_state m) objs → h ∈ objs → t ∈ objs →
  cells (m_state m) !! cont_stack = Some pc →
  cont_entries (m_state m) pc ks bottom →
  (∀ m' objs' p,
     globals nil_value (m_state m') objs' →
     m_output m' = m_output m →
     roots_head (m_state m') = roots_head (m_state m) →
     cells (m_state m') = <[cont_stack := p]> (cells (m_state m)) →
     cont_entries (m_state m') p ((eval, Some (h, t)) :: ks) bottom →
     returns (k m') Q) →
  returns (r0 ← do_create_cons env fuel h t m;
           r ← do_create_function env fuel eval r0.1 r0.2;
           m1 ← do_push_cont env fuel r.1 r.2;
           k m1) Q.
Proof.
  intros Hg Hh Ht Hpc Hks Hk.
  eapply returns_bind;
    [by apply (do_create_cons_spec env fuel nil_value env_ok m objs)|].
  intros [d m0] (Ho0 & _ & Hd & Hcells0 & objs0 & Hgr0 & Hh0 & Ht0 & Hg0).
  cbn [fst snd] in *.
  destruct (grown_rooted _ _ _ _ _ cont_stack pc Hgr0) as [_ Hpc0];
    [apply Hg|done|].
  apply (push_function_run m0 (d :: objs0) eval d (Some (h, t)) pc ks bottom);
    try done.
  - by left.
  - by rewrite Hcells0.
  - by apply (grown_cont_entries _ _ _ _ _ _ _ _ (proj1 Hg) Hgr0 Hpc0).
  - intros m' objs' p Hg' Ho' Hr' Hc' Hks'. apply (Hk m' objs' p); try done.
    + congruence.
    + by rewrite Hr', (gr_roots _ _ _ _ _ Hgr0).
    + by rewrite Hc', Hcells0.
Qed.

(** The second half of the case of an application in [eval], after the
    three locals have been pushed as roots. *)
Lemma eval_application_conts m objs envs f_expr arg_expr oldc c1 c2 c3 m1 m2 m3 :
  globals nil_value (m_state m) objs →
  envs ∈ objs → f_expr ∈ objs → arg_expr ∈ objs →
  cells (m_state m) !! cont_stack = Some oldc →
  m_output m1 = m_output m → cells (m_state m) !! c1 = None →
  m_state m1 = set_roots_head (enter_local c1 envs (m_state m))
                 (c1 :: roots_head (m_state m)) →
  globals nil_value (m_state m1) objs →
  m_output m2 = m_output m1 → cells (m_state m1) !! c2 = None →
  m_state m2 = set_roots_head (enter_local c2 f_expr (m_state m1))
                 (c2 :: roots_head (m_state m1)) →
  globals nil_value (m_state m2) objs →
  m_output m3 = m_output m2 → cells (m_state m2) !! c3 = None →
  m_state m3 = set_roots_head (enter_local c3 arg_expr (m_state m2))
                 (c3 :: roots_head (m_state m2)) →
  globals nil_value (m_state m3) objs →
  returns
    (r ← do_create_function env fuel pop_apply nil_value m3;
     m4 ← do_push_cont env fuel r.1 r.2;
     envs ← load_cell (m_state m4) c1;
     f_expr ← load_cell (m_state m4) c2;
     r0 ← do_create_cons env fuel envs f_expr m4;
     r ← do_create_function env fuel eval r0.1 r0.2;
     m5 ← do_push_cont env fuel r.1 r.2;
     envs ← load_cell (m_state m5) c1;
     arg_expr ← load_cell (m_state m5) c3;
     r0 ← do_create_cons env fuel envs arg_expr m5;
     r ← do_create_function env fuel eval r0.1 r0.2;
     m6 ← do_push_cont env fuel r.1 r.2;
     m7 ← do_pop_root_g m6;
     m8 ← do_pop_root_g m7;
     m9 ← do_pop_root_g m8;
     mret (do_leave c1 (do_leave c2 (do_leave c3 m9))))
    (λ m', m_output m' = m_output m ∧
           roots_head (m_state m') = roots_head (m_state m) ∧
           (∀ c, c ≠ cont_stack →
                 cells (m_state m') !! c = cells (m_state m) !! c) ∧
           ∃ p, cells (m_state m') !! cont_stack = Some p ∧
                cont_entries (m_state m') p
                  [(eval, Some (envs, arg_expr)); (eval, Some (envs, f_expr));
                   (pop_apply, None)] oldc).
Proof.
  intros Hg Hen Hfe Har Hcont Ho1 Hc1 Hs1 Hg1 Ho2 Hc2 Hs2 Hg2 Ho3 Hc3 Hs3 Hg3.
  destruct (globals_fresh _ _ _ c1 Hg Hc1) as (Hnr1 & Hc1n & Hc1os & Hc1cs).
  destruct (globals_fresh _ _ _ c2 Hg1 Hc2) as (Hnr2 & Hc2n & Hc2os & Hc2cs).
  destruct (globals_fresh _ _ _ c3 Hg2 Hc3) as (Hnr3 & Hc3n & Hc3os & Hc3cs).
  assert (roots_head (m_state m3)
          = c3 :: c2 :: c1 :: roots_head (m_state m)) as Hr3
    by by rewrite Hs3, Hs2, Hs1.
  assert (cells (m_state m3)
          = <[c3 := arg_expr]> (<[c2 := f_expr]> (<[c1 := envs]>
              (cells (m_state m))))) as Hcells3
    by by rewrite Hs3, Hs2, Hs1.
  assert (c2 ≠ c1) as H21.
  { intros ->. rewrite Hs1 in Hc2. cbn in Hc2. by rewrite lookup_insert_eq in Hc2. }
  assert (c3 ≠ c2) as H32.
  { intros ->. rewrite Hs2 in Hc3. cbn in Hc3. by rewrite lookup_insert_eq in Hc3. }
  assert (c3 ≠ c1) as H31.
  { intros ->. rewrite Hs2, Hs1 in Hc3. cbn in Hc3.
    rewrite lookup_insert_ne in Hc3 by done. by rewrite lookup_insert_eq in Hc3. }
  assert (cells (m_state m) !! c2 = None) as Hc2'.
  { rewrite Hs1 in Hc2. cbn in Hc2. by rewrite lookup_insert_ne in Hc2. }
  assert (cells (m_state m) !! c3 = None) as Hc3'.
  { rewrite Hs2, Hs1 in Hc3. cbn in Hc3.
    by rewrite !lookup_insert_ne in Hc3. }
  assert (∀ p, <[cont_stack := p]> (cells (m_state m3)) !! c1 = Some envs) as Hl1.
  { intros p. rewrite Hcells3, !lookup_insert_ne by done. apply lookup_insert_eq. }
  assert (∀ p, <[cont_stack := p]> (cells (m_state m3)) !! c2 = Some f_expr) as Hl2.
  { intros p. rewrite Hcells3, !lookup_insert_ne by done. apply lookup_insert_eq. }
  assert (∀ p, <[cont_stack := p]> (cells (m_state m3)) !! c3 = Some arg_expr)
    as Hl3.
  { intros p. rewrite Hcells3, lookup_insert_ne by done. apply lookup_insert_eq. }
  assert (∀ s objs' c v, heap_inv s objs' → c ∈ roots_head s →
                         cells s !! c = Some v → v ∈ objs') as Hroot.
  { intros s objs' c v Hi Hc Hv.
    destruct (heap_roots _ _ Hi c Hc) as (x & Hx & Hxo). congruence. }
  apply (push_function_run m3 objs pop_apply nil_value None oldc [] oldc);
    try done.
  { by eapply globals_nil. }
  { rewrite Hcells3, !lookup_insert_ne by done. done. }
  intros m4 objs4 p4 Hg4 Ho4 Hr4 Hcells4 Hks4.
  rewrite (load_cell_Some _ c1 envs) by (rewrite Hcells4; apply Hl1). cbn.
  rewrite (load_cell_Some _ c2 f_expr) by (rewrite Hcells4; apply Hl2). cbn.
  apply (push_eval_run m4 objs4 envs f_expr p4 [(pop_apply, None)] oldc);
    try done.
  { apply (Hroot (m_state m4) objs4 c1); [apply Hg4| |].
    - rewrite Hr4, Hr3. do 2 right. by left.
    - rewrite Hcells4. apply Hl1. }
  { apply (Hroot (m_state m4) objs4 c2); [apply Hg4| |].
    - rewrite Hr4, Hr3. right. by left.
    - rewrite Hcells4. apply Hl2. }
  { rewrite Hcells4. apply lookup_insert_eq. }
  intros m5 objs5 p5 Hg5 Ho5 Hr5 Hcells5 Hks5.
  rewrite Hcells4, insert_insert_eq in Hcells5.
  rewrite (load_cell_Some _ c1 envs) by (rewrite Hcells5; apply Hl1). cbn.
  rewrite (load_cell_Some _ c3 arg_expr) by (rewrite Hcells5; apply Hl3). cbn.
  apply (push_eval_run m5 objs5 envs arg_expr p5
           [(eval, Some (envs, f_expr)); (pop_apply, None)] oldc); try done.
  { apply (Hroot (m_state m5) objs5 c1); [apply Hg5| |].
    - rewrite Hr5, Hr4, Hr3. do 2 right. by left.
    - rewrite Hcells5. apply Hl1. }
  { apply (Hroot (m_state m5) objs5 c3); [apply Hg5| |].
    - rewrite Hr5, Hr4, Hr3. by left.
    - rewrite Hcells5. apply Hl3. }
  { rewrite Hcells5. apply lookup_insert_eq. }
  intros m6 objs6 p6 Hg6 Ho6 Hr6 Hcells6 Hks6.
  rewrite Hcells5, insert_insert_eq in Hcells6.
  assert (roots_head (m_state m6)
          = c3 :: c2 :: c1 :: roots_head (m_state m)) as Hr6'
    by by rewrite Hr6, Hr5, Hr4.
  destruct Hg as (Hinv & Hnr & Hnv & Hos & Hcs).
  eapply returns_bind;
    [apply (do_pop_root_g_spec nil_value m6 objs6 _ _ Hg6 Hr6');
     by do 2 right|].
  intros m7 (Ho7 & _ & Hs7 & Hg7).
  eapply returns_bind;
    [apply (do_pop_root_g_spec nil_value m7 objs6 c2
              (c1 :: roots_head (m_state m)) Hg7); [by rewrite Hs7|..];
     by right|].
  intros m8 (Ho8 & _ & Hs8 & Hg8).
  eapply returns_bind;
    [apply (do_pop_root_g_spec nil_value m8 objs6 c1
              (roots_head (m_state m)) Hg8); [by rewrite Hs8|..]; done|].
  intros m9 (Ho9 & _ & Hs9 & Hg9). cbn.
  set (m' := do_leave c1 _).
  assert (mem (m_state m') = mem (m_state m6)) as Hmem'
    by (unfold m', do_leave; cbn; by rewrite Hs9, Hs8, Hs7).
  assert (cells (m_state m')
          = delete c1 (delete c2 (delete c3 (cells (m_state m6))))) as Hcells'
    by (unfold m', do_leave; cbn; by rewrite Hs9, Hs8, Hs7).
  split_and!.
  - unfold m', do_leave. cbn. congruence.
  - unfold m', do_leave. cbn. by rewrite Hs9.
  - intros c Hcs'. rewrite Hcells'.
    destruct (decide (c = c1)) as [->|Hn1]; [by rewrite lookup_delete_eq|].
    rewrite lookup_delete_ne by done.
    destruct (decide (c = c2)) as [->|Hn2]; [by rewrite lookup_delete_eq|].
    rewrite lookup_delete_ne by done.
    destruct (decide (c = c3)) as [->|Hn3]; [by rewrite lookup_delete_eq|].
    rewrite lookup_delete_ne, Hcells6, lookup_insert_ne by done.
    by rewrite Hcells3, !lookup_insert_ne by done.
  - exists p6. split.
    + rewrite Hcells', !lookup_delete_ne, Hcells6 by done. apply lookup_insert_eq.
    + by apply (cont_entries_mem (m_state m6) _ p6
                  [(eval, Some (envs, arg_expr)); (eval, Some (envs, f_expr));
                   (pop_apply, None)] oldc).
Qed.

(** An application: the evaluation of the argument, the evaluation of the
    function and the call are put on the continuation stack, the first on
    top. *)
Lemma eval_application_result (apply : Z → machine → result machine) m objs data
    envs expr forms env0 f_expr arg_expr oldc :
  globals nil_value (m_state m) objs → data ∈ objs →
  is_cons (m_state m) data envs expr → is_cons (m_state m) envs forms env0 →
  is_cons (m_state m) expr f_expr arg_expr →
  ((∃ o, mem (m_state m) !! f_expr = Some o ∧ class o ≠ atom_class) ∨
   (∃ cs es, is_atom (m_state m) f_expr cs ∧
             map_entries nil_value (m_state m) forms es ∧
             (length es < fuel)%nat ∧ entries_lookup cs es = None)) →
  cells (m_state m) !! cont_stack = Some oldc →
  returns (eval_body env fuel nil_value apply data m)
    (λ m', m_output m' = m_output m ∧
           roots_head (m_state m') = roots_head (m_state m) ∧
           (∀ c, c ≠ cont_stack →
                 cells (m_state m') !! c = cells (m_state m) !! c) ∧
           ∃ p, cells (m_state m') !! cont_stack = Some p ∧
                cont_entries (m_state m') p
                  [(eval, Some (envs, arg_expr)); (eval, Some (envs, f_expr));
                   (pop_apply, None)] oldc).
Proof.
  intros Hg Hd Hdata Henvs Hexpr Hnf Hcont.
  pose proof Hg as (Hinv & Hnr & Hnv & Hos & Hcs).
  destruct (is_cons_elems _ _ _ _ _ Hinv Hd Hdata) as [Hen Hex].
  destruct (is_cons_elems _ _ _ _ _ Hinv Hex Hexpr) as [Hfe Har].
  unfold eval_body.
  rewrite (destruct_cons_is_cons _ _ _ _ Hdata). cbn.
  rewrite (destruct_cons_is_cons _ _ _ _ Henvs). cbn.
  rewrite (is_cons_class _ _ _ _ Hexpr). cbn.
  rewrite (decide_False (P := cons_class = atom_class)) by done.
  rewrite (decide_True (P := cons_class = cons_class)) by done.
  rewrite (destruct_cons_is_cons _ _ _ _ Hexpr). cbn.
  destruct Hnf as [(o & Ho & Hc)|(cs & es & Hf & Hes & Hfuel & Hl)];
    [unfold object_get_class, load; rewrite Ho; cbn;
     rewrite bool_decide_eq_false_2 by done; cbn
    |rewrite (is_atom_class _ _ _ Hf); cbn;
     rewrite (bool_decide_eq_true_2 (atom_class = atom_class)) by done;
     rewrite (assoc_entries nil_value fuel f_expr cs forms _ es Hf Hes Hfuel), Hl;
     cbn; rewrite bool_decide_eq_false_2 by (intros H; by apply H)].
  all: eapply returns_bind;
    [by apply (do_push_root_g_spec env nil_value env_ok m objs)|];
    intros [c1 m1] (Ho1 & _ & Hc1 & Hs1 & Hg1); cbn [fst snd] in *;
    destruct (globals_fresh _ _ _ c1 Hg Hc1) as (Hnr1 & Hc1n & Hc1os & Hc1cs);
    eapply returns_bind;
    [by apply (do_push_root_g_spec env nil_value env_ok m1 objs)|];
    intros [c2 m2] (Ho2 & _ & Hc2 & Hs2 & Hg2); cbn [fst snd] in *;
    destruct (globals_fresh _ _ _ c2 Hg1 Hc2) as (Hnr2 & Hc2n & Hc2os & Hc2cs);
    eapply returns_bind;
    [by apply (do_push_root_g_spec env nil_value env_ok m2 objs)|];
    intros [c3 m3] (Ho3 & _ & Hc3 & Hs3 & Hg3); cbn [fst snd] in *;
    destruct (globals_fresh _ _ _ c3 Hg2 Hc3) as (Hnr3 & Hc3n & Hc3os & Hc3cs);
    rewrite (proj1 (do_create_nil_spec nil_value m3 objs Hg3)); cbn;
    apply (eval_application_conts m objs envs f_expr arg_expr oldc
             c1 c2 c3 m1 m2 m3); done.
Qed.

End run_conts.

(** ** What the interpreter does *)



(** X21.  A round of the loop of [main] is memory safe and keeps the
    invariant.  For any expression of the heap that [parse] may have
    returned, with the local [envs] on the root stack: pushing the evaluation
    of the expression, running the continuations until the stack is empty
    and popping the result never goes wrong, and the [globals] invariant
    holds again with the same root stack, so the next round can start. *)
Theorem main_round_keeps_globals env fuel nil_value n c_envs expr m objs :
  (∀ k s, site_ok s (env k s)) →
  globals nil_value (m_state m) objs → c_envs ∈ roots_head (m_state m) →
  expr ∈ objs →
  returns (main_round env fuel nil_value n c_envs expr m)
    (λ m', ∃ objs', globals nil_value (m_state m') objs' ∧
                    roots_head (m_state m') = roots_head (m_state m)).
Proof.
  intros Henv Hg Hc He.
  by apply (main_round_safe env fuel nil_value Henv n c_envs expr m objs).
Qed.

Lemma main_round_keeps_globals_witness :
  globals 1 (interp_state 1) interp_objs ∧
  stack_var 0 ∈ roots_head (interp_state 1) ∧ 27 ∈ interp_objs ∧
  ∃ m', main_round bump_env 40 1 20 (stack_var 0) 27 (interp_machine 1) = Ok m' ∧
        ∃ objs', globals 1 (m_state m') objs' ∧
                 roots_head (m_state m') = roots_head (interp_state 1).
Proof.
  assert (1 ∈ interp_objs) as H1 by (apply interp_elem; lia).
  assert (27 ∈ interp_objs) as H27 by (apply interp_elem; lia).
  assert (stack_var 0 ∈ roots_head (interp_state 1)) as Hc by (cbn; elem_solve).
  pose proof (main_round_keeps_globals bump_env 40 1 20 (stack_var 0) 27
                (interp_machine 1) interp_objs bump_env_ok
                (interp_globals 1 H1) Hc H27) as H.
  assert (∃ m', main_round bump_env 40 1 20 (stack_var 0) 27 (interp_machine 1)
                = Ok m') as [m' E] by (eexists; vm_compute; reflexivity).
  rewrite E in H.
  split; [by apply interp_globals|]. split; [exact Hc|]. split; [exact H27|].
  exists m'. split; [exact E|exact H].
Defined.



(** X23.  [eval] of an unbound variable is an error.  If the expression is
    an atom for whose characters the environment has no binding, [eval]
    leaves through [error] and the process exits; nothing is pushed. *)
Theorem eval_unbound_variable env fuel nil_value (apply : Z → machine → result machine)
    m objs data envs expr forms env0 cs es :
  (∀ k s, site_ok s (env k s)) →
  globals nil_value (m_state m) objs → data ∈ objs →
  is_cons (m_state m) data envs expr → is_cons (m_state m) envs forms env0 →
  is_atom (m_state m) expr cs → map_entries nil_value (m_state m) env0 es →
  (length es < fuel)%nat → entries_lookup cs es = None →
  eval_body env fuel nil_value apply data m = Exit.
Proof.
  intros Henv Hg Hd Hdata Henvs Hexpr Hes Hfuel Hl.
  pose proof (eval_atom_result env fuel nil_value Henv apply m objs data envs expr
                forms env0 cs es Hg Hd Hdata Henvs Hexpr Hes Hfuel) as H.
  by rewrite Hl in H.
Qed.

Lemma eval_unbound_variable_witness :
  let s := interp_state 1 in
  globals 1 s interp_objs ∧ 24 ∈ interp_objs ∧
  is_cons s 24 14 16 ∧ is_cons s 14 9 13 ∧ is_atom s 16 "hello" ∧
  map_entries 1 s 13 [("print_atom"%string, 11)] ∧
  entries_lookup "hello" [("print_atom"%string, 11)] = None ∧
  eval_body bump_env 40 1 (apply bump_env 40 1 0) 24 (interp_machine 1) = Exit.
Proof.
  intros s.
  assert (1 ∈ interp_objs) as H1 by (apply interp_elem; lia).
  assert (24 ∈ interp_objs) as H24 by (apply interp_elem; lia).
  assert (is_cons s 24 14 16) as Hdata by (by eexists _, _, _).
  assert (is_cons s 14 9 13) as Henvs by (by eexists _, _, _).
  assert (is_atom s 16 "hello") as Hexpr by (by eexists _, _).
  assert ((length [("print_atom"%string, 11)] < 40)%nat) as Hfuel by (cbn; lia).
  split; [by apply interp_globals|]. split; [exact H24|]. split; [exact Hdata|].
  split; [exact Henvs|]. split; [exact Hexpr|]. split; [apply interp_env|].
  split; [reflexivity|].
  exact (eval_unbound_variable bump_env 40 1 (apply bump_env 40 1 0)
           (interp_machine 1) interp_objs 24 14 16 9 13 "hello"
           [("print_atom"%string, 11)] bump_env_ok
           (interp_globals 1 H1) H24 Hdata Henvs Hexpr (interp_env 1) Hfuel
           eq_refl).
Defined.














